(** * Stencil convolution of vexcl (vexcl/stencil.hpp)

    A shallow embedding of the host code of [stencil_base], [stencil],
    [conv], [multiconv] and [StencilOperator], and of the OpenCL kernels
    that [stencil::slow_conv], [stencil::fast_conv] and
    [StencilOperator::convolve] generate, followed by the properties of the
    specification that concern them.

    Conventions of the embedding:
    - machine integers are values of [Z]; every arithmetic operation the
      source performs in a fixed-width type is followed by the wrap-around
      of that type ([u32], [s32], [u64], [s64]).  The host is LP64
      ([unsigned]/[int] have 32 bits, [size_t] has 64) and the kernel
      parameters declared [size_t]/[ptrdiff_t] are OpenCL [ulong]/[long];
    - buffers (host vectors, device buffers, local memory) are lists; an
      access outside a buffer is a fault, [None];
    - the memory of the host is a parameter: [host_alloc count] tells
      whether a [std::vector<T>] of [count] elements can be allocated;
    - the element type [T] of the templates is a type class [Scalar] that
      only names the operations the code uses; no algebraic law is assumed,
      so every result also holds for floating-point elements. *)

From stdpp Require Import base option list numbers.

Local Open Scope Z_scope.

(** ** Fixed-width integers *)

Definition wrap_unsigned (bits z : Z) : Z := z mod 2 ^ bits.

Definition wrap_signed (bits z : Z) : Z :=
  (z + 2 ^ (bits - 1)) mod 2 ^ bits - 2 ^ (bits - 1).

Definition u32 : Z → Z := wrap_unsigned 32.
Definition s32 : Z → Z := wrap_signed 32.
Definition u64 : Z → Z := wrap_unsigned 64.
Definition s64 : Z → Z := wrap_signed 64.

Definition INT_MAX : Z := 2 ^ 31 - 1.
Definition UINT_MAX : Z := 2 ^ 32 - 1.

(** ** The element type *)

(** [T] of [template <typename T>]: the constants and operators that
    stencil.hpp and the generated kernels apply to elements. *)
Class Scalar (T : Type) := {
  sc_zero : T;                (* the literal 0 converted to T *)
  sc_one : T;                 (* the literal 1 converted to T *)
  sc_add : T → T → T;         (* a + b *)
  sc_mul : T → T → T;         (* a * b *)
  sc_neg : T → T;             (* -a *)
  sc_true : T → bool;         (* the condition [if (a)], that is a != 0 *)
  sc_sizeof : Z;              (* sizeof(T) *)
}.

(** [T = int]: 32-bit two's complement integers. *)
Global Instance int_scalar : Scalar Z := {|
  sc_zero := 0;
  sc_one := 1;
  sc_add a b := s32 (a + b);
  sc_mul a b := s32 (a * b);
  sc_neg a := s32 (- a);
  sc_true a := negb (a =? 0);
  sc_sizeof := 4;
|}.

(** ** Buffers *)

Section Buffers.
Context {A : Type}.

(** [buf[i]] as an rvalue. *)
Definition load (buf : list A) (i : Z) : option A :=
  if decide (0 ≤ i) then buf !! Z.to_nat i else None.

(** [buf[i] = v]. *)
Definition store (buf : list A) (i : Z) (v : A) : option (list A) :=
  if decide (0 ≤ i < Z.of_nat (length buf))
  then Some (<[Z.to_nat i := v]> buf) else None.

(** Copy of [vs] to [buf[off .. off + |vs|)]. *)
Definition write_at (buf : list A) (off : Z) (vs : list A) : option (list A) :=
  if decide (0 ≤ off ∧ off + Z.of_nat (length vs) ≤ Z.of_nat (length buf))
  then Some (list_inserts (Z.to_nat off) vs buf) else None.

(** [buf[off .. off + len)]. *)
Definition slice (buf : list A) (off len : Z) : option (list A) :=
  if decide (0 ≤ off ∧ 0 ≤ len ∧ off + len ≤ Z.of_nat (length buf))
  then Some (take (Z.to_nat len) (drop (Z.to_nat off) buf)) else None.

(** [std::fill(&buf[first], &buf[last], v)]. *)
Definition fill (buf : list A) (first last : Z) (v : A) : option (list A) :=
  if decide (first ≤ last)
  then write_at buf first (replicate (Z.to_nat (last - first)) v)
  else None.

(** A loop over the elements of [xs] that threads a state and stops at
    the first fault. *)
Fixpoint for_each {St : Type} (xs : list A) (body : St → A → option St)
    (s : St) : option St :=
  match xs with
  | [] => Some s
  | x :: xs' => s' ← body s x; for_each xs' body s'
  end.
End Buffers.

(** ** The generated kernels *)

Section Kernels.
Context {T : Type} `{Scalar T}.

(** [read_x], the function that [detail::define_read_x] emits. *)
Definition read_x (g_id n : Z) (has_left has_right : bool) (lhalo rhalo : Z)
    (xloc xrem : list T) : option T :=
  if (0 <=? g_id) && (u64 g_id <? n) then
    load xloc g_id
  else if g_id <? 0 then
    if has_left then
      if 0 <=? s64 (lhalo + g_id) then load xrem (s64 (lhalo + g_id))
      else Some sc_zero
    else load xloc 0
  else
    if has_right then
      if u64 g_id <? u64 (n + rhalo) then load xrem (u64 (lhalo + g_id - n))
      else Some sc_zero
    else load xloc (u64 (n - 1)).

(** [for(int j = -lhalo; j <= rhalo; j++) sum += term(j);] with [cnt] the
    number of iterations left. *)
Fixpoint sum_loop (cnt : nat) (j : Z) (sum : T) (term : Z → option T)
  : option T :=
  match cnt with
  | O => Some sum
  | S cnt' => t ← term j; sum_loop cnt' (s32 (j + 1)) (sc_add sum t) term
  end.

Definition stencil_sum (lhalo rhalo : Z) (term : Z → option T) : option T :=
  sum_loop (Z.to_nat (rhalo - s32 (- lhalo) + 1)) (s32 (- lhalo)) sc_zero term.

(** [if (alpha) y[i] = alpha * y[i] + beta * sum; else y[i] = beta * sum;] *)
Definition write_back (alpha beta : T) (y : list T) (i : Z) (sum : T)
  : option (list T) :=
  if sc_true alpha then
    yi ← load y i; store y i (sc_add (sc_mul alpha yi) (sc_mul beta sum))
  else store y i (sc_mul beta sum).

(** The arguments that [stencil::convolve] pushes, apart from [y]. *)
Record kernel_args := {
  ka_n : Z;
  ka_has_left : bool;
  ka_has_right : bool;
  ka_lhalo : Z;
  ka_rhalo : Z;
  ka_s : list T;
  ka_xloc : list T;
  ka_xrem : list T;
  ka_alpha : T;
  ka_beta : T;
}.

Definition kread (a : kernel_args) (g_id : Z) : option T :=
  read_x g_id (ka_n a) (ka_has_left a) (ka_has_right a)
         (ka_lhalo a) (ka_rhalo a) (ka_xloc a) (ka_xrem a).

(** The value of [sum] after the inner loop of [slow_conv] at the output
    index [idx]. *)
Definition slow_sum (a : kernel_args) (idx : Z) : option T :=
  stencil_sum (ka_lhalo a) (ka_rhalo a) (λ j,
    c ← load (ka_s a) (s32 (ka_lhalo a + j));
    v ← kread a (s64 (s64 idx + j));
    Some (sc_mul c v)).

(** One trip of the loop of [slow_conv] for the output index [idx]. *)
Definition slow_item (a : kernel_args) (y : list T) (idx : Z) : option (list T) :=
  sum ← slow_sum a idx;
  write_back (ka_alpha a) (ka_beta a) y idx sum.

(** Modelled from the spec: [source_generator::grid_stride_loop] is not in
    the sources; by 6 it emits "a parallel loop over all output indices,
    with grid-stride re-entry for oversubscribed input sizes", so the body
    runs once for every [idx] of [0 .. n). *)
Definition grid_stride_loop (n : Z) (body : list T → Z → option (list T))
    (y : list T) : option (list T) :=
  for_each (seqZ 0 n) body y.

(** The kernel [slow_conv]. *)
Definition slow_conv (a : kernel_args) (y : list T) : option (list T) :=
  grid_stride_loop (ka_n a) (slow_item a) y.

(** Modelled from the spec: the launch geometry belongs to
    [backend::kernel], which is not in the sources; a kernel runs as
    [num_groups] work-groups of [local_size] work-items.  Work-groups are
    run one after the other, and inside a group the work-items run one
    after the other between two barriers. *)
Record launch := { num_groups : Z; local_size : Z }.

(** [get_global_size(0)]. *)
Definition global_size (g : launch) : Z := u64 (num_groups g * local_size g).

(** [for(int i = l_id, j = g_id - lhalo; i < block_size + lhalo + rhalo;
         i += block_size, j += block_size) X[i] = read_x(j, ...);]
    of one work-item; [fuel] bounds the number of trips. *)
Fixpoint load_tile (fuel : nat) (a : kernel_args) (block_size i j : Z)
    (X : list T) : option (list T) :=
  match fuel with
  | O => None
  | S fuel' =>
      if i <? s32 (s32 (block_size + ka_lhalo a) + ka_rhalo a) then
        v ← kread a j;
        X' ← store X i v;
        load_tile fuel' a block_size (s32 (i + block_size))
                  (s32 (j + block_size)) X'
      else Some X
  end.

(** The part of [fast_conv] between the two barriers, for the work-item
    with local id [l_id] and global index [g_id]. *)
Definition fast_item (a : kernel_args) (Sl Xl : list T) (l_id g_id : Z)
    (y : list T) : option (list T) :=
  if u64 g_id <? ka_n a then
    sum ← stencil_sum (ka_lhalo a) (ka_rhalo a) (λ j,
             c ← load Sl (s32 (ka_lhalo a + j));
             v ← load Xl (s32 (s32 (ka_lhalo a + l_id) + j));
             Some (sc_mul c v));
    write_back (ka_alpha a) (ka_beta a) y g_id sum
  else Some y.

(** One trip of the outer loop of [fast_conv] in work-group [grp]: every
    work-item fills its share of the tile, barrier, every work-item
    computes its output, barrier.  [g_id] and [pos] start at
    [get_global_id(0)] and 0 and advance by [grid_size] together, so
    [g_id] is [get_global_id(0) + pos] in every trip. *)
Definition group_trip (g : launch) (a : kernel_args) (grp pos : Z)
    (Sl : list T) (Xy : list T * list T) : option (list T * list T) :=
  let block_size := s32 (local_size g) in
  let g_id l := s64 (u64 (grp * local_size g + l) + pos) in
  X' ← for_each (seqZ 0 (local_size g)) (λ X l,
          load_tile (S (length X)) a block_size (s32 l)
                    (s32 (s64 (g_id l - ka_lhalo a))) X) Xy.1;
  y' ← for_each (seqZ 0 (local_size g)) (λ y l,
          fast_item a Sl X' (s32 l) (g_id l) y) Xy.2;
  Some (X', y').

(** [for(long g_id = get_global_id(0), pos = 0; pos < n;
         g_id += grid_size, pos += grid_size) { ... }] for one work-group. *)
Fixpoint group_loop (fuel : nat) (g : launch) (a : kernel_args) (grp pos : Z)
    (Sl : list T) (Xy : list T * list T) : option (list T * list T) :=
  match fuel with
  | O => None
  | S fuel' =>
      if u64 pos <? ka_n a then
        Xy' ← group_trip g a grp pos Sl Xy;
        group_loop fuel' g a grp (s64 (u64 pos + global_size g)) Sl Xy'
      else Some Xy
  end.

(** The kernel [fast_conv]; [S0] and [X0] are the two local-memory blocks
    as the work-group finds them. *)
Definition fast_conv (g : launch) (a : kernel_args) (S0 X0 : list T)
    (y : list T) : option (list T) :=
  for_each (seqZ 0 (num_groups g)) (λ y grp,
    coeffs ← slice (ka_s a) 0 (s32 (s32 (ka_lhalo a + ka_rhalo a) + 1));
    Sl ← write_at S0 0 coeffs;
    Xy ← group_loop (S (Z.to_nat (ka_n a))) g a grp 0 Sl (X0, y);
    Some Xy.2) y.

(** *** What a launch may assume, and what it must deliver *)

(** The arguments of a launch are well formed: a non-empty partition, halo
    widths that are not negative, a coefficient buffer of [lhalo + rhalo + 1]
    elements, an input buffer of [n] elements and a halo buffer of
    [lhalo + rhalo] elements, all indices within [long]. *)
Definition args_ok (a : kernel_args) : Prop :=
  0 < ka_n a ∧ 0 ≤ ka_lhalo a ∧ 0 ≤ ka_rhalo a ∧
  ka_lhalo a + ka_rhalo a < INT_MAX ∧
  ka_n a + ka_rhalo a < 2 ^ 63 ∧
  Z.of_nat (length (ka_xloc a)) = ka_n a ∧
  ka_lhalo a + ka_rhalo a + 1 ≤ Z.of_nat (length (ka_s a)) ∧
  ka_lhalo a + ka_rhalo a ≤ Z.of_nat (length (ka_xrem a)).

(** The geometry of a launch of [fast_conv] fits the kernel: both tiles fit
    their local-memory blocks and every index the kernel keeps in an [int]
    fits an [int]. *)
Definition launch_ok (g : launch) (a : kernel_args) (S0 X0 : list T) : Prop :=
  0 < num_groups g ∧ 0 < local_size g ∧
  ka_n a + (num_groups g + 1) * local_size g + ka_lhalo a + ka_rhalo a ≤ INT_MAX ∧
  ka_lhalo a + ka_rhalo a + 1 ≤ Z.of_nat (length S0) ∧
  local_size g + ka_lhalo a + ka_rhalo a ≤ Z.of_nat (length X0).

(** The accumulation contract in the words of the specification:
    [alpha * y + beta * sum], and [beta * sum] alone when [alpha] is zero. *)
Definition accumulate (alpha beta y_old sum : T) : T :=
  if sc_true alpha then sc_add (sc_mul alpha y_old) (sc_mul beta sum)
  else sc_mul beta sum.

(** The read policy of 4.1 in the words of the specification, on
    mathematical indices: the local element inside the partition; to the
    left, the halo element at [lhalo + g_id], zero when that index is
    negative, the first local element when there is no left neighbour; to
    the right, the halo element at [lhalo + g_id - n], zero at
    [n + rhalo] and beyond, the last local element when there is no right
    neighbour. *)
Definition read_policy (a : kernel_args) (g_id : Z) : option T :=
  if decide (0 ≤ g_id < ka_n a) then load (ka_xloc a) g_id
  else if decide (g_id < 0) then
    if ka_has_left a then
      if decide (0 ≤ ka_lhalo a + g_id) then load (ka_xrem a) (ka_lhalo a + g_id)
      else Some sc_zero
    else load (ka_xloc a) 0
  else
    if ka_has_right a then
      if decide (g_id < ka_n a + ka_rhalo a)
      then load (ka_xrem a) (ka_lhalo a + g_id - ka_n a)
      else Some sc_zero
    else load (ka_xloc a) (ka_n a - 1).

(** The convolution at the output index [i] in the words of the
    specification: the sum over [j] from [-lhalo] to [rhalo] of
    [s[lhalo + j] * read(i + j)], added up from the left. *)
Definition conv_term (a : kernel_args) (i j : Z) : option T :=
  c ← load (ka_s a) (ka_lhalo a + j);
  v ← read_policy a (i + j);
  Some (sc_mul c v).

Definition add_term (term : Z → option T) (acc : option T) (j : Z) : option T :=
  sum ← acc; t ← term j; Some (sc_add sum t).

Definition stencil_conv (a : kernel_args) (i : Z) : option T :=
  foldl (add_term (conv_term a i)) (Some sc_zero)
        (seqZ (- ka_lhalo a) (ka_lhalo a + ka_rhalo a + 1)).

(** The element [k] of the output of a launch over [y], by the contract. *)
Definition contract_at (a : kernel_args) (y : list T) (k : Z) : option T :=
  sum ← stencil_conv a k;
  y_old ← load y k;
  Some (accumulate (ka_alpha a) (ka_beta a) y_old sum).

(** [y'] is [y] with the elements of [0 .. n) replaced as the contract
    says. *)
Definition contract (a : kernel_args) (y y' : list T) : Prop :=
  ∀ k, load y' k = if decide (0 ≤ k < ka_n a) then contract_at a y k else load y k.

(** The state of [y] in the middle of a launch: the elements picked out by
    [P] are done, the others are as they were. *)
Definition done_on (a : kernel_args) (P : Z → Prop) (y t : list T) : Prop :=
  length t = length y ∧
  ∀ k, (P k → load t k = contract_at a y k) ∧ (¬ P k → load t k = load y k).
End Kernels.

Global Arguments kernel_args : clear implicits.

(** ** The host side *)

(** A compute device behind a [cl::CommandQueue]. *)
Record device := {
  is_cpu : bool;            (* [is_cpu(device)] *)
  workgroup_size : Z;       (* [workgroup_size()] of a kernel built for it *)
  launch_groups : Z;        (* work-groups per launch of a kernel on it *)
}.

(** The two kernels a [stencil] can hold for a device. *)
Inductive strategy := SlowConv | FastConv.

Global Instance strategy_eq_dec : EqDecision strategy.
Proof. solve_decision. Defined.

(** The five assertions of the constructor of [stencil_base]. *)
Inductive assertion :=
  | AssertQueue        (* assert(queue.size()) *)
  | AssertLhalo        (* assert(lhalo >= 0) *)
  | AssertRhalo        (* assert(rhalo >= 0) *)
  | AssertWidth        (* assert(width) *)
  | AssertCenter.      (* assert(center < width) *)

(** A constructor returns the object, dies in an assertion, or is left by
    the exception of a member initialiser that found no memory
    ([std::bad_alloc] or [std::length_error] from [std::vector]). *)
Inductive constructed (A : Type) :=
  | Built (a : A)
  | Aborted (which : assertion)
  | Threw.
Arguments Built {A} a.
Arguments Aborted {A} which.
Arguments Threw {A}.

(** What the host asks of the devices, in program order. *)
Inductive event :=
  | EvReadData (start size dst : Z)  (* x.read_data(start, size, &hbuf[dst]) *)
  | EvReadElem (i : Z)               (* static_cast<T>(x[i]) *)
  | EvFill (first last : Z)          (* std::fill on hbuf[first .. last) *)
  | EvUpload (d : Z)                 (* enqueueWriteBuffer(dbuf[d], ...) *)
  | EvFinish (d : Z).                (* queue[d].finish() *)

Section Host.
Context {T : Type} `{Scalar T}.

(** Contents of memory that was allocated and never written (device
    buffers from [cl::Buffer], local memory from [vex::Local]). *)
Variable uninit : nat → T.

(** Whether the host has the memory for a [std::vector<T>] of [count]
    elements; the constructor of the vector throws where it has not. *)
Variable host_alloc : Z → bool.

Definition fresh (count : Z) : list T := uninit <$> seq 0 (Z.to_nat count).

(** *** The vector collaborator *)

(** A [vex::vector<T>] is modelled by the list of the contents of its
    partitions, one per device. *)
Local Abbreviation vector := (list (list T)).

(** Modelled from the spec: [vex::vector<T>] (vexcl/vector.hpp) is not in
    the sources.  By 2 and 6 it "splits the global index range into
    ordered, contiguous, non-overlapping partitions, one per device" and
    exposes the start offset and size of a partition, its device buffer,
    the total length and a read of a range of global indices.  The total
    length: *)
Definition vec_size (x : vector) : Z := Z.of_nat (length (concat x)).

(** Modelled from the spec: [x.part_size(d)] of [vex::vector<T>], the
    number of elements of partition [d]. *)
Definition part_size (x : vector) (d : Z) : Z :=
  Z.of_nat (length (default [] (x !! Z.to_nat d))).

(** Modelled from the spec: [x.part_start(d)] of [vex::vector<T>], the
    global index of the first element of partition [d]. *)
Definition part_start (x : vector) (d : Z) : Z :=
  Z.of_nat (length (concat (take (Z.to_nat d) x))).

(** Modelled from the spec: [x.read_data(start, size, ...)] of
    [vex::vector<T>], the elements of the global range it delivers. *)
Definition read_data (x : vector) (start size : Z) : option (list T) :=
  slice (concat x) start size.

(** Modelled from the spec: [x[i]] of [vex::vector<T>], the element at
    the global index [i]. *)
Definition vec_elem (x : vector) (i : Z) : option T := load (concat x) i.

(** *** stencil_base *)

Record stencil_base := {
  queue : list device;
  hbuf : list T;
  dbuf : list (list T);
  s : list (list T);
  lhalo : Z;
  rhalo : Z;
}.

Definition nqueue (b : stencil_base) : Z := Z.of_nat (length (queue b)).

(** The constructor of [stencil_base]; [coeffs] is the range
    [begin .. end).  The member initialisers come first, then the
    assertions in the order of the source.  The initialiser
    [hbuf(queue.size() * (width - 1))] asks the host for a vector whose
    size depends on [width] ([width - 1] is computed in [unsigned]) and
    throws where the host cannot provide it; [dbuf(queue.size())] and
    [s(queue.size())] hold one handle per queue, as many as the vector
    [queue] that the caller holds already, and are taken to succeed. *)
Definition stencil_base_ctor (q : list device) (width center : Z)
    (coeffs : list T) : constructed stencil_base :=
  let nq := Z.of_nat (length q) in
  let lh := s32 center in
  let rh := s32 (u32 (u32 (width - center) - 1)) in
  if negb (host_alloc (u64 (nq * u32 (width - 1)))) then Threw
  else if nq =? 0 then Aborted AssertQueue
  else if negb (0 <=? lh) then Aborted AssertLhalo
  else if negb (0 <=? rh) then Aborted AssertRhalo
  else if width =? 0 then Aborted AssertWidth
  else if negb (center <? width) then Aborted AssertCenter
  else Built {|
    queue := q;
    hbuf := replicate (Z.to_nat (u64 (nq * u32 (width - 1)))) sc_zero;
    dbuf := (λ _, fresh width) <$> q;
    s := (λ _, coeffs) <$> q;
    lhalo := lh;
    rhalo := rh;
  |}.

(** The state that [exchange_halos] changes, with the trace of its
    requests. *)
Record halo_state := {
  hs_hbuf : list T;
  hs_dbuf : list (list T);
  hs_log : list event;
}.

Definition emit (e : event) (st : halo_state) : halo_state :=
  {| hs_hbuf := hs_hbuf st; hs_dbuf := hs_dbuf st; hs_log := hs_log st ++ [e] |}.

Definition set_hbuf (h : list T) (st : halo_state) : halo_state :=
  {| hs_hbuf := h; hs_dbuf := hs_dbuf st; hs_log := hs_log st |}.

Definition set_dbuf (db : list (list T)) (st : halo_state) : halo_state :=
  {| hs_hbuf := hs_hbuf st; hs_dbuf := db; hs_log := hs_log st |}.

(** [begin] and [size] of the range read from the left neighbour. *)
Definition left_range (b : stencil_base) (x : vector) (d : Z) : Z * Z :=
  let end_ := part_start x d in
  let begin := if u32 (lhalo b) <=? end_ then u64 (end_ - lhalo b) else 0 in
  (begin, u64 (end_ - begin)).

(** [begin] and [size] of the range read from the right neighbour. *)
Definition right_range (b : stencil_base) (x : vector) (d : Z) : Z * Z :=
  let begin := part_start x (u32 (d + 1)) in
  let end_ := Z.min (u64 (begin + rhalo b)) (vec_size x) in
  (begin, u64 (end_ - begin)).

Definition has_left_halo (b : stencil_base) (d : Z) : bool :=
  (0 <? d) && (0 <? lhalo b).

Definition has_right_halo (b : stencil_base) (d : Z) : bool :=
  (u32 (d + 1) <? nqueue b) && (0 <? rhalo b).

(** Body of the first loop of [exchange_halos]. *)
Definition read_step (b : stencil_base) (x : vector) (width : Z)
    (st : halo_state) (d : Z) : option halo_state :=
  if part_size x d =? 0 then Some st else
  st1 ← (if has_left_halo b d then
           let '(begin, size) := left_range b x d in
           let dst := u64 (u32 (u32 (d * width) + lhalo b) - size) in
           data ← read_data x begin size;
           h ← write_at (hs_hbuf st) dst data;
           Some (emit (EvReadData begin size dst) (set_hbuf h st))
         else Some st);
  if has_right_halo b d then
    let '(begin, size) := right_range b x d in
    let dst := u32 (u32 (d * width) + lhalo b) in
    data ← read_data x begin size;
    h ← write_at (hs_hbuf st1) dst data;
    Some (emit (EvReadData begin size dst) (set_hbuf h st1))
  else Some st1.

(** Body of the third loop of [exchange_halos]. *)
Definition write_step (b : stencil_base) (x : vector) (width : Z)
    (st : halo_state) (d : Z) : option halo_state :=
  if part_size x d =? 0 then Some st else
  st1 ← (if has_left_halo b d then
           let '(begin, size) := left_range b x d in
           let first := u32 (d * width) in
           let last := u64 (u32 (u32 (d * width) + lhalo b) - size) in
           if negb (size =? 0) then
             v ← load (hs_hbuf st) last;
             h ← fill (hs_hbuf st) first last v;
             Some (emit (EvFill first last) (set_hbuf h st))
           else
             v ← vec_elem x 0;
             h ← fill (hs_hbuf st) first last v;
             Some (emit (EvFill first last)
                        (emit (EvReadElem 0) (set_hbuf h st)))
         else Some st);
  st2 ← (if has_right_halo b d then
           let '(begin, size) := right_range b x d in
           let first := u64 (u32 (u32 (d * width) + lhalo b) + size) in
           let last := u32 (u32 (d + 1) * width) in
           if negb (size =? 0) then
             v ← load (hs_hbuf st1) (u64 (first - 1));
             h ← fill (hs_hbuf st1) first last v;
             Some (emit (EvFill first last) (set_hbuf h st1))
           else
             v ← vec_elem x (u64 (vec_size x - 1));
             h ← fill (hs_hbuf st1) first last v;
             Some (emit (EvFill first last)
                        (emit (EvReadElem (u64 (vec_size x - 1)))
                              (set_hbuf h st1)))
         else Some st1);
  if has_left_halo b d || has_right_halo b d then
    data ← slice (hs_hbuf st2) (u32 (d * width)) width;
    old ← hs_dbuf st2 !! Z.to_nat d;
    new ← write_at old 0 data;
    Some (emit (EvUpload d) (set_dbuf (<[Z.to_nat d := new]> (hs_dbuf st2)) st2))
  else Some st2.

(** [for(unsigned d = 0; d < queue.size(); d++) queue[d].finish();] *)
Definition finish_all (b : stencil_base) (st : halo_state) : halo_state :=
  {| hs_hbuf := hs_hbuf st; hs_dbuf := hs_dbuf st;
     hs_log := hs_log st ++ (EvFinish <$> seqZ 0 (nqueue b)) |}.

(** [stencil_base<T>::exchange_halos]: the new halo buffers and the trace
    of the requests made. *)
Definition exchange_halos (b : stencil_base) (x : vector)
  : option halo_state :=
  let width := s32 (lhalo b + rhalo b) in
  let st0 := {| hs_hbuf := hbuf b; hs_dbuf := dbuf b; hs_log := [] |} in
  if (nqueue b <=? 1) || (width <=? 0) then Some st0 else
  st1 ← for_each (seqZ 0 (nqueue b)) (read_step b x width) st0;
  st2 ← for_each (seqZ 0 (nqueue b)) (write_step b x width) (finish_all b st1);
  Some (finish_all b st2).

Definition with_halos (b : stencil_base) (st : halo_state) : stencil_base :=
  {| queue := queue b; hbuf := hs_hbuf st; dbuf := hs_dbuf st; s := s b;
     lhalo := lhalo b; rhalo := rhalo b |}.

(** *** stencil *)

(** [stencil<T>]: the base and, per device, the kernel chosen by [init]
    with the byte sizes of its two [cl::LocalSpaceArg]. *)
Record stencil := {
  base : stencil_base;
  st_conv : list strategy;
  st_loc_s : list Z;
  st_loc_x : list Z;
}.

(** Body of the loop of [stencil<T>::init] for one device. *)
Definition init_device (b : stencil_base) (width : Z) (dev : device)
  : strategy * (Z * Z) :=
  if is_cpu dev || (64 <? width) then (SlowConv, (1, 1))
  else (FastConv,
        (u64 (sc_sizeof * width),
         u64 (sc_sizeof * u64 (u64 (workgroup_size dev + lhalo b) + rhalo b)))).

Definition init (b : stencil_base) (width : Z) : stencil :=
  let choice := init_device b width <$> queue b in
  {| base := b;
     st_conv := fst <$> choice;
     st_loc_s := (λ c, c.2.1) <$> choice;
     st_loc_x := (λ c, c.2.2) <$> choice |}.

(** [stencil(queue, st, center)]. *)
Definition stencil_ctor (q : list device) (st : list T) (center : Z)
  : constructed stencil :=
  let width := u32 (Z.of_nat (length st)) in
  match stencil_base_ctor q width center st with
  | Built b => Built (init b width)
  | Aborted which => Aborted which
  | Threw => Threw
  end.

(** The local memory behind a [vex::Local(bytes)] argument. *)
Definition local_block (bytes : Z) : list T := fresh (bytes / sc_sizeof).

(** [conv[d](queue[d])] with the arguments pushed. *)
Definition run_kernel (k : strategy) (dev : device) (a : kernel_args T)
    (ls lx : Z) (y : list T) : option (list T) :=
  match k with
  | SlowConv => slow_conv a y
  | FastConv =>
      fast_conv {| num_groups := launch_groups dev;
                   local_size := workgroup_size dev |}
                a (local_block ls) (local_block lx) y
  end.

(** The arguments pushed for device [d]. *)
Definition pushed_args (st : stencil) (x : vector) (alpha beta : T) (d : Z)
    (sd xd xrem : list T) : kernel_args T :=
  {| ka_n := part_size x d;
     ka_has_left := 0 <? d;
     ka_has_right := u32 (d + 1) <? nqueue (base st);
     ka_lhalo := lhalo (base st);
     ka_rhalo := rhalo (base st);
     ka_s := sd;
     ka_xloc := xd;
     ka_xrem := xrem;
     ka_alpha := alpha;
     ka_beta := beta |}.

(** Body of the loop of [stencil<T>::convolve]. *)
Definition convolve_step (st : stencil) (x : vector) (alpha beta : T)
    (y : vector) (d : Z) : option vector :=
  if part_size x d =? 0 then Some y else
  dev ← queue (base st) !! Z.to_nat d;
  k ← st_conv st !! Z.to_nat d;
  ls ← st_loc_s st !! Z.to_nat d;
  lx ← st_loc_x st !! Z.to_nat d;
  sd ← s (base st) !! Z.to_nat d;
  xd ← x !! Z.to_nat d;
  xrem ← dbuf (base st) !! Z.to_nat d;
  yd ← y !! Z.to_nat d;
  yd' ← run_kernel k dev (pushed_args st x alpha beta d sd xd xrem) ls lx yd;
  Some (<[Z.to_nat d := yd']> y).

Definition with_base (st : stencil) (b : stencil_base) : stencil :=
  {| base := b; st_conv := st_conv st; st_loc_s := st_loc_s st;
     st_loc_x := st_loc_x st |}.

(** [stencil<T>::convolve]: the stencil after the call, the new [y] and
    the trace of the halo exchange. *)
Definition convolve (st : stencil) (x y : vector) (alpha beta : T)
  : option (stencil * vector * list event) :=
  hs ← exchange_halos (base st) x;
  let st' := with_base st (with_halos (base st) hs) in
  y' ← for_each (seqZ 0 (nqueue (base st))) (convolve_step st' x alpha beta) y;
  Some (st', y', hs_log hs).

(** *** conv and the two operator* *)

(** [conv<S, V>]: the deferred transform. *)
Record conv := {
  conv_s : stencil;
  conv_x : vector;
  scale : T;
}.

(** [operator*(const stencil<T> &s, const vector<T> &x)]. *)
Definition mul_stencil_vector (st : stencil) (x : vector) : conv :=
  {| conv_s := st; conv_x := x; scale := sc_one |}.

(** [operator*(const vector<T> &x, const stencil<T> &s)]. *)
Definition mul_vector_stencil (x : vector) (st : stencil) : conv :=
  {| conv_s := st; conv_x := x; scale := sc_one |}.

(** [conv::apply<negate, append>(y)]. *)
Definition apply (negate append : bool) (c : conv) (y : vector)
  : option (stencil * vector * list event) :=
  convolve (conv_s c) (conv_x c) y
           (if append then sc_one else sc_zero)
           (if negate then sc_neg (scale c) else scale c).
End Host.

Abbreviation vector T := (list (list T)) (only parsing).
Global Arguments stencil_base : clear implicits.
Global Arguments halo_state : clear implicits.
Global Arguments stencil : clear implicits.
Global Arguments conv : clear implicits.

(** ** Statements about the kernels and the host code *)

(** *** Work-groups of the tiled kernel *)

Section BlockDef.
(** The output indices that work-group [grp] handles in trip [tr] of its
    outer loop. *)
Definition in_block (g : launch) (grp tr k : Z) : Prop :=
  grp * local_size g + tr * (num_groups g * local_size g) ≤ k
  < grp * local_size g + tr * (num_groups g * local_size g) + local_size g.
End BlockDef.

Section TileDefs.
Context {T : Type} `{Scalar T}.

(** What the work-group knows when both tiles are loaded: [Xl] holds the
    policy's element for every slot, [Sl] the coefficients. *)
Definition tiles_loaded (a : kernel_args T) (B b : Z) (Sl Xl : list T) : Prop :=
  (∀ k, 0 ≤ k < ka_lhalo a + ka_rhalo a + 1 → load Sl k = load (ka_s a) k) ∧
  (∀ k, 0 ≤ k < B + ka_lhalo a + ka_rhalo a →
        load Xl k = read_policy a (b + k - ka_lhalo a)).
End TileDefs.

(** *** The tiled kernel on partitions of any size *)

Section TiledDefs.
Context {T : Type} `{Scalar T}.

(** The term that the tiled kernel adds for the offset [j] at the output
    index [i]: its tile holds [read_x] at [i + j] converted to [int], the
    type of the index [j] of its load loop. *)
Definition tiled_term (a : kernel_args T) (i j : Z) : option T :=
  c ← load (ka_s a) (ka_lhalo a + j);
  v ← kread a (s32 (i + j));
  Some (sc_mul c v).

Definition tiled_conv (a : kernel_args T) (i : Z) : option T :=
  foldl (add_term (tiled_term a i)) (Some sc_zero)
        (seqZ (- ka_lhalo a) (ka_lhalo a + ka_rhalo a + 1)).

(** The element [k] of the output of a launch of the tiled kernel over
    [y]. *)
Definition tiled_at (a : kernel_args T) (y : list T) (k : Z) : option T :=
  sum ← tiled_conv a k;
  y_old ← load y k;
  Some (accumulate (ka_alpha a) (ka_beta a) y_old sum).

(** The state of [y] in the middle of a launch of the tiled kernel. *)
Definition tiled_done (a : kernel_args T) (P : Z → Prop) (y t : list T)
  : Prop :=
  length t = length y ∧
  ∀ k, (P k → load t k = tiled_at a y k) ∧ (¬ P k → load t k = load y k).

(** The geometry of a launch of [fast_conv] fits the kernel whatever the
    size of the partition: both tiles fit their local-memory blocks, the
    tile index [i] fits an [int] and the output index [g_id] a [long]. *)
Definition launch_fits (g : launch) (a : kernel_args T) (S0 X0 : list T)
  : Prop :=
  0 < num_groups g ∧ 0 < local_size g ∧
  2 * local_size g + ka_lhalo a + ka_rhalo a ≤ INT_MAX ∧
  ka_n a + (num_groups g + 1) * local_size g < 2 ^ 63 ∧
  ka_lhalo a + ka_rhalo a + 1 ≤ Z.of_nat (length S0) ∧
  local_size g + ka_lhalo a + ka_rhalo a ≤ Z.of_nat (length X0).
End TiledDefs.

(** *** The halo exchange *)

Section HaloDefs.
Context {T : Type} `{Scalar T}.
Implicit Types (b : stencil_base T) (x : vector T).

(** [x[gi]] with the index clamped to the vector: the edge element stands
    for every index beyond the global bounds. *)
Definition clamp_read x (gi : Z) : option T :=
  vec_elem x (Z.max 0 (Z.min gi (vec_size x - 1))).

(** The global index that slot [k] of the halo of partition [d] stands
    for: the [lhalo] indices before the partition, then the [rhalo] indices
    after it. *)
Definition halo_index b x (d k : Z) : Z :=
  if decide (k < lhalo b) then part_start x d - lhalo b + k
  else part_start x (d + 1) + (k - lhalo b).

(** The slots of the halo of partition [d] on a side where it has a
    neighbour. *)
Definition halo_live b x (d k : Z) : Prop :=
  part_size x d ≠ 0 ∧
  ((0 < d ∧ k < lhalo b) ∨ (d + 1 < nqueue b ∧ lhalo b ≤ k)).

(** The slots that the read phase fills: those whose global index lies in
    the vector. *)
Definition halo_read b x (d k : Z) : Prop :=
  halo_live b x d k ∧ 0 ≤ halo_index b x d k < vec_size x.

(** The stencil and the vector fit each other and the index types of
    [exchange_halos]. *)
Definition halos_ok b x : Prop :=
  0 ≤ lhalo b ∧ 0 ≤ rhalo b ∧ lhalo b + rhalo b < INT_MAX ∧
  nqueue b < 2 ^ 31 ∧
  (nqueue b + 1) * (lhalo b + rhalo b) < 2 ^ 31 ∧
  Z.of_nat (length (hbuf b)) = nqueue b * (lhalo b + rhalo b) ∧
  length (dbuf b) = length (queue b) ∧
  (∀ d buf, dbuf b !! d = Some buf → lhalo b + rhalo b ≤ Z.of_nat (length buf)) ∧
  length x = length (queue b) ∧
  vec_size x + rhalo b < 2 ^ 63.
End HaloDefs.

Global Instance halo_live_dec {T} (b : stencil_base T) (x : vector T) d k :
  Decision (halo_live b x d k).
Proof. unfold halo_live. apply _. Defined.

Global Instance halo_read_dec {T} (b : stencil_base T) (x : vector T) d k :
  Decision (halo_read b x d k).
Proof. unfold halo_read. apply _. Defined.

Section HaloResult.
Context {T : Type} `{Scalar T}.
Implicit Types (b : stencil_base T) (x : vector T).

(** The partitions on which the third loop uploads the halo. *)
Definition uploads b x (d : Z) : Prop :=
  part_size x d ≠ 0 ∧
  ((0 < d ∧ 0 < lhalo b) ∨ (d + 1 < nqueue b ∧ 0 < rhalo b)).

Global Instance uploads_dec b x d : Decision (uploads b x d).
Proof. unfold uploads. apply _. Defined.

(** The content of slot [k] of the halo of partition [d] after the
    exchange: on a side with a neighbour, the element of the vector at the
    slot's global index, with the edge element beyond the bounds; the old
    content elsewhere. *)
Definition halo_final b x (d k : Z) : option T :=
  if decide (halo_live b x d k) then clamp_read x (halo_index b x d k)
  else load (hbuf b) (d * (lhalo b + rhalo b) + k).

(** The device buffer [buf] holds the halo of partition [d] in front of the
    rest of [old]. *)
Definition uploaded b x (d : Z) (old buf : list T) : Prop :=
  length buf = length old ∧
  ∀ k, load buf k =
       if decide (0 ≤ k < lhalo b + rhalo b) then halo_final b x d k
       else load old k.
End HaloResult.

(** *** The dispatcher *)

Section ConvolveDefs.
Context {T : Type} `{Scalar T}.
Implicit Types (st : stencil T) (x y : vector T).

(** The invariant of a [stencil] between two calls: a device, coefficient
    buffers of one size, and the kernels that [init] chose. *)
Definition stencil_ok st : Prop :=
  0 < nqueue (base st) ∧
  length (s (base st)) = length (queue (base st)) ∧
  (∀ d c, s (base st) !! d = Some c →
          lhalo (base st) + rhalo (base st) + 1 ≤ Z.of_nat (length c)) ∧
  st = init (base st) (lhalo (base st) + rhalo (base st) + 1).

(** The vectors of a call fit the stencil: [x] and [y] are partitioned
    alike over the devices of the stencil, and on a device that runs the
    tiled kernel the launch fits the [int] indices of that kernel. *)
Definition vectors_ok st x y : Prop :=
  halos_ok (base st) x ∧
  length y = length x ∧
  (∀ d, part_size y d = part_size x d) ∧
  0 < sc_sizeof < 2 ^ 31 ∧
  ∀ d dev, queue (base st) !! d = Some dev →
    is_cpu dev = false →
    0 < launch_groups dev ∧ 0 < workgroup_size dev ∧
    part_size x (Z.of_nat d) + (launch_groups dev + 1) * workgroup_size dev
      + lhalo (base st) + rhalo (base st) ≤ INT_MAX.

(** What a call leaves in partition [d] of [y]: nothing new when the
    partition of [x] is empty, the contract of the launch otherwise. *)
Definition part_result st x (alpha beta : T) (d : nat) (xrem yd yd' : list T)
  : Prop :=
  ∃ sd xd, s (base st) !! d = Some sd ∧ x !! d = Some xd ∧
    length yd' = length yd ∧
    if decide (xd = []) then yd' = yd
    else contract (pushed_args st x alpha beta (Z.of_nat d) sd xd xrem) yd yd'.
End ConvolveDefs.

Section ClampDefs.
Context {T : Type} `{Scalar T}.

(** The convolution at the global index [i] in the words of 8 of the
    specification: the sum over [j] from [-lhalo] to [rhalo] of
    [s[lhalo + j] * clamp_read(x, i + j)], where [clamp_read] replicates
    the edge element beyond the global bounds. *)
Definition clamped_conv (coeffs : list T) (lh rh : Z) (x : vector T) (i : Z)
  : option T :=
  foldl (add_term (λ j, c ← load coeffs (lh + j);
                        v ← clamp_read x (i + j);
                        Some (sc_mul c v)))
        (Some sc_zero) (seqZ (- lh) (lh + rh + 1)).
End ClampDefs.

(** ** Fixtures *)

(** The devices, stencils and vectors on which the statements below are
    run: a CPU and a GPU, the second difference over the two, and a
    stencil of width 5 over three devices whose partitions are shorter
    than its halos. *)
Definition cpu_device : device :=
  {| is_cpu := true; workgroup_size := 1; launch_groups := 1 |}.

Definition gpu_device : device :=
  {| is_cpu := false; workgroup_size := 4; launch_groups := 2 |}.

Definition zeroed : nat → Z := λ _, 0.

(** A host with the memory for vectors of up to [2^31] elements. *)
Definition host_8GiB : Z → bool := λ count, count <=? 2 ^ 31.

Definition second_difference : stencil Z :=
  init {| queue := [gpu_device; cpu_device];
          hbuf := [0; 0; 0; 0];
          dbuf := [[0; 0; 0]; [0; 0; 0]];
          s := [[1; -2; 1]; [1; -2; 1]];
          lhalo := 1; rhalo := 1 |} 3.

Definition squares : vector Z := [[0; 1; 4]; [9; 16]].

Definition stale : vector Z := [[5; 5; 5]; [5; 5]].

Definition second_difference_after : stencil Z :=
  Eval vm_compute in
    match convolve zeroed second_difference squares stale 0 1 with
    | Some (st, _, _) => st
    | None => second_difference
    end.

Definition second_difference_log : list event :=
  Eval vm_compute in
    match convolve zeroed second_difference squares stale 0 1 with
    | Some (_, _, log) => log
    | None => []
    end.

Definition wide_base : stencil_base Z :=
  {| queue := [gpu_device; gpu_device; gpu_device];
     hbuf := replicate 12 0;
     dbuf := replicate 3 (replicate 5 0);
     s := replicate 3 [1; 1; 1; 1; 1];
     lhalo := 2; rhalo := 2 |}.

Definition short_parts : vector Z := [[5]; [6; 7]; [8]].

Definition edge_args : kernel_args Z :=
  {| ka_n := 5; ka_has_left := false; ka_has_right := false;
     ka_lhalo := 1; ka_rhalo := 1; ka_s := [1; -2; 1];
     ka_xloc := [0; 1; 4; 9; 16]; ka_xrem := [0; 0];
     ka_alpha := 2; ka_beta := 1 |}.

Definition small_launch : launch := {| num_groups := 2; local_size := 4 |}.

Definition single_base : stencil_base Z :=
  {| queue := [cpu_device];
     hbuf := [0; 0];
     dbuf := [[0; 0; 0]];
     s := [[1; -2; 1]];
     lhalo := 1; rhalo := 1 |}.

Definition second_difference_single : stencil Z := init single_base 3.

(** ** What [convolve] writes to one partition *)

Section PartsDefs.
Context {T : Type} `{Scalar T}.

(** What [convolve] leaves at the index [k] of partition [d] of [y], from
    the coefficients [sd] of the device: the clamped convolution of the
    whole vector inside the partition, the old element elsewhere. *)
Definition part_output (sd : list T) (lh rh : Z) (x : vector T)
    (alpha beta : T) (d : nat) (xd yd : list T) (k : Z) : option T :=
  if decide (0 ≤ k < Z.of_nat (length xd)) then
    sum ← clamped_conv sd lh rh x (part_start x (Z.of_nat d) + k);
    y_old ← load yd k;
    Some (accumulate alpha beta y_old sum)
  else load yd k.
End PartsDefs.

(** ** The requests of the halo exchange *)

Section TraceDefs.
Context {T : Type} `{Scalar T}.
Implicit Types (b : stencil_base T) (x : vector T).

(** A request of the read phase: a read of a range that lies in [x] into
    a range that lies in the host buffer. *)
Definition read_request b x (e : event) : Prop :=
  match e with
  | EvReadData start size dst =>
      0 ≤ start ∧ 0 ≤ size ∧ start + size ≤ vec_size x ∧
      0 ≤ dst ∧ dst + size ≤ Z.of_nat (length (hbuf b))
  | _ => False
  end.

(** A request of the write phase: the read of an element of [x], a fill
    of a range of the host buffer, an upload to a device of the queue. *)
Definition write_request b x (e : event) : Prop :=
  match e with
  | EvReadElem i => 0 ≤ i < vec_size x
  | EvFill first last =>
      0 ≤ first ∧ first ≤ last ∧ last ≤ Z.of_nat (length (hbuf b))
  | EvUpload d => 0 ≤ d < nqueue b
  | _ => False
  end.

(** The barrier: [finish] on every queue, in order. *)
Definition barrier b : list event := EvFinish <$> seqZ 0 (nqueue b).
End TraceDefs.

(** ** multiconv *)

Section Multi.
Context {T : Type} `{Scalar T}.
Variable uninit : nat → T.

(** Halo buffers of the sizes of those of [b]. *)
Definition buffers_fit (b : stencil_base T) (hs : halo_state T) : Prop :=
  length (hs_hbuf hs) = length (hbuf b) ∧
  length (hs_dbuf hs) = length (dbuf b) ∧
  ∀ d buf, hs_dbuf hs !! d = Some buf →
           lhalo b + rhalo b ≤ Z.of_nat (length buf).

(** [multiconv<S, V>]: the deferred transform of a [multivector<T, N>],
    which is modelled by the list of its [N] components. *)
Record multiconv := {
  mconv_s : stencil T;
  mconv_x : list (vector T);
  mscale : T;
}.

(** [operator*(const stencil<T> &s, const multivector<T, N> &x)]. *)
Definition mul_stencil_multivector (st : stencil T) (x : list (vector T))
  : multiconv :=
  {| mconv_s := st; mconv_x := x; mscale := sc_one |}.

(** [operator*(const multivector<T, N> &x, const stencil<T> &s)]. *)
Definition mul_multivector_stencil (x : list (vector T)) (st : stencil T)
  : multiconv :=
  {| mconv_s := st; mconv_x := x; mscale := sc_one |}.

(** Body of the loop of [multiconv::apply]:
    [s.convolve(x(i), y(i), append ? 1 : 0, negate ? -scale : scale)];
    the stencil is the one object whose halo buffers every call uses. *)
Definition multi_step (negate append : bool) (c : multiconv)
    (acc : stencil T * list (vector T) * list event) (i : Z)
  : option (stencil T * list (vector T) * list event) :=
  xi ← mconv_x c !! Z.to_nat i;
  yi ← acc.1.2 !! Z.to_nat i;
  r ← convolve uninit acc.1.1 xi yi
         (if append then sc_one else sc_zero)
         (if negate then sc_neg (mscale c) else mscale c);
  Some (r.1.1, <[Z.to_nat i := r.1.2]> acc.1.2, acc.2 ++ r.2).

(** [multiconv::apply<negate, append>(y)]. *)
Definition multi_apply (negate append : bool) (c : multiconv)
    (y : list (vector T))
  : option (stencil T * list (vector T) * list event) :=
  for_each (seqZ 0 (Z.of_nat (length (mconv_x c))))
           (multi_step negate append c) (mconv_s c, y, []).
End Multi.

Global Arguments multiconv : clear implicits.

(** ** StencilOperator *)

Section Operator.
Context {T : Type} `{Scalar T}.
Variable uninit : nat → T.
Variable host_alloc : Z → bool.

(** The body of [stencil_oper], the text [Impl::body()]: what it returns
    from what it reads through its argument [X], a pointer into the tile;
    [win j] is its [X[j]]. *)
Variable oper : (Z → option T) → option T.

(** The part of the kernel [convolve] between the two barriers, for the
    work-item with local id [l_id] and global index [g_id]:
    [sum = stencil_oper(X + lhalo + l_id)] and the write to [y]. *)
Definition oper_item (a : kernel_args T) (Xl : list T) (l_id g_id : Z)
    (y : list T) : option (list T) :=
  if u64 g_id <? ka_n a then
    sum ← oper (λ j, load Xl (ka_lhalo a + l_id + j));
    write_back (ka_alpha a) (ka_beta a) y g_id sum
  else Some y.

(** One trip of the outer loop of the kernel in work-group [grp]: the
    tile is filled as in [fast_conv], barrier, every work-item computes its
    output, barrier. *)
Definition oper_trip (g : launch) (a : kernel_args T) (grp pos : Z)
    (Xy : list T * list T) : option (list T * list T) :=
  let block_size := s32 (local_size g) in
  let g_id l := s64 (u64 (grp * local_size g + l) + pos) in
  X' ← for_each (seqZ 0 (local_size g)) (λ X l,
          load_tile (S (length X)) a block_size (s32 l)
                    (s32 (s64 (g_id l - ka_lhalo a))) X) Xy.1;
  y' ← for_each (seqZ 0 (local_size g)) (λ y l,
          oper_item a X' (s32 l) (g_id l) y) Xy.2;
  Some (X', y').

(** [for(long g_id = get_global_id(0), pos = 0; pos < n;
         g_id += grid_size, pos += grid_size) { ... }] for one work-group. *)
Fixpoint oper_loop (fuel : nat) (g : launch) (a : kernel_args T)
    (grp pos : Z) (Xy : list T * list T) : option (list T * list T) :=
  match fuel with
  | O => None
  | S fuel' =>
      if u64 pos <? ka_n a then
        Xy' ← oper_trip g a grp pos Xy;
        oper_loop fuel' g a grp (s64 (u64 pos + global_size g)) Xy'
      else Some Xy
  end.

(** The kernel [convolve] of [StencilOperator]; [X0] is the local-memory
    block as the work-group finds it. *)
Definition oper_conv (g : launch) (a : kernel_args T) (X0 : list T)
    (y : list T) : option (list T) :=
  for_each (seqZ 0 (num_groups g)) (λ y grp,
    Xy ← oper_loop (S (Z.to_nat (ka_n a))) g a grp 0 (X0, y);
    Some Xy.2) y.

(** [StencilOperator(queue)]: the base built from the template arguments
    [width] and [center] and an empty range of coefficients. *)
Definition stencil_operator_ctor (q : list device) (width center : Z)
  : constructed (stencil_base T) :=
  stencil_base_ctor uninit host_alloc q width center [].

(** The bytes of [lmem]:
    [sizeof(T) * (krn.workgroup_size() + width - 1)]. *)
Definition operator_lmem (width : Z) (dev : device) : Z :=
  u64 (sc_sizeof * u64 (u64 (workgroup_size dev + width) - 1)).

(** The arguments pushed for device [d]; the kernel takes no
    coefficients. *)
Definition operator_args (b : stencil_base T) (x : vector T) (alpha beta : T)
    (d : Z) (xd xrem : list T) : kernel_args T :=
  {| ka_n := part_size x d;
     ka_has_left := 0 <? d;
     ka_has_right := u32 (d + 1) <? nqueue b;
     ka_lhalo := lhalo b;
     ka_rhalo := rhalo b;
     ka_s := [];
     ka_xloc := xd;
     ka_xrem := xrem;
     ka_alpha := alpha;
     ka_beta := beta |}.

(** Body of the loop of [StencilOperator::convolve]: the kernel of the
    context is looked up or built, and launched when the partition is not
    empty.  Every device is taken to be in a context of its own, so the
    kernel and [lmem] are those built for the device. *)
Definition operator_step (width : Z) (b : stencil_base T) (x : vector T)
    (alpha beta : T) (y : vector T) (d : Z) : option (vector T) :=
  dev ← queue b !! Z.to_nat d;
  if part_size x d =? 0 then Some y else
  xd ← x !! Z.to_nat d;
  xrem ← dbuf b !! Z.to_nat d;
  yd ← y !! Z.to_nat d;
  yd' ← oper_conv {| num_groups := launch_groups dev;
                     local_size := workgroup_size dev |}
                  (operator_args b x alpha beta d xd xrem)
                  (local_block uninit (operator_lmem width dev)) yd;
  Some (<[Z.to_nat d := yd']> y).

(** [StencilOperator::convolve]: the base after the call, the new [y] and
    the trace of the halo exchange. *)
Definition operator_convolve (width : Z) (b : stencil_base T) (x y : vector T)
    (alpha beta : T) : option (stencil_base T * vector T * list event) :=
  hs ← exchange_halos b x;
  let b' := with_halos b hs in
  y' ← for_each (seqZ 0 (nqueue b)) (operator_step width b' x alpha beta) y;
  Some (b', y', hs_log hs).

(** *** What the kernel must deliver *)

(** The body reads [X[j]] for [j] from [-lh] to [rh] only. *)
Definition oper_reads (lh rh : Z) : Prop :=
  ∀ win win' : Z → option T,
    (∀ j, - lh ≤ j ≤ rh → win j = win' j) → oper win = oper win'.

(** The body returns when the window it reads is there. *)
Definition oper_returns (lh rh : Z) : Prop :=
  ∀ win : Z → option T,
    (∀ j, - lh ≤ j ≤ rh → is_Some (win j)) → is_Some (oper win).

(** The element [k] of the output of a launch over [y]: the body applied
    to the window of the read policy around [k], accumulated. *)
Definition oper_at (a : kernel_args T) (y : list T) (k : Z) : option T :=
  sum ← oper (λ j, read_policy a (k + j));
  y_old ← load y k;
  Some (accumulate (ka_alpha a) (ka_beta a) y_old sum).

Definition oper_contract (a : kernel_args T) (y y' : list T) : Prop :=
  ∀ k, load y' k = if decide (0 ≤ k < ka_n a) then oper_at a y k else load y k.

(** The state of [y] in the middle of a launch. *)
Definition oper_done (a : kernel_args T) (P : Z → Prop) (y t : list T) : Prop :=
  length t = length y ∧
  ∀ k, (P k → load t k = oper_at a y k) ∧ (¬ P k → load t k = load y k).

(** The arguments of a launch are well formed; the kernel has no
    coefficient buffer. *)
Definition window_ok (a : kernel_args T) : Prop :=
  0 < ka_n a ∧ 0 ≤ ka_lhalo a ∧ 0 ≤ ka_rhalo a ∧
  ka_lhalo a + ka_rhalo a < INT_MAX ∧
  ka_n a + ka_rhalo a < 2 ^ 63 ∧
  Z.of_nat (length (ka_xloc a)) = ka_n a ∧
  ka_lhalo a + ka_rhalo a ≤ Z.of_nat (length (ka_xrem a)).

(** The geometry of a launch fits the kernel. *)
Definition tile_ok (g : launch) (a : kernel_args T) (X0 : list T) : Prop :=
  0 < num_groups g ∧ 0 < local_size g ∧
  ka_n a + (num_groups g + 1) * local_size g + ka_lhalo a + ka_rhalo a
    ≤ INT_MAX ∧
  local_size g + ka_lhalo a + ka_rhalo a ≤ Z.of_nat (length X0).

(** The convolution of the whole vector at the global index [i] by the
    body: the body applied to the clamped window around [i]. *)
Definition clamped_oper (x : vector T) (i : Z) : option T :=
  oper (λ j, clamp_read x (i + j)).
End Operator.

Section OperatorHost.
Context {T : Type} `{Scalar T}.
Variable oper : (Z → option T) → option T.

(** The vectors of a call fit the operator: the halo buffers fit [x],
    [width] is the width of the base, [x] and [y] are partitioned alike over
    its devices, and on every device the launch fits the [int] indices of
    the kernel. *)
Definition operator_fits (width : Z) (b : stencil_base T) (x y : vector T)
  : Prop :=
  halos_ok b x ∧ 0 < nqueue b ∧
  lhalo b + rhalo b + 1 = width ∧
  length y = length x ∧
  (∀ d, part_size y d = part_size x d) ∧
  0 < sc_sizeof < 2 ^ 31 ∧
  ∀ d dev, queue b !! d = Some dev →
    0 < launch_groups dev ∧ 0 < workgroup_size dev ∧
    part_size x (Z.of_nat d) + (launch_groups dev + 1) * workgroup_size dev
      + lhalo b + rhalo b ≤ INT_MAX.

(** What a call leaves at the index [k] of partition [d] of [y]: the body
    applied to the clamped window of the whole vector inside the partition,
    the old element elsewhere. *)
Definition operator_output (x : vector T) (alpha beta : T) (d : nat)
    (xd yd : list T) (k : Z) : option T :=
  if decide (0 ≤ k < Z.of_nat (length xd)) then
    sum ← clamped_oper oper x (part_start x (Z.of_nat d) + k);
    y_old ← load yd k;
    Some (accumulate alpha beta y_old sum)
  else load yd k.

(** The body that adds up [coeffs[lh + j] * X[j]] for [j] from [-lh] to
    [rh], from the left: the linear stencil as an operator. *)
Definition linear_oper (coeffs : list T) (lh rh : Z) (win : Z → option T)
  : option T :=
  foldl (add_term (λ j, c ← load coeffs (lh + j);
                        v ← win j;
                        Some (sc_mul c v)))
        (Some sc_zero) (seqZ (- lh) (lh + rh + 1)).
End OperatorHost.

(** ** More fixtures *)

(** What the exchange of [short_parts] leaves in [wide_base]. *)
Definition wide_halos : halo_state Z :=
  Eval vm_compute in
    match exchange_halos wide_base short_parts with
    | Some hs => hs
    | None => {| hs_hbuf := []; hs_dbuf := []; hs_log := [] |}
    end.

(** A stencil of width 1 over a GPU and a CPU. *)
Definition scaling : stencil Z :=
  init {| queue := [gpu_device; cpu_device];
          hbuf := [];
          dbuf := [[0]; [0]];
          s := [[3]; [3]];
          lhalo := 0; rhalo := 0 |} 1.

Definition wide_launch : launch := {| num_groups := 1; local_size := 8 |}.

Definition ramp : vector Z := [[7; 7; 7]; [1; 2]].

(** The body ["return X[0] + (X[-1] + X[1]);"]. *)
Definition neighbours (win : Z → option Z) : option Z :=
  l ← win (-1); c ← win 0; r ← win 1; Some (c + (l + r)).

(** The base of a [StencilOperator] of width 3 and centre 1 over a GPU and
    a CPU. *)
Definition operator_base : stencil_base Z :=
  {| queue := [gpu_device; cpu_device];
     hbuf := [0; 0; 0; 0];
     dbuf := [[0; 0; 0]; [0; 0; 0]];
     s := [[]; []];
     lhalo := 1; rhalo := 1 |}.

Definition window_args : kernel_args Z :=
  {| ka_n := 5; ka_has_left := false; ka_has_right := false;
     ka_lhalo := 1; ka_rhalo := 1; ka_s := [];
     ka_xloc := [0; 1; 4; 9; 16]; ka_xrem := [0; 0];
     ka_alpha := 2; ka_beta := 1 |}.

(** A partition of [2^31 + 1] elements, a one in front of [2^31] zeros,
    a stale output of the same size, and the arguments that [convolve]
    pushes for them on a single device with the stencil [[1]]. *)
Definition long_input : list Z := 1 :: replicate (Z.to_nat (2 ^ 31)) 0.

Definition long_stale : list Z := replicate (Z.to_nat (2 ^ 31 + 1)) 5.

Definition long_args : kernel_args Z :=
  {| ka_n := 2 ^ 31 + 1; ka_has_left := false; ka_has_right := false;
     ka_lhalo := 0; ka_rhalo := 0; ka_s := [1];
     ka_xloc := long_input; ka_xrem := [0];
     ka_alpha := 0; ka_beta := 1 |}.

(** The stencil [[1]] with centre 0 on one GPU. *)
Definition unit_gpu : stencil Z :=
  init {| queue := [gpu_device]; hbuf := []; dbuf := [[0]]; s := [[1]];
          lhalo := 0; rhalo := 0 |} 1.

(** * Facts *)

(** ** Fixed-width integers *)

Lemma u32_small z : 0 ≤ z < 2 ^ 32 → u32 z = z.
Proof. intros. unfold u32, wrap_unsigned. rewrite Z.mod_small; lia. Qed.

Lemma u64_small z : 0 ≤ z < 2 ^ 64 → u64 z = z.
Proof. intros. unfold u64, wrap_unsigned. rewrite Z.mod_small; lia. Qed.

Lemma s32_small z : - 2 ^ 31 ≤ z < 2 ^ 31 → s32 z = z.
Proof. intros. unfold s32, wrap_signed. rewrite Z.mod_small; lia. Qed.

Lemma s64_small z : - 2 ^ 63 ≤ z < 2 ^ 63 → s64 z = z.
Proof. intros. unfold s64, wrap_signed. rewrite Z.mod_small; lia. Qed.

Lemma u32_range z : 0 ≤ u32 z < 2 ^ 32.
Proof. unfold u32, wrap_unsigned. apply Z.mod_pos_bound. lia. Qed.

Lemma s32_range z : - 2 ^ 31 ≤ s32 z < 2 ^ 31.
Proof.
  unfold s32, wrap_signed.
  pose proof (Z.mod_pos_bound (z + 2 ^ (32 - 1)) (2 ^ 32)). lia.
Qed.

(** Rewrites every wrap of a value that is in range. *)
Ltac unwrap :=
  repeat match goal with
    | |- context [u32 ?z] => rewrite (u32_small z) by lia
    | |- context [u64 ?z] => rewrite (u64_small z) by lia
    | |- context [s32 ?z] => rewrite (s32_small z) by lia
    | |- context [s64 ?z] => rewrite (s64_small z) by lia
    end.

Ltac unwrap_in H :=
  repeat match type of H with
    | context [u32 ?z] => rewrite (u32_small z) in H by lia
    | context [u64 ?z] => rewrite (u64_small z) in H by lia
    | context [s32 ?z] => rewrite (s32_small z) in H by lia
    | context [s64 ?z] => rewrite (s64_small z) in H by lia
    end.

(** Propositional reasoning around [lia]: splits the hypotheses and the
    goal, and closes the leaves by [lia] or by a negated hypothesis. *)
Ltac psolve :=
  repeat match goal with
    | H : _ ∧ _ |- _ => destruct H
    | H : _ ∨ _ |- _ => destruct H
    | H : _ ↔ _ |- _ => destruct H
    end;
  first
    [ done | lia
    | match goal with |- _ ∧ _ => split; psolve end
    | match goal with |- _ ↔ _ => split; intros; psolve end
    | match goal with |- ¬ _ => intros ?; psolve end
    | match goal with |- _ → _ => intros ?; psolve end
    | match goal with |- _ ∨ _ => solve [left; psolve | right; psolve] end
    | match goal with H : ¬ _ |- _ => exfalso; apply H; clear H; psolve end ].

(** ** Buffers *)

Section BufferFacts.
Context {A : Type}.
Implicit Types (buf vs : list A) (i off : Z).

Lemma load_lookup buf i : 0 ≤ i → load buf i = buf !! Z.to_nat i.
Proof. intros. unfold load. case_decide; [done | lia]. Qed.

Lemma load_neg buf i : i < 0 → load buf i = None.
Proof. intros. unfold load. case_decide; [lia | done]. Qed.

Lemma load_is_Some buf i : 0 ≤ i < Z.of_nat (length buf) → is_Some (load buf i).
Proof.
  intros. rewrite load_lookup by lia. apply lookup_lt_is_Some. lia.
Qed.

Lemma load_Some_lt buf i v : load buf i = Some v → 0 ≤ i < Z.of_nat (length buf).
Proof.
  unfold load. case_decide; [|done]. intros Hl%lookup_lt_Some. lia.
Qed.

Lemma load_ext buf1 buf2 : (∀ i, load buf1 i = load buf2 i) → buf1 = buf2.
Proof.
  intros E. apply list_eq. intros n.
  specialize (E (Z.of_nat n)). rewrite !load_lookup, Nat2Z.id in E by lia. done.
Qed.

Lemma store_Some buf i v :
  0 ≤ i < Z.of_nat (length buf) → store buf i v = Some (<[Z.to_nat i := v]> buf).
Proof. intros. unfold store. case_decide; [done | lia]. Qed.

Lemma store_length buf i v buf' : store buf i v = Some buf' → length buf' = length buf.
Proof.
  unfold store. case_decide; [|done]. intros [= <-]. by rewrite length_insert.
Qed.

Lemma load_store buf i v buf' k :
  store buf i v = Some buf' →
  load buf' k = if decide (k = i) then Some v else load buf k.
Proof.
  unfold store. case_decide as Hi; [|done]. intros [= <-].
  case_decide as Hk.
  - subst k. rewrite load_lookup by lia. apply list_lookup_insert_eq. lia.
  - unfold load. case_decide; [|done].
    apply list_lookup_insert_ne. lia.
Qed.

Lemma write_at_Some buf off vs :
  0 ≤ off → off + Z.of_nat (length vs) ≤ Z.of_nat (length buf) →
  write_at buf off vs = Some (list_inserts (Z.to_nat off) vs buf).
Proof. intros. unfold write_at. case_decide; [done | lia]. Qed.

Lemma write_at_length buf off vs buf' :
  write_at buf off vs = Some buf' → length buf' = length buf.
Proof.
  unfold write_at. case_decide; [|done]. intros [= <-]. by rewrite length_inserts.
Qed.

Lemma load_write_at buf off vs buf' k :
  write_at buf off vs = Some buf' →
  load buf' k =
    if decide (off ≤ k < off + Z.of_nat (length vs)) then load vs (k - off)
    else load buf k.
Proof.
  unfold write_at. case_decide as Hb; [|done]. intros [= <-].
  case_decide as Hk.
  - rewrite !load_lookup by lia.
    rewrite list_lookup_inserts by lia. f_equal. lia.
  - unfold load. case_decide; [|done].
    destruct (decide (k < off)).
    + apply list_lookup_inserts_lt. lia.
    + apply list_lookup_inserts_ge. lia.
Qed.

Lemma write_at_nil buf off :
  0 ≤ off ≤ Z.of_nat (length buf) → write_at buf off [] = Some buf.
Proof. intros. rewrite write_at_Some by (simpl; lia). done. Qed.

Lemma slice_Some buf off len :
  0 ≤ off → 0 ≤ len → off + len ≤ Z.of_nat (length buf) →
  slice buf off len = Some (take (Z.to_nat len) (drop (Z.to_nat off) buf)).
Proof. intros. unfold slice. case_decide; [done | lia]. Qed.

Lemma slice_length buf off len vs :
  slice buf off len = Some vs → Z.of_nat (length vs) = len.
Proof.
  unfold slice. case_decide; [|done]. intros [= <-].
  rewrite length_take, length_drop. lia.
Qed.

Lemma load_slice buf off len vs k :
  slice buf off len = Some vs →
  load vs k = if decide (0 ≤ k < len) then load buf (off + k) else None.
Proof.
  unfold slice. case_decide as Hb; [|done]. intros [= <-].
  case_decide as Hk.
  - rewrite !load_lookup by lia.
    rewrite lookup_take_lt, lookup_drop by lia. f_equal. lia.
  - unfold load. case_decide; [|done].
    apply lookup_take_ge. lia.
Qed.

Lemma fill_Some buf first last v :
  0 ≤ first ≤ last → last ≤ Z.of_nat (length buf) →
  fill buf first last v =
    Some (list_inserts (Z.to_nat first) (replicate (Z.to_nat (last - first)) v) buf).
Proof.
  intros. unfold fill. case_decide; [|lia].
  apply write_at_Some; [lia|]. rewrite length_replicate. lia.
Qed.

Lemma fill_length buf first last v buf' :
  fill buf first last v = Some buf' → length buf' = length buf.
Proof. unfold fill. case_decide; [|done]. apply write_at_length. Qed.

Lemma load_fill buf first last v buf' k :
  fill buf first last v = Some buf' →
  load buf' k = if decide (first ≤ k < last) then Some v else load buf k.
Proof.
  unfold fill. case_decide as Hb; [|done]. intros Hw.
  rewrite (load_write_at _ _ _ _ _ Hw), length_replicate.
  case_decide; case_decide; try lia; [|done].
  rewrite load_lookup by lia. apply lookup_replicate_2. lia.
Qed.

(** *** Loops *)

Lemma for_each_app {St} (xs ys : list A) (body : St → A → option St) s :
  for_each (xs ++ ys) body s = s' ← for_each xs body s; for_each ys body s'.
Proof.
  revert s. induction xs as [|x xs IH]; intros s; simpl; [done|].
  destruct (body s x); simpl; [apply IH | done].
Qed.

Lemma for_each_ext {St} (xs : list A) (f g : St → A → option St) s :
  (∀ s x, x ∈ xs → f s x = g s x) → for_each xs f s = for_each xs g s.
Proof.
  revert s. induction xs as [|x xs IH]; intros s E; simpl; [done|].
  rewrite E by left. destruct (g s x); simpl; [|done].
  apply IH. intros. apply E. by right.
Qed.
End BufferFacts.

(** A loop over [seqZ m n] that maintains an invariant [P i] at the head of
    the trip for [i] ends, and the invariant holds at [m + n]. *)
Lemma for_each_seqZ_inv {St} (P : Z → St → Prop) (body : St → Z → option St)
    (m n : Z) (s : St) :
  0 ≤ n → P m s →
  (∀ i t, m ≤ i < m + n → P i t → ∃ t', body t i = Some t' ∧ P (i + 1) t') →
  ∃ s', for_each (seqZ m n) body s = Some s' ∧ P (m + n) s'.
Proof.
  intros Hn. rewrite <- (Z2Nat.id n) by lia.
  generalize (Z.to_nat n) as k. clear. intros k. revert s.
  induction k as [|k IH]; intros s H0 Hstep.
  - exists s. simpl. rewrite Z.add_0_r. done.
  - rewrite seqZ_S, for_each_app.
    destruct (IH s H0) as (s1 & -> & H1).
    { intros. apply Hstep; [lia | done]. }
    simpl. destruct (Hstep (m + Z.of_nat k) s1) as (s2 & -> & H2); [lia | done |].
    simpl. exists s2. split; [done|].
    replace (m + Z.of_nat (S k)) with (m + Z.of_nat k + 1) by lia. done.
Qed.

(** ** The generated kernels *)

Section KernelFacts.
Context {T : Type} `{Scalar T}.
Implicit Types (a : kernel_args T) (y t : list T).

(** [read_x] follows the read policy on every offset of type [long]. *)
Lemma read_x_read_policy a g_id :
  0 < ka_n a < 2 ^ 64 → 0 ≤ ka_lhalo a ≤ INT_MAX → 0 ≤ ka_rhalo a ≤ INT_MAX →
  - 2 ^ 63 ≤ g_id < 2 ^ 63 →
  kread a g_id = read_policy a g_id.
Proof.
  unfold INT_MAX. intros Hn Hl Hr Hg. unfold kread, read_x, read_policy.
  destruct (decide (0 ≤ g_id < ka_n a)) as [Hin|Hout].
  - unwrap.
    replace (0 <=? g_id) with true by (symmetry; apply Z.leb_le; lia).
    replace (g_id <? ka_n a) with true by (symmetry; apply Z.ltb_lt; lia).
    done.
  - destruct (decide (g_id < 0)) as [Hneg|Hpos].
    + replace (0 <=? g_id) with false by (symmetry; apply Z.leb_gt; lia).
      replace (g_id <? 0) with true by (symmetry; apply Z.ltb_lt; lia).
      simpl. unwrap. destruct (ka_has_left a); [|done].
      destruct (decide (0 ≤ ka_lhalo a + g_id)).
      * replace (0 <=? _) with true by (symmetry; apply Z.leb_le; lia). done.
      * replace (0 <=? _) with false by (symmetry; apply Z.leb_gt; lia). done.
    + replace (0 <=? g_id) with true by (symmetry; apply Z.leb_le; lia).
      replace (g_id <? 0) with false by (symmetry; apply Z.ltb_ge; lia).
      unwrap.
      replace (g_id <? ka_n a) with false by (symmetry; apply Z.ltb_ge; lia).
      simpl. destruct (ka_has_right a); [|done].
      destruct (decide (g_id < ka_n a + ka_rhalo a)).
      * replace (_ <? _) with true by (symmetry; apply Z.ltb_lt; lia). done.
      * replace (_ <? _) with false by (symmetry; apply Z.ltb_ge; lia). done.
Qed.

Lemma args_ok_ranges a :
  args_ok a →
  0 < ka_n a < 2 ^ 64 ∧ 0 ≤ ka_lhalo a ≤ INT_MAX ∧ 0 ≤ ka_rhalo a ≤ INT_MAX.
Proof. unfold args_ok, INT_MAX. lia. Qed.

(** Under [args_ok] the policy never reads outside a buffer. *)
Lemma read_policy_is_Some a g_id : args_ok a → is_Some (read_policy a g_id).
Proof.
  intros (Hn & Hl & Hr & Hw & Hn63 & Hx & Hs & Hrem). unfold read_policy.
  repeat case_decide; repeat case_match; try done;
    apply load_is_Some; lia.
Qed.

Lemma conv_term_is_Some a i j :
  args_ok a → - ka_lhalo a ≤ j ≤ ka_rhalo a → is_Some (conv_term a i j).
Proof.
  intros Hok Hj. unfold conv_term.
  destruct (load_is_Some (ka_s a) (ka_lhalo a + j)) as [c ->].
  { unfold args_ok in Hok. lia. }
  destruct (read_policy_is_Some a (i + j) Hok) as [v ->]. by eexists.
Qed.

Lemma foldl_add_term_None (term : Z → option T) (js : list Z) :
  foldl (add_term term) None js = None.
Proof. induction js; simpl; done. Qed.

Lemma foldl_add_term_ext (f g : Z → option T) acc (js : list Z) :
  (∀ j, j ∈ js → f j = g j) →
  foldl (add_term f) acc js = foldl (add_term g) acc js.
Proof.
  revert acc. induction js as [|j js IH]; intros acc E; simpl; [done|].
  rewrite IH by (intros; apply E; by right).
  unfold add_term at 2 4. rewrite E by left. done.
Qed.

Lemma foldl_add_term_is_Some (f : Z → option T) acc (js : list Z) :
  is_Some acc → (∀ j, j ∈ js → is_Some (f j)) →
  is_Some (foldl (add_term f) acc js).
Proof.
  revert acc. induction js as [|j js IH]; intros acc Hacc E; simpl; [done|].
  apply IH; [|intros; apply E; by right].
  destruct Hacc as [sum ->]. destruct (E j) as [t Ht]; [left|].
  unfold add_term. simpl. rewrite Ht. by eexists.
Qed.

(** The counted loop is the fold over its index range. *)
Lemma sum_loop_foldl (term : Z → option T) cnt j sum :
  - 2 ^ 31 ≤ j → j + Z.of_nat cnt < 2 ^ 31 →
  sum_loop cnt j sum term = foldl (add_term term) (Some sum) (seqZ j (Z.of_nat cnt)).
Proof.
  revert j sum. induction cnt as [|cnt IH]; intros j sum Hlo Hhi; [done|].
  rewrite seqZ_cons by lia.
  replace (Z.pred (Z.of_nat (S cnt))) with (Z.of_nat cnt) by lia.
  cbn [sum_loop foldl]. unfold add_term at 2.
  destruct (term j) as [t|]; cbn [mbind option_bind].
  - rewrite s32_small by lia. rewrite IH by lia. done.
  - by rewrite foldl_add_term_None.
Qed.

Lemma stencil_sum_foldl (term : Z → option T) lh rh :
  0 ≤ lh → 0 ≤ rh → lh + rh < INT_MAX →
  stencil_sum lh rh term =
    foldl (add_term term) (Some sc_zero) (seqZ (- lh) (lh + rh + 1)).
Proof.
  unfold INT_MAX. intros. unfold stencil_sum. rewrite s32_small by lia.
  rewrite sum_loop_foldl by lia. f_equal. f_equal. lia.
Qed.

(** The inner loop of [slow_conv] computes the convolution of the
    specification. *)
Lemma slow_sum_stencil_conv a idx :
  args_ok a → 0 ≤ idx < ka_n a → slow_sum a idx = stencil_conv a idx.
Proof.
  intros Hok Hidx. pose proof Hok as (Hn & Hl & Hr & Hw & Hn63 & _).
  unfold slow_sum, stencil_conv. unfold INT_MAX in *.
  rewrite stencil_sum_foldl by (unfold INT_MAX; lia).
  apply foldl_add_term_ext. intros j Hj%elem_of_seqZ.
  unfold conv_term. unwrap.
  rewrite read_x_read_policy by (unfold INT_MAX; lia). done.
Qed.

Lemma stencil_conv_is_Some a i : args_ok a → is_Some (stencil_conv a i).
Proof.
  intros Hok. unfold stencil_conv.
  apply foldl_add_term_is_Some; [by eexists|].
  intros j Hj%elem_of_seqZ. apply conv_term_is_Some; [done | lia].
Qed.

Lemma contract_at_is_Some a y k :
  args_ok a → 0 ≤ k < Z.of_nat (length y) → is_Some (contract_at a y k).
Proof.
  intros Hok Hk. unfold contract_at.
  destruct (stencil_conv_is_Some a k Hok) as [sum ->].
  destruct (load_is_Some y k Hk) as [yk ->]. by eexists.
Qed.

(** The two last lines of both kernels store the accumulated value. *)
Lemma write_back_Some alpha beta t i sum yi :
  load t i = Some yi →
  ∃ t', write_back alpha beta t i sum = Some t' ∧ length t' = length t ∧
        ∀ k, load t' k =
             if decide (k = i) then Some (accumulate alpha beta yi sum)
             else load t k.
Proof.
  intros Hyi. pose proof (load_Some_lt _ _ _ Hyi) as Hi.
  unfold write_back, accumulate. rewrite Hyi.
  destruct (sc_true alpha); simpl; rewrite store_Some by done;
    (eexists; split; [done|]; split; [by rewrite length_insert|]);
    intros k; eapply load_store; by apply store_Some.
Qed.

Lemma done_on_iff a (P Q : Z → Prop) y t :
  (∀ k, P k ↔ Q k) → done_on a P y t → done_on a Q y t.
Proof.
  intros E [Hlen Hd]. split; [done|]. intros k. destruct (Hd k) as [H1 H2].
  split; intros HQ; [apply H1 | apply H2]; by rewrite E.
Qed.

Lemma done_on_start a y : done_on a (λ _, False) y y.
Proof. split; [done|]. intros k. split; [done | done]. Qed.

(** One more element done: the trip of [slow_conv] at an index that was
    not done yet. *)
Lemma slow_item_done a (P : Z → Prop) y t i :
  args_ok a → ka_n a ≤ Z.of_nat (length y) →
  done_on a P y t → ¬ P i → 0 ≤ i < ka_n a →
  ∃ t', slow_item a t i = Some t' ∧ done_on a (λ k, P k ∨ k = i) y t'.
Proof.
  intros Hok Hlen [Hl Hd] HnP Hi. unfold slow_item.
  rewrite slow_sum_stencil_conv by done.
  destruct (stencil_conv_is_Some a i Hok) as [sum Hsum]. rewrite Hsum. simpl.
  destruct (load_is_Some y i) as [yi Hyi]; [lia|].
  assert (load t i = Some yi) as Hti by (rewrite <- Hyi; by apply Hd).
  destruct (write_back_Some (ka_alpha a) (ka_beta a) t i sum yi Hti)
    as (t' & -> & Hl' & Hload).
  exists t'. split; [done|]. split; [congruence|].
  intros k. rewrite Hload. split.
  - intros [HP | ->].
    + rewrite decide_False by (intros ->; done). by apply Hd.
    + rewrite decide_True by done. unfold contract_at. by rewrite Hsum, Hyi.
  - intros Hn. rewrite decide_False by (intros ->; apply Hn; by right).
    apply Hd. intros HP. apply Hn. by left.
Qed.

Lemma done_on_contract a y t :
  done_on a (λ k, 0 ≤ k < ka_n a) y t → contract a y t.
Proof.
  intros [_ Hd] k. case_decide; by apply Hd.
Qed.

Lemma contract_unique a y t1 t2 : contract a y t1 → contract a y t2 → t1 = t2.
Proof. intros H1 H2. apply load_ext. intros k. by rewrite H1, H2. Qed.

(** [slow_conv] returns, and its output meets the contract. *)
Lemma slow_conv_contract a y :
  args_ok a → ka_n a ≤ Z.of_nat (length y) →
  ∃ y', slow_conv a y = Some y' ∧ length y' = length y ∧ contract a y y'.
Proof.
  intros Hok Hlen. unfold slow_conv, grid_stride_loop.
  destruct (for_each_seqZ_inv (λ i t, done_on a (λ k, 0 ≤ k < i) y t)
              (slow_item a) 0 (ka_n a) y) as (y' & Hrun & Hdone).
  - unfold args_ok in Hok. lia.
  - eapply done_on_iff; [|apply done_on_start]. intros k; simpl. lia.
  - intros i t Hi Ht.
    destruct (slow_item_done a _ y t i Hok Hlen Ht) as (t' & Ht' & Hd');
      [lia | lia |].
    exists t'. split; [done|]. eapply done_on_iff; [|exact Hd'].
    intros k; simpl. lia.
  - exists y'. split; [done|]. split; [apply Hdone|].
    apply done_on_contract. eapply done_on_iff; [|exact Hdone].
    intros k; simpl. lia.
Qed.
End KernelFacts.

(** ** Arithmetic of the tiles *)

Lemma mod_sub_self x B : 0 < B → (x - B) mod B = x mod B.
Proof.
  intros. replace (x - B) with (x + (-1) * B) by lia. apply Z.mod_add. lia.
Qed.

Lemma mod_zero_ge x B : 0 < B → 0 < x → x mod B = 0 → B ≤ x.
Proof.
  intros HB Hx Hm. destruct (decide (x < B)); [|lia].
  rewrite Z.mod_small in Hm by lia. lia.
Qed.

Lemma mod_eq_of_sub k l B :
  0 < B → 0 ≤ l < B → l ≤ k → (k - l) mod B = 0 → k mod B = l.
Proof.
  intros HB Hl Hk Hm.
  pose proof (Z.div_mod (k - l) B) as Hd. rewrite Hm in Hd.
  replace k with (l + (k - l) / B * B) by lia.
  rewrite Z.mod_add by lia. apply Z.mod_small. lia.
Qed.

Lemma sub_of_mod_eq k l B :
  0 < B → 0 ≤ k → k mod B = l → l ≤ k ∧ (k - l) mod B = 0.
Proof.
  intros HB Hk Hm. pose proof (Z.div_mod k B) as Hd.
  pose proof (Z.div_pos k B). assert (0 ≤ k / B) by lia.
  split; [nia|].
  replace (k - l) with (0 + k / B * B) by lia.
  rewrite Z.mod_add by lia. apply Z.mod_0_l. lia.
Qed.

(** Two blocks that share an index are the same block. *)
Lemma in_block_unique g grp1 tr1 grp2 tr2 k :
  0 < local_size g → 0 < num_groups g →
  0 ≤ grp1 < num_groups g → 0 ≤ grp2 < num_groups g →
  in_block g grp1 tr1 k → in_block g grp2 tr2 k → grp1 = grp2 ∧ tr1 = tr2.
Proof.
  unfold in_block. set (B := local_size g). set (G := num_groups g).
  intros HB HG H1 H2 Hk1 Hk2.
  assert ((grp1 + tr1 * G) * B ≤ k < (grp1 + tr1 * G) * B + B) as Ha by lia.
  assert ((grp2 + tr2 * G) * B ≤ k < (grp2 + tr2 * G) * B + B) as Hb by lia.
  assert (grp1 + tr1 * G = grp2 + tr2 * G) as E by nia.
  assert (tr1 = tr2) by nia. subst. lia.
Qed.

(** Every index that is not negative lies in a block. *)
Lemma in_block_cover g k :
  0 < local_size g → 0 < num_groups g → 0 ≤ k →
  ∃ grp tr, 0 ≤ grp < num_groups g ∧ 0 ≤ tr ∧ in_block g grp tr k.
Proof.
  unfold in_block. set (B := local_size g). set (G := num_groups g).
  intros HB HG Hk.
  assert (0 < G * B) as Hgrid by nia.
  pose proof (Z.div_mod k (G * B)) as Hd.
  pose proof (Z.mod_pos_bound k (G * B) Hgrid) as Hm.
  pose proof (Z.div_mod (k mod (G * B)) B) as Hd2.
  pose proof (Z.mod_pos_bound (k mod (G * B)) B HB) as Hm2.
  exists (k mod (G * B) / B), (k / (G * B)).
  split; [split|split].
  - apply Z.div_pos; lia.
  - apply Z.div_lt_upper_bound; lia.
  - apply Z.div_pos; lia.
  - lia.
Qed.

(** ** The tiled kernel *)

Section FastFacts.
Context {T : Type} `{Scalar T}.
Implicit Types (a : kernel_args T) (y t X : list T) (g : launch).

(** The tile-load loop of one work-item writes the slots [i], [i + B], ...
    below the tile size, each with the element the policy gives for it, and
    no other slot. *)
Lemma load_tile_spec a B fuel i j X :
  args_ok a → 0 < B →
  B + ka_lhalo a + ka_rhalo a + B ≤ INT_MAX →
  0 ≤ i →
  Z.max 0 (B + ka_lhalo a + ka_rhalo a - i) + B ≤ Z.of_nat fuel * B →
  - 2 ^ 31 ≤ j → j + (B + ka_lhalo a + ka_rhalo a - i) + B ≤ 2 ^ 31 →
  B + ka_lhalo a + ka_rhalo a ≤ Z.of_nat (length X) →
  ∃ X', load_tile fuel a B i j X = Some X' ∧ length X' = length X ∧
    ∀ k, load X' k =
         if decide (i ≤ k < B + ka_lhalo a + ka_rhalo a ∧ (k - i) mod B = 0)
         then read_policy a (j + (k - i)) else load X k.
Proof.
  intros Hok HB Hmax. unfold INT_MAX in Hmax.
  pose proof Hok as (Hn & Hl & Hr & Hw & Hn63 & _).
  set (tile := B + ka_lhalo a + ka_rhalo a) in *.
  revert i j X. induction fuel as [|fuel IH]; intros i j X Hi Hfuel Hjlo Hjhi HX.
  { lia. }
  cbn [load_tile]. fold tile.
  replace (s32 (s32 (B + ka_lhalo a) + ka_rhalo a)) with tile
    by (subst tile; unwrap; done).
  destruct (decide (i < tile)) as [Hlt|Hge].
  - replace (i <? tile) with true by (symmetry; apply Z.ltb_lt; lia).
    rewrite read_x_read_policy by (unfold INT_MAX; lia).
    destruct (read_policy_is_Some a j Hok) as [v Hv]. rewrite Hv. simpl.
    rewrite store_Some by lia. simpl. unwrap.
    assert (Z.max 0 (tile - (i + B)) + B ≤ Z.of_nat fuel * B) as Hfuel'.
    { destruct fuel as [|fuel'].
      - change (Z.of_nat 1) with 1 in Hfuel. lia.
      - rewrite !Nat2Z.inj_succ, !Z.mul_succ_l in *.
        assert (0 ≤ Z.of_nat fuel' * B) by nia. lia. }
    destruct (IH (i + B) (j + B) (<[Z.to_nat i := v]> X)) as (X' & -> & Hlen & Hld);
      [lia | done | lia | lia | rewrite length_insert; lia |].
    exists X'. split; [done|]. split; [by rewrite Hlen, length_insert|].
    intros k. rewrite Hld.
    rewrite (load_store X i v _ k) by (apply store_Some; lia).
    replace (k - (i + B)) with (k - i - B) by lia.
    rewrite mod_sub_self by done.
    destruct (decide (k = i)) as [->|Hki].
    + rewrite decide_False by lia.
      rewrite decide_True by (rewrite Z.sub_diag, Z.mod_0_l; lia).
      rewrite Z.sub_diag, Z.add_0_r. done.
    + destruct (decide (i + B ≤ k < tile ∧ (k - i) mod B = 0)) as [Hin|Hnin].
      * rewrite decide_True by lia. f_equal. lia.
      * rewrite decide_False; [done|]. intros [Hk Hm].
        apply Hnin. split; [|done].
        pose proof (mod_zero_ge (k - i) B HB). lia.
  - replace (i <? tile) with false by (symmetry; apply Z.ltb_ge; lia).
    exists X. split; [done|]. split; [done|]. intros k.
    rewrite decide_False by lia. done.
Qed.

(** After the first barrier the input tile is loaded. *)
Lemma load_phase_spec g a grp pos X :
  args_ok a → 0 < local_size g → 0 ≤ grp → 0 ≤ pos →
  grp * local_size g + pos + 2 * local_size g + ka_lhalo a + ka_rhalo a ≤ INT_MAX →
  local_size g + ka_lhalo a + ka_rhalo a ≤ Z.of_nat (length X) →
  ∃ X',
    for_each (seqZ 0 (local_size g)) (λ X l,
        load_tile (S (length X)) a (s32 (local_size g)) (s32 l)
          (s32 (s64 (s64 (u64 (grp * local_size g + l) + pos) - ka_lhalo a))) X) X
      = Some X' ∧
    length X' = length X ∧
    ∀ k, 0 ≤ k < local_size g + ka_lhalo a + ka_rhalo a →
         load X' k = read_policy a (grp * local_size g + pos + k - ka_lhalo a).
Proof.
  set (B := local_size g). intros Hok HB Hgrp Hpos Hmax HX.
  unfold INT_MAX in Hmax. pose proof Hok as (Hn & Hl & Hr & Hw & Hn63 & _).
  set (tile := B + ka_lhalo a + ka_rhalo a) in *.
  set (b := grp * B + pos) in *.
  assert (0 ≤ grp * B) by nia.
  destruct (for_each_seqZ_inv
    (λ l Xl, length Xl = length X ∧
             ∀ k, 0 ≤ k < tile → k mod B < l →
                  load Xl k = read_policy a (b + k - ka_lhalo a))
    (λ X l, load_tile (S (length X)) a (s32 B) (s32 l)
              (s32 (s64 (s64 (u64 (grp * B + l) + pos) - ka_lhalo a))) X)
    0 B X) as (X' & Hrun & Hlen & Hld).
  - lia.
  - split; [done|]. intros k Hk Hm. pose proof (Z.mod_pos_bound k B HB). lia.
  - intros l Xl Hlr [Hlen Hld]. unwrap.
    destruct (load_tile_spec a B (S (length Xl)) l (grp * B + l + pos - ka_lhalo a) Xl)
      as (X' & -> & Hlen' & Hld'); try done; try lia.
    { unfold INT_MAX. subst tile. lia. }
    { fold tile. nia. }
    exists X'. split; [done|]. split; [congruence|].
    intros k Hk Hm. rewrite Hld'. fold tile.
    destruct (decide (k mod B = l)) as [Hkl|Hkl].
    + destruct (sub_of_mod_eq k l B HB) as [Hle Hz]; [lia | done |].
      rewrite decide_True by lia. f_equal. subst b. lia.
    + rewrite decide_False.
      * apply Hld; lia.
      * intros [Hk' Hz]. apply Hkl. apply mod_eq_of_sub; lia.
  - exists X'. split; [exact Hrun|]. split; [done|].
    intros k Hk. apply Hld; [done|]. pose proof (Z.mod_pos_bound k B HB). lia.
Qed.

(** Between the barriers a work-item of the tiled kernel does to [y] what
    the trip of the generic kernel does at the same output index. *)
Lemma fast_item_slow_item a B b l Sl Xl y :
  args_ok a → tiles_loaded a B b Sl Xl →
  0 ≤ l < B → 0 ≤ b → b + B + ka_lhalo a + ka_rhalo a ≤ INT_MAX →
  fast_item a Sl Xl l (b + l) y =
    if decide (b + l < ka_n a) then slow_item a y (b + l) else Some y.
Proof.
  intros Hok [HS HX] Hl Hb Hmax. unfold INT_MAX in Hmax.
  pose proof Hok as (Hn & Hlh & Hrh & Hw & Hn63 & _).
  unfold fast_item. unwrap.
  destruct (decide (b + l < ka_n a)) as [Hlt|Hge].
  - replace (b + l <? ka_n a) with true by (symmetry; apply Z.ltb_lt; lia).
    unfold slow_item. rewrite slow_sum_stencil_conv by (done || lia).
    unfold stencil_conv. rewrite stencil_sum_foldl by (unfold INT_MAX; lia).
    f_equal. apply foldl_add_term_ext. intros j Hj%elem_of_seqZ.
    unfold conv_term. unwrap. rewrite HS, HX by lia.
    replace (b + (ka_lhalo a + l + j) - ka_lhalo a) with (b + l + j) by lia.
    done.
  - replace (b + l <? ka_n a) with false by (symmetry; apply Z.ltb_ge; lia).
    done.
Qed.

(** One trip of the outer loop of a work-group: the indices of its block
    below [n] get done. *)
Lemma group_trip_done g a grp tr Sl X (P : Z → Prop) y t :
  args_ok a → launch_ok g a Sl X → ka_n a ≤ Z.of_nat (length y) →
  0 ≤ grp < num_groups g → 0 ≤ tr →
  tr * (num_groups g * local_size g) < ka_n a →
  (∀ k, 0 ≤ k < ka_lhalo a + ka_rhalo a + 1 → load Sl k = load (ka_s a) k) →
  done_on a P y t → (∀ k, in_block g grp tr k → ¬ P k) →
  ∃ X' t',
    group_trip g a grp (tr * (num_groups g * local_size g)) Sl (X, t) = Some (X', t') ∧
    length X' = length X ∧
    done_on a (λ k, P k ∨ (in_block g grp tr k ∧ k < ka_n a)) y t'.
Proof.
  intros Hok (HG & HB & Hmax & HSl & HXl) Hlen Hgrp Htr Hpos HS Hdone Hfresh.
  unfold INT_MAX in Hmax. pose proof Hok as (Hn & Hlh & Hrh & Hw & Hn63 & _).
  set (B := local_size g) in *. set (G := num_groups g) in *.
  set (pos := tr * (G * B)) in *. set (b := grp * B + pos).
  assert (0 ≤ pos) by (subst pos; nia).
  assert (0 ≤ grp * B ∧ grp * B + B ≤ G * B) as [??] by nia.
  unfold group_trip. cbn [fst snd]. fold B.
  destruct (load_phase_spec g a grp pos X) as (X' & Hrun & HlenX & Hld);
    try done; try (fold B; unfold INT_MAX; lia).
  fold B in Hrun. rewrite Hrun. cbn [mbind option_bind].
  assert (tiles_loaded a B b Sl X') as Htiles.
  { split; [done|]. intros k Hk. rewrite Hld by (fold B; lia). done. }
  destruct (for_each_seqZ_inv
    (λ l t, done_on a (λ k, P k ∨ (b ≤ k < b + l ∧ k < ka_n a)) y t)
    (λ y l, fast_item a Sl X' (s32 l) (s64 (u64 (grp * B + l) + pos)) y)
    0 B t) as (t' & Hrun' & Hdone').
  - lia.
  - eapply done_on_iff; [|exact Hdone]. intros k. simpl. intuition lia.
  - intros l t1 Hl Ht1. unwrap.
    replace (grp * B + l + pos) with (b + l) by (subst b; lia).
    rewrite (fast_item_slow_item a B b l Sl X') by (done || unfold INT_MAX; lia).
    destruct (decide (b + l < ka_n a)) as [Hlt|Hge].
    + destruct (slow_item_done a _ y t1 (b + l) Hok Hlen Ht1) as (t2 & -> & Ht2).
      * intros [HP | Hblk]; [|lia].
        apply (Hfresh (b + l)); [|done]. unfold in_block. fold B G pos. lia.
      * lia.
      * exists t2. split; [done|]. eapply done_on_iff; [|exact Ht2].
        intros k. simpl. intuition lia.
    + exists t1. split; [done|]. eapply done_on_iff; [|exact Ht1].
      intros k. simpl. intuition lia.
  - rewrite Hrun'. cbn [mbind option_bind]. exists X', t'.
    split; [done|]. split; [done|]. eapply done_on_iff; [|exact Hdone'].
    intros k. unfold in_block. fold B G pos. simpl. intuition lia.
Qed.

(** The outer loop of a work-group, from trip [tr] on: the indices of all
    its later blocks below [n] get done. *)
Lemma group_loop_done g a grp Sl fuel tr X (P : Z → Prop) y t :
  args_ok a → launch_ok g a Sl X → ka_n a ≤ Z.of_nat (length y) →
  0 ≤ grp < num_groups g → 0 ≤ tr →
  tr * (num_groups g * local_size g) < ka_n a + num_groups g * local_size g →
  Z.max 0 (ka_n a - tr * (num_groups g * local_size g))
    + num_groups g * local_size g
    ≤ Z.of_nat fuel * (num_groups g * local_size g) →
  (∀ k, 0 ≤ k < ka_lhalo a + ka_rhalo a + 1 → load Sl k = load (ka_s a) k) →
  done_on a P y t →
  (∀ k tr', tr ≤ tr' → in_block g grp tr' k → ¬ P k) →
  ∃ X' t',
    group_loop fuel g a grp (tr * (num_groups g * local_size g)) Sl (X, t)
      = Some (X', t') ∧
    done_on a (λ k, P k ∨ ∃ tr', tr ≤ tr' ∧ in_block g grp tr' k ∧ k < ka_n a) y t'.
Proof.
  intros Hok Hlaunch Hlen Hgrp. pose proof Hlaunch as (HG & HB & Hmax & HSl & _).
  unfold INT_MAX in Hmax. pose proof Hok as (Hn & Hlh & Hrh & Hw & Hn63 & _).
  set (B := local_size g) in *. set (G := num_groups g) in *.
  assert (0 < G * B) as Hgrid by nia.
  revert tr X P t Hlaunch.
  induction fuel as [|fuel IH]; intros tr X P t Hlaunch Htr Hpos Hfuel HS Hdone Hfresh.
  { lia. }
  cbn [group_loop].
  assert (0 ≤ tr * (G * B)) by nia. unwrap.
  destruct (decide (tr * (G * B) < ka_n a)) as [Hlt|Hge].
  - replace (_ <? _) with true by (symmetry; apply Z.ltb_lt; lia).
    destruct (group_trip_done g a grp tr Sl X P y t) as (X1 & t1 & Hrun & HlenX & Hd1);
      try done.
    { intros k Hk. by apply (Hfresh k tr). }
    fold B G in Hrun. rewrite Hrun. cbn [mbind option_bind].
    replace (s64 (tr * (G * B) + global_size g)) with ((tr + 1) * (G * B))
      by (unfold global_size; fold B G; unwrap; lia).
    destruct (IH (tr + 1) X1 (λ k, P k ∨ (in_block g grp tr k ∧ k < ka_n a)) t1)
      as (X' & t' & Hrun' & Hd'); try done; try lia.
    + destruct Hlaunch as (? & ? & ? & ? & ?). repeat split; try done. lia.
    + destruct fuel as [|fuel'].
      * change (Z.of_nat 1) with 1 in Hfuel. lia.
      * rewrite !Nat2Z.inj_succ, !Z.mul_succ_l in *.
        assert (0 ≤ Z.of_nat fuel' * (G * B)) by nia. lia.
    + intros k tr' Htr' Hblk [HP | [Hblk' _]].
      * by apply (Hfresh k tr'); [lia | |].
      * destruct (in_block_unique g grp tr grp tr' k); try done. lia.
    + exists X', t'. split; [done|]. eapply done_on_iff; [|exact Hd'].
      intros k. simpl. split.
      * intros [[HP | [Hblk Hk]] | (tr' & Htr' & Hblk & Hk)]; [by left | |].
        -- right. exists tr. split; [lia | done].
        -- right. exists tr'. split; [lia | done].
      * intros [HP | (tr' & Htr' & Hblk & Hk)]; [by left; left|].
        destruct (decide (tr' = tr)) as [->|Hne].
        -- left. by right.
        -- right. exists tr'. split; [lia | done].
  - replace (_ <? _) with false by (symmetry; apply Z.ltb_ge; lia).
    exists X, t. split; [done|]. eapply done_on_iff; [|exact Hdone].
    intros k. simpl. split; [by left|].
    intros [HP | (tr' & Htr' & Hblk & Hk)]; [done|].
    unfold in_block in Hblk. fold B G in Hblk.
    assert (tr * (G * B) ≤ tr' * (G * B)) by nia.
    assert (0 ≤ grp * B) by nia. lia.
Qed.

(** [fast_conv] returns, and its output meets the contract. *)
Lemma fast_conv_contract g a S0 X0 y :
  args_ok a → launch_ok g a S0 X0 → ka_n a ≤ Z.of_nat (length y) →
  ∃ y', fast_conv g a S0 X0 y = Some y' ∧ length y' = length y ∧ contract a y y'.
Proof.
  intros Hok Hlaunch Hlen. pose proof Hlaunch as (HG & HB & Hmax & HSl & HXl).
  unfold INT_MAX in Hmax. pose proof Hok as (Hn & Hlh & Hrh & Hw & Hn63 & Hx & Hs & _).
  set (B := local_size g) in *. set (G := num_groups g) in *.
  assert (0 < G * B) as Hgrid by nia.
  unfold fast_conv. fold G.
  destruct (for_each_seqZ_inv
    (λ grp t, done_on a (λ k, ∃ q tr', 0 ≤ q < grp ∧ 0 ≤ tr' ∧
                                 in_block g q tr' k ∧ k < ka_n a) y t)
    (λ y grp,
       coeffs ← slice (ka_s a) 0 (s32 (s32 (ka_lhalo a + ka_rhalo a) + 1));
       Sl ← write_at S0 0 coeffs;
       Xy ← group_loop (S (Z.to_nat (ka_n a))) g a grp 0 Sl (X0, y);
       Some Xy.2)
    0 G y) as (y' & Hrun & Hdone).
  - lia.
  - eapply done_on_iff; [|apply done_on_start]. intros k. simpl. split; [done|].
    intros (q & tr' & ? & _). lia.
  - intros grp t Hgrp Ht. unwrap.
    rewrite slice_Some by lia. cbn [mbind option_bind].
    set (coeffs := take _ _).
    assert (Z.of_nat (length coeffs) = ka_lhalo a + ka_rhalo a + 1) as Hcl.
    { apply (slice_length (ka_s a) 0). apply slice_Some; lia. }
    rewrite write_at_Some by lia. cbn [mbind option_bind].
    set (Sl := list_inserts _ _ _).
    assert (∀ k, 0 ≤ k < ka_lhalo a + ka_rhalo a + 1 → load Sl k = load (ka_s a) k) as HS.
    { intros k Hk. subst Sl.
      erewrite load_write_at by (apply write_at_Some; lia).
      rewrite decide_True by lia.
      erewrite load_slice by (apply slice_Some; lia).
      rewrite decide_True by lia. f_equal. lia. }
    destruct (group_loop_done g a grp Sl (S (Z.to_nat (ka_n a))) 0 X0
                (λ k, ∃ q tr', 0 ≤ q < grp ∧ 0 ≤ tr' ∧
                                in_block g q tr' k ∧ k < ka_n a) y t)
      as (X' & t' & Hrun & Hd); try done; try (fold B G; lia).
    + repeat split; try done.
      subst Sl. rewrite length_inserts. done.
    + fold B G. rewrite Nat2Z.inj_succ, Z2Nat.id, Z.mul_succ_l by lia. nia.
    + intros k tr' Htr' Hblk (q & tr'' & Hq & Htr'' & Hblk' & _).
      destruct (in_block_unique g grp tr' q tr'' k); try done; lia.
    + change (0 * (num_groups g * local_size g)) with 0 in Hrun.
      rewrite Hrun. cbn [mbind option_bind snd].
      exists t'. split; [done|]. eapply done_on_iff; [|exact Hd].
      intros k. simpl. split.
      * intros [(q & tr' & Hq & Htr' & Hblk & Hk) | (tr' & Htr' & Hblk & Hk)].
        -- exists q, tr'. split; [lia | done].
        -- exists grp, tr'. split; [lia | done].
      * intros (q & tr' & Hq & Htr' & Hblk & Hk).
        destruct (decide (q = grp)) as [->|Hne].
        -- right. by exists tr'.
        -- left. exists q, tr'. split; [lia | done].
  - exists y'. split; [done|]. split; [apply Hdone|].
    apply done_on_contract. eapply done_on_iff; [|exact Hdone].
    intros k. simpl. split.
    + intros (q & tr' & Hq & Htr' & Hblk & Hk). unfold in_block in Hblk.
      fold B G in Hblk. assert (0 ≤ q * B ∧ 0 ≤ tr' * (G * B)) by nia. lia.
    + intros Hk. destruct (in_block_cover g k) as (q & tr' & Hq & Htr' & Hblk);
        try done; [lia|].
      exists q, tr'. fold G in Hq. split; [lia|]. split; [done|]. split; [done | lia].
Qed.

(** Both kernels return the same output. *)
Lemma fast_conv_slow_conv g a S0 X0 y :
  args_ok a → launch_ok g a S0 X0 → ka_n a ≤ Z.of_nat (length y) →
  fast_conv g a S0 X0 y = slow_conv a y.
Proof.
  intros Hok Hlaunch Hlen.
  destruct (fast_conv_contract g a S0 X0 y) as (y1 & -> & _ & H1); try done.
  destruct (slow_conv_contract a y) as (y2 & -> & _ & H2); try done.
  f_equal. by apply (contract_unique a y).
Qed.
End FastFacts.

(** ** Construction and strategy selection *)

Section CtorFacts.
Context {T : Type} `{Scalar T}.
Variable uninit : nat → T.
Variable host_alloc : Z → bool.
Implicit Types (q : list device) (b : stencil_base T) (st : stencil T)
  (x y : vector T).

Lemma stencil_base_ctor_aborts q width center (coeffs : list T) :
  host_alloc (u64 (Z.of_nat (length q) * u32 (width - 1))) = true →
  q = [] ∨ width = 0 ∨ width ≤ center ∨ s32 center < 0
    ∨ s32 (u32 (u32 (width - center) - 1)) < 0 →
  ∃ which,
    stencil_base_ctor uninit host_alloc q width center coeffs = Aborted which.
Proof.
  intros Hmem Hbad. unfold stencil_base_ctor. rewrite Hmem. cbn [negb].
  repeat case_match; try by eexists.
  exfalso.
  destruct Hbad as [-> | [-> | [Hge | [Hl | Hr]]]]; simpl in *; try done; lia.
Qed.

Lemma stencil_base_ctor_builds q width center (coeffs : list T) :
  q ≠ [] → 1 ≤ width < 2 ^ 32 → 0 ≤ center < width →
  center ≤ INT_MAX → width - center - 1 ≤ INT_MAX →
  host_alloc (u64 (Z.of_nat (length q) * (width - 1))) = true →
  stencil_base_ctor uninit host_alloc q width center coeffs =
    Built {| queue := q;
             hbuf := replicate (Z.to_nat (u64 (Z.of_nat (length q) * (width - 1)))) sc_zero;
             dbuf := (λ _, fresh uninit width) <$> q;
             s := (λ _, coeffs) <$> q;
             lhalo := center;
             rhalo := width - center - 1 |}.
Proof.
  unfold INT_MAX. intros Hq Hw Hc Hl Hr Hmem. unfold stencil_base_ctor. unwrap.
  rewrite Hmem. cbn [negb].
  destruct q as [|dev q]; [done|].
  repeat case_match; try (simpl in *; lia). done.
Qed.

Lemma init_lookup b width d dev :
  queue b !! d = Some dev →
  st_conv (init b width) !! d = Some (init_device b width dev).1 ∧
  st_loc_s (init b width) !! d = Some (init_device b width dev).2.1 ∧
  st_loc_x (init b width) !! d = Some (init_device b width dev).2.2.
Proof.
  intros Hd. unfold init. simpl.
  rewrite !list_lookup_fmap, Hd. done.
Qed.

(** A call of [convolve] replaces the halo buffers and nothing else. *)
Lemma convolve_frame st x y alpha beta st' y' log :
  convolve uninit st x y alpha beta = Some (st', y', log) →
  st_conv st' = st_conv st ∧ st_loc_s st' = st_loc_s st ∧
  st_loc_x st' = st_loc_x st ∧ queue (base st') = queue (base st) ∧
  s (base st') = s (base st) ∧
  lhalo (base st') = lhalo (base st) ∧ rhalo (base st') = rhalo (base st).
Proof.
  unfold convolve. intros Hc.
  destruct (exchange_halos (base st) x) as [hs|]; [|done]. simpl in Hc.
  destruct (for_each _ _ _) as [y1|]; [|done]. simpl in Hc.
  injection Hc as <- _ _. done.
Qed.
End CtorFacts.

(** ** The vector collaborator *)

Section VectorFacts.
Context {T : Type}.
Implicit Types (x : vector T).

Lemma part_start_0 x : part_start x 0 = 0.
Proof. done. Qed.

Lemma part_start_nonneg x d : 0 ≤ part_start x d.
Proof. unfold part_start. lia. Qed.

Lemma part_start_le x d : part_start x d ≤ vec_size x.
Proof.
  unfold part_start, vec_size.
  rewrite <- (take_drop (Z.to_nat d) x) at 2.
  rewrite concat_app, length_app. lia.
Qed.

Lemma part_start_succ x d :
  0 ≤ d < Z.of_nat (length x) →
  part_start x (d + 1) = part_start x d + part_size x d.
Proof.
  intros Hd. unfold part_start, part_size.
  destruct (lookup_lt_is_Some_2 x (Z.to_nat d)) as [xd Hxd]; [lia|].
  rewrite Hxd. simpl.
  replace (Z.to_nat (d + 1)) with (S (Z.to_nat d)) by lia.
  rewrite (take_S_r _ _ _ Hxd), concat_app, length_app. simpl.
  rewrite app_nil_r. lia.
Qed.

Lemma part_start_end x d :
  Z.of_nat (length x) ≤ d → part_start x d = vec_size x.
Proof.
  intros Hd. unfold part_start, vec_size. rewrite take_ge by lia. done.
Qed.

(** The elements of a partition are those of the vector from its start
    offset on. *)
Lemma part_elem x d xd k :
  0 ≤ d → x !! Z.to_nat d = Some xd → 0 ≤ k < Z.of_nat (length xd) →
  load xd k = vec_elem x (part_start x d + k).
Proof.
  intros Hd Hxd Hk. unfold vec_elem, part_start.
  rewrite !load_lookup by lia.
  rewrite <- (take_drop_middle x (Z.to_nat d) xd Hxd) at 2.
  rewrite concat_app. simpl.
  rewrite lookup_app_r by lia.
  rewrite lookup_app_l by lia. f_equal. lia.
Qed.
End VectorFacts.

(** ** The halo exchange *)

Section HaloFacts.
Context {T : Type} `{Scalar T}.
Implicit Types (b : stencil_base T) (x : vector T) (h : list T)
  (st : halo_state T).

Lemma part_size_le x d :
  0 ≤ d → part_start x d + part_size x d ≤ vec_size x.
Proof.
  intros Hd. destruct (decide (d < Z.of_nat (length x))).
  - rewrite <- part_start_succ by lia. apply part_start_le.
  - unfold part_size. rewrite lookup_ge_None_2 by lia. simpl.
    pose proof (part_start_le x d). lia.
Qed.

Lemma decide_if_ext {A} (P Q : Prop) `{Decision P, Decision Q} (u v w : A) :
  (P ↔ Q) → (P → u = v) →
  (if decide P then u else w) = (if decide Q then v else w).
Proof. intros E Huv. do 2 case_decide; tauto. Qed.

Lemma decide_else_ext {A} (P Q : Prop) `{Decision P, Decision Q} (u v w : A) :
  (P ↔ Q) → (¬ P → u = v) →
  (if decide P then w else u) = (if decide Q then w else v).
Proof. intros E Huv. do 2 case_decide; tauto. Qed.

(** The index of slot [k] of segment [d'] lies in a range of segment [d]
    exactly when the segments are the same and [k] lies in the range. *)
Lemma seg_index w d d' k lo hi :
  0 ≤ k < w → 0 ≤ lo → hi ≤ w →
  d * w + lo ≤ d' * w + k < d * w + hi ↔ d' = d ∧ lo ≤ k < hi.
Proof.
  intros Hk Hlo Hhi. split.
  - intros Hr. assert (d' = d) by nia. subst. lia.
  - intros [-> ?]. lia.
Qed.

(** [x.read_data(begin, size, &h[d * w + lo])]. *)
Lemma copy_to_segment x h w nq d lo begin size :
  0 ≤ d < nq → Z.of_nat (length h) = nq * w →
  0 ≤ lo → lo + size ≤ w → 0 ≤ begin → 0 ≤ size → begin + size ≤ vec_size x →
  ∃ data h', read_data x begin size = Some data ∧
        write_at h (d * w + lo) data = Some h' ∧
        length h' = length h ∧
        ∀ d' k, 0 ≤ k < w →
          load h' (d' * w + k) =
            if decide (d' = d ∧ lo ≤ k < lo + size)
            then vec_elem x (begin + (k - lo)) else load h (d' * w + k).
Proof.
  intros Hd Hlen Hlo Hhi Hb Hs Hx. unfold read_data.
  rewrite slice_Some by (unfold vec_size in Hx; lia).
  set (data := take _ _).
  assert (Z.of_nat (length data) = size) as Hdl.
  { apply (slice_length (concat x) begin). apply slice_Some; unfold vec_size in Hx; lia. }
  assert (0 ≤ d * w ∧ d * w + w ≤ nq * w) as [??] by nia.
  exists data, (list_inserts (Z.to_nat (d * w + lo)) data h).
  split; [done|]. split; [apply write_at_Some; lia|].
  split; [by rewrite length_inserts|].
  intros d' k Hk.
  erewrite load_write_at by (apply write_at_Some; lia). rewrite Hdl.
  rewrite (decide_ext _ (d' = d ∧ lo ≤ k < lo + size))
    by (rewrite <- (seg_index w d d' k lo (lo + size)) by lia; lia).
  case_decide as Hc; [|done]. destruct Hc as [-> Hc].
  erewrite load_slice by (apply slice_Some; unfold vec_size in Hx; lia).
  rewrite decide_True by lia. unfold vec_elem. f_equal. lia.
Qed.

(** [std::fill(&h[d * w + lo], &h[d * w + hi], v)]. *)
Lemma fill_segment h w nq d lo hi v first last :
  first = d * w + lo → last = d * w + hi →
  0 ≤ d < nq → Z.of_nat (length h) = nq * w → 0 ≤ lo ≤ hi → hi ≤ w →
  ∃ h', fill h first last v = Some h' ∧
        length h' = length h ∧
        ∀ d' k, 0 ≤ k < w →
          load h' (d' * w + k) =
            if decide (d' = d ∧ lo ≤ k < hi) then Some v else load h (d' * w + k).
Proof.
  intros -> -> Hd Hlen Hlo Hhi.
  assert (0 ≤ d * w ∧ d * w + w ≤ nq * w) as [??] by nia.
  rewrite fill_Some by lia.
  eexists. split; [done|].
  split; [by rewrite length_inserts|].
  intros d' k Hk. erewrite load_fill by (apply fill_Some; lia).
  apply decide_ext, seg_index; lia.
Qed.

Lemma left_range_eq b x d :
  halos_ok b x → 0 < lhalo b →
  left_range b x d =
    (Z.max 0 (part_start x d - lhalo b), Z.min (lhalo b) (part_start x d)).
Proof.
  intros (Hl & Hr & Hlr & Hnq & Hw & _ & _ & _ & _ & Hx) Hpos.
  unfold INT_MAX in Hlr.
  pose proof (part_start_nonneg x d). pose proof (part_start_le x d).
  unfold left_range. unwrap.
  destruct (Z.leb_spec (lhalo b) (part_start x d)); unwrap; f_equal; lia.
Qed.

Lemma right_range_eq b x d :
  halos_ok b x → 0 ≤ d < nqueue b →
  right_range b x d =
    (part_start x (d + 1),
     Z.min (rhalo b) (vec_size x - part_start x (d + 1))).
Proof.
  intros (Hl & Hr & Hlr & Hnq & Hw & _ & _ & _ & _ & Hx) Hd.
  unfold INT_MAX in Hlr.
  pose proof (part_start_nonneg x (d + 1)). pose proof (part_start_le x (d + 1)).
  unfold right_range. unwrap. f_equal. lia.
Qed.

Lemma has_left_halo_true b d : has_left_halo b d = true ↔ 0 < d ∧ 0 < lhalo b.
Proof. unfold has_left_halo. rewrite andb_true_iff, !Z.ltb_lt. done. Qed.

Lemma has_right_halo_true b d :
  0 ≤ d < nqueue b → nqueue b < 2 ^ 31 →
  has_right_halo b d = true ↔ d + 1 < nqueue b ∧ 0 < rhalo b.
Proof.
  intros. unfold has_right_halo. unwrap. rewrite andb_true_iff, !Z.ltb_lt. done.
Qed.

(** The trip of the first loop for partition [d] fills the slots of its
    segment whose global index lies in the vector. *)
Lemma read_step_spec b x st d :
  halos_ok b x → 0 < lhalo b + rhalo b → 0 ≤ d < nqueue b →
  Z.of_nat (length (hs_hbuf st)) = nqueue b * (lhalo b + rhalo b) →
  ∃ st', read_step b x (lhalo b + rhalo b) st d = Some st' ∧
    hs_dbuf st' = hs_dbuf st ∧ length (hs_hbuf st') = length (hs_hbuf st) ∧
    ∀ d' k, 0 ≤ k < lhalo b + rhalo b →
      load (hs_hbuf st') (d' * (lhalo b + rhalo b) + k) =
        if decide (d' = d ∧ halo_read b x d k)
        then vec_elem x (halo_index b x d k)
        else load (hs_hbuf st) (d' * (lhalo b + rhalo b) + k).
Proof.
  intros Hok Hw Hd Hlen.
  pose proof Hok as (Hl & Hr & Hlr & Hnq & Hnw & _ & _ & _ & Hxl & Hx).
  unfold INT_MAX in Hlr. set (w := lhalo b + rhalo b) in *.
  set (nq := nqueue b) in *.
  assert (0 ≤ d * w ∧ d * w + w ≤ nq * w ∧ nq * w + w < 2 ^ 31) as (? & ? & ?) by nia.
  pose proof (part_start_nonneg x d). pose proof (part_start_le x d).
  pose proof (part_start_nonneg x (d + 1)). pose proof (part_start_le x (d + 1)).
  unfold read_step.
  destruct (Z.eqb_spec (part_size x d) 0) as [Hempty|Hne].
  { exists st. split; [done|]. split; [done|]. split; [done|].
    intros d' k Hk. rewrite decide_False; [done|].
    intros [_ [[Hp _] _]]. done. }
  (* the left neighbour *)
  assert (∃ st1,
    (if has_left_halo b d then
       let '(begin, size) := left_range b x d in
       data ← read_data x begin size;
       h ← write_at (hs_hbuf st) (u64 (u32 (u32 (d * w) + lhalo b) - size)) data;
       Some (emit (EvReadData begin size
                     (u64 (u32 (u32 (d * w) + lhalo b) - size)))
                  (set_hbuf h st))
     else Some st) = Some st1 ∧
    hs_dbuf st1 = hs_dbuf st ∧ length (hs_hbuf st1) = length (hs_hbuf st) ∧
    ∀ d' k, 0 ≤ k < w →
      load (hs_hbuf st1) (d' * w + k) =
        if decide (d' = d ∧ 0 < d ∧ k < lhalo b ∧ 0 ≤ part_start x d - lhalo b + k)
        then vec_elem x (part_start x d - lhalo b + k)
        else load (hs_hbuf st) (d' * w + k)) as (st1 & -> & Hdb1 & Hlen1 & Hld1).
  { destruct (has_left_halo b d) eqn:HL.
    - apply has_left_halo_true in HL. rewrite left_range_eq by (done || lia).
      cbn zeta. unwrap.
      set (size := Z.min (lhalo b) (part_start x d)).
      set (begin := Z.max 0 (part_start x d - lhalo b)).
      replace (d * w + lhalo b - size) with (d * w + (lhalo b - size)) by lia.
      destruct (copy_to_segment x (hs_hbuf st) w nq d (lhalo b - size) begin size)
        as (data & h1 & Hrd & Hwr & Hlen1 & Hld1); try lia.
      rewrite Hrd. cbn [mbind option_bind]. rewrite Hwr. cbn [mbind option_bind].
      eexists. split; [done|]. split; [done|]. split; [done|].
      intros d' k Hk. cbn. rewrite Hld1 by done.
      apply decide_if_ext; [subst size; lia|]. intros. f_equal. subst begin. lia.
    - exists st. split; [done|]. split; [done|]. split; [done|].
      intros d' k Hk. rewrite decide_False; [done|].
      intros (_ & ? & ? & _).
      assert (has_left_halo b d = true) by (apply has_left_halo_true; lia).
      congruence. }
  cbn [mbind option_bind].
  (* the right neighbour *)
  rewrite <- Hlen1 in Hlen.
  destruct (has_right_halo b d) eqn:HR.
  - apply has_right_halo_true in HR; [|done..].
    rewrite right_range_eq by done. cbn zeta. unwrap.
    set (size := Z.min (rhalo b) (vec_size x - part_start x (d + 1))).
    destruct (copy_to_segment x (hs_hbuf st1) w nq d (lhalo b)
                (part_start x (d + 1)) size)
      as (data & h2 & Hrd & Hwr & Hlen2 & Hld2); try lia.
    rewrite Hrd. cbn [mbind option_bind]. rewrite Hwr. cbn [mbind option_bind].
    eexists. split; [done|]. split; [done|]. split; [cbn; congruence|].
    intros d' k Hk. cbn. rewrite Hld2, Hld1 by done.
    unfold halo_read, halo_live, halo_index. fold nq.
    repeat case_decide; try lia; try done; f_equal; lia.
  - exists st1. split; [done|]. split; [done|]. split; [done|].
    intros d' k Hk. rewrite Hld1 by done.
    assert (¬ (d + 1 < nq ∧ 0 < rhalo b)) as Hnr.
    { intros Hc. apply has_right_halo_true in Hc; [congruence | done..]. }
    unfold halo_read, halo_live, halo_index. fold nq.
    repeat case_decide; try lia; try done; f_equal; lia.
Qed.

(** After the first loop every slot whose global index lies in the vector
    holds the element at that index. *)
Lemma read_phase_spec b x :
  halos_ok b x → 0 < lhalo b + rhalo b →
  ∃ st1,
    for_each (seqZ 0 (nqueue b)) (read_step b x (lhalo b + rhalo b))
      {| hs_hbuf := hbuf b; hs_dbuf := dbuf b; hs_log := [] |} = Some st1 ∧
    hs_dbuf st1 = dbuf b ∧ length (hs_hbuf st1) = length (hbuf b) ∧
    ∀ d k, 0 ≤ d < nqueue b → 0 ≤ k < lhalo b + rhalo b →
      load (hs_hbuf st1) (d * (lhalo b + rhalo b) + k) =
        if decide (halo_read b x d k) then vec_elem x (halo_index b x d k)
        else load (hbuf b) (d * (lhalo b + rhalo b) + k).
Proof.
  intros Hok Hw.
  pose proof Hok as (_ & _ & _ & _ & _ & Hlen & _).
  set (w := lhalo b + rhalo b) in *.
  destruct (for_each_seqZ_inv
    (λ m st, hs_dbuf st = dbuf b ∧ length (hs_hbuf st) = length (hbuf b) ∧
       ∀ d k, 0 ≤ k < w →
         load (hs_hbuf st) (d * w + k) =
           if decide (0 ≤ d < m ∧ halo_read b x d k)
           then vec_elem x (halo_index b x d k)
           else load (hbuf b) (d * w + k))
    (read_step b x w) 0 (nqueue b)
    {| hs_hbuf := hbuf b; hs_dbuf := dbuf b; hs_log := [] |})
    as (st1 & Hrun & Hdb & Hl & Hld).
  - unfold nqueue. lia.
  - split; [done|]. split; [done|]. intros d k Hk. cbn.
    rewrite decide_False by lia. done.
  - intros m st Hm (Hdb & Hl & Hld).
    destruct (read_step_spec b x st m Hok Hw) as (st' & Hrun & Hdb' & Hl' & Hld');
      [lia | lia |].
    exists st'. split; [done|]. split; [congruence|]. split; [congruence|].
    intros d k Hk. rewrite Hld', Hld by done.
    destruct (decide (d = m)) as [->|Hne];
      repeat case_decide; try done; exfalso; psolve.
  - exists st1. split; [done|]. split; [done|]. split; [done|].
    intros d k Hd Hk. rewrite Hld by done.
    apply decide_ext. psolve.
Qed.

Lemma vec_elem_is_Some x i : 0 ≤ i < vec_size x → is_Some (vec_elem x i).
Proof. intros. apply load_is_Some. unfold vec_size in *. lia. Qed.

(** The trip of the third loop for partition [d] fills the remaining slots
    of the sides with a neighbour with the edge element, and uploads the
    segment. *)
Lemma write_step_spec b x st d :
  halos_ok b x → 0 < lhalo b + rhalo b → 0 ≤ d < nqueue b →
  Z.of_nat (length (hs_hbuf st)) = nqueue b * (lhalo b + rhalo b) →
  length (hs_dbuf st) = length (queue b) →
  (∀ buf, hs_dbuf st !! Z.to_nat d = Some buf →
          lhalo b + rhalo b ≤ Z.of_nat (length buf)) →
  (∀ k, 0 ≤ k < lhalo b + rhalo b → halo_read b x d k →
        load (hs_hbuf st) (d * (lhalo b + rhalo b) + k)
          = vec_elem x (halo_index b x d k)) →
  ∃ st', write_step b x (lhalo b + rhalo b) st d = Some st' ∧
    length (hs_hbuf st') = length (hs_hbuf st) ∧
    (∀ d' k, 0 ≤ k < lhalo b + rhalo b →
       load (hs_hbuf st') (d' * (lhalo b + rhalo b) + k) =
         if decide (d' = d ∧ halo_live b x d k ∧ ¬ halo_read b x d k)
         then clamp_read x (halo_index b x d k)
         else load (hs_hbuf st) (d' * (lhalo b + rhalo b) + k)) ∧
    length (hs_dbuf st') = length (hs_dbuf st) ∧
    (∀ i, i ≠ Z.to_nat d → hs_dbuf st' !! i = hs_dbuf st !! i) ∧
    (if decide (uploads b x d) then
       ∃ old new, hs_dbuf st !! Z.to_nat d = Some old ∧
         hs_dbuf st' !! Z.to_nat d = Some new ∧ length new = length old ∧
         ∀ k, load new k =
              if decide (0 ≤ k < lhalo b + rhalo b)
              then load (hs_hbuf st') (d * (lhalo b + rhalo b) + k)
              else load old k
     else hs_dbuf st' !! Z.to_nat d = hs_dbuf st !! Z.to_nat d).
Proof.
  intros Hok Hw Hd Hlen Hdlen Hcap Hread.
  pose proof Hok as (Hl & Hr & Hlr & Hnq & Hnw & _ & _ & _ & Hxl & Hx).
  unfold INT_MAX in Hlr. set (w := lhalo b + rhalo b) in *.
  set (nq := nqueue b) in *.
  assert (0 ≤ d * w ∧ d * w + w ≤ nq * w ∧ nq * w + w < 2 ^ 31) as (? & ? & ?) by nia.
  pose proof (part_start_nonneg x d). pose proof (part_start_le x d).
  pose proof (part_start_nonneg x (d + 1)). pose proof (part_start_le x (d + 1)).
  pose proof (part_size_le x d).
  unfold write_step.
  destruct (Z.eqb_spec (part_size x d) 0) as [Hempty|Hne].
  { exists st. split; [done|]. split; [done|]. split.
    { intros d' k Hk. rewrite decide_False; [done|]. intros (_ & [Hp _] & _). done. }
    split; [done|]. split; [done|].
    rewrite decide_False; [done|]. intros [Hp _]. done. }
  assert (0 < vec_size x) as Hvs by (unfold part_size in *; lia).
  (* the left side *)
  assert (∃ st1,
    (if has_left_halo b d then
       let '(begin, size) := left_range b x d in
       if negb (size =? 0) then
         v ← load (hs_hbuf st) (u64 (u32 (u32 (d * w) + lhalo b) - size));
         h ← fill (hs_hbuf st) (u32 (d * w))
               (u64 (u32 (u32 (d * w) + lhalo b) - size)) v;
         Some (emit (EvFill (u32 (d * w))
                       (u64 (u32 (u32 (d * w) + lhalo b) - size)))
                    (set_hbuf h st))
       else
         v ← vec_elem x 0;
         h ← fill (hs_hbuf st) (u32 (d * w))
               (u64 (u32 (u32 (d * w) + lhalo b) - size)) v;
         Some (emit (EvFill (u32 (d * w))
                       (u64 (u32 (u32 (d * w) + lhalo b) - size)))
                    (emit (EvReadElem 0) (set_hbuf h st)))
     else Some st) = Some st1 ∧
    hs_dbuf st1 = hs_dbuf st ∧ length (hs_hbuf st1) = length (hs_hbuf st) ∧
    ∀ d' k, 0 ≤ k < w →
      load (hs_hbuf st1) (d' * w + k) =
        if decide (d' = d ∧ 0 < d ∧ k < lhalo b ∧ part_start x d - lhalo b + k < 0)
        then vec_elem x 0
        else load (hs_hbuf st) (d' * w + k)) as (st1 & -> & Hdb1 & Hlen1 & Hld1).
  { destruct (has_left_halo b d) eqn:HL.
    - apply has_left_halo_true in HL. rewrite left_range_eq by (done || lia).
      cbn zeta. unwrap.
      set (size := Z.min (lhalo b) (part_start x d)).
      destruct (Z.eqb_spec size 0) as [Hz|Hnz]; cbn [negb].
      + destruct (vec_elem_is_Some x 0) as [v Hv]; [lia|]. rewrite Hv.
        cbn [mbind option_bind].
        destruct (fill_segment (hs_hbuf st) w nq d 0 (lhalo b - size) v
                    (d * w) (d * w + lhalo b - size))
          as (h1 & Hf & Hlen1 & Hld1); try lia.
        rewrite Hf. cbn [mbind option_bind].
        eexists. split; [done|]. split; [done|]. split; [done|].
        intros d' k Hk. cbn. rewrite Hld1 by done.
        apply decide_ext. subst size. lia.
      + assert (halo_read b x d (lhalo b - size)) as Hrd.
        { unfold halo_read, halo_live, halo_index.
          rewrite decide_True by lia. subst size. lia. }
        assert (load (hs_hbuf st) (d * w + lhalo b - size)
                = vec_elem x (part_start x d - size)) as ->.
        { replace (d * w + lhalo b - size) with (d * w + (lhalo b - size)) by lia.
          rewrite Hread by (done || lia). f_equal.
          unfold halo_index. rewrite decide_True by lia. lia. }
        destruct (vec_elem_is_Some x (part_start x d - size)) as [v Hv];
          [subst size; lia|].
        rewrite Hv. cbn [mbind option_bind].
        destruct (fill_segment (hs_hbuf st) w nq d 0 (lhalo b - size) v
                    (d * w) (d * w + lhalo b - size))
          as (h1 & Hf & Hlen1 & Hld1); try lia.
        rewrite Hf. cbn [mbind option_bind].
        eexists. split; [done|]. split; [done|]. split; [done|].
        intros d' k Hk. cbn. rewrite Hld1 by done.
        apply decide_if_ext; [subst size; lia|].
        intros. rewrite <- Hv. f_equal. subst size. lia.
    - exists st. split; [done|]. split; [done|]. split; [done|].
      intros d' k Hk. rewrite decide_False; [done|].
      intros (_ & ? & ? & _).
      assert (has_left_halo b d = true) by (apply has_left_halo_true; lia).
      congruence. }
  cbn [mbind option_bind].
  rewrite <- Hlen1 in Hlen.
  assert (∀ k, 0 ≤ k < w → halo_read b x d k →
            load (hs_hbuf st1) (d * w + k) = vec_elem x (halo_index b x d k))
    as Hread1.
  { intros k Hk Hrd. rewrite Hld1 by done. rewrite decide_False; [by apply Hread|].
    unfold halo_read, halo_live, halo_index in Hrd.
    case_decide; lia. }
  (* the right side *)
  lazymatch goal with
  | |- ∃ st', (?e ≫= _) = Some st' ∧ _ =>
    assert (∃ st2, e = Some st2 ∧
      hs_dbuf st2 = hs_dbuf st1 ∧ length (hs_hbuf st2) = length (hs_hbuf st1) ∧
      ∀ d' k, 0 ≤ k < w →
        load (hs_hbuf st2) (d' * w + k) =
          if decide (d' = d ∧ d + 1 < nq ∧ lhalo b ≤ k ∧
                     vec_size x ≤ part_start x (d + 1) + (k - lhalo b))
          then vec_elem x (vec_size x - 1)
          else load (hs_hbuf st1) (d' * w + k))
      as (st2 & -> & Hdb2 & Hlen2 & Hld2)
  end.
  { destruct (has_right_halo b d) eqn:HR.
    - apply has_right_halo_true in HR; [|done..].
      rewrite right_range_eq by done. cbn zeta. unwrap.
      set (size := Z.min (rhalo b) (vec_size x - part_start x (d + 1))).
      destruct (Z.eqb_spec size 0) as [Hz|Hnz]; cbn [negb].
      + destruct (vec_elem_is_Some x (vec_size x - 1)) as [v Hv]; [lia|]. rewrite Hv.
        cbn [mbind option_bind].
        destruct (fill_segment (hs_hbuf st1) w nq d (lhalo b + size) w v
                    (d * w + lhalo b + size) ((d + 1) * w))
          as (h2 & Hf & Hlen2 & Hld2); try lia.
        rewrite Hf. cbn [mbind option_bind].
        eexists. split; [done|]. split; [done|]. split; [done|].
        intros d' k Hk. cbn. rewrite Hld2 by done.
        apply decide_ext. subst size. lia.
      + assert (0 < size) by (subst size; lia). unwrap.
        assert (load (hs_hbuf st1) (d * w + lhalo b + size - 1)
                  = vec_elem x (part_start x (d + 1) + size - 1)) as ->.
        { replace (d * w + lhalo b + size - 1)
            with (d * w + (lhalo b + size - 1)) by lia.
          rewrite Hread1; [| subst size; lia |].
          - f_equal. unfold halo_index. rewrite decide_False by lia. lia.
          - unfold halo_read, halo_live, halo_index. fold nq.
            rewrite decide_False by lia. subst size. lia. }
        destruct (vec_elem_is_Some x (part_start x (d + 1) + size - 1)) as [v Hv];
          [subst size; lia|].
        rewrite Hv. cbn [mbind option_bind].
        destruct (fill_segment (hs_hbuf st1) w nq d (lhalo b + size) w v
                    (d * w + lhalo b + size) ((d + 1) * w))
          as (h2 & Hf & Hlen2 & Hld2); try lia.
        rewrite Hf. cbn [mbind option_bind].
        eexists. split; [done|]. split; [done|]. split; [done|].
        intros d' k Hk. cbn. rewrite Hld2 by done.
        apply decide_if_ext; [subst size; lia|].
        intros. rewrite <- Hv. f_equal. subst size. lia.
    - exists st1. split; [done|]. split; [done|]. split; [done|].
      intros d' k Hk. rewrite decide_False; [done|].
      intros (_ & ? & ? & _).
      assert (has_right_halo b d = true) by (apply has_right_halo_true; lia).
      congruence. }
  cbn [mbind option_bind].
  rewrite <- Hlen2 in Hlen.
  assert (∀ d' k, 0 ≤ k < w →
    load (hs_hbuf st2) (d' * w + k) =
      if decide (d' = d ∧ halo_live b x d k ∧ ¬ halo_read b x d k)
      then clamp_read x (halo_index b x d k)
      else load (hs_hbuf st) (d' * w + k)) as Hld.
  { intros d' k Hk. rewrite Hld2, Hld1 by done.
    unfold halo_read, halo_live, halo_index, clamp_read. fold nq.
    repeat case_decide; try lia; try done; f_equal; lia. }
  assert (has_left_halo b d || has_right_halo b d = true ↔ uploads b x d) as Hup.
  { rewrite orb_true_iff, has_left_halo_true, has_right_halo_true by done.
    unfold uploads. fold nq. tauto. }
  destruct (has_left_halo b d || has_right_halo b d) eqn:Hor.
  - unwrap. rewrite slice_Some by lia. cbn [mbind option_bind].
    destruct (lookup_lt_is_Some_2 (hs_dbuf st2) (Z.to_nat d)) as [old Hold].
    { rewrite Hdb2, Hdb1, Hdlen. unfold nq, nqueue in Hd. lia. }
    rewrite Hold. cbn [mbind option_bind].
    set (data := take _ _).
    assert (Z.of_nat (length data) = w) as Hdl.
    { apply (slice_length (hs_hbuf st2) (d * w)). apply slice_Some; lia. }
    assert (w ≤ Z.of_nat (length old)) as Hcap'.
    { apply Hcap. rewrite <- Hdb1, <- Hdb2. done. }
    rewrite write_at_Some by lia. cbn [mbind option_bind].
    eexists. split; [done|]. cbn.
    split; [congruence|]. split; [done|].
    split; [rewrite length_insert; congruence|].
    split; [intros i Hi; rewrite list_lookup_insert_ne by done; congruence|].
    rewrite decide_True by (by apply Hup).
    exists old, (list_inserts (Z.to_nat 0) data old).
    split; [congruence|].
    split; [apply list_lookup_insert_eq; by eapply lookup_lt_Some|].
    split; [by rewrite length_inserts|].
    intros k. erewrite load_write_at by (apply write_at_Some; lia).
    rewrite Hdl. apply decide_if_ext; [lia|]. intros Hk.
    erewrite load_slice by (apply slice_Some; lia).
    rewrite decide_True by lia. f_equal. lia.
  - exists st2. split; [done|]. split; [congruence|]. split; [done|].
    split; [congruence|]. split; [intros; congruence|].
    rewrite decide_False; [congruence|]. intros Hu. apply Hup in Hu. done.
Qed.

Lemma clamp_read_inside x gi :
  0 ≤ gi < vec_size x → clamp_read x gi = vec_elem x gi.
Proof. intros. unfold clamp_read. f_equal. lia. Qed.

Lemma halo_read_live b x d k : halo_read b x d k → halo_live b x d k.
Proof. by intros [? _]. Qed.

(** What [exchange_halos] leaves in the host buffer and in the device
    buffers when it does exchange. *)
Lemma exchange_halos_spec b x :
  halos_ok b x → 1 < nqueue b → 0 < lhalo b + rhalo b →
  ∃ hs, exchange_halos b x = Some hs ∧
    length (hs_hbuf hs) = length (hbuf b) ∧
    (∀ d k, 0 ≤ d < nqueue b → 0 ≤ k < lhalo b + rhalo b →
       load (hs_hbuf hs) (d * (lhalo b + rhalo b) + k) = halo_final b x d k) ∧
    length (hs_dbuf hs) = length (dbuf b) ∧
    (∀ d, 0 ≤ d < nqueue b →
       if decide (uploads b x d) then
         ∃ old new, dbuf b !! Z.to_nat d = Some old ∧
                    hs_dbuf hs !! Z.to_nat d = Some new ∧ uploaded b x d old new
       else hs_dbuf hs !! Z.to_nat d = dbuf b !! Z.to_nat d).
Proof.
  intros Hok Hnq Hw.
  pose proof Hok as (Hl & Hr & Hlr & Hnq31 & Hnw & Hlen & Hdlen & Hcap & Hxl & Hx).
  unfold INT_MAX in Hlr. unfold exchange_halos. unwrap.
  set (w := lhalo b + rhalo b) in *. set (nq := nqueue b) in *.
  replace (nq <=? 1) with false by (symmetry; apply Z.leb_gt; lia).
  replace (w <=? 0) with false by (symmetry; apply Z.leb_gt; lia).
  cbn [orb].
  destruct (read_phase_spec b x Hok Hw) as (st1 & Hrun1 & Hdb1 & Hlen1 & Hld1).
  fold w nq in Hrun1, Hld1. rewrite Hrun1. cbn [mbind option_bind].
  destruct (for_each_seqZ_inv
    (λ m st,
       length (hs_hbuf st) = length (hbuf b) ∧
       (∀ d k, 0 ≤ d < nq → 0 ≤ k < w →
          load (hs_hbuf st) (d * w + k) =
            if decide (halo_read b x d k ∨ (d < m ∧ halo_live b x d k))
            then clamp_read x (halo_index b x d k)
            else load (hbuf b) (d * w + k)) ∧
       length (hs_dbuf st) = length (dbuf b) ∧
       (∀ d, 0 ≤ d < nq →
          if decide (d < m ∧ uploads b x d) then
            ∃ old new, dbuf b !! Z.to_nat d = Some old ∧
                       hs_dbuf st !! Z.to_nat d = Some new ∧ uploaded b x d old new
          else hs_dbuf st !! Z.to_nat d = dbuf b !! Z.to_nat d))
    (write_step b x w) 0 nq (finish_all b st1))
    as (st2 & Hrun2 & Hlen2 & Hld2 & Hdlen2 & Hdb2).
  - lia.
  - cbn. split; [done|]. split.
    { intros d k Hd Hk. rewrite Hld1 by done.
      case_decide as Hrd.
      - rewrite decide_True by (by left).
        symmetry. apply clamp_read_inside. apply Hrd.
      - rewrite decide_False; [done|]. intros [?|[? _]]; [done | lia]. }
    split; [congruence|].
    intros d Hd. rewrite decide_False by lia. congruence.
  - intros m st Hm (Hlen' & Hld' & Hdlen' & Hdb').
    destruct (write_step_spec b x st m Hok Hw) as
      (st' & Hrun & Hlen'' & Hld'' & Hdlen'' & Hdbne & Hdbm);
      try (subst w nq; lia).
    { intros buf Hbuf. apply (Hcap (Z.to_nat m)).
      specialize (Hdb' m ltac:(lia)). rewrite decide_False in Hdb' by lia.
      congruence. }
    { intros k Hk Hrd. fold w. rewrite Hld' by (done || lia).
      rewrite decide_True by (by left). apply clamp_read_inside, Hrd. }
    fold w in Hrun, Hld'', Hdbm.
    assert (∀ d k, 0 ≤ d < nq → 0 ≤ k < w →
      load (hs_hbuf st') (d * w + k) =
        if decide (halo_read b x d k ∨ (d < m + 1 ∧ halo_live b x d k))
        then clamp_read x (halo_index b x d k)
        else load (hbuf b) (d * w + k)) as Hnew.
    { intros d k Hd Hk. rewrite Hld'', Hld' by done.
      destruct (decide (d = m)) as [->|Hne];
        repeat case_decide; try done; exfalso; psolve. }
    exists st'. split; [done|]. split; [congruence|]. split; [done|].
    split; [congruence|].
    intros d Hd. destruct (decide (d = m)) as [->|Hne].
    + specialize (Hdb' m ltac:(lia)). rewrite decide_False in Hdb' by lia.
      destruct (decide (uploads b x m)) as [Hu|Hnu].
      * rewrite decide_True by (split; [lia | done]).
        destruct Hdbm as (old & new & Hold & Hnew' & Hlnew & Hldnew).
        exists old, new. split; [congruence|]. split; [done|].
        split; [done|]. intros k. rewrite Hldnew.
        apply decide_if_ext; [done|]. intros Hk. rewrite Hnew by (done || lia).
        unfold halo_final. fold w.
        repeat case_decide; try done; exfalso;
          unfold halo_read in *; psolve.
      * rewrite decide_False by (intros [_ ?]; done). congruence.
    + specialize (Hdb' d Hd). rewrite Hdbne by lia.
      destruct (decide (d < m ∧ uploads b x d)) as [Hc|Hc].
      * rewrite decide_True by (split; [lia | apply Hc]). done.
      * rewrite decide_False; [done|]. intros [? ?]. apply Hc. split; [lia | done].
  - rewrite Hrun2. cbn [mbind option_bind]. eexists. split; [done|]. cbn.
    split; [done|]. split.
    { intros d k Hd Hk. rewrite Hld2 by done. unfold halo_final. fold w.
      repeat case_decide; try done; exfalso;
        unfold halo_read in *; psolve. }
    split; [done|].
    intros d Hd. specialize (Hdb2 d Hd).
    destruct (decide (uploads b x d)) as [Hu|Hnu].
    + rewrite decide_True in Hdb2 by (split; [lia | done]). done.
    + rewrite decide_False in Hdb2 by (intros [_ ?]; done). done.
Qed.
End HaloFacts.

Section ClampFacts.
Context {T : Type}.
Implicit Types (x : vector T).

Lemma clamp_read_below x gi :
  gi ≤ 0 → 0 < vec_size x → clamp_read x gi = vec_elem x 0.
Proof. intros. unfold clamp_read. f_equal. lia. Qed.

Lemma clamp_read_above x gi :
  vec_size x - 1 ≤ gi → 0 < vec_size x → clamp_read x gi = vec_elem x (vec_size x - 1).
Proof. intros. unfold clamp_read. f_equal. lia. Qed.
End ClampFacts.

(** ** An exchange that does nothing, an exchange that is repeated *)

Section ExchangeMore.
Context {T : Type} `{Scalar T}.
Implicit Types (b : stencil_base T) (x : vector T) (h : list T)
  (hs : halo_state T).

(** Without a second device or without a halo the exchange does nothing. *)
Lemma exchange_halos_skip b x :
  nqueue b ≤ 1 ∨ s32 (lhalo b + rhalo b) ≤ 0 →
  exchange_halos b x =
    Some {| hs_hbuf := hbuf b; hs_dbuf := dbuf b; hs_log := [] |}.
Proof.
  intros Hc. unfold exchange_halos.
  replace ((nqueue b <=? 1) || (s32 (lhalo b + rhalo b) <=? 0)) with true; [done|].
  symmetry. apply orb_true_iff. rewrite !Z.leb_le. done.
Qed.

(** Two host buffers of the size of [hbuf] with the same slots are equal. *)
Lemma segments_ext h1 h2 nq w :
  0 ≤ nq → 0 < w →
  Z.of_nat (length h1) = nq * w → Z.of_nat (length h2) = nq * w →
  (∀ d k, 0 ≤ d < nq → 0 ≤ k < w → load h1 (d * w + k) = load h2 (d * w + k)) →
  h1 = h2.
Proof.
  intros Hnq Hw Hl1 Hl2 E. apply list_eq. intros i.
  destruct (decide (Z.of_nat i < nq * w)) as [Hi|Hi].
  - pose proof (Z.div_mod (Z.of_nat i) w ltac:(lia)) as Hdm.
    pose proof (Z.mod_pos_bound (Z.of_nat i) w Hw) as Hm.
    assert (0 ≤ Z.of_nat i / w) by (apply Z.div_pos; lia).
    assert (Z.of_nat i / w < nq) by (apply Z.div_lt_upper_bound; lia).
    specialize (E (Z.of_nat i / w) (Z.of_nat i mod w) ltac:(lia) Hm).
    replace (Z.of_nat i `div` w * w + Z.of_nat i `mod` w) with (Z.of_nat i) in E by lia.
    rewrite !load_lookup, Nat2Z.id in E by lia. done.
  - rewrite !lookup_ge_None_2 by lia. done.
Qed.

(** The exchange returns, and keeps the sizes of the buffers. *)
Lemma exchange_halos_keeps b x :
  halos_ok b x →
  ∃ hs, exchange_halos b x = Some hs ∧
    length (hs_hbuf hs) = length (hbuf b) ∧
    length (hs_dbuf hs) = length (dbuf b) ∧
    (∀ d buf, hs_dbuf hs !! d = Some buf →
              lhalo b + rhalo b ≤ Z.of_nat (length buf)).
Proof.
  intros Hok.
  pose proof Hok as (Hl & Hr & Hlr & Hnq31 & Hnw & Hlen & Hdlen & Hcap & Hxl & Hx).
  unfold INT_MAX in Hlr.
  destruct (decide (nqueue b ≤ 1 ∨ lhalo b + rhalo b ≤ 0)) as [Hskip|Hrun].
  - rewrite exchange_halos_skip by (unwrap; done).
    eexists. split; [done|]. cbn. done.
  - destruct (exchange_halos_spec b x Hok) as (hs & Hrun' & Hlen' & _ & Hdlen' & Hdb);
      [lia | lia |].
    exists hs. split; [done|]. split; [done|]. split; [done|].
    intros d buf Hbuf.
    assert (d < length (queue b))%nat as Hd.
    { apply lookup_lt_Some in Hbuf. lia. }
    specialize (Hdb (Z.of_nat d)). rewrite Nat2Z.id in Hdb.
    destruct (decide (uploads b x (Z.of_nat d))).
    + destruct Hdb as (old & new & Hold & Hnew & Hlnew & _);
        [unfold nqueue; lia|].
      assert (buf = new) as -> by congruence.
      rewrite Hlnew. by eapply Hcap.
    + eapply Hcap. rewrite <- Hdb; [done | unfold nqueue; lia].
Qed.

Lemma halos_ok_with_halos b x hs :
  halos_ok b x →
  length (hs_hbuf hs) = length (hbuf b) →
  length (hs_dbuf hs) = length (dbuf b) →
  (∀ d buf, hs_dbuf hs !! d = Some buf →
            lhalo b + rhalo b ≤ Z.of_nat (length buf)) →
  halos_ok (with_halos b hs) x.
Proof.
  intros (Hl & Hr & Hlr & Hnq31 & Hnw & Hlen & Hdlen & Hcap & Hxl & Hx) H1 H2 H3.
  unfold halos_ok, with_halos, nqueue in *. cbn.
  repeat split; try done; congruence.
Qed.

(** A second exchange of the same vector changes no buffer. *)
Lemma exchange_halos_idem b x hs :
  halos_ok b x → exchange_halos b x = Some hs →
  ∃ hs', exchange_halos (with_halos b hs) x = Some hs' ∧
         hs_hbuf hs' = hs_hbuf hs ∧ hs_dbuf hs' = hs_dbuf hs.
Proof.
  intros Hok Hrun.
  pose proof Hok as (Hl & Hr & Hlr & Hnq31 & Hnw & Hlen & Hdlen & Hcap & Hxl & Hx).
  unfold INT_MAX in Hlr.
  destruct (decide (nqueue b ≤ 1 ∨ lhalo b + rhalo b ≤ 0)) as [Hskip|Hgo].
  - rewrite exchange_halos_skip.
    + eexists. split; [done|]. cbn.
      rewrite exchange_halos_skip in Hrun by (unwrap; done).
      by injection Hrun as <-.
    + change (nqueue (with_halos b hs)) with (nqueue b).
      change (lhalo (with_halos b hs)) with (lhalo b).
      change (rhalo (with_halos b hs)) with (rhalo b). unwrap. done.
  - destruct (exchange_halos_spec b x Hok) as (hs1 & Hrun1 & Hlen1 & Hld1 & Hdlen1 & Hdb1);
      [lia | lia |].
    assert (hs1 = hs) as -> by congruence.
    destruct (exchange_halos_keeps b x Hok) as (hs0 & Hrun0 & _ & _ & Hcap1).
    assert (hs0 = hs) as -> by congruence.
    pose proof (halos_ok_with_halos b x hs Hok Hlen1 Hdlen1 Hcap1) as Hok'.
    destruct (exchange_halos_spec (with_halos b hs) x Hok')
      as (hs2 & Hrun2 & Hlen2 & Hld2 & Hdlen2 & Hdb2).
    { change (nqueue (with_halos b hs)) with (nqueue b). lia. }
    { change (lhalo (with_halos b hs)) with (lhalo b).
      change (rhalo (with_halos b hs)) with (rhalo b). lia. }
    cbn in Hlen2, Hld2, Hdlen2, Hdb2. change (nqueue (with_halos b hs)) with (nqueue b) in *.
    set (w := lhalo b + rhalo b) in *.
    assert (∀ d k, 0 ≤ d < nqueue b → 0 ≤ k < w →
              halo_final (with_halos b hs) x d k = halo_final b x d k) as Hfin.
    { intros d k Hd Hk. unfold halo_final. cbn. fold w.
      change (halo_live (with_halos b hs) x d k) with (halo_live b x d k).
      change (halo_index (with_halos b hs) x d k) with (halo_index b x d k).
      apply decide_else_ext; [done|]. intros Hlive.
      rewrite Hld1 by done. unfold halo_final. rewrite decide_False by done. done. }
    exists hs2. split; [done|]. split.
    + apply (segments_ext _ _ (nqueue b) w); try lia.
      intros d k Hd Hk. rewrite Hld2, Hld1 by done. by apply Hfin.
    + apply list_eq. intros i.
      destruct (decide (i < length (queue b))%nat) as [Hi|Hi].
      * specialize (Hdb1 (Z.of_nat i) ltac:(unfold nqueue; lia)).
        specialize (Hdb2 (Z.of_nat i) ltac:(unfold nqueue; lia)).
        rewrite Nat2Z.id in Hdb1, Hdb2.
        change (uploads (with_halos b hs) x (Z.of_nat i))
          with (uploads b x (Z.of_nat i)) in Hdb2.
        destruct (decide (uploads b x (Z.of_nat i))); [|done].
        destruct Hdb1 as (old1 & new1 & Hold1 & Hnew1 & Hl1 & Hu1).
        destruct Hdb2 as (old2 & new2 & Hold2 & Hnew2 & Hl2 & Hu2).
        rewrite Hnew1, Hnew2. f_equal. apply load_ext. intros k.
        assert (old2 = new1) as -> by congruence.
        rewrite Hu2, Hu1. cbn. fold w.
        case_decide; [|done]. apply Hfin; [unfold nqueue; lia | done].
      * rewrite !lookup_ge_None_2 by lia. done.
Qed.
End ExchangeMore.

(** ** The dispatcher *)

Section ConvolveFacts.
Context {T : Type} `{Scalar T}.
Variable uninit : nat → T.
Implicit Types (st : stencil T) (x y : vector T).

Lemma length_fresh n : 0 ≤ n → Z.of_nat (length (fresh uninit n)) = n.
Proof. intros. unfold fresh. rewrite length_fmap, length_seq. lia. Qed.

Lemma part_size_lookup x d xd :
  x !! d = Some xd → part_size x (Z.of_nat d) = Z.of_nat (length xd).
Proof. intros Hx. unfold part_size. rewrite Nat2Z.id, Hx. done. Qed.

(** A launch of the kernel that [init] chose for a device returns, and
    its output meets the contract. *)
Lemma run_kernel_contract b dev a yd :
  args_ok a → ka_n a ≤ Z.of_nat (length yd) →
  ka_lhalo a = lhalo b → ka_rhalo a = rhalo b →
  0 < sc_sizeof < 2 ^ 31 →
  (is_cpu dev = false →
   0 < launch_groups dev ∧ 0 < workgroup_size dev ∧
   ka_n a + (launch_groups dev + 1) * workgroup_size dev
     + lhalo b + rhalo b ≤ INT_MAX) →
  let c := init_device b (lhalo b + rhalo b + 1) dev in
  ∃ yd', run_kernel uninit c.1 dev a c.2.1 c.2.2 yd = Some yd' ∧
         length yd' = length yd ∧ contract a yd yd'.
Proof.
  intros Hok Hlen Hlh Hrh Hsz Hdev. unfold init_device.
  pose proof Hok as (Hn & Hl & Hr & Hw & _). unfold INT_MAX in Hw.
  destruct (is_cpu dev || (64 <? lhalo b + rhalo b + 1)) eqn:Hslow; cbn.
  - by apply slow_conv_contract.
  - apply orb_false_iff in Hslow as [Hcpu Hwidth]. apply Z.ltb_ge in Hwidth.
    destruct (Hdev Hcpu) as (HG & HB & Hmax). unfold INT_MAX in Hmax.
    assert (0 ≤ launch_groups dev * workgroup_size dev) by nia.
    apply fast_conv_contract; [done| |done].
    assert (0 ≤ sc_sizeof * (lhalo b + rhalo b + 1) < 2 ^ 64) by nia.
    assert (0 ≤ sc_sizeof * (workgroup_size dev + lhalo b + rhalo b) < 2 ^ 64) by nia.
    unfold launch_ok, local_block. cbn. unwrap.
    rewrite !(Z.mul_comm sc_sizeof), !Z.div_mul by lia.
    rewrite !length_fresh by lia. unfold INT_MAX. lia.
Qed.

(** [convolve] returns; it exchanges the halos and leaves in every
    partition of [y] what the launch on its device must deliver. *)
Lemma convolve_spec st x y alpha beta :
  stencil_ok st → vectors_ok st x y →
  ∃ hs y',
    exchange_halos (base st) x = Some hs ∧
    convolve uninit st x y alpha beta
      = Some (with_base st (with_halos (base st) hs), y', hs_log hs) ∧
    length y' = length y ∧
    ∀ d yd, y !! d = Some yd →
      ∃ xrem yd', hs_dbuf hs !! d = Some xrem ∧ y' !! d = Some yd' ∧
                  part_result st x alpha beta d xrem yd yd'.
Proof.
  intros (Hnq & Hsl & Hsc & Hinit) (Hhok & Hyl & Hps & Hsz & Hdev).
  pose proof Hhok as (Hl & Hr & Hlr & Hnq31 & Hnw & Hlen & Hdlen & _ & Hxl & Hx).
  unfold INT_MAX in Hlr.
  destruct (exchange_halos_keeps (base st) x Hhok) as (hs & Hrun & Hhl & Hdl & Hcap).
  exists hs. unfold convolve. rewrite Hrun. cbn [mbind option_bind].
  set (st' := with_base st (with_halos (base st) hs)).
  set (b := base st) in *.
  destruct (for_each_seqZ_inv
    (λ m yt, length yt = length y ∧
       ∀ d yd, y !! d = Some yd →
         if decide (Z.of_nat d < m) then
           ∃ xrem yd', hs_dbuf hs !! d = Some xrem ∧ yt !! d = Some yd' ∧
                       part_result st x alpha beta d xrem yd yd'
         else yt !! d = Some yd)
    (convolve_step uninit st' x alpha beta) 0 (nqueue b) y)
    as (y' & Hrun' & Hlen' & Hres).
  - lia.
  - split; [done|]. intros d yd Hyd. rewrite decide_False by lia. done.
  - intros m yt Hm (Hlt & Hinv). unfold nqueue in Hm.
    set (d := Z.to_nat m).
    destruct (lookup_lt_is_Some_2 (queue b) d) as [dev Hq]; [lia|].
    destruct (lookup_lt_is_Some_2 x d) as [xd Hxd]; [lia|].
    destruct (lookup_lt_is_Some_2 y d) as [yd Hyd]; [lia|].
    destruct (lookup_lt_is_Some_2 (s b) d) as [sd Hsd]; [lia|].
    destruct (lookup_lt_is_Some_2 (hs_dbuf hs) d) as [xrem Hxrem]; [lia|].
    assert (yt !! d = Some yd) as Hytd.
    { specialize (Hinv d yd Hyd). rewrite decide_False in Hinv by lia. done. }
    assert (part_size x m = Z.of_nat (length xd)) as Hpsx.
    { rewrite <- (part_size_lookup x d xd Hxd). f_equal. lia. }
    assert (length yd = length xd) as Hyx.
    { pose proof (Hps m) as Hp. rewrite Hpsx in Hp.
      unfold part_size in Hp. fold d in Hp. rewrite Hyd in Hp. cbn in Hp. lia. }
    assert (∀ yd', length yd' = length yd →
      (if decide (xd = []) then yd' = yd
       else contract (pushed_args st x alpha beta (Z.of_nat d) sd xd xrem) yd yd') →
      ∀ yt', length yt' = length y → yt' !! d = Some yd' →
      (∀ i, i ≠ d → yt' !! i = yt !! i) →
      ∀ d0 yd0, y !! d0 = Some yd0 →
        if decide (Z.of_nat d0 < m + 1) then
          ∃ xrem yd', hs_dbuf hs !! d0 = Some xrem ∧ yt' !! d0 = Some yd' ∧
                      part_result st x alpha beta d0 xrem yd0 yd'
        else yt' !! d0 = Some yd0) as Hstep.
    { intros yd' Hl' Hc yt' Hlt' Hd' Hother d0 yd0 Hyd0.
      specialize (Hinv d0 yd0 Hyd0).
      destruct (decide (d0 = d)) as [->|Hne].
      - rewrite decide_True by lia.
        assert (yd0 = yd) as -> by congruence.
        exists xrem, yd'. split; [done|]. split; [done|].
        exists sd, xd. done.
      - rewrite Hother by done.
        destruct (decide (Z.of_nat d0 < m)).
        + rewrite decide_True by lia. done.
        + rewrite decide_False by lia. done. }
    unfold convolve_step.
    destruct (Z.eqb_spec (part_size x m) 0) as [Hempty|Hne].
    + exists yt. split; [done|]. split; [done|].
      apply (Hstep yd); try done.
      rewrite decide_True; [done|]. apply length_zero_iff_nil. lia.
    + change (queue (base st')) with (queue b).
      change (s (base st')) with (s b).
      change (dbuf (base st')) with (hs_dbuf hs).
      change (st_conv st') with (st_conv st).
      change (st_loc_s st') with (st_loc_s st).
      change (st_loc_x st') with (st_loc_x st).
      fold d.
      destruct (init_lookup b (lhalo b + rhalo b + 1) d dev Hq) as (Hc & Hls & Hlx).
      rewrite <- Hinit in Hc, Hls, Hlx.
      rewrite Hq, Hc, Hls, Hlx, Hsd, Hxd, Hxrem, Hytd. cbn [mbind option_bind].
      set (a := pushed_args st' x alpha beta m sd xd xrem).
      assert (a = pushed_args st x alpha beta (Z.of_nat d) sd xd xrem) as Ha.
      { subst a d. rewrite Z2Nat.id by lia. done. }
      destruct (run_kernel_contract b dev a yd) as (yd' & Hk & Hl' & Hct);
        try done.
      * subst a. unfold args_ok. cbn. fold b.
        pose proof (part_size_le x m). pose proof (part_start_nonneg x m).
        assert (lhalo b + rhalo b ≤ Z.of_nat (length xrem)) by (by eapply Hcap).
        assert (lhalo b + rhalo b + 1 ≤ Z.of_nat (length sd)) by (by eapply Hsc).
        unfold INT_MAX. lia.
      * subst a. cbn. lia.
      * intros Hcpu. destruct (Hdev d dev Hq Hcpu) as (? & ? & Hmax).
        split; [done|]. split; [done|]. subst a. cbn. fold b in Hmax.
        replace m with (Z.of_nat d) by (subst d; lia). done.
      * rewrite Hk. cbn [mbind option_bind].
        eexists. split; [done|]. split; [by rewrite length_insert|].
        apply (Hstep yd'); try done.
        -- rewrite decide_False by (intros ->; cbn in *; lia). by rewrite <- Ha.
        -- by rewrite length_insert.
        -- apply list_lookup_insert_eq. by eapply lookup_lt_Some.
        -- intros i Hi. by apply list_lookup_insert_ne.
  - rewrite Hrun'. cbn [mbind option_bind]. exists y'.
    split; [done|]. split; [done|]. split; [done|].
    intros d yd Hyd. specialize (Hres d yd Hyd).
    rewrite decide_True in Hres; [done|].
    apply lookup_lt_Some in Hyd. unfold nqueue. lia.
Qed.
End ConvolveFacts.

(** ** What a built stencil satisfies *)

Lemma s32_nonneg_inv z : 0 ≤ z < 2 ^ 32 → 0 ≤ s32 z → s32 z = z ∧ z < 2 ^ 31.
Proof.
  intros Hz Hs. destruct (decide (z < 2 ^ 31)) as [Hlt|Hge].
  - split; [apply s32_small; lia | done].
  - exfalso. unfold s32, wrap_signed in Hs.
    replace (z + 2 ^ (32 - 1)) with (z - 2 ^ 31 + 1 * 2 ^ 32) in Hs by lia.
    rewrite Z.mod_add, Z.mod_small in Hs by lia. lia.
Qed.

Section CtorMore.
Context {T : Type} `{Scalar T}.
Variable uninit : nat → T.
Variable host_alloc : Z → bool.
Implicit Types (q : list device) (b : stencil_base T) (st : stencil T)
  (x y : vector T).

(** A stencil that was built passed the five assertions. *)
Lemma stencil_base_ctor_inv q width center (coeffs : list T) b :
  0 ≤ width < 2 ^ 32 → 0 ≤ center < 2 ^ 32 →
  stencil_base_ctor uninit host_alloc q width center coeffs = Built b →
  q ≠ [] ∧ 1 ≤ width ∧ center < width ∧
  center ≤ INT_MAX ∧ width - center - 1 ≤ INT_MAX ∧
  b = {| queue := q;
         hbuf := replicate (Z.to_nat (u64 (Z.of_nat (length q) * (width - 1)))) sc_zero;
         dbuf := (λ _, fresh uninit width) <$> q;
         s := (λ _, coeffs) <$> q;
         lhalo := center;
         rhalo := width - center - 1 |}.
Proof.
  intros Hw Hc Hb. pose proof Hb as Hb'. unfold stencil_base_ctor in Hb'.
  repeat case_match; try done. clear Hb'.
  repeat match goal with
         | E : negb _ = false |- _ => apply negb_false_iff in E
         | E : (_ =? _) = false |- _ => apply Z.eqb_neq in E
         | E : (_ <=? _) = true |- _ => apply Z.leb_le in E
         | E : (_ <? _) = true |- _ => apply Z.ltb_lt in E
         end.
  assert (q ≠ []) as Hq by (intros ->; done).
  match goal with E : 0 ≤ s32 center |- _ =>
    destruct (s32_nonneg_inv center Hc E) as [Ec Hc31] end.
  assert (u32 (u32 (width - center) - 1) = width - center - 1) as Er.
  { unwrap. done. }
  rewrite Er in *.
  match goal with E : 0 ≤ s32 (width - center - 1) |- _ =>
    destruct (s32_nonneg_inv (width - center - 1) ltac:(lia) E) as [Er' Hr31] end.
  match goal with E : host_alloc _ = true |- _ =>
    rewrite (u32_small (width - 1)) in E by lia end.
  rewrite stencil_base_ctor_builds in Hb by (unfold INT_MAX; done || lia).
  injection Hb as <-. unfold INT_MAX. repeat split; try done; lia.
Qed.

(** A built [stencil] satisfies the invariant and holds the coefficients;
    its halo widths are [center] and [width - center - 1]. *)
Lemma stencil_ctor_inv q (coeffs : list T) center st :
  Z.of_nat (length coeffs) < 2 ^ 32 → 0 ≤ center < 2 ^ 32 →
  stencil_ctor uninit host_alloc q coeffs center = Built st →
  stencil_ok st ∧ queue (base st) = q ∧
  lhalo (base st) = center ∧
  rhalo (base st) = Z.of_nat (length coeffs) - center - 1 ∧
  0 ≤ lhalo (base st) ∧ 0 ≤ rhalo (base st) ∧
  lhalo (base st) + rhalo (base st) ≤ INT_MAX + INT_MAX ∧
  hbuf (base st) =
    replicate (Z.to_nat (u64 (Z.of_nat (length q)
                              * (Z.of_nat (length coeffs) - 1)))) sc_zero ∧
  dbuf (base st) = (λ _, fresh uninit (Z.of_nat (length coeffs))) <$> q ∧
  s (base st) = (λ _, coeffs) <$> q ∧
  st = init (base st) (Z.of_nat (length coeffs)).
Proof.
  intros Hlen Hc Hst. unfold stencil_ctor in Hst.
  assert (0 ≤ Z.of_nat (length coeffs) < 2 ^ 32) as Hrange by lia.
  rewrite (u32_small _ Hrange) in Hst.
  destruct (stencil_base_ctor uninit host_alloc q _ center coeffs)
    as [b|which|] eqn:Hb; [|done..].
  injection Hst as <-.
  apply stencil_base_ctor_inv in Hb as (Hq & Hw & Hcw & Hl & Hr & ->); [|lia|done].
  unfold INT_MAX in *.
  split; [|cbn; repeat split; try done; lia].
  split; [|split; [|split]]; cbn.
  - unfold nqueue. cbn. destruct q; [done | cbn; lia].
  - by rewrite !length_fmap.
  - intros d c Hd. apply list_lookup_fmap_Some in Hd as (dev & -> & _). lia.
  - f_equal. lia.
Qed.
End CtorMore.

(** ** Overwriting calls and repeated calls *)

Section ConvolveMore.
Context {T : Type} `{Scalar T}.
Variable uninit : nat → T.
Implicit Types (q : list device) (b : stencil_base T) (st : stencil T)
  (x y : vector T) (a : kernel_args T).

Lemma part_size_eq_length x y d xd yd :
  (∀ d, part_size y d = part_size x d) →
  x !! d = Some xd → y !! d = Some yd → length yd = length xd.
Proof.
  intros Hps Hx Hy. specialize (Hps (Z.of_nat d)).
  rewrite (part_size_lookup x d xd Hx), (part_size_lookup y d yd Hy) in Hps. lia.
Qed.

(** When [alpha] is zero the output of a launch does not depend on the
    old content of [y]. *)
Lemma part_result_overwrite st x alpha beta d xrem xd yd yd' yd2 yd2' :
  sc_true alpha = false →
  x !! d = Some xd → length yd = length xd → length yd2 = length xd →
  part_result st x alpha beta d xrem yd yd' →
  part_result st x alpha beta d xrem yd2 yd2' →
  yd' = yd2'.
Proof.
  intros Ha Hx Hl Hl2 (sd & xd1 & Hs1 & Hx1 & Hl1 & Hc1) (sd2 & xd2 & Hs2 & Hx2 & Hl2' & Hc2).
  assert (xd1 = xd) as -> by congruence. assert (xd2 = xd) as -> by congruence.
  assert (sd2 = sd) as -> by congruence.
  destruct (decide (xd = [])) as [->|Hne].
  - subst. destruct yd, yd2; done.
  - apply load_ext. intros k. rewrite Hc1, Hc2. cbn.
    rewrite (part_size_lookup x d xd Hx).
    case_decide as Hk.
    + unfold contract_at. cbn. destruct (stencil_conv _ k) as [sum|]; [|done]. cbn.
      destruct (load_is_Some yd k) as [v ->]; [lia|].
      destruct (load_is_Some yd2 k) as [v2 ->]; [lia|].
      cbn. unfold accumulate. rewrite Ha. done.
    + unfold load. case_decide; [|done].
      rewrite !lookup_ge_None_2 by lia. done.
Qed.

Lemma convolve_overwrite st x y y2 alpha beta :
  stencil_ok st → vectors_ok st x y → vectors_ok st x y2 →
  sc_true alpha = false →
  convolve uninit st x y alpha beta = convolve uninit st x y2 alpha beta.
Proof.
  intros Hst Hv Hv2 Ha.
  destruct (convolve_spec uninit st x y alpha beta Hst Hv)
    as (hs & y' & Hex & -> & Hlen & Hres).
  destruct (convolve_spec uninit st x y2 alpha beta Hst Hv2)
    as (hs2 & y2' & Hex2 & -> & Hlen2 & Hres2).
  assert (hs2 = hs) as -> by congruence.
  do 3 f_equal. apply list_eq. intros d.
  destruct Hv as (_ & Hyl & Hps & _). destruct Hv2 as (_ & Hyl2 & Hps2 & _).
  destruct (decide (d < length x)%nat) as [Hd|Hd].
  - destruct (lookup_lt_is_Some_2 x d) as [xd Hxd]; [lia|].
    destruct (lookup_lt_is_Some_2 y d) as [yd Hyd]; [lia|].
    destruct (lookup_lt_is_Some_2 y2 d) as [yd2 Hyd2]; [lia|].
    destruct (Hres d yd Hyd) as (xrem & yd' & Hxrem & -> & Hr).
    destruct (Hres2 d yd2 Hyd2) as (xrem2 & yd2' & Hxrem2 & -> & Hr2).
    assert (xrem2 = xrem) as -> by congruence.
    f_equal.
    apply (part_result_overwrite st x alpha beta d xrem xd yd yd' yd2 yd2'); try done.
    + exact (part_size_eq_length x y d xd yd Hps Hxd Hyd).
    + exact (part_size_eq_length x y2 d xd yd2 Hps2 Hxd Hyd2).
  - rewrite !lookup_ge_None_2 by lia. done.
Qed.

Lemma with_halos_twice b hs hs' :
  hs_hbuf hs' = hs_hbuf hs → hs_dbuf hs' = hs_dbuf hs →
  with_halos (with_halos b hs) hs' = with_halos b hs.
Proof. intros Hh Hd. unfold with_halos. cbn. by rewrite Hh, Hd. Qed.

Lemma init_with_halos b hs w :
  init (with_halos b hs) w = with_base (init b w) (with_halos b hs).
Proof. done. Qed.

Lemma stencil_ok_with_halos st hs :
  stencil_ok st → stencil_ok (with_base st (with_halos (base st) hs)).
Proof.
  intros (Hq & Hs & Hc & Hi). unfold stencil_ok. cbn.
  repeat split; try done.
  rewrite init_with_halos, <- Hi. done.
Qed.

Lemma vectors_ok_with_halos st hs x y :
  vectors_ok st x y →
  length (hs_hbuf hs) = length (hbuf (base st)) →
  length (hs_dbuf hs) = length (dbuf (base st)) →
  (∀ d buf, hs_dbuf hs !! d = Some buf →
            lhalo (base st) + rhalo (base st) ≤ Z.of_nat (length buf)) →
  vectors_ok (with_base st (with_halos (base st) hs)) x y.
Proof.
  intros (Hh & Hrest) Hl Hd Hc. split; [|exact Hrest].
  cbn. by apply halos_ok_with_halos.
Qed.

Lemma part_size_same_lengths (y y' : vector T) :
  length y' = length y →
  (∀ d yd yd', y !! d = Some yd → y' !! d = Some yd' → length yd' = length yd) →
  ∀ d, part_size y' d = part_size y d.
Proof.
  intros Hl Hp d. unfold part_size.
  destruct (decide (Z.to_nat d < length y)%nat) as [Hd|Hd].
  - destruct (lookup_lt_is_Some_2 y (Z.to_nat d)) as [yd Hyd]; [lia|].
    destruct (lookup_lt_is_Some_2 y' (Z.to_nat d)) as [yd' Hyd']; [lia|].
    rewrite Hyd, Hyd'. cbn. by rewrite (Hp _ _ _ Hyd Hyd').
  - rewrite !lookup_ge_None_2 by lia. done.
Qed.

(** What a successful call leaves behind: a stencil that is still well
    formed, vectors that still fit it, and a second call on the same
    arguments that returns the same again. *)
Lemma convolve_state st x y alpha beta st1 y1 log1 :
  stencil_ok st → vectors_ok st x y →
  convolve uninit st x y alpha beta = Some (st1, y1, log1) →
  stencil_ok st1 ∧ vectors_ok st1 x y ∧ vectors_ok st1 x y1 ∧
  ∃ log2, convolve uninit st1 x y alpha beta = Some (st1, y1, log2).
Proof.
  intros Hst Hv Hrun.
  destruct (convolve_spec uninit st x y alpha beta Hst Hv)
    as (hs & y' & Hex & Hrun' & Hlen & Hres).
  rewrite Hrun in Hrun'. injection Hrun' as -> -> ->.
  pose proof Hv as (Hh & Hyl & Hps & Hrest).
  destruct (exchange_halos_keeps (base st) x Hh) as (hs0 & Hex0 & Hk1 & Hk2 & Hk3).
  assert (hs0 = hs) as -> by congruence.
  assert (vectors_ok (with_base st (with_halos (base st) hs)) x y) as Hv1
    by by apply vectors_ok_with_halos.
  split; [by apply stencil_ok_with_halos|]. split; [done|]. split.
  - destruct Hv1 as (Hh1 & _ & _ & Hrest1). split; [done|].
    split; [lia|]. split; [|done].
    intros d. rewrite <- Hps. apply part_size_same_lengths; [done|].
    intros i yd yd' Hyd Hyd'.
    destruct (Hres i yd Hyd) as (xrem & yd0 & _ & Hy0 & (sd & xd & _ & _ & Hl0 & _)).
    congruence.
  - destruct (exchange_halos_idem (base st) x hs Hh Hex) as (hs' & Hex' & Hb1 & Hb2).
    exists (hs_log hs').
    unfold convolve in Hrun |- *. rewrite Hex in Hrun. cbn in Hrun.
    cbn [base with_base]. rewrite Hex'. cbn [mbind option_bind].
    rewrite (with_halos_twice _ _ _ Hb1 Hb2).
    change (with_base (with_base st (with_halos (base st) hs)) (with_halos (base st) hs))
      with (with_base st (with_halos (base st) hs)).
    change (nqueue (with_halos (base st) hs)) with (nqueue (base st)).
    destruct (for_each _ _ y) as [y2|]; [|done]. cbn in Hrun |- *.
    injection Hrun as ->. done.
Qed.
End ConvolveMore.

Section CtorBuilds.
Context {T : Type} `{Scalar T}.
Variable uninit : nat → T.
Variable host_alloc : Z → bool.

Lemma stencil_ctor_builds (q : list device) (coeffs : list T) center :
  q ≠ [] → 1 ≤ Z.of_nat (length coeffs) < 2 ^ 32 →
  0 ≤ center < Z.of_nat (length coeffs) →
  center ≤ INT_MAX → Z.of_nat (length coeffs) - center - 1 ≤ INT_MAX →
  host_alloc (u64 (Z.of_nat (length q) * (Z.of_nat (length coeffs) - 1)))
    = true →
  ∃ st, stencil_ctor uninit host_alloc q coeffs center = Built st.
Proof.
  intros Hq Hlen Hc Hl Hr Hmem. unfold stencil_ctor.
  rewrite (u32_small (Z.of_nat (length coeffs))) by lia.
  rewrite stencil_base_ctor_builds by (done || lia).
  by eexists.
Qed.
End CtorBuilds.

(** ** The partitions against the whole vector *)

Section SplitFacts.
Context {T : Type} `{Scalar T}.
Variable uninit : nat → T.
Implicit Types (b : stencil_base T) (st : stencil T) (x y : vector T).

(** On the arguments that [convolve] pushes after the exchange, the read
    policy of the kernels is the clamped read of the whole vector. *)
Lemma read_policy_clamp_read st x alpha beta hs d sd xd xrem g :
  halos_ok (base st) x →
  exchange_halos (base st) x = Some hs →
  hs_dbuf hs !! d = Some xrem →
  x !! d = Some xd → xd ≠ [] →
  - lhalo (base st) ≤ g < Z.of_nat (length xd) + rhalo (base st) →
  read_policy (pushed_args st x alpha beta (Z.of_nat d) sd xd xrem) g
  = clamp_read x (part_start x (Z.of_nat d) + g).
Proof.
  intros Hok Hex Hxrem Hxd Hne Hg.
  pose proof Hok as (Hl & Hr & Hlr & Hnq31 & _ & _ & _ & _ & Hxl & _).
  set (b := base st) in *. set (dz := Z.of_nat d).
  assert (0 < Z.of_nat (length xd)) as Hlen by (destruct xd; [done|cbn; lia]).
  assert (0 ≤ dz < nqueue b) as Hd.
  { apply lookup_lt_Some in Hxd. unfold nqueue, dz. lia. }
  assert (x !! Z.to_nat dz = Some xd) as Hxd' by (unfold dz; by rewrite Nat2Z.id).
  assert (part_size x dz = Z.of_nat (length xd)) as Hps
    by exact (part_size_lookup x d xd Hxd).
  assert (part_start x (dz + 1) = part_start x dz + Z.of_nat (length xd)) as Hnext.
  { rewrite part_start_succ, Hps; [done|]. unfold nqueue in Hd. lia. }
  pose proof (part_start_nonneg x dz) as Hs0.
  pose proof (part_start_le x (dz + 1)) as Hs1.
  assert (∀ k, 0 ≤ k < lhalo b + rhalo b →
            (0 < dz ∧ k < lhalo b) ∨ (dz + 1 < nqueue b ∧ lhalo b ≤ k) →
            load xrem k = clamp_read x (halo_index b x dz k)) as Hhalo.
  { intros k Hk Hside.
    destruct (exchange_halos_spec b x Hok) as (hs0 & Hex0 & _ & _ & _ & Hup);
      [lia..|].
    assert (hs0 = hs) as -> by congruence.
    specialize (Hup dz Hd). rewrite decide_True in Hup.
    - destruct Hup as (old & new & _ & Hnew & _ & Hload).
      unfold dz in Hnew. rewrite Nat2Z.id in Hnew.
      assert (new = xrem) as -> by congruence.
      rewrite Hload, decide_True by done. unfold halo_final.
      rewrite decide_True; [done|]. unfold halo_live. split; [lia|done].
    - unfold uploads. split; [lia|]. destruct Hside; [left|right]; lia. }
  unfold read_policy. cbn. rewrite Hps. fold dz b.
  case_decide as Hin.
  - rewrite (part_elem x dz xd g) by (done || lia).
    symmetry. apply clamp_read_inside. lia.
  - case_decide as Hneg.
    + destruct (Z.ltb_spec 0 dz) as [Hd0|Hd0].
      * rewrite decide_True by lia. rewrite Hhalo by lia.
        unfold halo_index. rewrite decide_True by lia. f_equal. lia.
      * assert (dz = 0) as Hz by lia. rewrite Hz in *.
        rewrite (part_elem x 0 xd 0) by (done || lia).
        rewrite part_start_0. symmetry. apply clamp_read_below; lia.
    + assert (0 ≤ dz + 1 < 2 ^ 32) as Hu by lia.
      rewrite (u32_small _ Hu).
      destruct (Z.ltb_spec (dz + 1) (nqueue b)) as [Hd1|Hd1].
      * rewrite decide_True by lia. rewrite Hhalo by lia.
        unfold halo_index. rewrite decide_False by lia. f_equal. lia.
      * rewrite (part_elem x dz xd (Z.of_nat (length xd) - 1)) by (done || lia).
        assert (part_start x (dz + 1) = vec_size x) as Hend.
        { apply part_start_end. unfold nqueue in *. lia. }
        rewrite clamp_read_above by lia. f_equal. lia.
Qed.

Lemma clamped_conv_concat (coeffs : list T) lh rh x1 x2 i :
  concat x1 = concat x2 →
  clamped_conv coeffs lh rh x1 i = clamped_conv coeffs lh rh x2 i.
Proof.
  intros E. unfold clamped_conv, clamp_read, vec_elem, vec_size.
  by rewrite E.
Qed.

(** Every global index lies in one partition. *)
Lemma global_index_split x i :
  0 ≤ i < vec_size x →
  ∃ d xd k, x !! d = Some xd ∧ 0 ≤ k < Z.of_nat (length xd) ∧
            i = part_start x (Z.of_nat d) + k.
Proof.
  revert i. induction x as [|p x IH]; intros i Hi.
  - unfold vec_size in Hi. cbn in Hi. lia.
  - unfold vec_size in Hi. cbn in Hi. rewrite length_app in Hi.
    destruct (decide (i < Z.of_nat (length p))) as [Hp|Hp].
    + exists 0%nat, p, i. split; [done|]. split; [lia|].
      rewrite part_start_0. lia.
    + destruct (IH (i - Z.of_nat (length p))) as (d & xd & k & Hd & Hk & Ei).
      { unfold vec_size. lia. }
      exists (S d), xd, k. split; [done|]. split; [done|].
      unfold part_start in *. rewrite Nat2Z.id in *. cbn.
      rewrite length_app. lia.
Qed.

Lemma part_start_same x y :
  length y = length x → (∀ d, part_size y d = part_size x d) →
  ∀ d, part_start y d = part_start x d.
Proof.
  intros Hl Hps d.
  assert (∀ n : nat, part_start y (Z.of_nat n) = part_start x (Z.of_nat n)) as Hn.
  { induction n as [|n IH]; [done|].
    destruct (decide (n < length x)%nat) as [Hlt|Hge].
    - rewrite Nat2Z.inj_succ, <- !Z.add_1_r.
      rewrite !part_start_succ by lia. by rewrite IH, Hps.
    - rewrite !part_start_end by lia.
      rewrite <- (part_start_end x (Z.of_nat n)) by lia.
      rewrite <- (part_start_end y (Z.of_nat n)) by lia. done. }
  destruct (decide (0 ≤ d)) as [Hd|Hd].
  - rewrite <- (Z2Nat.id d Hd). apply Hn.
  - unfold part_start. by rewrite !Z2Nat.nonpos by lia.
Qed.

(** [convolve] on the partitions is the clamped convolution of the whole
    vector: the element of [y] at the global index [i] becomes
    [alpha * y[i] + beta * sum] with [sum] the clamped sum at [i]. *)
Lemma convolve_global st x y alpha beta (coeffs : list T) :
  stencil_ok st → vectors_ok st x y →
  (∀ d sd, s (base st) !! d = Some sd → sd = coeffs) →
  ∃ st' y' log,
    convolve uninit st x y alpha beta = Some (st', y', log) ∧
    length (concat y') = length (concat y) ∧
    Z.of_nat (length (concat y)) = vec_size x ∧
    ∀ i, 0 ≤ i < vec_size x →
      load (concat y') i =
        sum ← clamped_conv coeffs (lhalo (base st)) (rhalo (base st)) x i;
        y_old ← load (concat y) i;
        Some (accumulate alpha beta y_old sum).
Proof.
  intros Hst Hv Hco.
  destruct (convolve_spec uninit st x y alpha beta Hst Hv)
    as (hs & y' & Hex & Hrun & Hlen & Hres).
  pose proof Hv as (Hok & Hyl & Hps & _).
  pose proof Hst as (_ & Hsl & _ & _).
  pose proof Hok as (Hl & Hr & _ & _ & _ & _ & _ & _ & Hxl & _).
  assert (∀ d, part_size y' d = part_size y d) as Hps'.
  { apply part_size_same_lengths; [done|].
    intros d yd yd' Hyd Hyd'.
    destruct (Hres d yd Hyd) as (? & yd0 & _ & Hy0 & (? & ? & _ & _ & Hl0 & _)).
    congruence. }
  pose proof (part_start_same x y Hyl Hps) as Hsy.
  pose proof (part_start_same y y' Hlen Hps') as Hsy'.
  assert (∀ v : vector T, Z.of_nat (length (concat v))
                          = part_start v (Z.of_nat (length v))) as Hvs.
  { intros v. by rewrite part_start_end by lia. }
  eexists _, y', _. split; [exact Hrun|].
  split; [|split].
  - apply Nat2Z.inj. rewrite !Hvs, Hlen. apply Hsy'.
  - rewrite Hvs, Hyl, Hsy. apply part_start_end. lia.
  - intros i Hi.
    destruct (global_index_split x i Hi) as (d & xd & k & Hxd & Hk & ->).
    destruct (lookup_lt_is_Some_2 y d) as [yd Hyd].
    { apply lookup_lt_Some in Hxd. lia. }
    destruct (lookup_lt_is_Some_2 (s (base st)) d) as [sd Hsd].
    { apply lookup_lt_Some in Hxd. lia. }
    rewrite (Hco d sd Hsd) in Hsd.
    destruct (Hres d yd Hyd)
      as (xrem & yd' & Hxrem & Hyd' & sd' & xd' & Hsd' & Hxd' & Hl' & Hc).
    assert (sd' = coeffs) as -> by congruence.
    assert (xd' = xd) as -> by congruence.
    assert (length yd = length xd) as Hlyd
      by exact (part_size_eq_length x y d xd yd Hps Hxd Hyd).
    destruct (decide (xd = [])) as [->|Hne]; [cbn in Hk; lia|].
    assert (length yd' = length xd) as Hlyd' by congruence.
    assert (load (concat y) (part_start x (Z.of_nat d) + k) = load yd k) as E1.
    { rewrite <- Hsy. symmetry.
      apply (part_elem y (Z.of_nat d) yd k); rewrite ?Nat2Z.id; done || lia. }
    assert (load (concat y') (part_start x (Z.of_nat d) + k) = load yd' k) as E2.
    { rewrite <- Hsy, <- Hsy'. symmetry.
      apply (part_elem y' (Z.of_nat d) yd' k); rewrite ?Nat2Z.id; done || lia. }
    rewrite E1, E2.
    rewrite (Hc k). cbn [ka_n pushed_args].
    rewrite (part_size_lookup x d xd Hxd), decide_True by done.
    unfold contract_at. f_equal.
    unfold stencil_conv, clamped_conv. cbn [ka_lhalo ka_rhalo pushed_args].
    apply foldl_add_term_ext. intros j Hj%elem_of_seqZ.
    unfold conv_term. cbn [ka_s ka_lhalo pushed_args].
    rewrite (read_policy_clamp_read st x alpha beta hs d coeffs xd xrem (k + j))
      by (done || lia).
    by rewrite Z.add_assoc.
Qed.
End SplitFacts.

(** * The claims of the specification *)

Section Claims.
Context {T : Type} `{Scalar T}.
Variable uninit : nat → T.
Variable host_alloc : Z → bool.
Implicit Types (q : list device) (b : stencil_base T) (st : stencil T)
  (x y : vector T) (a : kernel_args T).

(** C2.  The in-kernel read policy.  For an offset [g_id] of type [long]
    into a partition of [n > 0] elements, with halo widths that are not
    negative, [read_x] returns: the local element at [g_id] when
    [0 <= g_id < n]; when [g_id < 0], the halo element at [lhalo + g_id] if
    there is a left neighbour and that index is not negative, zero if there
    is one and the index is negative, the local element at 0 if there is
    none; when [g_id >= n], the halo element at [lhalo + g_id - n] if there
    is a right neighbour and [g_id < n + rhalo], zero if there is one and
    [g_id >= n + rhalo], the local element at [n - 1] if there is none. *)
Theorem read_x_policy (g_id n lh rh : Z) (has_left has_right : bool)
    (xloc xrem : list T) :
  - 2 ^ 63 ≤ g_id < 2 ^ 63 → 0 < n < 2 ^ 64 →
  0 ≤ lh ≤ INT_MAX → 0 ≤ rh ≤ INT_MAX →
  let r := read_x g_id n has_left has_right lh rh xloc xrem in
  (0 ≤ g_id < n → r = load xloc g_id) ∧
  (g_id < 0 → has_left = true → 0 ≤ lh + g_id → r = load xrem (lh + g_id)) ∧
  (g_id < 0 → has_left = true → lh + g_id < 0 → r = Some sc_zero) ∧
  (g_id < 0 → has_left = false → r = load xloc 0) ∧
  (n ≤ g_id → has_right = true → g_id < n + rh →
     r = load xrem (lh + g_id - n)) ∧
  (n ≤ g_id → has_right = true → n + rh ≤ g_id → r = Some sc_zero) ∧
  (n ≤ g_id → has_right = false → r = load xloc (n - 1)).
Proof.
  intros Hg Hn Hl Hr r.
  pose proof (read_x_read_policy
    {| ka_n := n; ka_has_left := has_left; ka_has_right := has_right;
       ka_lhalo := lh; ka_rhalo := rh; ka_s := []; ka_xloc := xloc;
       ka_xrem := xrem; ka_alpha := sc_zero; ka_beta := sc_zero |}
    g_id Hn Hl Hr Hg) as E.
  unfold kread, read_policy in E. cbn in E. fold r in E. rewrite E.
  repeat split; intros; repeat case_decide; subst; try done; lia.
Qed.

(** C7.  With a single partition, or with no halo on either side,
    [exchange_halos] makes no request at all (no read, no fill of the host
    buffer, no upload, no wait) and returns the host buffer and the device
    buffers as they were; the input vector is not part of what it
    returns. *)
Theorem exchange_halos_noop b x :
  nqueue b ≤ 1 ∨ lhalo b + rhalo b = 0 →
  ∃ hs, exchange_halos b x = Some hs ∧ hs_log hs = [] ∧
        hs_hbuf hs = hbuf b ∧ hs_dbuf hs = dbuf b ∧ with_halos b hs = b.
Proof.
  intros Hc. rewrite exchange_halos_skip.
  - eexists. split; [done|]. cbn. split; [done|]. split; [done|].
    split; [done|]. by destruct b.
  - destruct Hc as [?| ->]; [by left | by right].
Qed.

(** C8, as amended.  The constructor first asks the host for the halo
    buffer of [queue.size() * (width - 1)] elements, with [width - 1]
    computed in [unsigned].  Where the host cannot provide it, the
    constructor is left by the exception of that allocation and no assertion
    is evaluated.  Where it can: a violated precondition (no device, a zero
    width, a centre that is not below the width, or a derived halo width
    that is negative as an [int]) ends in one of the assertions; with a
    device, [width >= 1], [center < width] and both [center] and
    [width - center - 1] at most [INT_MAX], every assertion holds and the
    stencil is built with [lhalo = center], [rhalo = width - center - 1]
    and [lhalo + rhalo + 1 = width]. *)
Theorem constructor_assertions q (width center : Z) (coeffs : list T) :
  0 ≤ width < 2 ^ 32 → 0 ≤ center < 2 ^ 32 →
  let count := u64 (Z.of_nat (length q) * u32 (width - 1)) in
  (host_alloc count = false →
   stencil_base_ctor uninit host_alloc q width center coeffs = Threw) ∧
  (host_alloc count = true →
   q = [] ∨ width = 0 ∨ width ≤ center ∨ s32 center < 0
     ∨ s32 (u32 (u32 (width - center) - 1)) < 0 →
   ∃ which,
     stencil_base_ctor uninit host_alloc q width center coeffs
       = Aborted which) ∧
  (host_alloc count = true →
   q ≠ [] → 1 ≤ width → center < width →
   center ≤ INT_MAX → width - center - 1 ≤ INT_MAX →
   ∃ b, stencil_base_ctor uninit host_alloc q width center coeffs = Built b ∧
        lhalo b = center ∧ rhalo b = width - center - 1 ∧
        lhalo b + rhalo b + 1 = width).
Proof.
  intros Hw Hc count. split; [|split].
  - intros Hmem. unfold stencil_base_ctor. fold count. by rewrite Hmem.
  - apply stencil_base_ctor_aborts.
  - intros Hmem Hq Hw' Hc' Hl Hr. subst count.
    rewrite (u32_small (width - 1)) in Hmem by lia.
    rewrite stencil_base_ctor_builds by (done || lia).
    eexists. split; [done|]. cbn. lia.
Qed.

(** C10.  The two operators build the same transform, with the scale 1,
    and applying it to [y] is the call of [convolve] on the stencil and the
    vector with [alpha] 1 when appending and 0 otherwise, and [beta] the
    scale, negated when negating. *)
Theorem multiply_shorthand_commutes st x :
  mul_stencil_vector st x = mul_vector_stencil x st ∧
  conv_s (mul_stencil_vector st x) = st ∧
  conv_x (mul_stencil_vector st x) = x ∧
  scale (mul_stencil_vector st x) = sc_one ∧
  ∀ y,
    apply uninit false false (mul_vector_stencil x st) y
      = convolve uninit st x y sc_zero sc_one ∧
    apply uninit false false (mul_stencil_vector st x) y
      = convolve uninit st x y sc_zero sc_one ∧
    apply uninit true false (mul_stencil_vector st x) y
      = convolve uninit st x y sc_zero (sc_neg sc_one) ∧
    apply uninit false true (mul_stencil_vector st x) y
      = convolve uninit st x y sc_one sc_one ∧
    apply uninit true true (mul_stencil_vector st x) y
      = convolve uninit st x y sc_one (sc_neg sc_one) ∧
    ∀ negate append,
      apply uninit negate append (mul_stencil_vector st x) y
        = apply uninit negate append (mul_vector_stencil x st) y.
Proof. repeat split. Qed.
End Claims.

Section Claims2.
Context {T : Type} `{Scalar T}.
Variable uninit : nat → T.
Variable host_alloc : Z → bool.
Implicit Types (q : list device) (b : stencil_base T) (st : stencil T)
  (x y : vector T) (a : kernel_args T).

(** C5.  The strategy of a device is chosen by [init] when the stencil is
    built: the generic kernel exactly when the device is a CPU or the width
    exceeds 64, with one byte for each local-memory argument; the tiled
    kernel otherwise, with [sizeof(T) * width] bytes for the coefficient
    tile and [sizeof(T) * (workgroup_size + lhalo + rhalo)] bytes for the
    input tile.  A call of [convolve] changes none of the three. *)
Theorem strategy_selection_fixed q (coeffs : list T) center st :
  Z.of_nat (length coeffs) < 2 ^ 32 → 0 ≤ center < 2 ^ 32 →
  0 < sc_sizeof < 2 ^ 31 →
  (∀ dev, dev ∈ q → 0 ≤ workgroup_size dev < 2 ^ 31) →
  stencil_ctor uninit host_alloc q coeffs center = Built st →
  let width := Z.of_nat (length coeffs) in
  (∀ d dev, q !! d = Some dev →
     (st_conv st !! d = Some SlowConv ↔ is_cpu dev = true ∨ 64 < width) ∧
     (st_conv st !! d = Some FastConv ↔ is_cpu dev = false ∧ width ≤ 64) ∧
     (is_cpu dev = true ∨ 64 < width →
        st_loc_s st !! d = Some 1 ∧ st_loc_x st !! d = Some 1) ∧
     (is_cpu dev = false ∧ width ≤ 64 →
        st_loc_s st !! d = Some (sc_sizeof * width) ∧
        st_loc_x st !! d =
          Some (sc_sizeof * (workgroup_size dev + lhalo (base st)
                             + rhalo (base st))))) ∧
  (∀ x y alpha beta st' y' log,
     convolve uninit st x y alpha beta = Some (st', y', log) →
     st_conv st' = st_conv st ∧ st_loc_s st' = st_loc_s st ∧
     st_loc_x st' = st_loc_x st).
Proof.
  intros Hlen Hc Hsz Hwgs Hst width.
  destruct (stencil_ctor_inv uninit host_alloc q coeffs center st Hlen Hc Hst)
    as (_ & Hq & Hlh & Hrh & Hl0 & Hr0 & Hlr & _ & _ & _ & Hinit).
  unfold INT_MAX in Hlr. fold width in Hinit, Hrh. split.
  - intros d dev Hd.
    assert (0 ≤ workgroup_size dev < 2 ^ 31) as Hw.
    { apply Hwgs. by eapply list_elem_of_lookup_2. }
    rewrite <- Hq in Hd.
    destruct (init_lookup (base st) width d dev Hd) as (Hk & Hls & Hlx).
    rewrite <- Hinit in Hk, Hls, Hlx. rewrite Hk, Hls, Hlx.
    unfold init_device.
    destruct (is_cpu dev) eqn:Hcpu; cbn [orb fst snd].
    + psolve.
    + destruct (Z.ltb_spec 64 width) as [Hgt|Hle]; cbn [fst snd].
      * psolve.
      * assert (0 ≤ sc_sizeof * width < 2 ^ 64) by nia.
        assert (0 ≤ sc_sizeof * (workgroup_size dev + lhalo (base st)
                                 + rhalo (base st)) < 2 ^ 64) by nia.
        unwrap.
        psolve.
  - intros x y alpha beta st' y' log Hrun.
    apply convolve_frame in Hrun as (? & ? & ? & _). done.
Qed.
End Claims2.

Section Claims3.
Context {T : Type} `{Scalar T}.
Variable uninit : nat → T.
Implicit Types (st : stencil T) (x y : vector T).

(** C9. Determinism: a second call of [convolve] on the stencil that the
    first one left, with the same [x], [y], [alpha] and [beta], returns
    the same [y] and leaves the same stencil; with [alpha] zero the same
    holds when the second call is given the output of the first as [y]. *)
Theorem convolve_repeatable st x y alpha beta st1 y1 log1 :
  stencil_ok st → vectors_ok st x y →
  convolve uninit st x y alpha beta = Some (st1, y1, log1) →
  (∃ log2, convolve uninit st1 x y alpha beta = Some (st1, y1, log2)) ∧
  (sc_true alpha = false →
   ∃ log2, convolve uninit st1 x y1 alpha beta = Some (st1, y1, log2)).
Proof.
  intros Hst Hv Hrun.
  destruct (convolve_state uninit st x y alpha beta st1 y1 log1 Hst Hv Hrun)
    as (Hst1 & Hv1 & Hv1' & log2 & Hrun2).
  split; [by exists log2|].
  intros Ha. exists log2.
  rewrite <- (convolve_overwrite uninit st1 x y y1 alpha beta Hst1 Hv1 Hv1' Ha).
  exact Hrun2.
Qed.
End Claims3.

Section Claims4.
Context {T : Type} `{Scalar T}.
Implicit Types (b : stencil_base T) (x : vector T).

(** C3. Write phase of the halo exchange, for a non-empty partition [d]:
    on a side with a neighbour, when the read brought [size] elements with
    [0 < size], the slots of the halo that the read left out all hold the
    nearest slot that it filled; when it brought none, they all hold the
    first (left side) or last (right side) element of the partition
    itself; and the device buffer of the partition then starts with the
    merged halo. *)
Theorem exchange_halos_edge_replication b x d xd :
  halos_ok b x → 1 < nqueue b → 0 < lhalo b + rhalo b →
  0 ≤ d < nqueue b → x !! Z.to_nat d = Some xd → xd ≠ [] →
  ∃ hs, exchange_halos b x = Some hs ∧
    let w := lhalo b + rhalo b in
    let slot k := load (hs_hbuf hs) (d * w + k) in
    (has_left_halo b d = true →
       let size := (left_range b x d).2 in
       (0 < size → ∃ v, slot (lhalo b - size) = Some v ∧
                        ∀ k, 0 ≤ k < lhalo b - size → slot k = Some v) ∧
       (size = 0 → ∃ v, load xd 0 = Some v ∧
                        ∀ k, 0 ≤ k < lhalo b → slot k = Some v)) ∧
    (has_right_halo b d = true →
       let size := (right_range b x d).2 in
       (0 < size → ∃ v, slot (lhalo b + size - 1) = Some v ∧
                        ∀ k, lhalo b + size ≤ k < w → slot k = Some v) ∧
       (size = 0 → ∃ v, load xd (Z.of_nat (length xd) - 1) = Some v ∧
                        ∀ k, lhalo b ≤ k < w → slot k = Some v)) ∧
    (has_left_halo b d = true ∨ has_right_halo b d = true →
       ∃ buf, hs_dbuf hs !! Z.to_nat d = Some buf ∧
              ∀ k, 0 ≤ k < w → load buf k = slot k).
Proof.
  intros Hok Hnq Hw Hd Hxd Hne.
  destruct (exchange_halos_spec b x Hok Hnq Hw) as (hs & Hex & _ & Hslot & _ & Hup).
  pose proof Hok as (Hl & Hr & _ & Hnq31 & _ & _ & _ & _ & Hxl & _).
  exists hs. split; [exact Hex|]. cbn zeta.
  assert (0 < Z.of_nat (length xd)) as Hlen by (destruct xd; [done|cbn; lia]).
  assert (part_size x d = Z.of_nat (length xd)) as Hps.
  { rewrite <- (part_size_lookup x (Z.to_nat d) xd Hxd). f_equal. lia. }
  assert (part_start x (d + 1) = part_start x d + Z.of_nat (length xd)) as Hnext.
  { rewrite part_start_succ, Hps; [done|]. unfold nqueue in Hd. lia. }
  pose proof (part_start_nonneg x d) as Hs0.
  pose proof (part_start_le x (d + 1)) as Hs1.
  assert (0 < vec_size x) as Hvs by lia.
  assert (∀ k, 0 ≤ k < lhalo b → 0 < d →
            load (hs_hbuf hs) (d * (lhalo b + rhalo b) + k)
            = clamp_read x (part_start x d - lhalo b + k)) as Hleft.
  { intros k Hk Hd0. rewrite Hslot by lia. unfold halo_final.
    rewrite decide_True by (unfold halo_live; psolve).
    unfold halo_index. by rewrite decide_True by lia. }
  assert (∀ k, lhalo b ≤ k < lhalo b + rhalo b → d + 1 < nqueue b →
            load (hs_hbuf hs) (d * (lhalo b + rhalo b) + k)
            = clamp_read x (part_start x (d + 1) + (k - lhalo b))) as Hright.
  { intros k Hk Hd1. rewrite Hslot by lia. unfold halo_final.
    rewrite decide_True by (unfold halo_live; psolve).
    unfold halo_index. by rewrite decide_False by lia. }
  split; [|split].
  - intros [Hd0 Hl0]%has_left_halo_true.
    rewrite (left_range_eq b x d Hok Hl0). cbn [snd]. split.
    + intros Hsz.
      destruct (Z.min_spec (lhalo b) (part_start x d)) as [[Hm Hmin]|[Hm Hmin]];
        rewrite Hmin in Hsz |- *.
      * destruct (vec_elem_is_Some x (part_start x d - lhalo b)) as [v Hv]; [lia|].
        exists v. split; [|intros k Hk; lia].
        rewrite Hleft by lia. rewrite <- Hv.
        rewrite clamp_read_inside by lia. f_equal. lia.
      * destruct (vec_elem_is_Some x 0) as [v Hv]; [lia|].
        exists v. split.
        -- rewrite Hleft by lia. rewrite <- Hv. apply clamp_read_below; lia.
        -- intros k Hk. rewrite Hleft by lia. rewrite <- Hv.
           apply clamp_read_below; lia.
    + intros Hsz. destruct (load_is_Some xd 0) as [v Hv]; [lia|].
      exists v. split; [done|]. intros k Hk.
      rewrite Hleft by lia. rewrite <- Hv.
      rewrite (part_elem x d xd 0) by (done || lia).
      rewrite clamp_read_below by lia. f_equal. lia.
  - intros [Hd1 Hr0]%has_right_halo_true; [|done..].
    rewrite (right_range_eq b x d Hok Hd). cbn [snd]. split.
    + intros Hsz.
      destruct (Z.min_spec (rhalo b) (vec_size x - part_start x (d + 1)))
        as [[Hm Hmin]|[Hm Hmin]]; rewrite Hmin in Hsz |- *.
      * destruct (vec_elem_is_Some x (part_start x (d + 1) + rhalo b - 1))
          as [v Hv]; [lia|].
        exists v. split; [|intros k Hk; lia].
        rewrite Hright by lia. rewrite <- Hv.
        rewrite clamp_read_inside by lia. f_equal. lia.
      * destruct (vec_elem_is_Some x (vec_size x - 1)) as [v Hv]; [lia|].
        exists v. split.
        -- rewrite Hright by lia. rewrite <- Hv. apply clamp_read_above; lia.
        -- intros k Hk. rewrite Hright by lia. rewrite <- Hv.
           apply clamp_read_above; lia.
    + intros Hsz.
      destruct (load_is_Some xd (Z.of_nat (length xd) - 1)) as [v Hv]; [lia|].
      exists v. split; [done|]. intros k Hk.
      rewrite Hright by lia. rewrite <- Hv.
      rewrite (part_elem x d xd (Z.of_nat (length xd) - 1)) by (done || lia).
      rewrite clamp_read_above by lia. f_equal. lia.
  - intros Hside. specialize (Hup d Hd).
    rewrite decide_True in Hup.
    + destruct Hup as (old & new & _ & Hnew & _ & Hload).
      exists new. split; [done|]. intros k Hk.
      rewrite Hload, decide_True by done. by rewrite Hslot.
    + unfold uploads. split; [lia|].
      destruct Hside as [Hs|Hs].
      * apply has_left_halo_true in Hs. by left.
      * apply has_right_halo_true in Hs; [by right|done..].
Qed.
End Claims4.

Section Claims5.

(** C6. The second difference on one device: on a host with the memory
    for the two elements of the halo buffer, the stencil built from the
    coefficients [1, -2, 1] with center 1 has [lhalo = rhalo = 1], and
    [convolve] with [alpha = 0], [beta = 1] on [x = [0, 1, 4, 9, 16]]
    leaves [y = [1, 2, 2, 2, -7]], whatever [y] held before, on a device of
    either class. *)
Theorem second_difference_scenario (dev : device) (y0 : list Z)
    (garbage : nat → Z) (host_alloc : Z → bool) :
  length y0 = 5%nat → host_alloc 2 = true →
  (is_cpu dev = false →
   0 < launch_groups dev ∧ 0 < workgroup_size dev ∧
   5 + (launch_groups dev + 1) * workgroup_size dev + 2 ≤ INT_MAX) →
  ∃ st st' log,
    stencil_ctor garbage host_alloc [dev] [1; -2; 1] 1 = Built st ∧
    lhalo (base st) = 1 ∧ rhalo (base st) = 1 ∧
    convolve garbage st [[0; 1; 4; 9; 16]] [y0] 0 1
      = Some (st', [[1; 2; 2; 2; -7]], log).
Proof.
  intros Hy0 Hmem Hdev.
  destruct (stencil_ctor_builds garbage host_alloc [dev] [1; -2; 1] 1)
    as [st Hctor]; [done|unfold INT_MAX; cbn; lia..|exact Hmem|].
  pose proof Hctor as Hbuilt.
  apply stencil_ctor_inv in Hctor
    as (Hst & Hq & Hl & Hr & _ & _ & _ & Hh & Hd & Hs & _); [|cbn; lia..].
  cbn in Hl, Hr, Hh, Hd, Hs.
  set (x := [[0; 1; 4; 9; 16]]).
  assert (nqueue (base st) = 1) as Hnq by (unfold nqueue; by rewrite Hq).
  assert (vectors_ok st x [y0]) as Hv.
  { split; [|split; [done|split; [|split; [done|]]]].
    - unfold halos_ok. rewrite Hl, Hr, Hnq, Hh, Hd, Hq. unfold INT_MAX. cbn.
      repeat split; try lia.
      intros [|d] buf Hb; [|done]. injection Hb as <-.
      rewrite length_fresh; lia.
    - intros d. unfold part_size.
      destruct (Z.to_nat d) as [|[|i]]; cbn; [lia|done..].
    - rewrite Hq, Hl, Hr. intros [|d] dev' Hd' Hcpu; [|done].
      injection Hd' as <-. apply Hdev in Hcpu.
      change (part_size x (Z.of_nat 0)) with 5. lia. }
  destruct (convolve_spec garbage st x [y0] 0 1 Hst Hv)
    as (hs & y' & _ & Hrun & Hlen & Hres).
  destruct (Hres 0%nat y0 eq_refl)
    as (xrem & yd' & _ & Hyd' & sd & xd & Hsd & Hxd & Hl' & Hc).
  rewrite Hs in Hsd. injection Hsd as <-. injection Hxd as <-.
  rewrite decide_False in Hc by done.
  assert (pushed_args st x 0 1 (Z.of_nat 0) [1; -2; 1] [0; 1; 4; 9; 16] xrem
          = {| ka_n := 5; ka_has_left := false; ka_has_right := false;
               ka_lhalo := 1; ka_rhalo := 1; ka_s := [1; -2; 1];
               ka_xloc := [0; 1; 4; 9; 16]; ka_xrem := xrem;
               ka_alpha := 0; ka_beta := 1 |}) as Ha.
  { unfold pushed_args. by rewrite Hl, Hr, Hnq. }
  rewrite Ha in Hc. clear Ha.
  assert (yd' = [1; 2; 2; 2; -7]) as ->.
  { destruct y0 as [|a0 [|a1 [|a2 [|a3 [|a4 [|]]]]]]; try done.
    apply load_ext. intros k. rewrite (Hc k). cbn [ka_n].
    case_decide as Hk.
    - assert (k = 0 ∨ k = 1 ∨ k = 2 ∨ k = 3 ∨ k = 4) as Hcase by lia.
      destruct Hcase as [->|[->|[->|[->| ->]]]]; vm_compute; reflexivity.
    - unfold load. case_decide; [|done].
      rewrite !lookup_ge_None_2 by (cbn; lia). done. }
  destruct y' as [|? [|]]; try done. injection Hyd' as ->.
  exists st. eexists _, _. split; [exact Hbuilt|].
  split; [exact Hl|]. split; [exact Hr|]. exact Hrun.
Qed.
End Claims5.

Section Claims6.
Context {T : Type} `{Scalar T}.
Variable uninit : nat → T.
Implicit Types (b : stencil_base T) (st : stencil T) (x y : vector T).

(** X1. Single-device correctness while the launch fits [int]: on one
    device, a CPU or a device for which the size of [x] plus
    [(groups + 1) * workgroup_size + lhalo + rhalo] is at most [INT_MAX],
    with the coefficients [s] and the input [x], [convolve] returns and
    leaves [y[i] = alpha * y[i] + beta * sum] ([beta * sum] when [alpha] is
    zero) for every [i], where [sum] is the sum over [j] from [-lhalo] to
    [rhalo] of [s[lhalo + j] * clamp_read(x, i + j)] and [clamp_read]
    replicates the edge element beyond the bounds. *)
Theorem single_device_correctness st (xs ys coeffs : list T) alpha beta :
  stencil_ok st → vectors_ok st [xs] [ys] → s (base st) = [coeffs] →
  ∃ st' ys' log,
    convolve uninit st [xs] [ys] alpha beta = Some (st', [ys'], log) ∧
    length ys' = length ys ∧
    ∀ i y_old, 0 ≤ i < Z.of_nat (length xs) → load ys i = Some y_old →
      ∃ sum,
        clamped_conv coeffs (lhalo (base st)) (rhalo (base st)) [xs] i
          = Some sum ∧
        load ys' i = Some (accumulate alpha beta y_old sum).
Proof.
  intros Hst Hv Hs.
  destruct (convolve_global uninit st [xs] [ys] alpha beta coeffs Hst Hv)
    as (st' & y' & log & Hrun & Hlen & Hsz & Hall).
  { rewrite Hs. intros [|d] sd Hd; [by injection Hd|done]. }
  destruct (convolve_spec uninit st [xs] [ys] alpha beta Hst Hv)
    as (hs & y0 & _ & Hrun0 & Hlen0 & _).
  assert (y0 = y') as -> by congruence.
  destruct y' as [|ys' [|]]; try done.
  exists st', ys', log. split; [done|].
  cbn in Hlen, Hsz. rewrite !app_nil_r in *.
  split; [done|].
  intros i y_old Hi Hold.
  assert (vec_size [xs] = Z.of_nat (length xs)) as Hvs.
  { unfold vec_size. cbn. by rewrite app_nil_r. }
  specialize (Hall i). rewrite Hvs in Hall. specialize (Hall Hi).
  cbn [concat] in Hall. rewrite !app_nil_r, Hold in Hall.
  destruct (clamped_conv _ _ _ _ i) as [sum|] eqn:Hsum.
  - exists sum. done.
  - cbn in Hall. assert (is_Some (load ys' i)) as [? Hsome]; [|congruence].
    apply load_is_Some. apply load_Some_lt in Hold. lia.
Qed.

(** X2. Split invariance while the launches fit [int]: for the same
    coefficients and centre, two stencils over different device lists,
    given the same input and the same [y] split in two ways, both return
    and leave the same [y], provided that on both sides every partition on
    a device that runs the tiled kernel has a size that, with
    [(groups + 1) * workgroup_size + lhalo + rhalo] added, is at most
    [INT_MAX].  All devices compute with the one arithmetic of the element
    type [T]. *)
Theorem split_invariance st1 st2 x1 x2 y1 y2 alpha beta (coeffs : list T) :
  stencil_ok st1 → stencil_ok st2 →
  vectors_ok st1 x1 y1 → vectors_ok st2 x2 y2 →
  (∀ d sd, s (base st1) !! d = Some sd → sd = coeffs) →
  (∀ d sd, s (base st2) !! d = Some sd → sd = coeffs) →
  lhalo (base st1) = lhalo (base st2) → rhalo (base st1) = rhalo (base st2) →
  concat x1 = concat x2 → concat y1 = concat y2 →
  ∃ st1' y1' log1 st2' y2' log2,
    convolve uninit st1 x1 y1 alpha beta = Some (st1', y1', log1) ∧
    convolve uninit st2 x2 y2 alpha beta = Some (st2', y2', log2) ∧
    concat y1' = concat y2'.
Proof.
  intros Hst1 Hst2 Hv1 Hv2 Hc1 Hc2 Hl Hr Hx Hy.
  destruct (convolve_global uninit st1 x1 y1 alpha beta coeffs Hst1 Hv1 Hc1)
    as (st1' & y1' & log1 & Hrun1 & Hlen1 & Hsz1 & Hall1).
  destruct (convolve_global uninit st2 x2 y2 alpha beta coeffs Hst2 Hv2 Hc2)
    as (st2' & y2' & log2 & Hrun2 & Hlen2 & Hsz2 & Hall2).
  exists st1', y1', log1, st2', y2', log2.
  split; [done|]. split; [done|].
  assert (vec_size x1 = vec_size x2) as Hvs by (unfold vec_size; by rewrite Hx).
  apply load_ext. intros i.
  destruct (decide (0 ≤ i < vec_size x1)) as [Hi|Hi].
  - rewrite Hall1 by done. rewrite Hall2 by lia.
    rewrite Hl, Hr, Hy.
    by rewrite (clamped_conv_concat coeffs _ _ x1 x2 i Hx).
  - unfold load. case_decide; [|done].
    rewrite !lookup_ge_None_2; [done|lia..].
Qed.
End Claims6.

Section Claims7.
Context {T : Type} `{Scalar T}.
Implicit Types (b : stencil_base T) (x : vector T).

(** X3. What the halo exchange delivers: for a non-empty partition [d],
    after the exchange the device buffer of [d] holds, in the [lhalo] slots
    of the left side when [d] has a left neighbour, the elements of [x] at
    the [lhalo] global indices before the partition, and in the [rhalo]
    slots of the right side when [d] has a right neighbour, those at the
    [rhalo] global indices after it, with the edge element of [x] for an
    index beyond the bounds. *)
Theorem halo_buffers_hold_neighbours b x d xd :
  halos_ok b x → 1 < nqueue b → 0 ≤ d < nqueue b →
  x !! Z.to_nat d = Some xd → xd ≠ [] →
  ∃ hs, exchange_halos b x = Some hs ∧
    (0 < d → ∀ k, 0 ≤ k < lhalo b →
       ∃ buf v, hs_dbuf hs !! Z.to_nat d = Some buf ∧ load buf k = Some v ∧
                clamp_read x (part_start x d - lhalo b + k) = Some v) ∧
    (d + 1 < nqueue b → ∀ k, 0 ≤ k < rhalo b →
       ∃ buf v, hs_dbuf hs !! Z.to_nat d = Some buf ∧
                load buf (lhalo b + k) = Some v ∧
                clamp_read x (part_start x (d + 1) + k) = Some v).
Proof.
  intros Hok Hnq Hd Hxd Hne.
  pose proof Hok as (Hl & Hr & _ & _ & _ & _ & _ & _ & Hxl & _).
  destruct (exchange_halos_keeps b x Hok) as (hs & Hex & _).
  exists hs. split; [done|].
  assert (0 < Z.of_nat (length xd)) as Hlen by (destruct xd; [done|cbn; lia]).
  assert (part_size x d = Z.of_nat (length xd)) as Hps.
  { rewrite <- (part_size_lookup x (Z.to_nat d) xd Hxd). f_equal. lia. }
  assert (0 < vec_size x) as Hvs.
  { pose proof (part_start_nonneg x d). pose proof (part_start_le x (d + 1)).
    rewrite part_start_succ in * by (unfold nqueue in Hd; lia). lia. }
  assert (∀ gi, is_Some (clamp_read x gi)) as Hsome.
  { intros gi. unfold clamp_read. apply vec_elem_is_Some. lia. }
  assert (∀ k, 0 ≤ k < lhalo b + rhalo b → halo_live b x d k →
            ∃ buf, hs_dbuf hs !! Z.to_nat d = Some buf ∧
                   load buf k = clamp_read x (halo_index b x d k)) as Hslot.
  { intros k Hk Hlive.
    destruct (exchange_halos_spec b x Hok) as (hs0 & Hex0 & _ & _ & _ & Hup);
      [lia..|].
    assert (hs0 = hs) as -> by congruence.
    specialize (Hup d Hd). rewrite decide_True in Hup.
    - destruct Hup as (old & new & _ & Hnew & _ & Hload).
      exists new. split; [done|].
      rewrite Hload, decide_True by done. unfold halo_final.
      by rewrite decide_True.
    - destruct Hlive as [? Hside]. split; [done|].
      destruct Hside; [left|right]; lia. }
  split.
  - intros Hd0 k Hk.
    destruct (Hslot k) as (buf & Hbuf & Hload); [lia|split; [lia|left; lia]|].
    unfold halo_index in Hload. rewrite decide_True in Hload by lia.
    destruct (Hsome (part_start x d - lhalo b + k)) as [v Hv].
    exists buf, v. rewrite Hload. done.
  - intros Hd1 k Hk.
    destruct (Hslot (lhalo b + k)) as (buf & Hbuf & Hload);
      [lia|split; [lia|right; lia]|].
    unfold halo_index in Hload. rewrite decide_False in Hload by lia.
    replace (lhalo b + k - lhalo b) with k in Hload by lia.
    destruct (Hsome (part_start x (d + 1) + k)) as [v Hv].
    exists buf, v. rewrite Hload. done.
Qed.
End Claims7.

(** * The statements on concrete inputs *)

(** Case analysis on the index of a lookup in a list that is written
    out. *)
Ltac by_index :=
  intros;
  repeat match goal with
         | H : _ !! ?d = Some _ |- _ =>
             is_var d; destruct d; cbn in H; simplify_eq
         end;
  cbn in *; unfold INT_MAX in *; try done; try lia.

Ltac by_part_size :=
  let d := fresh "d" in
  intros d; unfold part_size;
  destruct (Z.to_nat d) as [|[|[|[|?]]]]; reflexivity.

Ltac check_halos_ok :=
  unfold halos_ok, INT_MAX; cbn; repeat split; try lia; by_index.

Ltac check_stencil_ok :=
  unfold stencil_ok; cbn; repeat split; try lia; by_index.

Ltac check_vectors_ok :=
  split; [check_halos_ok|];
  split; [reflexivity|];
  split; [by_part_size|];
  split; [cbn; lia|by_index].

(** The element left of a partition that has a left neighbour. *)
Lemma read_x_policy_witness :
  - 2 ^ 63 ≤ -1 < 2 ^ 63 ∧ 0 < 3 < 2 ^ 64 ∧
  0 ≤ 1 ≤ INT_MAX ∧ 0 ≤ 1 ≤ INT_MAX ∧
  let r := read_x (-1) 3 true false 1 1 [10; 20; 30] [7; 8] in
  (0 ≤ -1 < 3 → r = load [10; 20; 30] (-1)) ∧
  (-1 < 0 → true = true → 0 ≤ 1 + -1 → r = load [7; 8] (1 + -1)) ∧
  (-1 < 0 → true = true → 1 + -1 < 0 → r = Some sc_zero) ∧
  (-1 < 0 → true = false → r = load [10; 20; 30] 0) ∧
  (3 ≤ -1 → false = true → -1 < 3 + 1 → r = load [7; 8] (1 + -1 - 3)) ∧
  (3 ≤ -1 → false = true → 3 + 1 ≤ -1 → r = Some sc_zero) ∧
  (3 ≤ -1 → false = false → r = load [10; 20; 30] (3 - 1)).
Proof.
  assert (- 2 ^ 63 ≤ -1 < 2 ^ 63) as Hg by lia.
  assert (0 < 3 < 2 ^ 64) as Hn by lia.
  assert (0 ≤ 1 ≤ INT_MAX) as Hh by (unfold INT_MAX; lia).
  exact (conj Hg (conj Hn (conj Hh (conj Hh
    (read_x_policy (-1) 3 1 1 true false [10; 20; 30] [7; 8] Hg Hn Hh Hh))))).
Defined.

(** The middle partition of three, each shorter than the halos. *)
Lemma exchange_halos_edge_replication_witness :
  halos_ok wide_base short_parts ∧ 1 < nqueue wide_base ∧
  0 < lhalo wide_base + rhalo wide_base ∧ 0 ≤ 1 < nqueue wide_base ∧
  short_parts !! Z.to_nat 1 = Some [6; 7] ∧ [6; 7] ≠ ([] : list Z) ∧
  ∃ hs, exchange_halos wide_base short_parts = Some hs ∧
    let w := lhalo wide_base + rhalo wide_base in
    let slot k := load (hs_hbuf hs) (1 * w + k) in
    (has_left_halo wide_base 1 = true →
       let size := (left_range wide_base short_parts 1).2 in
       (0 < size → ∃ v, slot (lhalo wide_base - size) = Some v ∧
                        ∀ k, 0 ≤ k < lhalo wide_base - size → slot k = Some v) ∧
       (size = 0 → ∃ v, load [6; 7] 0 = Some v ∧
                        ∀ k, 0 ≤ k < lhalo wide_base → slot k = Some v)) ∧
    (has_right_halo wide_base 1 = true →
       let size := (right_range wide_base short_parts 1).2 in
       (0 < size → ∃ v, slot (lhalo wide_base + size - 1) = Some v ∧
                        ∀ k, lhalo wide_base + size ≤ k < w → slot k = Some v) ∧
       (size = 0 → ∃ v, load [6; 7] (Z.of_nat (length [6; 7]) - 1) = Some v ∧
                        ∀ k, lhalo wide_base ≤ k < w → slot k = Some v)) ∧
    (has_left_halo wide_base 1 = true ∨ has_right_halo wide_base 1 = true →
       ∃ buf, hs_dbuf hs !! Z.to_nat 1 = Some buf ∧
              ∀ k, 0 ≤ k < w → load buf k = slot k).
Proof.
  assert (halos_ok wide_base short_parts) as Hok by check_halos_ok.
  assert (1 < nqueue wide_base) as Hnq by (unfold nqueue; cbn; lia).
  assert (0 < lhalo wide_base + rhalo wide_base) as Hw by (cbn; lia).
  assert (0 ≤ 1 < nqueue wide_base) as Hd by (unfold nqueue; cbn; lia).
  assert (short_parts !! Z.to_nat 1 = Some [6; 7]) as Hx by reflexivity.
  assert ([6; 7] ≠ ([] : list Z)) as Hne by discriminate.
  exact (conj Hok (conj Hnq (conj Hw (conj Hd (conj Hx (conj Hne
    (exchange_halos_edge_replication wide_base short_parts 1 [6; 7]
       Hok Hnq Hw Hd Hx Hne))))))).
Defined.

(** The kernels chosen for a GPU and a CPU at width 3. *)
Lemma strategy_selection_fixed_witness :
  Z.of_nat (length [1; -2; 1]) < 2 ^ 32 ∧ 0 ≤ 1 < 2 ^ 32 ∧
  0 < sc_sizeof < 2 ^ 31 ∧
  (∀ dev, dev ∈ [gpu_device; cpu_device] → 0 ≤ workgroup_size dev < 2 ^ 31) ∧
  stencil_ctor zeroed host_8GiB [gpu_device; cpu_device] [1; -2; 1] 1
    = Built second_difference ∧
  let width := Z.of_nat (length [1; -2; 1]) in
  (∀ d dev, [gpu_device; cpu_device] !! d = Some dev →
     (st_conv second_difference !! d = Some SlowConv
        ↔ is_cpu dev = true ∨ 64 < width) ∧
     (st_conv second_difference !! d = Some FastConv
        ↔ is_cpu dev = false ∧ width ≤ 64) ∧
     (is_cpu dev = true ∨ 64 < width →
        st_loc_s second_difference !! d = Some 1 ∧
        st_loc_x second_difference !! d = Some 1) ∧
     (is_cpu dev = false ∧ width ≤ 64 →
        st_loc_s second_difference !! d = Some (sc_sizeof * width) ∧
        st_loc_x second_difference !! d =
          Some (sc_sizeof * (workgroup_size dev + lhalo (base second_difference)
                             + rhalo (base second_difference))))) ∧
  (∀ x y alpha beta st' y' log,
     convolve zeroed second_difference x y alpha beta = Some (st', y', log) →
     st_conv st' = st_conv second_difference ∧
     st_loc_s st' = st_loc_s second_difference ∧
     st_loc_x st' = st_loc_x second_difference).
Proof.
  assert (Z.of_nat (length [1; -2; 1]) < 2 ^ 32) as Hlen by (cbn; lia).
  assert (0 ≤ 1 < 2 ^ 32) as Hc by lia.
  assert (0 < sc_sizeof < 2 ^ 31) as Hsz by (cbn; lia).
  assert (∀ dev, dev ∈ [gpu_device; cpu_device] →
                 0 ≤ workgroup_size dev < 2 ^ 31) as Hwgs.
  { intros dev Hdev. repeat apply elem_of_cons in Hdev as [->|Hdev];
      [cbn; lia..|by apply elem_of_nil in Hdev]. }
  assert (stencil_ctor zeroed host_8GiB [gpu_device; cpu_device] [1; -2; 1] 1
          = Built second_difference) as Hst by (vm_compute; reflexivity).
  exact (conj Hlen (conj Hc (conj Hsz (conj Hwgs (conj Hst
    (strategy_selection_fixed zeroed host_8GiB [gpu_device; cpu_device]
       [1; -2; 1] 1 second_difference Hlen Hc Hsz Hwgs Hst)))))).
Defined.

(** The scenario on a GPU, with a stale [y]. *)
Lemma second_difference_scenario_witness :
  length [5; 5; 5; 5; 5] = 5%nat ∧ host_8GiB 2 = true ∧
  (is_cpu gpu_device = false →
   0 < launch_groups gpu_device ∧ 0 < workgroup_size gpu_device ∧
   5 + (launch_groups gpu_device + 1) * workgroup_size gpu_device + 2
     ≤ INT_MAX) ∧
  ∃ st st' log,
    stencil_ctor zeroed host_8GiB [gpu_device] [1; -2; 1] 1 = Built st ∧
    lhalo (base st) = 1 ∧ rhalo (base st) = 1 ∧
    convolve zeroed st [[0; 1; 4; 9; 16]] [[5; 5; 5; 5; 5]] 0 1
      = Some (st', [[1; 2; 2; 2; -7]], log).
Proof.
  assert (length [5; 5; 5; 5; 5] = 5%nat) as Hy by reflexivity.
  assert (host_8GiB 2 = true) as Hmem by reflexivity.
  assert (is_cpu gpu_device = false →
          0 < launch_groups gpu_device ∧ 0 < workgroup_size gpu_device ∧
          5 + (launch_groups gpu_device + 1) * workgroup_size gpu_device + 2
            ≤ INT_MAX) as Hdev by (intros _; unfold INT_MAX; cbn; lia).
  exact (conj Hy (conj Hmem (conj Hdev
    (second_difference_scenario gpu_device [5; 5; 5; 5; 5] zeroed host_8GiB
       Hy Hmem Hdev)))).
Defined.

(** One device: nothing is exchanged. *)
Lemma exchange_halos_noop_witness :
  (nqueue single_base ≤ 1 ∨ lhalo single_base + rhalo single_base = 0) ∧
  ∃ hs, exchange_halos single_base [[0; 1; 4; 9; 16]] = Some hs ∧
        hs_log hs = [] ∧ hs_hbuf hs = hbuf single_base ∧
        hs_dbuf hs = dbuf single_base ∧ with_halos single_base hs = single_base.
Proof.
  assert (nqueue single_base ≤ 1 ∨ lhalo single_base + rhalo single_base = 0)
    as Hc by (left; unfold nqueue; cbn; lia).
  exact (conj Hc (exchange_halos_noop single_base [[0; 1; 4; 9; 16]] Hc)).
Defined.

(** Width 3 and centre 1 on one device, on a host with the memory for
    vectors of up to [2^31] elements. *)
Lemma constructor_assertions_witness :
  0 ≤ 3 < 2 ^ 32 ∧ 0 ≤ 1 < 2 ^ 32 ∧
  (host_8GiB (u64 (Z.of_nat (length [cpu_device]) * u32 (3 - 1))) = false →
   stencil_base_ctor zeroed host_8GiB [cpu_device] 3 1 [1; -2; 1] = Threw) ∧
  (host_8GiB (u64 (Z.of_nat (length [cpu_device]) * u32 (3 - 1))) = true →
   [cpu_device] = [] ∨ 3 = 0 ∨ 3 ≤ 1 ∨ s32 1 < 0
     ∨ s32 (u32 (u32 (3 - 1) - 1)) < 0 →
   ∃ which,
     stencil_base_ctor zeroed host_8GiB [cpu_device] 3 1 [1; -2; 1]
       = Aborted which) ∧
  (host_8GiB (u64 (Z.of_nat (length [cpu_device]) * u32 (3 - 1))) = true →
   [cpu_device] ≠ [] → 1 ≤ 3 → 1 < 3 →
   1 ≤ INT_MAX → 3 - 1 - 1 ≤ INT_MAX →
   ∃ b, stencil_base_ctor zeroed host_8GiB [cpu_device] 3 1 [1; -2; 1]
          = Built b ∧
        lhalo b = 1 ∧ rhalo b = 3 - 1 - 1 ∧
        lhalo b + rhalo b + 1 = 3).
Proof.
  assert (0 ≤ 3 < 2 ^ 32) as Hw by lia.
  assert (0 ≤ 1 < 2 ^ 32) as Hc by lia.
  exact (conj Hw (conj Hc
    (constructor_assertions zeroed host_8GiB [cpu_device] 3 1 [1; -2; 1]
       Hw Hc))).
Defined.

(** The claim C8 fails on two inputs, on a host with the memory for
    vectors of up to [2^31] elements.  Its preconditions do not keep the
    derived [rhalo] within [int]: with one device, [width = 2^31 + 1] and
    [center = 0] they all hold, and the constructor ends in the assertion
    [rhalo >= 0].  And a zero width is not caught by an assertion: the
    constructor asks for a halo buffer of [2^32 - 1] elements first and is
    left by the exception of that allocation. *)
Lemma constructor_wide_stencil_aborts :
  ([cpu_device] ≠ [] ∧ 1 ≤ 2147483649 < 2 ^ 32 ∧ 0 ≤ 0 < 2147483649 ∧
   stencil_base_ctor zeroed host_8GiB [cpu_device] 2147483649 0 ([] : list Z)
     = Aborted AssertRhalo) ∧
  stencil_base_ctor zeroed host_8GiB [cpu_device] 0 0 ([] : list Z) = Threw.
Proof.
  split; [|vm_compute; reflexivity].
  split; [discriminate|]. split; [lia|]. split; [lia|].
  vm_compute. reflexivity.
Qed.

(** The second difference run twice. *)
Lemma convolve_repeatable_witness :
  stencil_ok second_difference ∧
  vectors_ok second_difference squares stale ∧
  convolve zeroed second_difference squares stale 0 1
    = Some (second_difference_after, [[1; 2; 2]; [2; -7]],
            second_difference_log) ∧
  (∃ log2, convolve zeroed second_difference_after squares stale 0 1
           = Some (second_difference_after, [[1; 2; 2]; [2; -7]], log2)) ∧
  (sc_true 0 = false →
   ∃ log2, convolve zeroed second_difference_after squares
             [[1; 2; 2]; [2; -7]] 0 1
           = Some (second_difference_after, [[1; 2; 2]; [2; -7]], log2)).
Proof.
  assert (stencil_ok second_difference) as Hst by check_stencil_ok.
  assert (vectors_ok second_difference squares stale) as Hv by check_vectors_ok.
  assert (convolve zeroed second_difference squares stale 0 1
          = Some (second_difference_after, [[1; 2; 2]; [2; -7]],
                  second_difference_log)) as Hrun by (vm_compute; reflexivity).
  exact (conj Hst (conj Hv (conj Hrun
    (convolve_repeatable zeroed second_difference squares stale 0 1
       second_difference_after [[1; 2; 2]; [2; -7]] second_difference_log
       Hst Hv Hrun)))).
Defined.

(** The second difference on one CPU, accumulating. *)
Lemma single_device_correctness_witness :
  stencil_ok second_difference_single ∧
  vectors_ok second_difference_single [[0; 1; 4; 9; 16]] [[5; 5; 5; 5; 5]] ∧
  s (base second_difference_single) = [[1; -2; 1]] ∧
  ∃ st' ys' log,
    convolve zeroed second_difference_single [[0; 1; 4; 9; 16]]
      [[5; 5; 5; 5; 5]] 2 1 = Some (st', [ys'], log) ∧
    length ys' = length [5; 5; 5; 5; 5] ∧
    ∀ i y_old, 0 ≤ i < Z.of_nat (length [0; 1; 4; 9; 16]) →
      load [5; 5; 5; 5; 5] i = Some y_old →
      ∃ sum,
        clamped_conv [1; -2; 1] (lhalo (base second_difference_single))
          (rhalo (base second_difference_single)) [[0; 1; 4; 9; 16]] i
          = Some sum ∧
        load ys' i = Some (accumulate 2 1 y_old sum).
Proof.
  assert (stencil_ok second_difference_single) as Hst by check_stencil_ok.
  assert (vectors_ok second_difference_single [[0; 1; 4; 9; 16]]
            [[5; 5; 5; 5; 5]]) as Hv by check_vectors_ok.
  assert (s (base second_difference_single) = [[1; -2; 1]]) as Hs
    by reflexivity.
  exact (conj Hst (conj Hv (conj Hs
    (single_device_correctness zeroed second_difference_single
       [0; 1; 4; 9; 16] [5; 5; 5; 5; 5] [1; -2; 1] 2 1 Hst Hv Hs)))).
Defined.

(** The second difference over a GPU and a CPU against the same on one
    CPU. *)
Lemma split_invariance_witness :
  stencil_ok second_difference ∧ stencil_ok second_difference_single ∧
  vectors_ok second_difference squares stale ∧
  vectors_ok second_difference_single [[0; 1; 4; 9; 16]] [[5; 5; 5; 5; 5]] ∧
  (∀ d sd, s (base second_difference) !! d = Some sd → sd = [1; -2; 1]) ∧
  (∀ d sd, s (base second_difference_single) !! d = Some sd
           → sd = [1; -2; 1]) ∧
  lhalo (base second_difference) = lhalo (base second_difference_single) ∧
  rhalo (base second_difference) = rhalo (base second_difference_single) ∧
  concat squares = concat [[0; 1; 4; 9; 16]] ∧
  concat stale = concat [[5; 5; 5; 5; 5]] ∧
  ∃ st1' y1' log1 st2' y2' log2,
    convolve zeroed second_difference squares stale 2 1
      = Some (st1', y1', log1) ∧
    convolve zeroed second_difference_single [[0; 1; 4; 9; 16]]
      [[5; 5; 5; 5; 5]] 2 1 = Some (st2', y2', log2) ∧
    concat y1' = concat y2'.
Proof.
  assert (stencil_ok second_difference) as Hst1 by check_stencil_ok.
  assert (stencil_ok second_difference_single) as Hst2 by check_stencil_ok.
  assert (vectors_ok second_difference squares stale) as Hv1
    by check_vectors_ok.
  assert (vectors_ok second_difference_single [[0; 1; 4; 9; 16]]
            [[5; 5; 5; 5; 5]]) as Hv2 by check_vectors_ok.
  assert (∀ d sd, s (base second_difference) !! d = Some sd
                  → sd = [1; -2; 1]) as Hc1 by by_index.
  assert (∀ d sd, s (base second_difference_single) !! d = Some sd
                  → sd = [1; -2; 1]) as Hc2 by by_index.
  assert (lhalo (base second_difference)
          = lhalo (base second_difference_single)) as Hl by reflexivity.
  assert (rhalo (base second_difference)
          = rhalo (base second_difference_single)) as Hr by reflexivity.
  assert (concat squares = concat [[0; 1; 4; 9; 16]]) as Hx by reflexivity.
  assert (concat stale = concat [[5; 5; 5; 5; 5]]) as Hy by reflexivity.
  exact (conj Hst1 (conj Hst2 (conj Hv1 (conj Hv2 (conj Hc1 (conj Hc2
    (conj Hl (conj Hr (conj Hx (conj Hy
      (split_invariance zeroed second_difference second_difference_single
         squares [[0; 1; 4; 9; 16]] stale [[5; 5; 5; 5; 5]] 2 1 [1; -2; 1]
         Hst1 Hst2 Hv1 Hv2 Hc1 Hc2 Hl Hr Hx Hy))))))))))).
Defined.

(** The middle partition of three, each shorter than the halos. *)
Lemma halo_buffers_hold_neighbours_witness :
  halos_ok wide_base short_parts ∧ 1 < nqueue wide_base ∧
  0 ≤ 1 < nqueue wide_base ∧
  short_parts !! Z.to_nat 1 = Some [6; 7] ∧ [6; 7] ≠ ([] : list Z) ∧
  ∃ hs, exchange_halos wide_base short_parts = Some hs ∧
    (0 < 1 → ∀ k, 0 ≤ k < lhalo wide_base →
       ∃ buf v, hs_dbuf hs !! Z.to_nat 1 = Some buf ∧ load buf k = Some v ∧
                clamp_read short_parts
                  (part_start short_parts 1 - lhalo wide_base + k) = Some v) ∧
    (1 + 1 < nqueue wide_base → ∀ k, 0 ≤ k < rhalo wide_base →
       ∃ buf v, hs_dbuf hs !! Z.to_nat 1 = Some buf ∧
                load buf (lhalo wide_base + k) = Some v ∧
                clamp_read short_parts (part_start short_parts (1 + 1) + k)
                  = Some v).
Proof.
  assert (halos_ok wide_base short_parts) as Hok by check_halos_ok.
  assert (1 < nqueue wide_base) as Hnq by (unfold nqueue; cbn; lia).
  assert (0 ≤ 1 < nqueue wide_base) as Hd by (unfold nqueue; cbn; lia).
  assert (short_parts !! Z.to_nat 1 = Some [6; 7]) as Hx by reflexivity.
  assert ([6; 7] ≠ ([] : list Z)) as Hne by discriminate.
  exact (conj Hok (conj Hnq (conj Hd (conj Hx (conj Hne
    (halo_buffers_hold_neighbours wide_base short_parts 1 [6; 7]
       Hok Hnq Hd Hx Hne)))))).
Defined.

(** * Further properties of the code *)

(** ** More on the constructor *)

Lemma s32_high z : 2 ^ 31 ≤ z < 2 ^ 32 → s32 z = z - 2 ^ 32.
Proof.
  intros Hz. unfold s32, wrap_signed.
  replace (z + 2 ^ (32 - 1)) with (z - 2 ^ 31 + 1 * 2 ^ 32) by lia.
  rewrite Z.mod_add, Z.mod_small by lia. lia.
Qed.

Lemma u32_borrow z : - 2 ^ 32 ≤ z < 0 → u32 z = z + 2 ^ 32.
Proof.
  intros Hz. unfold u32, wrap_unsigned.
  replace z with (z + 2 ^ 32 + (-1) * 2 ^ 32) at 1 by lia.
  rewrite Z.mod_add, Z.mod_small by lia. done.
Qed.

(** [rhalo] as the constructor derives it from [unsigned] operands. *)
Lemma derived_rhalo width center :
  0 ≤ width < 2 ^ 32 → 0 ≤ center < 2 ^ 32 →
  s32 (u32 (u32 (width - center) - 1)) =
    if decide (center < width) then
      if decide (width - center - 1 < 2 ^ 31) then width - center - 1
      else width - center - 1 - 2 ^ 32
    else if decide (width - center - 1 < - 2 ^ 31)
      then width - center - 1 + 2 ^ 32
      else width - center - 1.
Proof.
  intros Hw Hc. case_decide as Hcw.
  - rewrite (u32_small (width - center)) by lia.
    rewrite (u32_small (width - center - 1)) by lia.
    case_decide; [apply s32_small; lia | apply s32_high; lia].
  - destruct (decide (width = center)) as [->|Hne].
    + rewrite Z.sub_diag. rewrite (u32_small 0) by lia.
      rewrite (u32_borrow (0 - 1)) by lia.
      rewrite s32_high by lia. rewrite decide_False by lia. lia.
    + rewrite (u32_borrow (width - center)) by lia.
      rewrite (u32_small (width - center + 2 ^ 32 - 1)) by lia.
      case_decide.
      * rewrite s32_small by lia. lia.
      * rewrite s32_high by lia. lia.
Qed.

Lemma derived_lhalo center :
  0 ≤ center < 2 ^ 32 →
  s32 center = if decide (center < 2 ^ 31) then center else center - 2 ^ 32.
Proof.
  intros Hc. case_decide; [apply s32_small; lia | apply s32_high; lia].
Qed.

Section CtorOutcome.
Context {T : Type} `{Scalar T}.
Variable uninit : nat → T.
Variable host_alloc : Z → bool.
Implicit Types (q : list device) (b : stencil_base T) (st : stencil T)
  (x y : vector T).

(** The outcome of the constructor of [stencil_base] for every input of
    its types. *)
Lemma stencil_base_ctor_cases q width center (coeffs : list T) :
  0 ≤ width < 2 ^ 32 → 0 ≤ center < 2 ^ 32 →
  stencil_base_ctor uninit host_alloc q width center coeffs =
    if negb (host_alloc (u64 (Z.of_nat (length q) * u32 (width - 1))))
    then Threw
    else if decide (q = []) then Aborted AssertQueue
    else if decide (INT_MAX < center) then Aborted AssertLhalo
    else if decide (width ≤ center ∨ INT_MAX < width - center - 1)
      then Aborted AssertRhalo
    else Built {| queue := q;
                  hbuf := replicate (Z.to_nat (u64 (Z.of_nat (length q)
                                                    * (width - 1)))) sc_zero;
                  dbuf := (λ _, fresh uninit width) <$> q;
                  s := (λ _, coeffs) <$> q;
                  lhalo := center;
                  rhalo := width - center - 1 |}.
Proof.
  intros Hw Hc. unfold INT_MAX.
  destruct (host_alloc (u64 (Z.of_nat (length q) * u32 (width - 1))))
    eqn:Hmem; cbn [negb];
    [|unfold stencil_base_ctor; by rewrite Hmem].
  destruct (decide (q = [])) as [->|Hq].
  { unfold stencil_base_ctor. by rewrite Hmem. }
  destruct (decide (2 ^ 31 - 1 < center)) as [Hl|Hl].
  { unfold stencil_base_ctor. rewrite Hmem. cbn [negb].
    replace (Z.of_nat (length q) =? 0) with false
      by (symmetry; apply Z.eqb_neq; destruct q; [done|cbn; lia]).
    rewrite derived_lhalo, decide_False by lia.
    replace (0 <=? center - 2 ^ 32) with false
      by (symmetry; apply Z.leb_gt; lia). done. }
  destruct (decide (width ≤ center ∨ 2 ^ 31 - 1 < width - center - 1)) as [Hr|Hr].
  { unfold stencil_base_ctor. rewrite Hmem. cbn [negb].
    replace (Z.of_nat (length q) =? 0) with false
      by (symmetry; apply Z.eqb_neq; destruct q; [done|cbn; lia]).
    rewrite derived_lhalo, decide_True by lia.
    replace (0 <=? center) with true by (symmetry; apply Z.leb_le; lia).
    rewrite derived_rhalo by lia. cbn [negb].
    destruct Hr as [Hr|Hr].
    - rewrite decide_False by lia. rewrite decide_False by lia.
      replace (0 <=? width - center - 1) with false
        by (symmetry; apply Z.leb_gt; lia). done.
    - rewrite decide_True by lia. rewrite decide_False by lia.
      replace (0 <=? width - center - 1 - 2 ^ 32) with false
        by (symmetry; apply Z.leb_gt; lia). done. }
  rewrite (u32_small (width - 1)) in Hmem by lia.
  apply stencil_base_ctor_builds; unfold INT_MAX; (done || lia).
Qed.

(** X4. How the constructor of [stencil_base] ends, for every input of
    its types.  It is left by the exception of the allocation exactly when
    the host cannot provide the halo buffer of [queue.size() * (width - 1)]
    elements ([width - 1] in [unsigned]: [2^32 - 1] at width 0), before any
    assertion.  Otherwise it dies in [assert(queue.size())] exactly for an
    empty device list, in [assert(lhalo >= 0)] exactly for a device list
    that is not empty and a [center] above [INT_MAX], in
    [assert(rhalo >= 0)] exactly when these two pass and [center] is not
    below [width] or [width - center - 1] exceeds [INT_MAX]; it returns the
    object in the cases that remain.  [assert(width)] and
    [assert(center < width)] are never the one that fails. *)
Theorem constructor_abort_kinds q width center (coeffs : list T) :
  0 ≤ width < 2 ^ 32 → 0 ≤ center < 2 ^ 32 →
  let count := u64 (Z.of_nat (length q) * u32 (width - 1)) in
  let outcome := stencil_base_ctor uninit host_alloc q width center coeffs in
  (outcome = Threw ↔ host_alloc count = false) ∧
  (outcome = Aborted AssertQueue ↔ host_alloc count = true ∧ q = []) ∧
  (outcome = Aborted AssertLhalo ↔
     host_alloc count = true ∧ q ≠ [] ∧ INT_MAX < center) ∧
  (outcome = Aborted AssertRhalo ↔
     host_alloc count = true ∧ q ≠ [] ∧ center ≤ INT_MAX ∧
     (width ≤ center ∨ INT_MAX < width - center - 1)) ∧
  ((∃ b, outcome = Built b) ↔
     host_alloc count = true ∧ q ≠ [] ∧ center ≤ INT_MAX ∧
     center < width ∧ width - center - 1 ≤ INT_MAX) ∧
  outcome ≠ Aborted AssertWidth ∧ outcome ≠ Aborted AssertCenter.
Proof.
  intros Hw Hc count outcome. subst outcome.
  rewrite stencil_base_ctor_cases by done. fold count. unfold INT_MAX.
  destruct (host_alloc count); cbn [negb]; repeat case_decide;
    repeat split;
    repeat match goal with Hb : ∃ _, _ |- _ => destruct Hb end;
    first [ discriminate | done | lia | by eexists | psolve
          | exfalso; psolve ].
Qed.
End CtorOutcome.

(** ** The output of [convolve], partition by partition *)

Section PartsFacts.
Context {T : Type} `{Scalar T}.
Variable uninit : nat → T.
Implicit Types (b : stencil_base T) (st : stencil T) (x y : vector T).

Lemma convolve_parts st x y alpha beta :
  stencil_ok st → vectors_ok st x y →
  ∃ hs y',
    exchange_halos (base st) x = Some hs ∧
    convolve uninit st x y alpha beta
      = Some (with_base st (with_halos (base st) hs), y', hs_log hs) ∧
    length y' = length y ∧
    ∀ d xd yd sd, x !! d = Some xd → y !! d = Some yd →
      s (base st) !! d = Some sd →
      ∃ yd', y' !! d = Some yd' ∧ length yd' = length yd ∧
        ∀ k, load yd' k =
             part_output sd (lhalo (base st)) (rhalo (base st)) x alpha beta
                         d xd yd k.
Proof.
  intros Hst Hv.
  destruct (convolve_spec uninit st x y alpha beta Hst Hv)
    as (hs & y' & Hex & Hrun & Hlen & Hres).
  pose proof Hv as (Hok & Hyl & Hps & _).
  exists hs, y'. split; [done|]. split; [done|]. split; [done|].
  intros d xd yd sd Hxd Hyd Hsd.
  destruct (Hres d yd Hyd)
    as (xrem & yd' & Hxrem & Hyd' & sd' & xd' & Hsd' & Hxd' & Hl' & Hc).
  assert (sd' = sd) as -> by congruence.
  assert (xd' = xd) as -> by congruence.
  exists yd'. split; [done|]. split; [done|].
  intros k. unfold part_output.
  destruct (decide (xd = [])) as [->|Hne].
  - subst yd'. cbn [length]. rewrite decide_False by lia. done.
  - rewrite (Hc k). cbn [ka_n pushed_args].
    rewrite (part_size_lookup x d xd Hxd).
    case_decide as Hk; [|done].
    unfold contract_at. f_equal.
    unfold stencil_conv, clamped_conv. cbn [ka_lhalo ka_rhalo pushed_args].
    apply foldl_add_term_ext. intros j Hj%elem_of_seqZ.
    unfold conv_term. cbn [ka_s ka_lhalo pushed_args].
    rewrite (read_policy_clamp_read st x alpha beta hs d sd xd xrem (k + j))
      by (done || lia).
    by rewrite Z.add_assoc.
Qed.

(** The output does not depend on what the halo buffers held before the
    call. *)
Lemma convolve_ignores_buffers st st2 x y alpha beta :
  stencil_ok st → stencil_ok st2 → vectors_ok st x y → vectors_ok st2 x y →
  queue (base st2) = queue (base st) → s (base st2) = s (base st) →
  lhalo (base st2) = lhalo (base st) → rhalo (base st2) = rhalo (base st) →
  ∃ st' st2' y' log log2,
    convolve uninit st x y alpha beta = Some (st', y', log) ∧
    convolve uninit st2 x y alpha beta = Some (st2', y', log2).
Proof.
  intros Hst Hst2 Hv Hv2 Hq Hs Hl Hr.
  destruct (convolve_parts st x y alpha beta Hst Hv)
    as (hs & y' & _ & Hrun & Hlen & Hres).
  destruct (convolve_parts st2 x y alpha beta Hst2 Hv2)
    as (hs2 & y2' & _ & Hrun2 & Hlen2 & Hres2).
  assert (y2' = y') as ->; [|by eexists _, _, _, _, _].
  pose proof Hv as (Hok & Hyl & _).
  pose proof Hok as (_ & _ & _ & _ & _ & _ & _ & _ & Hxl & _).
  pose proof Hst as (_ & Hsl & _).
  apply list_eq. intros d.
  destruct (decide (d < length y)%nat) as [Hd|Hd].
  - destruct (lookup_lt_is_Some_2 y d Hd) as [yd Hyd].
    destruct (lookup_lt_is_Some_2 x d) as [xd Hxd]; [lia|].
    destruct (lookup_lt_is_Some_2 (s (base st)) d) as [sd Hsd]; [lia|].
    destruct (Hres d xd yd sd Hxd Hyd Hsd) as (yd' & -> & _ & Hk).
    rewrite <- Hs in Hsd.
    destruct (Hres2 d xd yd sd Hxd Hyd Hsd) as (yd2' & -> & _ & Hk2).
    f_equal. apply load_ext. intros k. rewrite Hk, Hk2, Hl, Hr. done.
  - rewrite !lookup_ge_None_2 by lia. done.
Qed.
End PartsFacts.

(** ** The accumulation contract *)

Section Contract.
Context {T : Type} `{Scalar T}.
Variable uninit : nat → T.
Implicit Types (st : stencil T) (x y : vector T).

(** X20. The accumulation contract of [convolve], while the launches fit
    [int].  On a well-formed stencil and vectors partitioned over its
    devices, where on every device that runs the tiled kernel the size of
    the partition plus [(groups + 1) * workgroup_size + lhalo + rhalo] is
    at most [INT_MAX], the call returns, and the element [k] of partition
    [d] of the new [y] is [alpha * y_old + beta * sum] when [alpha] is
    non-zero and [beta * sum] when it is zero, where [sum] is the sum over
    [j] from [-lhalo] to [rhalo] of
    [s[lhalo + j] * clamp_read(x, part_start(d) + k + j)], taken over the
    whole vector [x]; with [alpha] zero the whole result is the same for
    any other old content of [y]. *)
Theorem convolve_accumulation_contract st x y alpha beta :
  stencil_ok st → vectors_ok st x y →
  ∃ st' y' log,
    convolve uninit st x y alpha beta = Some (st', y', log) ∧
    (∀ d xd yd sd k y_old,
       x !! d = Some xd → y !! d = Some yd → s (base st) !! d = Some sd →
       0 ≤ k < Z.of_nat (length xd) → load yd k = Some y_old →
       ∃ yd' sum,
         y' !! d = Some yd' ∧
         clamped_conv sd (lhalo (base st)) (rhalo (base st)) x
           (part_start x (Z.of_nat d) + k) = Some sum ∧
         load yd' k =
           Some (if sc_true alpha
                 then sc_add (sc_mul alpha y_old) (sc_mul beta sum)
                 else sc_mul beta sum)) ∧
    (sc_true alpha = false →
     ∀ y2, vectors_ok st x y2 →
       convolve uninit st x y2 alpha beta = Some (st', y', log)).
Proof.
  intros Hst Hv.
  destruct (convolve_parts uninit st x y alpha beta Hst Hv)
    as (hs & y' & Hex & Hrun & Hlen & Hres).
  eexists _, y', _. split; [exact Hrun|]. split.
  - intros d xd yd sd k y_old Hxd Hyd Hsd Hk Hold.
    destruct (Hres d xd yd sd Hxd Hyd Hsd) as (yd' & Hyd' & Hl & Hout).
    specialize (Hout k). unfold part_output in Hout.
    rewrite decide_True in Hout by done.
    assert (is_Some (load yd' k)) as [v Hv'].
    { apply load_is_Some. apply load_Some_lt in Hold. lia. }
    rewrite Hv' in Hout. symmetry in Hout.
    destruct (clamped_conv _ _ _ _ _) as [sum|] eqn:Hsum; [|done].
    cbn in Hout. rewrite Hold in Hout. cbn in Hout. injection Hout as <-.
    exists yd', sum. done.
  - intros Ha y2 Hv2.
    rewrite <- (convolve_overwrite uninit st x y y2 alpha beta Hst Hv Hv2 Ha).
    exact Hrun.
Qed.
End Contract.

(** ** Construction, then convolution *)

Section MoreClaims.
Context {T : Type} `{Scalar T}.
Variable uninit : nat → T.
Variable host_alloc : Z → bool.
Implicit Types (q : list device) (b : stencil_base T) (st : stencil T)
  (x y : vector T) (a : kernel_args T).

(** X5. What the constructor establishes: a stencil built from [coeffs]
    and [center] is well formed, with [lhalo + rhalo + 1] the number of
    coefficients, and its halo buffers fit every vector partitioned over
    its devices whose sizes fit the index types of [exchange_halos]. *)
Theorem constructor_establishes_invariants q (coeffs : list T) center st x :
  Z.of_nat (length coeffs) < 2 ^ 32 → 0 ≤ center < 2 ^ 32 →
  stencil_ctor uninit host_alloc q coeffs center = Built st →
  length x = length q → Z.of_nat (length q) < 2 ^ 31 →
  (Z.of_nat (length q) + 1) * (Z.of_nat (length coeffs) - 1) < 2 ^ 31 →
  vec_size x + Z.of_nat (length coeffs) < 2 ^ 63 →
  stencil_ok st ∧ halos_ok (base st) x ∧
  lhalo (base st) + rhalo (base st) + 1 = Z.of_nat (length coeffs).
Proof.
  intros Hlen Hc Hctor Hx Hnq Hprod Hvs.
  destruct (stencil_ctor_inv uninit host_alloc q coeffs center st Hlen Hc Hctor)
    as (Hst & Hq & Hl & Hr & Hl0 & Hr0 & _ & Hh & Hd & _ & _).
  split; [done|]. split; [|lia].
  assert (q ≠ []) as Hne.
  { destruct Hst as (Hpos & _). unfold nqueue in Hpos. rewrite Hq in Hpos.
    intros ->. cbn in Hpos. lia. }
  assert (1 ≤ Z.of_nat (length q)) by (destruct q; [done|cbn; lia]).
  set (w := Z.of_nat (length coeffs)) in *.
  assert (0 ≤ Z.of_nat (length q) * (w - 1) < 2 ^ 31) by nia.
  unfold halos_ok, nqueue. rewrite Hq, Hl, Hr, Hh, Hd. unfold INT_MAX.
  replace (center + (w - center - 1)) with (w - 1) by lia.
  assert ((Z.of_nat (length q) + 1) * (w - 1) < 2 ^ 31) by done.
  repeat split; try lia.
  - rewrite length_replicate. unwrap. lia.
  - by rewrite length_fmap.
  - intros d buf (dev & -> & _)%list_lookup_fmap_Some.
    rewrite length_fresh; lia.
Qed.

(** X6. A stencil built by the constructor computes the clamped
    convolution of the whole vector with the coefficients it was given:
    the element of [y] at the global index [i] becomes
    [alpha * y[i] + beta * sum] ([beta * sum] when [alpha] is zero), with
    [sum] the sum over [j] from [-center] to [width - center - 1] of
    [coeffs[center + j] * clamp_read(x, i + j)], on any number of
    devices, provided that the vectors fit the stencil: [x] and [y] are
    partitioned alike over its devices, and on every device that runs the
    tiled kernel the size of the partition plus
    [(groups + 1) * workgroup_size + lhalo + rhalo] is at most
    [INT_MAX]. *)
Theorem constructed_stencil_convolves q (coeffs : list T) center st x y
    alpha beta :
  Z.of_nat (length coeffs) < 2 ^ 32 → 0 ≤ center < 2 ^ 32 →
  stencil_ctor uninit host_alloc q coeffs center = Built st →
  vectors_ok st x y →
  ∃ st' y' log,
    convolve uninit st x y alpha beta = Some (st', y', log) ∧
    length (concat y') = length (concat y) ∧
    ∀ i y_old, load (concat y) i = Some y_old →
      ∃ sum,
        clamped_conv coeffs center (Z.of_nat (length coeffs) - center - 1) x i
          = Some sum ∧
        load (concat y') i = Some (accumulate alpha beta y_old sum).
Proof.
  intros Hlen Hc Hctor Hv.
  destruct (stencil_ctor_inv uninit host_alloc q coeffs center st Hlen Hc Hctor)
    as (Hst & Hq & Hl & Hr & _ & _ & _ & _ & _ & Hs & _).
  destruct (convolve_global uninit st x y alpha beta coeffs Hst Hv)
    as (st' & y' & log & Hrun & Hlen' & Hsz & Hall).
  { rewrite Hs. intros d sd (dev & -> & _)%list_lookup_fmap_Some. done. }
  exists st', y', log. split; [done|]. split; [done|].
  intros i y_old Hold.
  assert (0 ≤ i < vec_size x) as Hi.
  { apply load_Some_lt in Hold. lia. }
  specialize (Hall i Hi). rewrite Hl, Hr, Hold in Hall.
  destruct (clamped_conv _ _ _ _ i) as [sum|] eqn:Hsum.
  - exists sum. done.
  - cbn in Hall. assert (is_Some (load (concat y') i)) as [? Hsome];
      [|congruence].
    apply load_is_Some. lia.
Qed.
End MoreClaims.

(** ** Frames and bounds *)

Section MoreClaims2.
Context {T : Type} `{Scalar T}.
Variable uninit : nat → T.
Implicit Types (q : list device) (b : stencil_base T) (st : stencil T)
  (x y : vector T) (a : kernel_args T).

(** X7. What the halo exchange leaves alone: the sizes of the host buffer
    and of every device buffer; the host slots of an empty partition, of
    the left side of the first partition and of the right side of the last
    one; the device buffer of an empty partition; and in every device buffer
    the elements from [lhalo + rhalo] on (the one element allocated beyond
    the halo). *)
Theorem exchange_halos_frame b x :
  halos_ok b x → 1 < nqueue b → 0 < lhalo b + rhalo b →
  ∃ hs, exchange_halos b x = Some hs ∧
    length (hs_hbuf hs) = length (hbuf b) ∧
    length (hs_dbuf hs) = length (dbuf b) ∧
    (∀ d k, 0 ≤ d < nqueue b → 0 ≤ k < lhalo b + rhalo b →
       part_size x d = 0 ∨ (d = 0 ∧ k < lhalo b)
         ∨ (d = nqueue b - 1 ∧ lhalo b ≤ k) →
       load (hs_hbuf hs) (d * (lhalo b + rhalo b) + k)
         = load (hbuf b) (d * (lhalo b + rhalo b) + k)) ∧
    (∀ d, 0 ≤ d < nqueue b → part_size x d = 0 →
       hs_dbuf hs !! Z.to_nat d = dbuf b !! Z.to_nat d) ∧
    (∀ d old new, 0 ≤ d < nqueue b →
       dbuf b !! Z.to_nat d = Some old → hs_dbuf hs !! Z.to_nat d = Some new →
       length new = length old ∧
       ∀ k, lhalo b + rhalo b ≤ k → load new k = load old k).
Proof.
  intros Hok Hnq Hw.
  destruct (exchange_halos_spec b x Hok Hnq Hw)
    as (hs & Hex & Hhl & Hslot & Hdl & Hup).
  exists hs. split; [done|]. split; [done|]. split; [done|].
  split; [|split].
  - intros d k Hd Hk Hside. rewrite Hslot by done. unfold halo_final.
    rewrite decide_False; [done|]. unfold halo_live. psolve.
  - intros d Hd Hempty. specialize (Hup d Hd).
    rewrite decide_False in Hup; [done|]. unfold uploads. psolve.
  - intros d old new Hd Hold Hnew. specialize (Hup d Hd).
    case_decide.
    + destruct Hup as (old' & new' & Hold' & Hnew' & Hlen & Hload).
      assert (old' = old) as -> by congruence.
      assert (new' = new) as -> by congruence.
      split; [done|]. intros k Hk. rewrite Hload.
      rewrite decide_False by lia. done.
    + assert (new = old) as -> by congruence. done.
Qed.

(** X8. The halo exchange is idempotent: run again on the buffers that a
    first exchange of the same vector left, it returns the same host
    buffer and the same device buffers, so the stencil is in the same
    state after one exchange and after two. *)
Theorem exchange_halos_twice b x hs :
  halos_ok b x → exchange_halos b x = Some hs →
  ∃ hs', exchange_halos (with_halos b hs) x = Some hs' ∧
         hs_hbuf hs' = hs_hbuf hs ∧ hs_dbuf hs' = hs_dbuf hs ∧
         with_halos (with_halos b hs) hs' = with_halos b hs.
Proof.
  intros Hok Hex.
  destruct (exchange_halos_idem b x hs Hok Hex) as (hs' & Hex' & Hh & Hd).
  exists hs'. split; [done|]. split; [done|]. split; [done|].
  by apply with_halos_twice.
Qed.

(** X9. [read_x] never reads outside its buffers: with [n] local elements
    and a halo buffer of at least [lhalo + rhalo] elements it returns a
    value for every index of type [long], however far outside the
    partition. *)
Theorem read_x_in_bounds (g_id n lh rh : Z) (has_left has_right : bool)
    (xloc xrem : list T) :
  - 2 ^ 63 ≤ g_id < 2 ^ 63 → 0 < n → 0 ≤ lh → 0 ≤ rh →
  lh + rh < INT_MAX → n + rh < 2 ^ 63 →
  Z.of_nat (length xloc) = n → lh + rh ≤ Z.of_nat (length xrem) →
  is_Some (read_x g_id n has_left has_right lh rh xloc xrem).
Proof.
  intros Hg Hn Hl Hr Hlr Hn63 Hx Hrem.
  set (a := {| ka_n := n; ka_has_left := has_left; ka_has_right := has_right;
               ka_lhalo := lh; ka_rhalo := rh;
               ka_s := replicate (Z.to_nat (lh + rh + 1)) sc_zero;
               ka_xloc := xloc; ka_xrem := xrem;
               ka_alpha := sc_zero; ka_beta := sc_zero |}).
  assert (args_ok a) as Hok.
  { unfold args_ok, a. cbn. rewrite length_replicate. unfold INT_MAX in *.
    repeat split; lia. }
  change (is_Some (kread a g_id)).
  rewrite read_x_read_policy; [by apply read_policy_is_Some|..];
    unfold a, INT_MAX in *; cbn; lia.
Qed.

(** X11. The output of the tiled kernel does not depend on the geometry
    of the launch nor on what local memory held: two launches of
    [fast_conv] with the same arguments, over any two numbers of
    work-groups and work-group sizes that fit, return the same [y]; it has
    the length of the old one and differs from it only below [n]. *)
Theorem fast_conv_any_launch (g1 g2 : launch) a (S1 X1 S2 X2 y0 : list T) :
  args_ok a → launch_ok g1 a S1 X1 → launch_ok g2 a S2 X2 →
  ka_n a ≤ Z.of_nat (length y0) →
  ∃ out, fast_conv g1 a S1 X1 y0 = Some out ∧
         fast_conv g2 a S2 X2 y0 = Some out ∧
         length out = length y0 ∧
         ∀ k, ¬ 0 ≤ k < ka_n a → load out k = load y0 k.
Proof.
  intros Hok Hg1 Hg2 Hlen.
  destruct (slow_conv_contract a y0 Hok Hlen) as (out & Hslow & Hl & Hc).
  exists out.
  rewrite !fast_conv_slow_conv by done.
  split; [done|]. split; [done|]. split; [done|].
  intros k Hk. rewrite (Hc k). by rewrite decide_False.
Qed.
End MoreClaims2.

(** ** Width 1, and one call after another *)

Section MoreClaims3.
Context {T : Type} `{Scalar T}.
Variable uninit : nat → T.
Implicit Types (q : list device) (b : stencil_base T) (st : stencil T)
  (x y : vector T) (a : kernel_args T).

(** X10. A stencil of width 1 is a pointwise scale and accumulate while
    the launches fit [int]: with [lhalo = rhalo = 0], and on every device
    that runs the tiled kernel a partition whose size plus
    [(groups + 1) * workgroup_size] is at most [INT_MAX], [convolve] makes
    no request to any device for halos, leaves the halo buffers as they
    were, and the element [k] of every partition of [y] becomes
    [alpha * y[k] + beta * (0 + s[0] * x[k])]
    ([beta * (0 + s[0] * x[k])] when [alpha] is zero), from the elements of
    the same partition alone. *)
Theorem pointwise_stencil st x y alpha beta :
  stencil_ok st → vectors_ok st x y →
  lhalo (base st) = 0 → rhalo (base st) = 0 →
  ∃ st' y',
    convolve uninit st x y alpha beta = Some (st', y', []) ∧
    hbuf (base st') = hbuf (base st) ∧ dbuf (base st') = dbuf (base st) ∧
    ∀ d sd xd yd k c v y_old,
      s (base st) !! d = Some sd → x !! d = Some xd → y !! d = Some yd →
      load sd 0 = Some c → load xd k = Some v → load yd k = Some y_old →
      ∃ yd', y' !! d = Some yd' ∧
             load yd' k =
               Some (accumulate alpha beta y_old
                       (sc_add sc_zero (sc_mul c v))).
Proof.
  intros Hst Hv Hl Hr.
  destruct (convolve_spec uninit st x y alpha beta Hst Hv)
    as (hs & y' & Hex & Hrun & Hlen & Hres).
  rewrite exchange_halos_skip in Hex by (right; rewrite Hl, Hr; done).
  injection Hex as <-. cbn [hs_log] in Hrun.
  eexists _, y'. split; [exact Hrun|]. split; [done|]. split; [done|].
  intros d sd xd yd k c v y_old Hsd Hxd Hyd Hc Hvx Hold.
  destruct (Hres d yd Hyd)
    as (xrem & yd' & _ & Hyd' & sd' & xd' & Hsd' & Hxd' & _ & Hct).
  assert (sd' = sd) as -> by congruence.
  assert (xd' = xd) as -> by congruence.
  exists yd'. split; [done|].
  pose proof (load_Some_lt _ _ _ Hvx) as Hk.
  rewrite decide_False in Hct by (intros ->; cbn in Hk; lia).
  rewrite (Hct k). cbn [ka_n pushed_args].
  rewrite (part_size_lookup x d xd Hxd), decide_True by done.
  unfold contract_at, stencil_conv, conv_term, read_policy.
  cbn [ka_lhalo ka_rhalo ka_s ka_n ka_xloc pushed_args].
  rewrite Hl, Hr. cbn [foldl seqZ]. 
  change (seqZ (- 0) (0 + 0 + 1)) with [0]. cbn [foldl].
  unfold add_term. cbn [mbind option_bind].
  change (0 + 0) with 0. rewrite !Z.add_0_r, Hc. cbn [mbind option_bind].
  rewrite (part_size_lookup x d xd Hxd), decide_True by done.
  rewrite Hvx. cbn [mbind option_bind]. rewrite Hold. done.
Qed.

(** X12. A call leaves nothing behind for the next one: after a call of
    [convolve] on [x1], a call on the same stencil with another input [x2]
    returns the [y] that it returns on the stencil as it was before the
    first call. *)
Theorem convolve_no_residue st x1 y1 x2 y2 alpha1 beta1 alpha2 beta2
    st1 y1' log1 :
  stencil_ok st → vectors_ok st x1 y1 → vectors_ok st x2 y2 →
  convolve uninit st x1 y1 alpha1 beta1 = Some (st1, y1', log1) →
  ∃ st2 st2' y2' log2 log2',
    convolve uninit st x2 y2 alpha2 beta2 = Some (st2, y2', log2) ∧
    convolve uninit st1 x2 y2 alpha2 beta2 = Some (st2', y2', log2').
Proof.
  intros Hst Hv1 Hv2 Hrun.
  destruct (convolve_spec uninit st x1 y1 alpha1 beta1 Hst Hv1)
    as (hs & y0 & Hex & Hrun0 & _).
  rewrite Hrun in Hrun0. injection Hrun0 as -> -> ->.
  pose proof Hv1 as (Hh1 & _).
  destruct (exchange_halos_keeps (base st) x1 Hh1) as (hs0 & Hex0 & Hk1 & Hk2 & Hk3).
  assert (hs0 = hs) as -> by congruence.
  apply (convolve_ignores_buffers uninit st _ x2 y2 alpha2 beta2); try done.
  - by apply stencil_ok_with_halos.
  - by apply vectors_ok_with_halos.
Qed.
End MoreClaims3.

(** ** The trace of the halo exchange *)

Section BufferInversions.
Context {A : Type}.
Implicit Types (buf vs : list A).

Lemma slice_inv buf off len vs :
  slice buf off len = Some vs →
  0 ≤ off ∧ 0 ≤ len ∧ off + len ≤ Z.of_nat (length buf).
Proof. unfold slice. case_decide; [done|discriminate]. Qed.

Lemma write_at_inv buf off vs buf' :
  write_at buf off vs = Some buf' →
  0 ≤ off ∧ off + Z.of_nat (length vs) ≤ Z.of_nat (length buf) ∧
  length buf' = length buf.
Proof.
  intros Hw. pose proof (write_at_length _ _ _ _ Hw).
  unfold write_at in Hw. case_decide; [|discriminate]. lia.
Qed.

Lemma fill_inv buf first last (v : A) buf' :
  fill buf first last v = Some buf' →
  0 ≤ first ∧ first ≤ last ∧ last ≤ Z.of_nat (length buf) ∧
  length buf' = length buf.
Proof.
  unfold fill. case_decide; [|discriminate].
  intros (? & Hl & ?)%write_at_inv. rewrite length_replicate in Hl. lia.
Qed.
End BufferInversions.

Section TraceFacts.
Context {T : Type} `{Scalar T}.
Implicit Types (b : stencil_base T) (x : vector T) (st : halo_state T).

(** A loop whose every trip keeps [Q] and appends requests that satisfy
    [P] appends requests that satisfy [P]. *)
Lemma for_each_trace (Q : halo_state T → Prop) (P : event → Prop)
    (body : halo_state T → Z → option (halo_state T)) (ds : list Z) st st' :
  (∀ s d s', d ∈ ds → Q s → body s d = Some s' →
     Q s' ∧ ∃ l, hs_log s' = hs_log s ++ l ∧ Forall P l) →
  Q st → for_each ds body st = Some st' →
  Q st' ∧ ∃ l, hs_log st' = hs_log st ++ l ∧ Forall P l.
Proof.
  revert st. induction ds as [|d ds IH]; intros st Hbody HQ Hrun.
  - injection Hrun as <-. split; [done|]. exists []. by rewrite app_nil_r.
  - cbn in Hrun. destruct (body st d) as [s1|] eqn:Hd; [|done]. cbn in Hrun.
    destruct (Hbody st d s1) as (HQ1 & l1 & E1 & F1); [left|done..|].
    destruct (IH s1) as (HQ' & l2 & E2 & F2); [|done..|].
    { intros s d0 s' Hin. apply Hbody. by right. }
    split; [done|]. exists (l1 ++ l2). rewrite E2, E1, app_assoc.
    split; [done|]. by apply Forall_app.
Qed.

Lemma read_step_trace b x w st d st' :
  length (hs_hbuf st) = length (hbuf b) →
  read_step b x w st d = Some st' →
  length (hs_hbuf st') = length (hbuf b) ∧
  ∃ l, hs_log st' = hs_log st ++ l ∧ Forall (read_request b x) l.
Proof.
  intros HL. unfold read_step.
  destruct (part_size x d =? 0).
  { intros [= <-]. split; [done|]. exists []. by rewrite app_nil_r. }
  assert (∀ s begin size dst s',
    length (hs_hbuf s) = length (hbuf b) →
    (data ← read_data x begin size;
     h ← write_at (hs_hbuf s) dst data;
     Some (emit (EvReadData begin size dst) (set_hbuf h s))) = Some s' →
    length (hs_hbuf s') = length (hbuf b) ∧
    hs_log s' = hs_log s ++ [EvReadData begin size dst] ∧
    read_request b x (EvReadData begin size dst)) as Hone.
  { intros s begin size dst s' Hs Hrun.
    destruct (read_data x begin size) as [data|] eqn:Hrd; [|done].
    cbn in Hrun. destruct (write_at _ dst data) as [h|] eqn:Hwr; [|done].
    injection Hrun as <-. cbn.
    pose proof (slice_length _ _ _ _ Hrd) as Hsz.
    apply slice_inv in Hrd. apply write_at_inv in Hwr.
    unfold vec_size. split; [lia|]. split; [done|]. lia. }
  intros Hrun.
  destruct (has_left_halo b d).
  - destruct (left_range b x d) as [begin size].
    match type of Hrun with (?m ≫= _) = _ =>
      destruct m as [s1|] eqn:Hleft; [|done] end.
    cbn in Hrun. destruct (Hone _ _ _ _ _ HL Hleft) as (HL1 & E1 & R1).
    destruct (has_right_halo b d).
    + destruct (right_range b x d) as [begin2 size2].
      destruct (Hone _ _ _ _ _ HL1 Hrun) as (HL2 & E2 & R2).
      split; [done|]. eexists [_; _]. rewrite E2, E1, <- app_assoc.
      split; [done|]. repeat (apply Forall_cons_2; [assumption|]); apply Forall_nil_2.
    + injection Hrun as <-. split; [done|]. eexists [_].
      split; [done|]. repeat (apply Forall_cons_2; [assumption|]); apply Forall_nil_2.
  - cbn in Hrun. destruct (has_right_halo b d).
    + destruct (right_range b x d) as [begin2 size2].
      destruct (Hone _ _ _ _ _ HL Hrun) as (HL2 & E2 & R2).
      split; [done|]. eexists [_]. split; [done|]. repeat (apply Forall_cons_2; [assumption|]); apply Forall_nil_2.
    + injection Hrun as <-. split; [done|]. exists []. by rewrite app_nil_r.
Qed.

Lemma write_step_trace b x w st d st' :
  0 ≤ d < nqueue b →
  length (hs_hbuf st) = length (hbuf b) →
  write_step b x w st d = Some st' →
  length (hs_hbuf st') = length (hbuf b) ∧
  ∃ l, hs_log st' = hs_log st ++ l ∧ Forall (write_request b x) l.
Proof.
  intros Hd HL. unfold write_step.
  destruct (part_size x d =? 0).
  { intros [= <-]. split; [done|]. exists []. by rewrite app_nil_r. }
  assert (∀ s first last size at_last at_elem s',
    length (hs_hbuf s) = length (hbuf b) →
    (if negb (size =? 0) then
       v ← load (hs_hbuf s) at_last;
       h ← fill (hs_hbuf s) first last v;
       Some (emit (EvFill first last) (set_hbuf h s))
     else
       v ← vec_elem x at_elem;
       h ← fill (hs_hbuf s) first last v;
       Some (emit (EvFill first last)
                  (emit (EvReadElem at_elem) (set_hbuf h s)))) = Some s' →
    length (hs_hbuf s') = length (hbuf b) ∧
    ∃ l, hs_log s' = hs_log s ++ l ∧ Forall (write_request b x) l) as Hside.
  { intros s first last size at_last at_elem s' Hs Hrun.
    destruct (negb (size =? 0)).
    - destruct (load _ at_last) as [v|]; [|done]. cbn in Hrun.
      destruct (fill _ first last v) as [h|] eqn:Hf; [|done].
      injection Hrun as <-. cbn. apply fill_inv in Hf.
      split; [lia|]. eexists [_]. split; [done|].
      apply Forall_cons_2; [cbn; lia|apply Forall_nil_2].
    - destruct (vec_elem x at_elem) as [v|] eqn:Hv; [|done]. cbn in Hrun.
      destruct (fill _ first last v) as [h|] eqn:Hf; [|done].
      injection Hrun as <-. cbn. apply fill_inv in Hf.
      apply load_Some_lt in Hv.
      split; [lia|]. eexists [_; _]. rewrite <- app_assoc. split; [done|].
      apply Forall_cons_2; [cbn; unfold vec_size; lia|].
      apply Forall_cons_2; [cbn; lia|apply Forall_nil_2]. }
  assert (∀ s s' : halo_state T, length (hs_hbuf s) = length (hbuf b) →
    (if has_left_halo b d || has_right_halo b d then
       data ← slice (hs_hbuf s) (u32 (d * w)) w;
       old ← hs_dbuf s !! Z.to_nat d;
       new ← write_at old 0 data;
       Some (emit (EvUpload d)
                  (set_dbuf (<[Z.to_nat d := new]> (hs_dbuf s)) s))
     else Some s) = Some s' →
    length (hs_hbuf s') = length (hbuf b) ∧
    ∃ l, hs_log s' = hs_log s ++ l ∧ Forall (write_request b x) l) as Hupload.
  { intros s s' Hs Hrun. destruct (_ || _).
    - destruct (slice _ _ w) as [data|]; [|done]. cbn in Hrun.
      destruct (hs_dbuf s !! Z.to_nat d) as [old|]; [|done]. cbn in Hrun.
      destruct (write_at old 0 data) as [new|]; [|done].
      injection Hrun as <-. cbn. split; [done|]. eexists [_].
      split; [done|]. apply Forall_cons_2; [cbn; lia|apply Forall_nil_2].
    - injection Hrun as <-. split; [done|]. exists []. by rewrite app_nil_r. }
  assert (∀ s : halo_state T, ∃ l, hs_log s = hs_log s ++ l ∧ Forall (write_request b x) l)
    as Hnil by (intros s; exists []; by rewrite app_nil_r).
  intros Hrun.
  match type of Hrun with (?m ≫= _) = _ =>
    destruct m as [s1|] eqn:Hleft; [|done] end.
  cbn [mbind option_bind] in Hrun.
  match type of Hrun with (?m ≫= _) = _ =>
    destruct m as [s2|] eqn:Hright; [|done] end.
  cbn [mbind option_bind] in Hrun.
  assert (length (hs_hbuf s1) = length (hbuf b) ∧
          ∃ l, hs_log s1 = hs_log st ++ l ∧ Forall (write_request b x) l)
    as (HL1 & l1 & E1 & F1).
  { destruct (has_left_halo b d).
    - destruct (left_range b x d) as [begin size]. by eapply Hside.
    - injection Hleft as <-. split; [done|]. apply Hnil. }
  assert (length (hs_hbuf s2) = length (hbuf b) ∧
          ∃ l, hs_log s2 = hs_log s1 ++ l ∧ Forall (write_request b x) l)
    as (HL2 & l2 & E2 & F2).
  { destruct (has_right_halo b d).
    - destruct (right_range b x d) as [begin size]. by eapply Hside.
    - injection Hright as <-. split; [done|]. apply Hnil. }
  destruct (Hupload s2 st' HL2 Hrun) as (HL3 & l3 & E3 & F3).
  split; [done|]. exists (l1 ++ l2 ++ l3).
  rewrite E3, E2, E1, <- !app_assoc. split; [done|].
  by repeat apply Forall_app_2.
Qed.

(** The requests of an exchange that is not skipped: those of the read
    phase, the barrier, those of the write phase, the barrier. *)
Lemma exchange_halos_trace b x hs :
  1 < nqueue b → 0 < s32 (lhalo b + rhalo b) →
  exchange_halos b x = Some hs →
  ∃ reads writes,
    hs_log hs = reads ++ barrier b ++ writes ++ barrier b ∧
    Forall (read_request b x) reads ∧ Forall (write_request b x) writes.
Proof.
  intros Hnq Hw. unfold exchange_halos.
  replace (nqueue b <=? 1) with false by (symmetry; apply Z.leb_gt; lia).
  replace (s32 (lhalo b + rhalo b) <=? 0) with false
    by (symmetry; apply Z.leb_gt; lia).
  cbn [orb]. intros Hrun.
  match type of Hrun with (?m ≫= _) = _ =>
    destruct m as [s1|] eqn:Hread; [|done] end.
  cbn [mbind option_bind] in Hrun.
  match type of Hrun with (?m ≫= _) = _ =>
    destruct m as [s2|] eqn:Hwrite; [|done] end.
  injection Hrun as <-.
  apply (for_each_trace (λ s, length (hs_hbuf s) = length (hbuf b))
           (read_request b x)) in Hread as (HL1 & reads & E1 & F1); [|..|done].
  2:{ intros s d s' _ Hs Hstep. by eapply read_step_trace. }
  apply (for_each_trace (λ s, length (hs_hbuf s) = length (hbuf b))
           (write_request b x)) in Hwrite as (HL2 & writes & E2 & F2);
    [|..|done].
  2:{ intros s d s' Hin%elem_of_seqZ Hs Hstep.
      eapply write_step_trace; [|done..]. lia. }
  exists reads, writes. split; [|done].
  cbn in *. rewrite E2. cbn. rewrite E1. cbn.
  unfold barrier. by rewrite <- !app_assoc.
Qed.
End TraceFacts.

(** ** Several vectors through one stencil *)

Section MultiFacts.
Context {T : Type} `{Scalar T}.
Variable uninit : nat → T.
Implicit Types (b : stencil_base T) (st : stencil T) (x y : vector T)
  (hs : halo_state T).

Lemma convolve_refreshed st hs x y alpha beta :
  stencil_ok st → vectors_ok st x y → buffers_fit (base st) hs →
  ∃ hs' y' st0 log0,
    buffers_fit (base st) hs' ∧
    convolve uninit (with_base st (with_halos (base st) hs)) x y alpha beta
      = Some (with_base st (with_halos (base st) hs'), y', hs_log hs') ∧
    convolve uninit st x y alpha beta = Some (st0, y', log0) ∧
    length y' = length y.
Proof.
  intros Hst Hv (Hf1 & Hf2 & Hf3).
  set (st1 := with_base st (with_halos (base st) hs)).
  assert (stencil_ok st1) as Hst1 by by apply stencil_ok_with_halos.
  assert (vectors_ok st1 x y) as Hv1 by by apply vectors_ok_with_halos.
  destruct (convolve_spec uninit st1 x y alpha beta Hst1 Hv1)
    as (hs' & y' & Hex & Hrun & Hlen & _).
  destruct Hv1 as (Hh1 & _).
  destruct (exchange_halos_keeps (base st1) x Hh1) as (hs0 & Hex0 & Hk1 & Hk2 & Hk3).
  assert (hs0 = hs') as -> by congruence.
  destruct (convolve_ignores_buffers uninit st st1 x y alpha beta)
    as (st0 & st1' & y0 & log0 & log1 & Hrun0 & Hrun1); try done.
  { by apply vectors_ok_with_halos. }
  assert (y0 = y') as -> by congruence.
  exists hs', y', st0, log0. split; [|done].
  split; [by rewrite Hk1|]. split; [by rewrite Hk2|]. done.
Qed.

Lemma with_halos_self st :
  with_base st (with_halos (base st)
    {| hs_hbuf := hbuf (base st); hs_dbuf := dbuf (base st); hs_log := [] |})
  = st.
Proof. destruct st as [[]]. done. Qed.

(** [multiconv::apply] returns, and leaves in every component of [y]
    what [convolve] on the stencil as it was before the call leaves
    there. *)
Lemma multi_apply_components st (xs ys : list (vector T)) sc negate append :
  stencil_ok st → length ys = length xs →
  (∀ i xi yi, xs !! i = Some xi → ys !! i = Some yi → vectors_ok st xi yi) →
  ∃ st' ys' log,
    multi_apply uninit negate append
      {| mconv_s := st; mconv_x := xs; mscale := sc |} ys
      = Some (st', ys', log) ∧
    length ys' = length ys ∧
    (st' = st ∨ ∃ hs, buffers_fit (base st) hs ∧
                      st' = with_base st (with_halos (base st) hs)) ∧
    ∀ i xi yi, xs !! i = Some xi → ys !! i = Some yi →
      ∃ sti yi' logi,
        convolve uninit st xi yi (if append then sc_one else sc_zero)
          (if negate then sc_neg sc else sc) = Some (sti, yi', logi) ∧
        ys' !! i = Some yi'.
Proof.
  intros Hst Hlen Hfit. unfold multi_apply. cbn [mconv_x mconv_s].
  set (alpha := if append then sc_one else sc_zero).
  set (beta := if negate then sc_neg sc else sc).
  destruct (for_each_seqZ_inv
    (λ m (acc : stencil T * list (vector T) * list event),
       length acc.1.2 = length ys ∧
       (acc.1.1 = st ∨ ∃ hs, buffers_fit (base st) hs ∧
              acc.1.1 = with_base st (with_halos (base st) hs)) ∧
       ∀ i xi yi, xs !! i = Some xi → ys !! i = Some yi →
         if decide (Z.of_nat i < m) then
           ∃ sti yi' logi,
             convolve uninit st xi yi alpha beta = Some (sti, yi', logi) ∧
             acc.1.2 !! i = Some yi'
         else acc.1.2 !! i = Some yi)
    (multi_step uninit negate append
       {| mconv_s := st; mconv_x := xs; mscale := sc |})
    0 (Z.of_nat (length xs)) (st, ys, []))
    as ([[st' ys'] log] & Hrun & Hl' & Hst' & Hres).
  - lia.
  - cbn. split; [done|]. split; [by left|].
    intros i xi yi Hxi Hyi. by rewrite decide_False by lia.
  - intros m [[stm ym] logm] Hm (Hlm & Hstm & Hinv). cbn in Hlm, Hstm, Hinv.
    set (i := Z.to_nat m).
    destruct (lookup_lt_is_Some_2 xs i) as [xi Hxi]; [lia|].
    destruct (lookup_lt_is_Some_2 ys i) as [yi Hyi]; [lia|].
    pose proof (Hfit i xi yi Hxi Hyi) as Hv.
    assert (ym !! i = Some yi) as Hymi.
    { specialize (Hinv i xi yi Hxi Hyi). by rewrite decide_False in Hinv by lia. }
    assert (∃ hs, buffers_fit (base st) hs ∧
                  stm = with_base st (with_halos (base st) hs)) as (hs & Hbf & ->).
    { destruct Hstm as [->|Hstm]; [|done].
      eexists. split; [|symmetry; apply with_halos_self].
      destruct Hv as ((_ & _ & _ & _ & _ & _ & _ & Hcap & _) & _).
      split; [done|]. split; [done|]. exact Hcap. }
    destruct (convolve_refreshed st hs xi yi alpha beta Hst Hv Hbf)
      as (hs' & yi' & st0 & log0 & Hbf' & Hrun & Hrun0 & Hlyi).
    unfold multi_step. cbn [mconv_x mscale fst snd]. fold i alpha beta.
    rewrite Hxi, Hymi. cbn [mbind option_bind]. rewrite Hrun.
    cbn [mbind option_bind fst snd].
    eexists. split; [done|]. cbn [fst snd].
    split; [by rewrite length_insert|]. split; [right; by exists hs'|].
    intros i0 xi0 yi0 Hxi0 Hyi0. specialize (Hinv i0 xi0 yi0 Hxi0 Hyi0).
    destruct (decide (i0 = i)) as [->|Hne].
    + rewrite decide_True by lia.
      assert (xi0 = xi) as -> by congruence.
      assert (yi0 = yi) as -> by congruence.
      exists st0, yi', log0. split; [done|].
      apply list_lookup_insert_eq. apply lookup_lt_Some in Hymi. done.
    + rewrite list_lookup_insert_ne by done.
      destruct (decide (Z.of_nat i0 < m)).
      * by rewrite decide_True by lia.
      * by rewrite decide_False by lia.
  - exists st', ys', log. split; [done|]. cbn in Hl', Hst', Hres.
    split; [done|]. split; [done|].
    intros i xi yi Hxi Hyi. specialize (Hres i xi yi Hxi Hyi).
    rewrite decide_True in Hres; [done|].
    apply lookup_lt_Some in Hxi. lia.
Qed.
End MultiFacts.

(** ** The kernel of StencilOperator *)

Section OperatorKernel.
Context {T : Type} `{Scalar T}.
Variable oper : (Z → option T) → option T.
Implicit Types (a : kernel_args T) (y t X : list T) (g : launch).

(** The tile-load loop does not look at the coefficients. *)
Lemma load_tile_coeffs fuel n hl hr lh rh (s1 s2 : list T) xl xr al be B i j X :
  load_tile fuel {| ka_n := n; ka_has_left := hl; ka_has_right := hr;
                    ka_lhalo := lh; ka_rhalo := rh; ka_s := s1;
                    ka_xloc := xl; ka_xrem := xr;
                    ka_alpha := al; ka_beta := be |} B i j X
  = load_tile fuel {| ka_n := n; ka_has_left := hl; ka_has_right := hr;
                      ka_lhalo := lh; ka_rhalo := rh; ka_s := s2;
                      ka_xloc := xl; ka_xrem := xr;
                      ka_alpha := al; ka_beta := be |} B i j X.
Proof.
  revert i j X. induction fuel as [|fuel IH]; intros i j X; [done|].
  cbn [load_tile]. cbn [ka_lhalo ka_rhalo].
  destruct (_ <? _); [|done].
  change (kread {| ka_n := n; ka_has_left := hl; ka_has_right := hr;
                   ka_lhalo := lh; ka_rhalo := rh; ka_s := s1;
                   ka_xloc := xl; ka_xrem := xr;
                   ka_alpha := al; ka_beta := be |} j)
    with (kread {| ka_n := n; ka_has_left := hl; ka_has_right := hr;
                   ka_lhalo := lh; ka_rhalo := rh; ka_s := s2;
                   ka_xloc := xl; ka_xrem := xr;
                   ka_alpha := al; ka_beta := be |} j).
  destruct (kread _ j) as [v|]; [|done]. cbn [mbind option_bind].
  destruct (store X i v) as [X'|]; [|done]. cbn [mbind option_bind].
  apply IH.
Qed.

Lemma window_policy_is_Some a g_id : window_ok a → is_Some (read_policy a g_id).
Proof.
  intros (Hn & Hl & Hr & Hw & Hn63 & Hx & Hrem). unfold read_policy.
  repeat case_decide; repeat case_match; try done;
    apply load_is_Some; lia.
Qed.

(** After the first barrier the tile holds the window of the policy. *)
Lemma oper_load_phase g a grp pos X :
  window_ok a → 0 < local_size g → 0 ≤ grp → 0 ≤ pos →
  grp * local_size g + pos + 2 * local_size g + ka_lhalo a + ka_rhalo a ≤ INT_MAX →
  local_size g + ka_lhalo a + ka_rhalo a ≤ Z.of_nat (length X) →
  ∃ X',
    for_each (seqZ 0 (local_size g)) (λ X l,
        load_tile (S (length X)) a (s32 (local_size g)) (s32 l)
          (s32 (s64 (s64 (u64 (grp * local_size g + l) + pos) - ka_lhalo a))) X) X
      = Some X' ∧
    length X' = length X ∧
    ∀ k, 0 ≤ k < local_size g + ka_lhalo a + ka_rhalo a →
         load X' k = read_policy a (grp * local_size g + pos + k - ka_lhalo a).
Proof.
  intros Hok HB Hgrp Hpos Hmax HX.
  destruct a as [n hl hr lh rh s0 xl xr al be].
  set (a' := {| ka_n := n; ka_has_left := hl; ka_has_right := hr;
                ka_lhalo := lh; ka_rhalo := rh;
                ka_s := replicate (Z.to_nat (lh + rh + 1)) sc_zero;
                ka_xloc := xl; ka_xrem := xr; ka_alpha := al; ka_beta := be |}).
  assert (args_ok a') as Hok'.
  { destruct Hok as (? & ? & ? & ? & ? & ? & ?). unfold args_ok, a'. cbn in *.
    rewrite length_replicate. repeat split; lia. }
  destruct (load_phase_spec g a' grp pos X Hok' HB Hgrp Hpos Hmax HX)
    as (X' & Hrun & Hlen & Hld).
  exists X'. split; [|done].
  rewrite <- Hrun. apply for_each_ext. intros X1 l _. apply load_tile_coeffs.
Qed.

Lemma oper_done_iff a (P Q : Z → Prop) y t :
  (∀ k, P k ↔ Q k) → oper_done oper a P y t → oper_done oper a Q y t.
Proof.
  intros E [Hlen Hd]. split; [done|]. intros k. destruct (Hd k) as [H1 H2].
  split; intros HQ; [apply H1 | apply H2]; by rewrite E.
Qed.

Lemma oper_done_start a y : oper_done oper a (λ _, False) y y.
Proof. split; [done|]. intros k. split; [done | done]. Qed.

(** Between the barriers a work-item applies the body to the window of
    the policy around its output index. *)
Lemma oper_item_done a B b l Xl (P : Z → Prop) y t :
  window_ok a →
  oper_reads oper (ka_lhalo a) (ka_rhalo a) →
  oper_returns oper (ka_lhalo a) (ka_rhalo a) →
  (∀ k, 0 ≤ k < B + ka_lhalo a + ka_rhalo a →
        load Xl k = read_policy a (b + k - ka_lhalo a)) →
  0 ≤ l < B → 0 ≤ b → b + B + ka_lhalo a + ka_rhalo a ≤ INT_MAX →
  ka_n a ≤ Z.of_nat (length y) →
  oper_done oper a P y t → ¬ P (b + l) →
  ∃ t', oper_item oper a Xl l (b + l) t = Some t' ∧
        oper_done oper a (λ k, P k ∨ (k = b + l ∧ k < ka_n a)) y t'.
Proof.
  intros Hok Hreads Hret HX Hl Hb Hmax Hlen [Hlt Hd] HnP.
  unfold INT_MAX in Hmax.
  pose proof Hok as (Hn & Hlh & Hrh & Hw & Hn63 & _).
  unfold oper_item. unwrap.
  destruct (decide (b + l < ka_n a)) as [Hin|Hout].
  - replace (b + l <? ka_n a) with true by (symmetry; apply Z.ltb_lt; lia).
    rewrite (Hreads _ (λ j, read_policy a (b + l + j))).
    2:{ intros j Hj. cbn beta. rewrite HX by lia. f_equal. lia. }
    destruct (Hret (λ j, read_policy a (b + l + j))) as [sum Hsum].
    { intros j _. by apply window_policy_is_Some. }
    rewrite Hsum. cbn [mbind option_bind].
    destruct (load_is_Some y (b + l)) as [yi Hyi]; [lia|].
    assert (load t (b + l) = Some yi) as Hti by (rewrite <- Hyi; by apply Hd).
    destruct (write_back_Some (ka_alpha a) (ka_beta a) t (b + l) sum yi Hti)
      as (t' & -> & Hl' & Hload).
    exists t'. split; [done|]. split; [congruence|].
    intros k. rewrite Hload. split.
    + intros [HP | [-> _]].
      * rewrite decide_False by (intros ->; done). by apply Hd.
      * rewrite decide_True by done. unfold oper_at. by rewrite Hsum, Hyi.
    + intros Hnot. rewrite decide_False by (intros ->; apply Hnot; right; lia).
      apply Hd. intros HP. apply Hnot. by left.
  - replace (b + l <? ka_n a) with false by (symmetry; apply Z.ltb_ge; lia).
    exists t. split; [done|]. split; [done|].
    intros k. split.
    + intros [HP | [-> ?]]; [by apply Hd | lia].
    + intros Hnot. apply Hd. intros HP. apply Hnot. by left.
Qed.

Section Launch.
Variables (g : launch) (a : kernel_args T).
Hypothesis Hok : window_ok a.
Hypothesis Hreads : oper_reads oper (ka_lhalo a) (ka_rhalo a).
Hypothesis Hret : oper_returns oper (ka_lhalo a) (ka_rhalo a).

(** One trip of the outer loop of a work-group: the indices of its block
    below [n] get done. *)
Lemma oper_trip_done grp tr X (P : Z → Prop) y t :
  tile_ok g a X → ka_n a ≤ Z.of_nat (length y) →
  0 ≤ grp < num_groups g → 0 ≤ tr →
  tr * (num_groups g * local_size g) < ka_n a →
  oper_done oper a P y t → (∀ k, in_block g grp tr k → ¬ P k) →
  ∃ X' t',
    oper_trip oper g a grp (tr * (num_groups g * local_size g)) (X, t)
      = Some (X', t') ∧
    length X' = length X ∧
    oper_done oper a (λ k, P k ∨ (in_block g grp tr k ∧ k < ka_n a)) y t'.
Proof.
  intros (HG & HB & Hmax & HXl) Hlen Hgrp Htr Hpos Hdone Hfresh.
  unfold INT_MAX in Hmax. pose proof Hok as (Hn & Hlh & Hrh & Hw & Hn63 & _).
  set (B := local_size g) in *. set (G := num_groups g) in *.
  set (pos := tr * (G * B)) in *. set (b := grp * B + pos).
  assert (0 ≤ pos) by (subst pos; nia).
  assert (0 ≤ grp * B ∧ grp * B + B ≤ G * B) as [??] by nia.
  unfold oper_trip. cbn [fst snd]. fold B.
  destruct (oper_load_phase g a grp pos X) as (X' & Hrun & HlenX & Hld);
    try done; try (fold B; unfold INT_MAX; lia).
  fold B in Hrun. rewrite Hrun. cbn [mbind option_bind].
  destruct (for_each_seqZ_inv
    (λ l t, oper_done oper a (λ k, P k ∨ (b ≤ k < b + l ∧ k < ka_n a)) y t)
    (λ y l, oper_item oper a X' (s32 l) (s64 (u64 (grp * B + l) + pos)) y)
    0 B t) as (t' & Hrun' & Hdone').
  - lia.
  - eapply oper_done_iff; [|exact Hdone]. intros k. simpl. intuition lia.
  - intros l t1 Hl Ht1. unwrap.
    replace (grp * B + l + pos) with (b + l) by (subst b; lia).
    destruct (oper_item_done a B b l X'
                (λ k, P k ∨ (b ≤ k < b + l ∧ k < ka_n a)) y t1)
      as (t2 & -> & Ht2); try done; try (unfold INT_MAX; lia).
    + intros [HP | Hblk]; [|lia].
      apply (Hfresh (b + l)); [|done]. unfold in_block. fold B G pos. lia.
    + exists t2. split; [done|]. eapply oper_done_iff; [|exact Ht2].
      intros k. simpl. intuition lia.
  - rewrite Hrun'. cbn [mbind option_bind]. exists X', t'.
    split; [done|]. split; [done|]. eapply oper_done_iff; [|exact Hdone'].
    intros k. unfold in_block. fold B G pos. simpl. intuition lia.
Qed.

(** The outer loop of a work-group, from trip [tr] on. *)
Lemma oper_loop_done grp fuel tr X (P : Z → Prop) y t :
  tile_ok g a X → ka_n a ≤ Z.of_nat (length y) →
  0 ≤ grp < num_groups g → 0 ≤ tr →
  tr * (num_groups g * local_size g) < ka_n a + num_groups g * local_size g →
  Z.max 0 (ka_n a - tr * (num_groups g * local_size g))
    + num_groups g * local_size g
    ≤ Z.of_nat fuel * (num_groups g * local_size g) →
  oper_done oper a P y t →
  (∀ k tr', tr ≤ tr' → in_block g grp tr' k → ¬ P k) →
  ∃ X' t',
    oper_loop oper fuel g a grp (tr * (num_groups g * local_size g)) (X, t)
      = Some (X', t') ∧
    oper_done oper a
      (λ k, P k ∨ ∃ tr', tr ≤ tr' ∧ in_block g grp tr' k ∧ k < ka_n a) y t'.
Proof.
  intros Hlaunch Hlen Hgrp. pose proof Hlaunch as (HG & HB & Hmax & _).
  unfold INT_MAX in Hmax. pose proof Hok as (Hn & Hlh & Hrh & Hw & Hn63 & _).
  set (B := local_size g) in *. set (G := num_groups g) in *.
  assert (0 < G * B) as Hgrid by nia.
  revert tr X P t Hlaunch.
  induction fuel as [|fuel IH]; intros tr X P t Hlaunch Htr Hpos Hfuel Hdone Hfresh.
  { lia. }
  cbn [oper_loop].
  assert (0 ≤ tr * (G * B)) by nia. unwrap.
  destruct (decide (tr * (G * B) < ka_n a)) as [Hlt|Hge].
  - replace (_ <? _) with true by (symmetry; apply Z.ltb_lt; lia).
    destruct (oper_trip_done grp tr X P y t) as (X1 & t1 & Hrun & HlenX & Hd1);
      try done.
    { intros k Hk. by apply (Hfresh k tr). }
    fold B G in Hrun. rewrite Hrun. cbn [mbind option_bind].
    replace (s64 (tr * (G * B) + global_size g)) with ((tr + 1) * (G * B))
      by (unfold global_size; fold B G; unwrap; lia).
    destruct (IH (tr + 1) X1 (λ k, P k ∨ (in_block g grp tr k ∧ k < ka_n a)) t1)
      as (X' & t' & Hrun' & Hd'); try done; try lia.
    + destruct Hlaunch as (? & ? & ? & ?). repeat split; try done. lia.
    + destruct fuel as [|fuel'].
      * change (Z.of_nat 1) with 1 in Hfuel. lia.
      * rewrite !Nat2Z.inj_succ, !Z.mul_succ_l in *.
        assert (0 ≤ Z.of_nat fuel' * (G * B)) by nia. lia.
    + intros k tr' Htr' Hblk [HP | [Hblk' _]].
      * by apply (Hfresh k tr'); [lia | |].
      * destruct (in_block_unique g grp tr grp tr' k); try done. lia.
    + exists X', t'. split; [done|]. eapply oper_done_iff; [|exact Hd'].
      intros k. simpl. split.
      * intros [[HP | [Hblk Hk]] | (tr' & Htr' & Hblk & Hk)]; [by left | |].
        -- right. exists tr. split; [lia | done].
        -- right. exists tr'. split; [lia | done].
      * intros [HP | (tr' & Htr' & Hblk & Hk)]; [by left; left|].
        destruct (decide (tr' = tr)) as [->|Hne].
        -- left. by right.
        -- right. exists tr'. split; [lia | done].
  - replace (_ <? _) with false by (symmetry; apply Z.ltb_ge; lia).
    exists X, t. split; [done|]. eapply oper_done_iff; [|exact Hdone].
    intros k. simpl. split; [by left|].
    intros [HP | (tr' & Htr' & Hblk & Hk)]; [done|].
    unfold in_block in Hblk. fold B G in Hblk.
    assert (tr * (G * B) ≤ tr' * (G * B)) by nia.
    assert (0 ≤ grp * B) by nia. lia.
Qed.

(** The kernel returns, and its output is the body applied to the window
    of the policy around every index below [n]. *)
Lemma oper_conv_contract X0 y :
  tile_ok g a X0 → ka_n a ≤ Z.of_nat (length y) →
  ∃ y', oper_conv oper g a X0 y = Some y' ∧ length y' = length y ∧
        oper_contract oper a y y'.
Proof.
  intros Hlaunch Hlen. pose proof Hlaunch as (HG & HB & Hmax & HXl).
  unfold INT_MAX in Hmax. pose proof Hok as (Hn & Hlh & Hrh & Hw & Hn63 & Hx & _).
  set (B := local_size g) in *. set (G := num_groups g) in *.
  assert (0 < G * B) as Hgrid by nia.
  unfold oper_conv. fold G.
  destruct (for_each_seqZ_inv
    (λ grp t, oper_done oper a (λ k, ∃ q tr', 0 ≤ q < grp ∧ 0 ≤ tr' ∧
                                 in_block g q tr' k ∧ k < ka_n a) y t)
    (λ y grp,
       Xy ← oper_loop oper (S (Z.to_nat (ka_n a))) g a grp 0 (X0, y);
       Some Xy.2)
    0 G y) as (y' & Hrun & Hdone).
  - lia.
  - eapply oper_done_iff; [|apply oper_done_start]. intros k. simpl.
    split; [done|]. intros (q & tr' & ? & _). lia.
  - intros grp t Hgrp Ht.
    destruct (oper_loop_done grp (S (Z.to_nat (ka_n a))) 0 X0
                (λ k, ∃ q tr', 0 ≤ q < grp ∧ 0 ≤ tr' ∧
                                in_block g q tr' k ∧ k < ka_n a) y t)
      as (X' & t' & Hrun & Hd); try done; try (fold B G; lia).
    + fold B G. rewrite Nat2Z.inj_succ, Z2Nat.id, Z.mul_succ_l by lia. nia.
    + intros k tr' Htr' Hblk (q & tr'' & Hq & Htr'' & Hblk' & _).
      destruct (in_block_unique g grp tr' q tr'' k); try done; lia.
    + change (0 * (num_groups g * local_size g)) with 0 in Hrun.
      rewrite Hrun. cbn [mbind option_bind snd].
      exists t'. split; [done|]. eapply oper_done_iff; [|exact Hd].
      intros k. simpl. split.
      * intros [(q & tr' & Hq & Htr' & Hblk & Hk) | (tr' & Htr' & Hblk & Hk)].
        -- exists q, tr'. split; [lia | done].
        -- exists grp, tr'. split; [lia | done].
      * intros (q & tr' & Hq & Htr' & Hblk & Hk).
        destruct (decide (q = grp)) as [->|Hne].
        -- right. by exists tr'.
        -- left. exists q, tr'. split; [lia | done].
  - exists y'. split; [done|]. split; [apply Hdone|].
    destruct Hdone as [_ Hd]. intros k. case_decide as Hk.
    + apply Hd. destruct (in_block_cover g k) as (q & tr' & Hq & Htr' & Hblk);
        try done; [lia|].
      exists q, tr'. fold G in Hq. split; [lia|]. split; [done|]. split; [done | lia].
    + apply Hd. intros (q & tr' & Hq & Htr' & Hblk & Hk'). unfold in_block in Hblk.
      fold B G in Hblk. assert (0 ≤ q * B ∧ 0 ≤ tr' * (G * B)) by nia. lia.
Qed.
End Launch.
End OperatorKernel.

(** ** The dispatcher of StencilOperator *)

Section OperatorHostFacts.
Context {T : Type} `{Scalar T}.
Variable uninit : nat → T.
Variable oper : (Z → option T) → option T.
Implicit Types (b : stencil_base T) (x y : vector T).

(** The local memory of a launch holds the tile. *)
Lemma operator_lmem_fits width dev :
  0 < sc_sizeof < 2 ^ 31 → 0 < workgroup_size dev < 2 ^ 31 →
  1 ≤ width < 2 ^ 31 →
  Z.of_nat (length (local_block uninit (operator_lmem width dev)))
  = workgroup_size dev + width - 1.
Proof.
  intros Hsz Hw Hwidth. unfold local_block, operator_lmem. unwrap.
  assert (0 ≤ sc_sizeof * (workgroup_size dev + width - 1) < 2 ^ 64) by nia.
  unwrap. rewrite length_fresh.
  - rewrite Z.mul_comm, Z.div_mul by lia. done.
  - apply Z.div_pos; nia.
Qed.

(** On the arguments pushed after the exchange, the body sees the clamped
    window of the whole vector. *)
Lemma oper_at_clamped b x alpha beta hs d xd xrem yd k :
  halos_ok b x → exchange_halos b x = Some hs →
  hs_dbuf hs !! d = Some xrem → x !! d = Some xd →
  oper_reads oper (lhalo b) (rhalo b) →
  0 ≤ k < Z.of_nat (length xd) →
  oper_at oper (operator_args (with_halos b hs) x alpha beta (Z.of_nat d) xd xrem)
          yd k
  = (sum ← clamped_oper oper x (part_start x (Z.of_nat d) + k);
     y_old ← load yd k;
     Some (accumulate alpha beta y_old sum)).
Proof.
  intros Hok Hex Hxrem Hxd Hreads Hk. unfold oper_at, clamped_oper.
  cbn [ka_alpha ka_beta operator_args].
  rewrite (Hreads _ (λ j, clamp_read x (part_start x (Z.of_nat d) + k + j)));
    [done|].
  intros j Hj. cbn beta.
  pose proof (read_policy_clamp_read
    {| base := b; st_conv := []; st_loc_s := []; st_loc_x := [] |}
    x alpha beta hs d [] xd xrem (k + j)) as E.
  cbn [base] in E. rewrite Z.add_assoc in E. rewrite <- E; [done|done..| |lia].
  intros ->. cbn in Hk. lia.
Qed.

(** [StencilOperator::convolve] returns; it exchanges the halos and leaves
    in every partition of [y] the body applied to the clamped windows. *)
Lemma operator_convolve_parts width b x y alpha beta :
  operator_fits width b x y →
  oper_reads oper (lhalo b) (rhalo b) →
  oper_returns oper (lhalo b) (rhalo b) →
  ∃ hs y',
    exchange_halos b x = Some hs ∧
    operator_convolve uninit oper width b x y alpha beta
      = Some (with_halos b hs, y', hs_log hs) ∧
    length y' = length y ∧
    ∀ d xd yd, x !! d = Some xd → y !! d = Some yd →
      ∃ yd', y' !! d = Some yd' ∧ length yd' = length yd ∧
        ∀ k, load yd' k = operator_output oper x alpha beta d xd yd k.
Proof.
  intros (Hhok & Hnq & Hwidth & Hyl & Hps & Hsz & Hdev) Hreads Hret.
  pose proof Hhok as (Hl & Hr & Hlr & Hnq31 & Hnw & Hlen & Hdlen & _ & Hxl & Hx).
  unfold INT_MAX in Hlr.
  destruct (exchange_halos_keeps b x Hhok) as (hs & Hrun & Hhl & Hdl & Hcap).
  exists hs. unfold operator_convolve. rewrite Hrun. cbn [mbind option_bind].
  set (b' := with_halos b hs).
  destruct (for_each_seqZ_inv
    (λ m yt, length yt = length y ∧
       ∀ d xd yd, x !! d = Some xd → y !! d = Some yd →
         if decide (Z.of_nat d < m) then
           ∃ yd', yt !! d = Some yd' ∧ length yd' = length yd ∧
             ∀ k, load yd' k = operator_output oper x alpha beta d xd yd k
         else yt !! d = Some yd)
    (operator_step uninit oper width b' x alpha beta) 0 (nqueue b) y)
    as (y' & Hrun' & Hlen' & Hres).
  - lia.
  - split; [done|]. intros d xd yd Hxd Hyd. rewrite decide_False by lia. done.
  - intros m yt Hm (Hlt & Hinv). unfold nqueue in Hm.
    set (d := Z.to_nat m).
    destruct (lookup_lt_is_Some_2 (queue b) d) as [dev Hq]; [lia|].
    destruct (lookup_lt_is_Some_2 x d) as [xd Hxd]; [lia|].
    destruct (lookup_lt_is_Some_2 y d) as [yd Hyd]; [lia|].
    destruct (lookup_lt_is_Some_2 (hs_dbuf hs) d) as [xrem Hxrem]; [lia|].
    assert (yt !! d = Some yd) as Hytd.
    { specialize (Hinv d xd yd Hxd Hyd). rewrite decide_False in Hinv by lia. done. }
    assert (part_size x m = Z.of_nat (length xd)) as Hpsx.
    { rewrite <- (part_size_lookup x d xd Hxd). f_equal. lia. }
    assert (length yd = length xd) as Hyx
      by exact (part_size_eq_length x y d xd yd Hps Hxd Hyd).
    assert (∀ yd', length yd' = length yd →
      (∀ k, load yd' k = operator_output oper x alpha beta d xd yd k) →
      ∀ yt', length yt' = length y → yt' !! d = Some yd' →
      (∀ i, i ≠ d → yt' !! i = yt !! i) →
      ∀ d0 xd0 yd0, x !! d0 = Some xd0 → y !! d0 = Some yd0 →
        if decide (Z.of_nat d0 < m + 1) then
          ∃ yd', yt' !! d0 = Some yd' ∧ length yd' = length yd0 ∧
            ∀ k, load yd' k = operator_output oper x alpha beta d0 xd0 yd0 k
        else yt' !! d0 = Some yd0) as Hstep.
    { intros yd' Hl' Hc yt' Hlt' Hd' Hother d0 xd0 yd0 Hxd0 Hyd0.
      specialize (Hinv d0 xd0 yd0 Hxd0 Hyd0).
      destruct (decide (d0 = d)) as [->|Hne].
      - rewrite decide_True by lia.
        assert (yd0 = yd) as -> by congruence.
        assert (xd0 = xd) as -> by congruence.
        exists yd'. done.
      - rewrite Hother by done.
        destruct (decide (Z.of_nat d0 < m)).
        + rewrite decide_True by lia. done.
        + rewrite decide_False by lia. done. }
    unfold operator_step.
    change (queue b') with (queue b). change (dbuf b') with (hs_dbuf hs).
    fold d. rewrite Hq. cbn [mbind option_bind].
    destruct (Z.eqb_spec (part_size x m) 0) as [Hempty|Hne].
    + exists yt. split; [done|]. split; [done|].
      apply (Hstep yd); try done.
      intros k. unfold operator_output. rewrite decide_False by lia. done.
    + rewrite Hxd, Hxrem, Hytd. cbn [mbind option_bind].
      set (a := operator_args b' x alpha beta m xd xrem).
      assert (a = operator_args b' x alpha beta (Z.of_nat d) xd xrem) as Ha.
      { subst a d. rewrite Z2Nat.id by lia. done. }
      destruct (Hdev d dev Hq) as (HG & HB & Hmax).
      unfold INT_MAX in Hmax.
      assert (window_ok a) as Hwok.
      { subst a. unfold window_ok. cbn.
        pose proof (part_size_le x m). pose proof (part_start_nonneg x m).
        assert (lhalo b + rhalo b ≤ Z.of_nat (length xrem)) by (by eapply Hcap).
        unfold INT_MAX. lia. }
      assert (tile_ok {| num_groups := launch_groups dev;
                         local_size := workgroup_size dev |} a
                      (local_block uninit (operator_lmem width dev))) as Htile.
      { subst a. unfold tile_ok. cbn.
        replace m with (Z.of_nat d) by (subst d; lia).
        assert (0 ≤ part_size x (Z.of_nat d)) by (unfold part_size; lia).
        assert (0 < (launch_groups dev + 1) * workgroup_size dev) by nia.
        rewrite operator_lmem_fits by nia.
        unfold INT_MAX. lia. }
      assert (ka_n a ≤ Z.of_nat (length yd)) as Hlenyd by (subst a; cbn; lia).
      destruct (oper_conv_contract oper _ a Hwok Hreads Hret _ yd Htile Hlenyd)
        as (yd' & Hk & Hl' & Hct).
      rewrite Hk. cbn [mbind option_bind].
      eexists. split; [done|]. split; [by rewrite length_insert|].
      apply (Hstep yd'); try done.
        -- intros k. rewrite (Hct k). unfold operator_output.
           rewrite Ha. cbn [ka_n operator_args].
           rewrite (part_size_lookup x d xd Hxd).
           case_decide; [|done].
           by apply oper_at_clamped.
        -- by rewrite length_insert.
        -- apply list_lookup_insert_eq. by eapply lookup_lt_Some.
        -- intros i Hi. by apply list_lookup_insert_ne.
  - rewrite Hrun'. cbn [mbind option_bind]. exists y'.
    split; [done|]. split; [done|]. split; [done|].
    intros d xd yd Hxd Hyd. specialize (Hres d xd yd Hxd Hyd).
    rewrite decide_True in Hres; [done|].
    apply lookup_lt_Some in Hyd. unfold nqueue. lia.
Qed.
End OperatorHostFacts.

(** ** From the partitions to the whole vector *)

Section Global.
Context {T : Type} `{Scalar T}.
Implicit Types (x y : vector T).

(** A vector whose partitions hold, element by element, what [F] gives at
    the global index, holds it at every global index. *)
Lemma concat_of_parts (F : Z → option T) x y y' (alpha beta : T) :
  length y = length x → (∀ d, part_size y d = part_size x d) →
  length y' = length y →
  (∀ d xd yd, x !! d = Some xd → y !! d = Some yd →
     ∃ yd', y' !! d = Some yd' ∧ length yd' = length yd ∧
       ∀ k, 0 ≤ k < Z.of_nat (length xd) →
         load yd' k =
           (sum ← F (part_start x (Z.of_nat d) + k);
            y_old ← load yd k;
            Some (accumulate alpha beta y_old sum))) →
  length (concat y') = length (concat y) ∧
  Z.of_nat (length (concat y)) = vec_size x ∧
  ∀ i, 0 ≤ i < vec_size x →
    load (concat y') i =
      (sum ← F i; y_old ← load (concat y) i;
       Some (accumulate alpha beta y_old sum)).
Proof.
  intros Hyl Hps Hlen Hres.
  assert (∀ d, part_size y' d = part_size y d) as Hps'.
  { apply part_size_same_lengths; [done|].
    intros d yd yd' Hyd Hyd'.
    destruct (lookup_lt_is_Some_2 x d) as [xd Hxd].
    { apply lookup_lt_Some in Hyd. lia. }
    destruct (Hres d xd yd Hxd Hyd) as (yd0 & Hy0 & Hl0 & _). congruence. }
  pose proof (part_start_same x y Hyl Hps) as Hsy.
  pose proof (part_start_same y y' Hlen Hps') as Hsy'.
  assert (∀ v : vector T, Z.of_nat (length (concat v))
                          = part_start v (Z.of_nat (length v))) as Hvs.
  { intros v. by rewrite part_start_end by lia. }
  split; [|split].
  - apply Nat2Z.inj. rewrite !Hvs, Hlen. apply Hsy'.
  - rewrite Hvs, Hyl, Hsy. apply part_start_end. lia.
  - intros i Hi.
    destruct (global_index_split x i Hi) as (d & xd & k & Hxd & Hk & ->).
    destruct (lookup_lt_is_Some_2 y d) as [yd Hyd].
    { apply lookup_lt_Some in Hxd. lia. }
    destruct (Hres d xd yd Hxd Hyd) as (yd' & Hyd' & Hl' & Hc).
    assert (length yd = length xd) as Hlyd
      by exact (part_size_eq_length x y d xd yd Hps Hxd Hyd).
    assert (load (concat y) (part_start x (Z.of_nat d) + k) = load yd k) as E1.
    { rewrite <- Hsy. symmetry.
      apply (part_elem y (Z.of_nat d) yd k); rewrite ?Nat2Z.id; done || lia. }
    assert (load (concat y') (part_start x (Z.of_nat d) + k) = load yd' k) as E2.
    { rewrite <- Hsy, <- Hsy'. symmetry.
      apply (part_elem y' (Z.of_nat d) yd' k); rewrite ?Nat2Z.id; done || lia. }
    rewrite E1, E2. by apply Hc.
Qed.
End Global.

(** ** The barriers, multiconv and StencilOperator *)

Section MoreClaims4.
Context {T : Type} `{Scalar T}.
Variable uninit : nat → T.
Implicit Types (q : list device) (b : stencil_base T) (st : stencil T)
  (x y : vector T) (a : kernel_args T).

(** X13. The two barriers of the halo exchange: an exchange that is not
    skipped makes its requests in this order: reads of ranges of [x] into
    the host buffer, each within [x] and within the buffer; [finish] on
    every queue; reads of single elements of [x], fills of ranges of the
    host buffer and uploads to devices of the queue; [finish] on every
    queue.  No fill or upload comes before the first barrier and no read
    of a range after it. *)
Theorem exchange_halos_barriers b x :
  halos_ok b x → 1 < nqueue b → 0 < lhalo b + rhalo b →
  ∃ hs reads writes,
    exchange_halos b x = Some hs ∧
    hs_log hs = reads ++ barrier b ++ writes ++ barrier b ∧
    Forall (read_request b x) reads ∧ Forall (write_request b x) writes.
Proof.
  intros Hok Hnq Hw.
  destruct (exchange_halos_keeps b x Hok) as (hs & Hex & _).
  destruct (exchange_halos_trace b x hs) as (reads & writes & Hlog & Hr & Hwr);
    try done.
  { destruct Hok as (? & ? & Hlr & _). unfold INT_MAX in Hlr.
    rewrite s32_small; lia. }
  by exists hs, reads, writes.
Qed.

(** X14. [multiconv::apply] is [conv::apply] component by component: it
    returns, and every component of [y] is left as [conv::apply] of the
    same stencil, taken as it was before the call, leaves it; the halo
    data that one component left in the stencil does not reach the next.
    Both operators build the same transform. *)
Theorem multiconv_componentwise st (xs ys : list (vector T)) negate append :
  stencil_ok st → length ys = length xs →
  (∀ i xi yi, xs !! i = Some xi → ys !! i = Some yi → vectors_ok st xi yi) →
  mul_stencil_multivector st xs = mul_multivector_stencil xs st ∧
  ∃ st' ys' log,
    multi_apply uninit negate append (mul_stencil_multivector st xs) ys
      = Some (st', ys', log) ∧
    length ys' = length ys ∧
    queue (base st') = queue (base st) ∧ s (base st') = s (base st) ∧
    lhalo (base st') = lhalo (base st) ∧ rhalo (base st') = rhalo (base st) ∧
    ∀ i xi yi, xs !! i = Some xi → ys !! i = Some yi →
      ∃ sti yi' logi,
        apply uninit negate append (mul_stencil_vector st xi) yi
          = Some (sti, yi', logi) ∧
        ys' !! i = Some yi'.
Proof.
  intros Hst Hlen Hfit. split; [done|].
  destruct (multi_apply_components uninit st xs ys sc_one negate append
              Hst Hlen Hfit) as (st' & ys' & log & Hrun & Hl & Hst' & Hres).
  exists st', ys', log. split; [exact Hrun|]. split; [done|].
  assert (queue (base st') = queue (base st) ∧ s (base st') = s (base st) ∧
          lhalo (base st') = lhalo (base st) ∧
          rhalo (base st') = rhalo (base st)) as (? & ? & ? & ?).
  { destruct Hst' as [->|(hs & _ & ->)]; done. }
  repeat (split; [done|]). exact Hres.
Qed.
End MoreClaims4.

Section MoreClaims5.
Context {T : Type} `{Scalar T}.
Variable uninit : nat → T.
Variable host_alloc : Z → bool.
Variable oper : (Z → option T) → option T.
Implicit Types (q : list device) (b : stencil_base T) (st : stencil T)
  (x y : vector T) (a : kernel_args T).

(** X15. The kernel of [StencilOperator]: for a body that reads [X[j]]
    for [j] from [-lhalo] to [rhalo] only and returns when that window is
    there, the kernel returns on every launch that fits; the element [k]
    below [n] of its output is [alpha * y[k] + beta * sum] ([beta * sum]
    when [alpha] is zero) with [sum] the body applied to the window
    [read_x(k + j)], and the other elements of [y] are left as they
    were. *)
Theorem operator_kernel_contract (g : launch) a (X0 y0 : list T) :
  window_ok a → tile_ok g a X0 → ka_n a ≤ Z.of_nat (length y0) →
  oper_reads oper (ka_lhalo a) (ka_rhalo a) →
  oper_returns oper (ka_lhalo a) (ka_rhalo a) →
  ∃ out, oper_conv oper g a X0 y0 = Some out ∧ length out = length y0 ∧
    (∀ k y_old, 0 ≤ k < ka_n a → load y0 k = Some y_old →
       ∃ sum, oper (λ j, kread a (k + j)) = Some sum ∧
              load out k =
                Some (accumulate (ka_alpha a) (ka_beta a) y_old sum)) ∧
    (∀ k, ¬ 0 ≤ k < ka_n a → load out k = load y0 k).
Proof.
  intros Hok Htile Hlen Hreads Hret.
  destruct (oper_conv_contract oper g a Hok Hreads Hret X0 y0 Htile Hlen)
    as (out & Hrun & Hl & Hc).
  exists out. split; [done|]. split; [done|].
  pose proof Hok as (Hn & Hlh & Hrh & Hw & Hn63 & _). unfold INT_MAX in Hw.
  split.
  - intros k y_old Hk Hold. specialize (Hc k).
    rewrite decide_True in Hc by done. unfold oper_at in Hc.
    assert (oper (λ j, kread a (k + j)) = oper (λ j, read_policy a (k + j)))
      as ->.
    { apply Hreads. intros j Hj. cbn beta.
      apply read_x_read_policy; unfold INT_MAX; lia. }
    destruct (Hret (λ j, read_policy a (k + j))) as [sum Hsum].
    { intros j _. by apply window_policy_is_Some. }
    exists sum. split; [done|]. by rewrite Hc, Hsum, Hold.
  - intros k Hk. rewrite (Hc k). by rewrite decide_False.
Qed.

(** X16. A [StencilOperator] applies its body around every element of the
    whole vector: built by its constructor for [width] and [center], with
    a body that reads [X[j]] for [j] from [-center] to [width - center - 1]
    only, [convolve] returns and the element of [y] at the global index [i]
    becomes [alpha * y[i] + beta * sum] ([beta * sum] when [alpha] is zero)
    with [sum] the body applied to the window [clamp_read(x, i + j)], on
    any number of devices, provided that on every device, CPU or not (the
    operator has the tiled kernel only), the size of the partition plus
    [(groups + 1) * workgroup_size + lhalo + rhalo] is at most
    [INT_MAX]. *)
Theorem stencil_operator_convolves q width center b x y alpha beta :
  0 ≤ width < 2 ^ 32 → 0 ≤ center < 2 ^ 32 →
  stencil_operator_ctor uninit host_alloc q width center = Built b →
  operator_fits width b x y →
  oper_reads oper center (width - center - 1) →
  oper_returns oper center (width - center - 1) →
  ∃ b' y' log,
    operator_convolve uninit oper width b x y alpha beta
      = Some (b', y', log) ∧
    length (concat y') = length (concat y) ∧
    ∀ i y_old, load (concat y) i = Some y_old →
      ∃ sum, oper (λ j, clamp_read x (i + j)) = Some sum ∧
             load (concat y') i = Some (accumulate alpha beta y_old sum).
Proof.
  intros Hw Hc Hctor Hfit Hreads Hret.
  apply stencil_base_ctor_inv in Hctor as (_ & _ & _ & _ & _ & Hb); [|done..].
  assert (lhalo b = center ∧ rhalo b = width - center - 1) as [Hl Hr]
    by (by rewrite Hb).
  rewrite <- Hr, <- Hl in Hreads, Hret.
  destruct (operator_convolve_parts uninit oper width b x y alpha beta
              Hfit Hreads Hret) as (hs & y' & _ & Hrun & Hlen & Hres).
  destruct Hfit as (_ & _ & _ & Hyl & Hps & _).
  destruct (concat_of_parts (clamped_oper oper x) x y y' alpha beta Hyl Hps Hlen)
    as (Hcl & Hsz & Hall).
  { intros d xd yd Hxd Hyd.
    destruct (Hres d xd yd Hxd Hyd) as (yd' & Hyd' & Hl' & Hk).
    exists yd'. split; [done|]. split; [done|].
    intros k Hkr. rewrite Hk. unfold operator_output.
    by rewrite decide_True by done. }
  eexists _, y', _. split; [exact Hrun|]. split; [done|].
  intros i y_old Hold.
  assert (0 ≤ i < vec_size x) as Hi.
  { apply load_Some_lt in Hold. lia. }
  specialize (Hall i Hi). rewrite Hold in Hall. unfold clamped_oper in Hall.
  destruct (oper _) as [sum|] eqn:Hsum.
  - exists sum. done.
  - cbn in Hall. assert (is_Some (load (concat y') i)) as [? Hsome];
      [|congruence].
    apply load_is_Some. lia.
Qed.
End MoreClaims5.

(** ** The linear stencil as an operator *)

Section Linear.
Context {T : Type} `{Scalar T}.
Variable uninit : nat → T.
Variable host_alloc : Z → bool.
Implicit Types (q : list device) (b : stencil_base T) (st : stencil T)
  (x y : vector T).

Lemma linear_oper_reads (coeffs : list T) lh rh :
  0 ≤ lh → 0 ≤ rh → oper_reads (linear_oper coeffs lh rh) lh rh.
Proof.
  intros Hl Hr win win' E. unfold linear_oper.
  apply foldl_add_term_ext. intros j Hj%elem_of_seqZ.
  rewrite E by lia. done.
Qed.

Lemma linear_oper_returns (coeffs : list T) lh rh :
  0 ≤ lh → 0 ≤ rh → lh + rh + 1 ≤ Z.of_nat (length coeffs) →
  oper_returns (linear_oper coeffs lh rh) lh rh.
Proof.
  intros Hl Hr Hc win Hwin. unfold linear_oper.
  apply foldl_add_term_is_Some; [by eexists|].
  intros j Hj%elem_of_seqZ.
  destruct (load_is_Some coeffs (lh + j)) as [c ->]; [lia|].
  destruct (Hwin j) as [v ->]; [lia|]. by eexists.
Qed.

(** X17. A [StencilOperator] whose body adds up [coeffs[center + j] * X[j]]
    is the stencil of these coefficients while the launches fit [int]:
    built for the same devices and centre, the two leave the same [y],
    provided that on every device, CPU or not, the size of the partition
    plus [(groups + 1) * workgroup_size + lhalo + rhalo] is at most
    [INT_MAX]. *)
Theorem linear_operator_is_stencil q (coeffs : list T) center st b x y
    alpha beta :
  Z.of_nat (length coeffs) < 2 ^ 32 → 0 ≤ center < 2 ^ 32 →
  stencil_ctor uninit host_alloc q coeffs center = Built st →
  stencil_operator_ctor uninit host_alloc q (Z.of_nat (length coeffs)) center = Built b →
  vectors_ok st x y → operator_fits (Z.of_nat (length coeffs)) b x y →
  ∃ st' b' y' log log',
    convolve uninit st x y alpha beta = Some (st', y', log) ∧
    operator_convolve uninit
      (linear_oper coeffs center (Z.of_nat (length coeffs) - center - 1))
      (Z.of_nat (length coeffs)) b x y alpha beta = Some (b', y', log').
Proof.
  intros Hlen Hc Hst Hb Hv Hfit.
  set (w := Z.of_nat (length coeffs)) in *.
  destruct (stencil_ctor_inv uninit host_alloc q coeffs center st Hlen Hc Hst)
    as (Hok & Hq & Hl & Hr & Hl0 & Hr0 & _ & _ & _ & Hs & _).
  fold w in Hr.
  apply stencil_base_ctor_inv in Hb as (_ & _ & _ & _ & _ & Hb); [|lia|done].
  assert (lhalo b = center ∧ rhalo b = w - center - 1) as [Hlb Hrb]
    by (by rewrite Hb).
  destruct (convolve_parts uninit st x y alpha beta Hok Hv)
    as (hs & y1 & _ & Hrun1 & Hlen1 & Hres1).
  destruct (operator_convolve_parts uninit
              (linear_oper coeffs center (w - center - 1)) w b x y alpha beta)
    as (hs2 & y2 & _ & Hrun2 & Hlen2 & Hres2); [done|..].
  { rewrite Hlb, Hrb. apply linear_oper_reads; lia. }
  { rewrite Hlb, Hrb. apply linear_oper_returns; lia. }
  assert (y2 = y1) as ->; [|by eexists _, _, _, _, _].
  pose proof Hv as (Hh & Hyl & _).
  pose proof Hh as (_ & _ & _ & _ & _ & _ & _ & _ & Hxl & _).
  apply list_eq. intros d.
  destruct (decide (d < length y)%nat) as [Hd|Hd].
  - destruct (lookup_lt_is_Some_2 y d Hd) as [yd Hyd].
    destruct (lookup_lt_is_Some_2 x d) as [xd Hxd]; [lia|].
    assert (s (base st) !! d = Some coeffs) as Hsd.
    { rewrite Hs, list_lookup_fmap.
      destruct (lookup_lt_is_Some_2 q d) as [dev ->]; [|done].
      rewrite <- Hq. lia. }
    destruct (Hres1 d xd yd coeffs Hxd Hyd Hsd) as (yd1 & -> & _ & Hk1).
    destruct (Hres2 d xd yd Hxd Hyd) as (yd2 & -> & _ & Hk2).
    f_equal. apply load_ext. intros k. rewrite Hk1, Hk2, Hl, Hr. done.
  - rewrite !lookup_ge_None_2 by lia. done.
Qed.
End Linear.

(** * The tiled kernel past [INT_MAX] *)

(** ** The tiled kernel on partitions of any size *)

Lemma s32_add_l x y : s32 (s32 x + y) = s32 (x + y).
Proof.
  unfold s32, wrap_signed. f_equal.
  replace ((x + 2 ^ (32 - 1)) mod 2 ^ 32 - 2 ^ (32 - 1) + y + 2 ^ (32 - 1))
    with ((x + 2 ^ (32 - 1)) mod 2 ^ 32 + y) by lia.
  rewrite Zplus_mod_idemp_l. f_equal. lia.
Qed.

Section TiledFacts.
Context {T : Type} `{Scalar T}.
Implicit Types (a : kernel_args T) (y t X : list T) (g : launch).

Lemma kread_is_Some a j :
  args_ok a → - 2 ^ 63 ≤ j < 2 ^ 63 → is_Some (kread a j).
Proof.
  intros Hok Hj. pose proof (args_ok_ranges a Hok) as (Hn & Hl & Hr).
  rewrite read_x_read_policy by done. by apply read_policy_is_Some.
Qed.

Lemma tiled_conv_is_Some a i : args_ok a → is_Some (tiled_conv a i).
Proof.
  intros Hok. unfold tiled_conv.
  apply foldl_add_term_is_Some; [by eexists|].
  intros j Hj%elem_of_seqZ. unfold tiled_term.
  destruct (load_is_Some (ka_s a) (ka_lhalo a + j)) as [c ->].
  { unfold args_ok in Hok. lia. }
  pose proof (s32_range (i + j)).
  destruct (kread_is_Some a (s32 (i + j)) Hok) as [v ->]; [lia|]. by eexists.
Qed.

(** While the index stays within [int] the tiled kernel adds the terms of
    the generic one. *)
Lemma tiled_conv_stencil_conv a i :
  args_ok a → 0 ≤ i < ka_n a → ka_n a + ka_rhalo a ≤ 2 ^ 31 →
  tiled_conv a i = stencil_conv a i.
Proof.
  intros Hok Hi Hn. pose proof Hok as (_ & Hl & Hr & Hw & _).
  unfold INT_MAX in Hw.
  pose proof (args_ok_ranges a Hok) as (Hn' & Hl' & Hr').
  unfold tiled_conv, stencil_conv. apply foldl_add_term_ext.
  intros j Hj%elem_of_seqZ. unfold tiled_term, conv_term.
  rewrite s32_small by lia. rewrite read_x_read_policy by (done || lia). done.
Qed.

(** The tile-load loop of one work-item, for any start index [j] of type
    [int]. *)
Lemma load_tile_wraps a B fuel i j X :
  args_ok a → 0 < B →
  B + ka_lhalo a + ka_rhalo a + B ≤ INT_MAX →
  0 ≤ i →
  Z.max 0 (B + ka_lhalo a + ka_rhalo a - i) + B ≤ Z.of_nat fuel * B →
  - 2 ^ 31 ≤ j < 2 ^ 31 →
  B + ka_lhalo a + ka_rhalo a ≤ Z.of_nat (length X) →
  ∃ X', load_tile fuel a B i j X = Some X' ∧ length X' = length X ∧
    ∀ k, load X' k =
         if decide (i ≤ k < B + ka_lhalo a + ka_rhalo a ∧ (k - i) mod B = 0)
         then kread a (s32 (j + (k - i))) else load X k.
Proof.
  intros Hok HB Hmax. unfold INT_MAX in Hmax.
  pose proof Hok as (Hn & Hl & Hr & Hw & Hn63 & _).
  set (tile := B + ka_lhalo a + ka_rhalo a) in *.
  revert i j X. induction fuel as [|fuel IH]; intros i j X Hi Hfuel Hj HX.
  { lia. }
  cbn [load_tile]. fold tile.
  replace (s32 (s32 (B + ka_lhalo a) + ka_rhalo a)) with tile
    by (subst tile; unwrap; done).
  destruct (decide (i < tile)) as [Hlt|Hge].
  - replace (i <? tile) with true by (symmetry; apply Z.ltb_lt; lia).
    destruct (kread_is_Some a j Hok) as [v Hv]; [lia|]. rewrite Hv. simpl.
    rewrite store_Some by lia. simpl.
    rewrite (s32_small (i + B)) by lia.
    assert (Z.max 0 (tile - (i + B)) + B ≤ Z.of_nat fuel * B) as Hfuel'.
    { destruct fuel as [|fuel'].
      - change (Z.of_nat 1) with 1 in Hfuel. lia.
      - rewrite !Nat2Z.inj_succ, !Z.mul_succ_l in *.
        assert (0 ≤ Z.of_nat fuel' * B) by nia. lia. }
    pose proof (s32_range (j + B)) as Hj'.
    destruct (IH (i + B) (s32 (j + B)) (<[Z.to_nat i := v]> X))
      as (X' & -> & Hlen & Hld);
      [lia | done | lia | rewrite length_insert; lia |].
    exists X'. split; [done|]. split; [by rewrite Hlen, length_insert|].
    intros k. rewrite Hld.
    rewrite (load_store X i v _ k) by (apply store_Some; lia).
    replace (k - (i + B)) with (k - i - B) by lia.
    rewrite mod_sub_self by done. rewrite s32_add_l.
    destruct (decide (k = i)) as [->|Hki].
    + rewrite decide_False by lia.
      rewrite decide_True by (rewrite Z.sub_diag, Z.mod_0_l; lia).
      rewrite Z.sub_diag, Z.add_0_r, s32_small by lia. done.
    + destruct (decide (i + B ≤ k < tile ∧ (k - i) mod B = 0)) as [Hin|Hnin].
      * rewrite decide_True by lia. do 2 f_equal. lia.
      * rewrite decide_False; [done|]. intros [Hk Hm].
        apply Hnin. split; [|done].
        pose proof (mod_zero_ge (k - i) B HB). lia.
  - replace (i <? tile) with false by (symmetry; apply Z.ltb_ge; lia).
    exists X. split; [done|]. split; [done|]. intros k.
    rewrite decide_False by lia. done.
Qed.

(** After the first barrier the slot [k] of the input tile holds [read_x]
    at the index of the slot converted to [int]. *)
Lemma load_phase_wraps g a grp pos X :
  args_ok a → 0 < local_size g → 0 ≤ grp → 0 ≤ pos →
  grp * local_size g + pos + local_size g < 2 ^ 63 →
  2 * local_size g + ka_lhalo a + ka_rhalo a ≤ INT_MAX →
  local_size g + ka_lhalo a + ka_rhalo a ≤ Z.of_nat (length X) →
  ∃ X',
    for_each (seqZ 0 (local_size g)) (λ X l,
        load_tile (S (length X)) a (s32 (local_size g)) (s32 l)
          (s32 (s64 (s64 (u64 (grp * local_size g + l) + pos) - ka_lhalo a))) X) X
      = Some X' ∧
    length X' = length X ∧
    ∀ k, 0 ≤ k < local_size g + ka_lhalo a + ka_rhalo a →
         load X' k = kread a (s32 (grp * local_size g + pos + k - ka_lhalo a)).
Proof.
  set (B := local_size g). intros Hok HB Hgrp Hpos H63 Hmax HX.
  unfold INT_MAX in Hmax. pose proof Hok as (Hn & Hl & Hr & Hw & Hn63 & _).
  set (tile := B + ka_lhalo a + ka_rhalo a) in *.
  set (b := grp * B + pos) in *.
  assert (0 ≤ grp * B) by nia.
  destruct (for_each_seqZ_inv
    (λ l Xl, length Xl = length X ∧
             ∀ k, 0 ≤ k < tile → k mod B < l →
                  load Xl k = kread a (s32 (b + k - ka_lhalo a)))
    (λ X l, load_tile (S (length X)) a (s32 B) (s32 l)
              (s32 (s64 (s64 (u64 (grp * B + l) + pos) - ka_lhalo a))) X)
    0 B X) as (X' & Hrun & Hlen & Hld).
  - lia.
  - split; [done|]. intros k Hk Hm. pose proof (Z.mod_pos_bound k B HB). lia.
  - intros l Xl Hlr [Hlen Hld].
    rewrite (s32_small B), (s32_small l) by lia.
    rewrite (u64_small (grp * B + l)) by lia.
    rewrite (s64_small (grp * B + l + pos)) by lia.
    rewrite (s64_small (grp * B + l + pos - ka_lhalo a)) by lia.
    pose proof (s32_range (grp * B + l + pos - ka_lhalo a)) as Hj.
    destruct (load_tile_wraps a B (S (length Xl)) l
                (s32 (grp * B + l + pos - ka_lhalo a)) Xl)
      as (X' & -> & Hlen' & Hld'); try done; try lia.
    { unfold INT_MAX. subst tile. lia. }
    { fold tile. nia. }
    exists X'. split; [done|]. split; [congruence|].
    intros k Hk Hm. rewrite Hld'. fold tile.
    destruct (decide (k mod B = l)) as [Hkl|Hkl].
    + destruct (sub_of_mod_eq k l B HB) as [Hle Hz]; [lia | done |].
      rewrite decide_True by lia. rewrite s32_add_l. do 2 f_equal.
      subst b. lia.
    + rewrite decide_False.
      * apply Hld; lia.
      * intros [Hk' Hz]. apply Hkl. apply mod_eq_of_sub; lia.
  - exists X'. split; [exact Hrun|]. split; [done|].
    intros k Hk. replace (grp * B + pos + k - ka_lhalo a)
      with (b + k - ka_lhalo a) by (subst b; lia).
    apply Hld; [done|]. pose proof (Z.mod_pos_bound k B HB). lia.
Qed.

(** Between the barriers a work-item adds up the terms of its tile. *)
Lemma fast_item_tiled a B b l Sl Xl y :
  args_ok a →
  (∀ k, 0 ≤ k < ka_lhalo a + ka_rhalo a + 1 → load Sl k = load (ka_s a) k) →
  (∀ k, 0 ≤ k < B + ka_lhalo a + ka_rhalo a →
        load Xl k = kread a (s32 (b + k - ka_lhalo a))) →
  0 ≤ l < B → 0 ≤ b → b + l < 2 ^ 63 →
  B + ka_lhalo a + ka_rhalo a ≤ INT_MAX →
  fast_item a Sl Xl l (b + l) y =
    if decide (b + l < ka_n a)
    then sum ← tiled_conv a (b + l);
         write_back (ka_alpha a) (ka_beta a) y (b + l) sum
    else Some y.
Proof.
  intros Hok HS HX Hl Hb H63 Hmax. unfold INT_MAX in Hmax.
  pose proof Hok as (Hn & Hlh & Hrh & Hw & Hn63 & _).
  unfold fast_item. rewrite (u64_small (b + l)) by lia.
  destruct (decide (b + l < ka_n a)) as [Hlt|Hge].
  - replace (b + l <? ka_n a) with true by (symmetry; apply Z.ltb_lt; lia).
    unfold tiled_conv. rewrite stencil_sum_foldl by (unfold INT_MAX; lia).
    f_equal. apply foldl_add_term_ext. intros j Hj%elem_of_seqZ.
    unfold tiled_term. unwrap. rewrite HS, HX by lia.
    replace (b + (ka_lhalo a + l + j) - ka_lhalo a) with (b + l + j) by lia.
    done.
  - replace (b + l <? ka_n a) with false by (symmetry; apply Z.ltb_ge; lia).
    done.
Qed.

Lemma tiled_done_iff a (P Q : Z → Prop) y t :
  (∀ k, P k ↔ Q k) → tiled_done a P y t → tiled_done a Q y t.
Proof.
  intros E [Hlen Hd]. split; [done|]. intros k. destruct (Hd k) as [H1 H2].
  split; intros HQ; [apply H1 | apply H2]; by rewrite E.
Qed.

Lemma tiled_done_start a y : tiled_done a (λ _, False) y y.
Proof. split; [done|]. intros k. split; [done | done]. Qed.

(** One more element done by a work-item of the tiled kernel. *)
Lemma tiled_item_done a (P : Z → Prop) y t i :
  args_ok a → ka_n a ≤ Z.of_nat (length y) →
  tiled_done a P y t → ¬ P i → 0 ≤ i < ka_n a →
  ∃ t', (sum ← tiled_conv a i; write_back (ka_alpha a) (ka_beta a) t i sum)
          = Some t' ∧
        tiled_done a (λ k, P k ∨ k = i) y t'.
Proof.
  intros Hok Hlen [Hl Hd] HnP Hi.
  destruct (tiled_conv_is_Some a i Hok) as [sum Hsum]. rewrite Hsum. simpl.
  destruct (load_is_Some y i) as [yi Hyi]; [lia|].
  assert (load t i = Some yi) as Hti by (rewrite <- Hyi; by apply Hd).
  destruct (write_back_Some (ka_alpha a) (ka_beta a) t i sum yi Hti)
    as (t' & -> & Hl' & Hload).
  exists t'. split; [done|]. split; [congruence|].
  intros k. rewrite Hload. split.
  - intros [HP | ->].
    + rewrite decide_False by (intros ->; done). by apply Hd.
    + rewrite decide_True by done. unfold tiled_at. by rewrite Hsum, Hyi.
  - intros Hn. rewrite decide_False by (intros ->; apply Hn; by right).
    apply Hd. intros HP. apply Hn. by left.
Qed.

(** One trip of the outer loop of a work-group. *)
Lemma group_trip_tiled g a grp tr Sl X (P : Z → Prop) y t :
  args_ok a → launch_fits g a Sl X → ka_n a ≤ Z.of_nat (length y) →
  0 ≤ grp < num_groups g → 0 ≤ tr →
  tr * (num_groups g * local_size g) < ka_n a →
  (∀ k, 0 ≤ k < ka_lhalo a + ka_rhalo a + 1 → load Sl k = load (ka_s a) k) →
  tiled_done a P y t → (∀ k, in_block g grp tr k → ¬ P k) →
  ∃ X' t',
    group_trip g a grp (tr * (num_groups g * local_size g)) Sl (X, t)
      = Some (X', t') ∧
    length X' = length X ∧
    tiled_done a (λ k, P k ∨ (in_block g grp tr k ∧ k < ka_n a)) y t'.
Proof.
  intros Hok (HG & HB & Hmax & H63 & HSl & HXl) Hlen Hgrp Htr Hpos HS Hdone Hfresh.
  unfold INT_MAX in Hmax. pose proof Hok as (Hn & Hlh & Hrh & Hw & Hn63 & _).
  set (B := local_size g) in *. set (G := num_groups g) in *.
  set (pos := tr * (G * B)) in *. set (b := grp * B + pos).
  assert (0 ≤ pos) by (subst pos; nia).
  assert (0 ≤ grp * B ∧ grp * B + B ≤ G * B) as [??] by nia.
  unfold group_trip. cbn [fst snd]. fold B.
  destruct (load_phase_wraps g a grp pos X) as (X' & Hrun & HlenX & Hld);
    try done; try (fold B; unfold INT_MAX; lia).
  fold B in Hrun. rewrite Hrun. cbn [mbind option_bind].
  destruct (for_each_seqZ_inv
    (λ l t, tiled_done a (λ k, P k ∨ (b ≤ k < b + l ∧ k < ka_n a)) y t)
    (λ y l, fast_item a Sl X' (s32 l) (s64 (u64 (grp * B + l) + pos)) y)
    0 B t) as (t' & Hrun' & Hdone').
  - lia.
  - eapply tiled_done_iff; [|exact Hdone]. intros k. simpl. intuition lia.
  - intros l t1 Hl Ht1.
    rewrite (s32_small l), (u64_small (grp * B + l)) by lia.
    rewrite (s64_small (grp * B + l + pos)) by lia.
    replace (grp * B + l + pos) with (b + l) by (subst b; lia).
    rewrite (fast_item_tiled a B b l Sl X');
      [|done|done|by intros k Hk; apply Hld|lia|subst b; lia|subst b; lia
       |unfold INT_MAX; lia].
    destruct (decide (b + l < ka_n a)) as [Hlt|Hge].
    + destruct (tiled_item_done a _ y t1 (b + l) Hok Hlen Ht1) as (t2 & -> & Ht2).
      * intros [HP | Hblk]; [|lia].
        apply (Hfresh (b + l)); [|done]. unfold in_block. fold B G pos. lia.
      * lia.
      * exists t2. split; [done|]. eapply tiled_done_iff; [|exact Ht2].
        intros k. simpl. intuition lia.
    + exists t1. split; [done|]. eapply tiled_done_iff; [|exact Ht1].
      intros k. simpl. intuition lia.
  - rewrite Hrun'. cbn [mbind option_bind]. exists X', t'.
    split; [done|]. split; [done|]. eapply tiled_done_iff; [|exact Hdone'].
    intros k. unfold in_block. fold B G pos. simpl. intuition lia.
Qed.

(** The outer loop of a work-group, from trip [tr] on. *)
Lemma group_loop_tiled g a grp Sl fuel tr X (P : Z → Prop) y t :
  args_ok a → launch_fits g a Sl X → ka_n a ≤ Z.of_nat (length y) →
  0 ≤ grp < num_groups g → 0 ≤ tr →
  tr * (num_groups g * local_size g) < ka_n a + num_groups g * local_size g →
  Z.max 0 (ka_n a - tr * (num_groups g * local_size g))
    + num_groups g * local_size g
    ≤ Z.of_nat fuel * (num_groups g * local_size g) →
  (∀ k, 0 ≤ k < ka_lhalo a + ka_rhalo a + 1 → load Sl k = load (ka_s a) k) →
  tiled_done a P y t →
  (∀ k tr', tr ≤ tr' → in_block g grp tr' k → ¬ P k) →
  ∃ X' t',
    group_loop fuel g a grp (tr * (num_groups g * local_size g)) Sl (X, t)
      = Some (X', t') ∧
    tiled_done a (λ k, P k ∨ ∃ tr', tr ≤ tr' ∧ in_block g grp tr' k ∧ k < ka_n a)
               y t'.
Proof.
  intros Hok Hlaunch Hlen Hgrp.
  pose proof Hlaunch as (HG & HB & Hmax & H63 & HSl & _).
  unfold INT_MAX in Hmax. pose proof Hok as (Hn & Hlh & Hrh & Hw & Hn63 & _).
  set (B := local_size g) in *. set (G := num_groups g) in *.
  assert (0 < G * B) as Hgrid by nia.
  assert (G * B + B = (G + 1) * B) as Hgb by lia.
  revert tr X P t Hlaunch.
  induction fuel as [|fuel IH]; intros tr X P t Hlaunch Htr Hpos Hfuel HS Hdone Hfresh.
  { lia. }
  cbn [group_loop].
  assert (0 ≤ tr * (G * B)) by nia.
  rewrite (u64_small (tr * (G * B))) by lia.
  destruct (decide (tr * (G * B) < ka_n a)) as [Hlt|Hge].
  - replace (_ <? _) with true by (symmetry; apply Z.ltb_lt; lia).
    destruct (group_trip_tiled g a grp tr Sl X P y t)
      as (X1 & t1 & Hrun & HlenX & Hd1); try done.
    { intros k Hk. by apply (Hfresh k tr). }
    fold B G in Hrun. rewrite Hrun. cbn [mbind option_bind].
    replace (s64 (tr * (G * B) + global_size g)) with ((tr + 1) * (G * B)).
    2:{ unfold global_size. fold B G.
        rewrite (u64_small (G * B)), s64_small by lia. lia. }
    destruct (IH (tr + 1) X1 (λ k, P k ∨ (in_block g grp tr k ∧ k < ka_n a)) t1)
      as (X' & t' & Hrun' & Hd'); try done; try lia.
    + destruct Hlaunch as (? & ? & ? & ? & ? & ?). repeat split; try done. lia.
    + destruct fuel as [|fuel'].
      * change (Z.of_nat 1) with 1 in Hfuel. lia.
      * rewrite !Nat2Z.inj_succ, !Z.mul_succ_l in *.
        assert (0 ≤ Z.of_nat fuel' * (G * B)) by nia. lia.
    + intros k tr' Htr' Hblk [HP | [Hblk' _]].
      * by apply (Hfresh k tr'); [lia | |].
      * destruct (in_block_unique g grp tr grp tr' k); try done. lia.
    + exists X', t'. split; [done|]. eapply tiled_done_iff; [|exact Hd'].
      intros k. simpl. split.
      * intros [[HP | [Hblk Hk]] | (tr' & Htr' & Hblk & Hk)]; [by left | |].
        -- right. exists tr. split; [lia | done].
        -- right. exists tr'. split; [lia | done].
      * intros [HP | (tr' & Htr' & Hblk & Hk)]; [by left; left|].
        destruct (decide (tr' = tr)) as [->|Hne].
        -- left. by right.
        -- right. exists tr'. split; [lia | done].
  - replace (_ <? _) with false by (symmetry; apply Z.ltb_ge; lia).
    exists X, t. split; [done|]. eapply tiled_done_iff; [|exact Hdone].
    intros k. simpl. split; [by left|].
    intros [HP | (tr' & Htr' & Hblk & Hk)]; [done|].
    unfold in_block in Hblk. fold B G in Hblk.
    assert (tr * (G * B) ≤ tr' * (G * B)) by nia.
    assert (0 ≤ grp * B) by nia. lia.
Qed.

(** [fast_conv] returns on every launch that fits, and every element
    below [n] of its output is the accumulated sum of the terms of the
    tile. *)
Lemma fast_conv_tiled g a S0 X0 y :
  args_ok a → launch_fits g a S0 X0 → ka_n a ≤ Z.of_nat (length y) →
  ∃ y', fast_conv g a S0 X0 y = Some y' ∧
        tiled_done a (λ k, 0 ≤ k < ka_n a) y y'.
Proof.
  intros Hok Hlaunch Hlen.
  pose proof Hlaunch as (HG & HB & Hmax & H63 & HSl & HXl).
  unfold INT_MAX in Hmax.
  pose proof Hok as (Hn & Hlh & Hrh & Hw & Hn63 & Hx & Hs & _).
  unfold INT_MAX in Hw.
  set (B := local_size g) in *. set (G := num_groups g) in *.
  assert (0 < G * B) as Hgrid by nia.
  unfold fast_conv. fold G.
  destruct (for_each_seqZ_inv
    (λ grp t, tiled_done a (λ k, ∃ q tr', 0 ≤ q < grp ∧ 0 ≤ tr' ∧
                                   in_block g q tr' k ∧ k < ka_n a) y t)
    (λ y grp,
       coeffs ← slice (ka_s a) 0 (s32 (s32 (ka_lhalo a + ka_rhalo a) + 1));
       Sl ← write_at S0 0 coeffs;
       Xy ← group_loop (S (Z.to_nat (ka_n a))) g a grp 0 Sl (X0, y);
       Some Xy.2)
    0 G y) as (y' & Hrun & Hdone).
  - lia.
  - eapply tiled_done_iff; [|apply tiled_done_start]. intros k. simpl.
    split; [done|]. intros (q & tr' & ? & _). lia.
  - intros grp t Hgrp Ht. unwrap.
    rewrite slice_Some by lia. cbn [mbind option_bind].
    set (coeffs := take _ _).
    assert (Z.of_nat (length coeffs) = ka_lhalo a + ka_rhalo a + 1) as Hcl.
    { apply (slice_length (ka_s a) 0). apply slice_Some; lia. }
    rewrite write_at_Some by lia. cbn [mbind option_bind].
    set (Sl := list_inserts _ _ _).
    assert (∀ k, 0 ≤ k < ka_lhalo a + ka_rhalo a + 1 →
                 load Sl k = load (ka_s a) k) as HS.
    { intros k Hk. subst Sl.
      erewrite load_write_at by (apply write_at_Some; lia).
      rewrite decide_True by lia.
      erewrite load_slice by (apply slice_Some; lia).
      rewrite decide_True by lia. f_equal. lia. }
    destruct (group_loop_tiled g a grp Sl (S (Z.to_nat (ka_n a))) 0 X0
                (λ k, ∃ q tr', 0 ≤ q < grp ∧ 0 ≤ tr' ∧
                                in_block g q tr' k ∧ k < ka_n a) y t)
      as (X' & t' & Hrun & Hd); try done; try (fold B G; lia).
    + repeat split; try done.
      subst Sl. rewrite length_inserts. done.
    + fold B G. rewrite Nat2Z.inj_succ, Z2Nat.id, Z.mul_succ_l by lia. nia.
    + intros k tr' Htr' Hblk (q & tr'' & Hq & Htr'' & Hblk' & _).
      destruct (in_block_unique g grp tr' q tr'' k); try done; lia.
    + change (0 * (num_groups g * local_size g)) with 0 in Hrun.
      rewrite Hrun. cbn [mbind option_bind snd].
      exists t'. split; [done|]. eapply tiled_done_iff; [|exact Hd].
      intros k. simpl. split.
      * intros [(q & tr' & Hq & Htr' & Hblk & Hk) | (tr' & Htr' & Hblk & Hk)].
        -- exists q, tr'. split; [lia | done].
        -- exists grp, tr'. split; [lia | done].
      * intros (q & tr' & Hq & Htr' & Hblk & Hk).
        destruct (decide (q = grp)) as [->|Hne].
        -- right. by exists tr'.
        -- left. exists q, tr'. split; [lia | done].
  - exists y'. split; [done|].
    eapply tiled_done_iff; [|exact Hdone].
    intros k. simpl. split.
    + intros (q & tr' & Hq & Htr' & Hblk & Hk). unfold in_block in Hblk.
      fold B G in Hblk. assert (0 ≤ q * B ∧ 0 ≤ tr' * (G * B)) by nia. lia.
    + intros Hk. destruct (in_block_cover g k) as (q & tr' & Hq & Htr' & Hblk);
        try done; [lia|].
      exists q, tr'. fold G in Hq. split; [lia|]. split; [done|]. split; [done | lia].
Qed.
End TiledFacts.

(** ** A partition of [2^31 + 1] elements *)

Lemma long_input_length : Z.of_nat (length long_input) = 2 ^ 31 + 1.
Proof. unfold long_input. rewrite length_cons, length_replicate. lia. Qed.

Lemma long_input_head : load long_input 0 = Some 1.
Proof. reflexivity. Qed.

Lemma long_input_tail k : 0 < k ≤ 2 ^ 31 → load long_input k = Some 0.
Proof.
  intros Hk. unfold load, long_input. rewrite decide_True by lia.
  replace (Z.to_nat k) with (S (Z.to_nat (k - 1))) by lia.
  rewrite lookup_cons. apply lookup_replicate_2. lia.
Qed.

Lemma long_stale_length : Z.of_nat (length long_stale) = 2 ^ 31 + 1.
Proof. unfold long_stale. rewrite length_replicate. lia. Qed.

Lemma long_stale_load k : 0 ≤ k ≤ 2 ^ 31 → load long_stale k = Some 5.
Proof.
  intros Hk. unfold load, long_stale. rewrite decide_True by lia.
  apply lookup_replicate_2. lia.
Qed.

(** ** A stencil of one coefficient in the two kernels *)

Section UnitWidth.
Context {T : Type} `{Scalar T}.
Implicit Types (a : kernel_args T).

(** With one coefficient the generic kernel multiplies it with the
    element at the output index. *)
Lemma stencil_conv_unit a i c v :
  ka_lhalo a = 0 → ka_rhalo a = 0 → 0 ≤ i < ka_n a →
  load (ka_s a) 0 = Some c → load (ka_xloc a) i = Some v →
  stencil_conv a i = Some (sc_add sc_zero (sc_mul c v)).
Proof.
  intros Hl Hr Hi Hc Hv. unfold stencil_conv. rewrite Hl, Hr.
  change (seqZ (- 0) (0 + 0 + 1)) with [0]. cbn [foldl].
  unfold add_term, conv_term, read_policy. rewrite Hl, Z.add_0_r.
  change (0 + 0) with 0. rewrite Hc, decide_True, Hv by done. done.
Qed.

(** With one coefficient the tiled kernel multiplies it with the element
    that [read_x] returns for the output index converted to [int]. *)
Lemma tiled_conv_unit a i c v :
  ka_lhalo a = 0 → ka_rhalo a = 0 →
  load (ka_s a) 0 = Some c → kread a (s32 i) = Some v →
  tiled_conv a i = Some (sc_add sc_zero (sc_mul c v)).
Proof.
  intros Hl Hr Hc Hv. unfold tiled_conv. rewrite Hl, Hr.
  change (seqZ (- 0) (0 + 0 + 1)) with [0]. cbn [foldl].
  unfold add_term, tiled_term. rewrite Hl, Z.add_0_r.
  change (0 + 0) with 0. rewrite Hc, Hv. done.
Qed.

(** An index of [2^31] and more, converted to [int], is negative, and
    [read_x] answers it with the first element of a partition that has no
    left neighbour. *)
Lemma kread_wrapped a i :
  args_ok a → ka_has_left a = false → 2 ^ 31 ≤ i < 2 ^ 32 →
  kread a (s32 i) = load (ka_xloc a) 0.
Proof.
  intros Hok Hleft Hi. pose proof (args_ok_ranges a Hok) as (Hn & Hl & Hr).
  rewrite s32_high by done.
  rewrite read_x_read_policy by (done || lia).
  unfold read_policy. rewrite decide_False, decide_True, Hleft by lia. done.
Qed.
End UnitWidth.

(** ** The two kernels against each other *)

Section Beyond.
Context {T : Type} `{Scalar T}.
Implicit Types (a : kernel_args T) (g : launch).

(** X18.  The two kernels are interchangeable while the indices fit
    [int].  For the same arguments and the same [y], on a launch with
    [n + (num_groups + 1) * local_size + lhalo + rhalo] at most [INT_MAX],
    [slow_conv] and [fast_conv] both return, with the same output; its
    element [k] below [n] is [alpha * y[k] + beta * sum] ([beta * sum] when
    [alpha] is zero) where [sum], the value of [slow_sum], is the sum of
    [s[lhalo + j] * read_x(k + j)] over [j] from [-lhalo] to [rhalo]. *)
Theorem slow_fast_equivalent (g : launch) a (S0 X0 y0 : list T) :
  args_ok a → launch_ok g a S0 X0 → ka_n a ≤ Z.of_nat (length y0) →
  ∃ out, slow_conv a y0 = Some out ∧ fast_conv g a S0 X0 y0 = Some out ∧
    ∀ k y_old, 0 ≤ k < ka_n a → load y0 k = Some y_old →
      ∃ sum, slow_sum a k = Some sum ∧ stencil_conv a k = Some sum ∧
             load out k = Some (accumulate (ka_alpha a) (ka_beta a) y_old sum).
Proof.
  intros Hok Hlaunch Hlen.
  destruct (slow_conv_contract a y0 Hok Hlen) as (out & Hslow & _ & Hc).
  exists out. split; [done|]. split.
  - rewrite <- Hslow. by apply fast_conv_slow_conv.
  - intros k y_old Hk Hy. specialize (Hc k).
    rewrite decide_True in Hc by done. unfold contract_at in Hc.
    rewrite slow_sum_stencil_conv by done.
    destruct (stencil_conv_is_Some a k Hok) as [sum Hsum].
    exists sum. rewrite Hsum, Hy in Hc. done.
Qed.

(** X19. The tiled kernel on a partition of any size: on every launch
    whose tile fits the [int] index of the load loop, [fast_conv] returns;
    the element [k] below [n] of its output is [alpha * y[k] + beta * sum]
    ([beta * sum] when [alpha] is zero) where [sum] adds up
    [s[lhalo + j] * read_x(int(k + j))], the index [k + j] converted to
    [int], and the other elements of [y] are left as they were.  While
    [n + rhalo] is at most [2^31] no index wraps and the output is that
    of [slow_conv]. *)
Theorem fast_conv_index_wraps g a (S0 X0 y0 : list T) :
  args_ok a → launch_fits g a S0 X0 → ka_n a ≤ Z.of_nat (length y0) →
  ∃ out, fast_conv g a S0 X0 y0 = Some out ∧ length out = length y0 ∧
    (∀ k y_old, 0 ≤ k < ka_n a → load y0 k = Some y_old →
       ∃ sum, tiled_conv a k = Some sum ∧
              load out k =
                Some (accumulate (ka_alpha a) (ka_beta a) y_old sum)) ∧
    (∀ k, ¬ 0 ≤ k < ka_n a → load out k = load y0 k) ∧
    (ka_n a + ka_rhalo a ≤ 2 ^ 31 → slow_conv a y0 = Some out).
Proof.
  intros Hok Hfit Hlen.
  destruct (fast_conv_tiled g a S0 X0 y0 Hok Hfit Hlen)
    as (out & Hrun & Hl & Hd).
  exists out. split; [done|]. split; [done|]. split; [|split].
  - intros k y_old Hk Hy. destruct (Hd k) as [Hin _].
    rewrite (Hin Hk). unfold tiled_at.
    destruct (tiled_conv_is_Some a k Hok) as [sum ->]. rewrite Hy.
    by exists sum.
  - intros k Hk. by apply Hd.
  - intros Hn. destruct (slow_conv_contract a y0 Hok Hlen)
      as (out' & -> & _ & Hc).
    f_equal. apply load_ext. intros k. rewrite Hc.
    destruct (Hd k) as [Hin Hout]. case_decide as Hk.
    + rewrite (Hin Hk). unfold tiled_at, contract_at.
      by rewrite tiled_conv_stencil_conv.
    + symmetry. by apply Hout.
Qed.
End Beyond.

(** ** The two kernels past [INT_MAX] *)

Lemma long_args_ok : args_ok long_args.
Proof.
  unfold args_ok, long_args, INT_MAX.
  cbn [ka_n ka_lhalo ka_rhalo ka_s ka_xloc ka_xrem].
  rewrite long_input_length. cbn [length]. lia.
Qed.

Lemma long_args_last : 0 ≤ 2 ^ 31 < ka_n long_args.
Proof. change (ka_n long_args) with (2 ^ 31 + 1). lia. Qed.

Lemma long_stale_fits : ka_n long_args ≤ Z.of_nat (length long_stale).
Proof.
  rewrite long_stale_length. change (ka_n long_args) with (2 ^ 31 + 1). lia.
Qed.

(** What the generic kernel adds up at the last index of [long_args]. *)
Lemma long_args_slow_sum :
  stencil_conv long_args (2 ^ 31) = Some (sc_add sc_zero (sc_mul 1 0)).
Proof.
  assert (ka_lhalo long_args = 0) as Hl by reflexivity.
  assert (load (ka_s long_args) 0 = Some 1) as Hc by reflexivity.
  assert (load (ka_xloc long_args) (2 ^ 31) = Some 0) as Hv
    by (apply long_input_tail; lia).
  exact (stencil_conv_unit long_args (2 ^ 31) 1 0 Hl Hl long_args_last Hc Hv).
Qed.

(** What the tiled kernel adds up there. *)
Lemma long_args_tiled_sum :
  tiled_conv long_args (2 ^ 31) = Some (sc_add sc_zero (sc_mul 1 1)).
Proof.
  assert (ka_lhalo long_args = 0) as Hl by reflexivity.
  assert (load (ka_s long_args) 0 = Some 1) as Hc by reflexivity.
  assert (ka_has_left long_args = false) as Hleft by reflexivity.
  assert (2 ^ 31 ≤ 2 ^ 31 < 2 ^ 32) as Hi by lia.
  assert (kread long_args (s32 (2 ^ 31)) = Some 1) as Hv.
  { rewrite (kread_wrapped long_args (2 ^ 31) long_args_ok Hleft Hi).
    exact long_input_head. }
  exact (tiled_conv_unit long_args (2 ^ 31) 1 1 Hl Hl Hc Hv).
Qed.

(** The launch of the tiled kernel on [long_args] stores 1 at the last
    index. *)
Lemma long_args_fast :
  ∃ fast,
    fast_conv small_launch long_args [0] [0; 0; 0; 0] long_stale
      = Some fast ∧
    load fast (2 ^ 31) = Some 1.
Proof.
  assert (launch_fits small_launch long_args [0] [0; 0; 0; 0]) as Hfit.
  { unfold launch_fits, long_args, small_launch, INT_MAX.
    cbn [ka_n ka_lhalo ka_rhalo num_groups local_size length]. lia. }
  destruct (fast_conv_tiled small_launch long_args [0] [0; 0; 0; 0]
              long_stale long_args_ok Hfit long_stale_fits)
    as (fast & Hfast & _ & Hd).
  exists fast. split; [exact Hfast|].
  destruct (Hd (2 ^ 31)) as [Hin _]. rewrite (Hin long_args_last).
  unfold tiled_at.
  rewrite long_args_tiled_sum. rewrite long_stale_load by lia. reflexivity.
Qed.

(** C4, at a partition of [2^31 + 1] elements.  With the stencil [[1]],
    no neighbour, [alpha = 0] and [beta = 1], the generic kernel stores
    [x[2^31] = 0] at the output index [2^31]; the tiled kernel converts
    the index to [int], reads [x[0] = 1] in its place and stores 1. *)
Lemma tiled_kernel_diverges_past_int :
  args_ok long_args ∧ ka_n long_args ≤ Z.of_nat (length long_stale) ∧
  ∃ slow fast,
    slow_conv long_args long_stale = Some slow ∧
    fast_conv small_launch long_args [0] [0; 0; 0; 0] long_stale
      = Some fast ∧
    load slow (2 ^ 31) = Some 0 ∧ load fast (2 ^ 31) = Some 1.
Proof.
  split; [exact long_args_ok|]. split; [exact long_stale_fits|].
  destruct (slow_conv_contract long_args long_stale long_args_ok
              long_stale_fits) as (slow & Hslow & _ & Hc).
  destruct long_args_fast as (fast & Hfast & Hone).
  exists slow, fast. split; [exact Hslow|]. split; [exact Hfast|].
  split; [|exact Hone].
  rewrite Hc. rewrite decide_True by exact long_args_last. unfold contract_at.
  rewrite long_args_slow_sum. rewrite long_stale_load by lia. reflexivity.
Qed.

(** ** [convolve] on a single device *)

Section SingleDevice.
Context {T : Type} `{Scalar T}.
Variable uninit : nat → T.

(** On one device with a partition that is not empty, [convolve] is the
    launch of the kernel of that device, with no exchange before it. *)
Lemma convolve_single (b : stencil_base T) dev w sd xrem (xd yd : list T)
    alpha beta :
  queue b = [dev] → s b = [sd] → dbuf b = [xrem] → xd ≠ [] →
  ∃ st',
    convolve uninit (init b w) [xd] [yd] alpha beta =
      yd' ← run_kernel uninit (init_device b w dev).1 dev
               (pushed_args (init b w) [xd] alpha beta 0 sd xd xrem)
               (init_device b w dev).2.1 (init_device b w dev).2.2 yd;
      Some (st', [yd'], []).
Proof.
  intros Hq Hs Hd Hxd. eexists. unfold convolve.
  assert (nqueue b = 1) as Hnq by (unfold nqueue; by rewrite Hq).
  change (base (init b w)) with b.
  rewrite exchange_halos_skip by (left; lia). cbn [mbind option_bind hs_log].
  rewrite Hnq. change (seqZ 0 1) with [0]. cbn [for_each].
  unfold convolve_step.
  assert (part_size [xd] 0 ≠ 0) as Hne.
  { pose proof (part_size_lookup [xd] 0%nat xd eq_refl) as Hps.
    change (Z.of_nat 0) with 0 in Hps. rewrite Hps.
    destruct xd; [done|rewrite length_cons; lia]. }
  apply Z.eqb_neq in Hne. rewrite Hne.
  change (Z.to_nat 0) with 0%nat. cbn [base with_base with_halos queue s dbuf
    st_conv st_loc_s st_loc_x init hs_dbuf].
  rewrite Hq, Hs, Hd. cbn [fmap list_fmap lookup list_lookup mbind option_bind].
  unfold pushed_args. cbn [base with_base with_halos queue lhalo rhalo init].
  destruct (run_kernel _ _ _ _ _ _ _) as [yd'|]; cbn [mbind option_bind];
    [|done].
  cbn [insert list_insert]. done.
Qed.
End SingleDevice.

Section UnitClamp.
Context {T : Type} `{Scalar T}.

(** The clamped convolution with one coefficient, on a vector of one
    partition. *)
Lemma clamped_conv_unit (c v : T) (xd : list T) i :
  load xd i = Some v →
  clamped_conv [c] 0 0 [xd] i = Some (sc_add sc_zero (sc_mul c v)).
Proof.
  intros Hv. pose proof (load_Some_lt _ _ _ Hv) as Hi.
  unfold clamped_conv. change (seqZ (- 0) (0 + 0 + 1)) with [0].
  cbn [foldl]. unfold add_term. rewrite Z.add_0_r.
  change (load [c] (0 + 0)) with (Some c).
  assert (vec_size [xd] = Z.of_nat (length xd)) as Hsz.
  { unfold vec_size. cbn [concat]. by rewrite app_nil_r. }
  rewrite clamp_read_inside by lia.
  unfold vec_elem. cbn [concat]. rewrite app_nil_r, Hv. done.
Qed.
End UnitClamp.

(** ** [convolve] past [INT_MAX] *)

Lemma long_pushed_args :
  pushed_args unit_gpu [long_input] 0 1 0 [1] long_input [0] = long_args.
Proof.
  unfold pushed_args, long_args.
  pose proof (part_size_lookup [long_input] 0%nat long_input eq_refl) as Hps.
  change (Z.of_nat 0) with 0 in Hps. rewrite Hps, long_input_length.
  reflexivity.
Qed.

(** C1, at a vector of [2^31 + 1] elements on one GPU.  The stencil
    [[1]] with centre 0, [alpha = 0] and [beta = 1] copies [x] to [y] by
    the contract: at the index [2^31] the sum of the stencil is
    [0 + 1 * x[2^31] = 0] and the element is to become
    [beta * sum = 0].  [convolve] launches the tiled kernel, which reads
    [x[0] = 1] for that index, and leaves 1 there. *)
Lemma convolve_diverges_past_int :
  stencil_ctor zeroed host_8GiB [gpu_device] [1] 0 = Built unit_gpu ∧
  length long_stale = length long_input ∧
  ∃ st' out sum y_old,
    convolve zeroed unit_gpu [long_input] [long_stale] 0 1
      = Some (st', [out], []) ∧
    clamped_conv [1] 0 0 [long_input] (2 ^ 31) = Some sum ∧
    load long_stale (2 ^ 31) = Some y_old ∧
    accumulate 0 1 y_old sum = 0 ∧
    load out (2 ^ 31) = Some 1.
Proof.
  split; [vm_compute; reflexivity|].
  split.
  { apply Nat2Z.inj. by rewrite long_stale_length, long_input_length. }
  assert (clamped_conv [1] 0 0 [long_input] (2 ^ 31)
          = Some (sc_add sc_zero (sc_mul 1 0))) as Hsum.
  { apply clamped_conv_unit. apply long_input_tail. lia. }
  assert (load long_stale (2 ^ 31) = Some 5) as Hold
    by (apply long_stale_load; lia).
  assert (long_input ≠ []) as Hne by (unfold long_input; discriminate).
  destruct (convolve_single zeroed
              {| queue := [gpu_device]; hbuf := []; dbuf := [[0]];
                 s := [[1]]; lhalo := 0; rhalo := 0 |}
              gpu_device 1 [1] [0] long_input long_stale 0 1
              eq_refl eq_refl eq_refl Hne) as [st' Hrun].
  fold unit_gpu in Hrun. rewrite long_pushed_args in Hrun.
  destruct long_args_fast as (fast & Hfast & Hone).
  exists st', fast, (sc_add sc_zero (sc_mul 1 0)), 5.
  split; [|split; [exact Hsum|split; [exact Hold|split; [reflexivity|]]]].
  - rewrite Hrun.
    change (run_kernel zeroed _ gpu_device long_args _ _ long_stale)
      with (fast_conv small_launch long_args [0] [0; 0; 0; 0] long_stale).
    rewrite Hfast. reflexivity.
  - exact Hone.
Qed.

(** * Further statements on concrete inputs *)

Ltac check_operator_fits :=
  split; [check_halos_ok|];
  split; [unfold nqueue; cbn; lia|];
  split; [reflexivity|];
  split; [reflexivity|];
  split; [by_part_size|];
  split; [cbn; lia|by_index].

(** Width 0 on one device, on a host with the memory for vectors of up to
    [2^31] elements: the halo buffer would have [2^32 - 1] elements. *)
Lemma constructor_abort_kinds_witness :
  0 ≤ 0 < 2 ^ 32 ∧ 0 ≤ 0 < 2 ^ 32 ∧
  let count := u64 (Z.of_nat (length [cpu_device]) * u32 (0 - 1)) in
  let outcome :=
    stencil_base_ctor zeroed host_8GiB [cpu_device] 0 0 ([] : list Z) in
  (outcome = Threw ↔ host_8GiB count = false) ∧
  (outcome = Aborted AssertQueue ↔
     host_8GiB count = true ∧ [cpu_device] = []) ∧
  (outcome = Aborted AssertLhalo ↔
     host_8GiB count = true ∧ [cpu_device] ≠ [] ∧ INT_MAX < 0) ∧
  (outcome = Aborted AssertRhalo ↔
     host_8GiB count = true ∧ [cpu_device] ≠ [] ∧ 0 ≤ INT_MAX ∧
     (0 ≤ 0 ∨ INT_MAX < 0 - 0 - 1)) ∧
  ((∃ b, outcome = Built b) ↔
     host_8GiB count = true ∧ [cpu_device] ≠ [] ∧ 0 ≤ INT_MAX ∧
     0 < 0 ∧ 0 - 0 - 1 ≤ INT_MAX) ∧
  outcome ≠ Aborted AssertWidth ∧ outcome ≠ Aborted AssertCenter.
Proof.
  assert (0 ≤ 0 < 2 ^ 32) as Hw by lia.
  exact (conj Hw (conj Hw
    (constructor_abort_kinds zeroed host_8GiB [cpu_device] 0 0 [] Hw Hw))).
Defined.

(** The second difference over a GPU and a CPU, for a vector of five
    elements. *)
Lemma constructor_establishes_invariants_witness :
  Z.of_nat (length [1; -2; 1]) < 2 ^ 32 ∧ 0 ≤ 1 < 2 ^ 32 ∧
  stencil_ctor zeroed host_8GiB [gpu_device; cpu_device] [1; -2; 1] 1
    = Built second_difference ∧
  length squares = length [gpu_device; cpu_device] ∧
  Z.of_nat (length [gpu_device; cpu_device]) < 2 ^ 31 ∧
  (Z.of_nat (length [gpu_device; cpu_device]) + 1)
    * (Z.of_nat (length [1; -2; 1]) - 1) < 2 ^ 31 ∧
  vec_size squares + Z.of_nat (length [1; -2; 1]) < 2 ^ 63 ∧
  (stencil_ok second_difference ∧ halos_ok (base second_difference) squares ∧
   lhalo (base second_difference) + rhalo (base second_difference) + 1
     = Z.of_nat (length [1; -2; 1])).
Proof.
  assert (Z.of_nat (length [1; -2; 1]) < 2 ^ 32) as H1 by (cbn; lia).
  assert (0 ≤ 1 < 2 ^ 32) as H2 by lia.
  assert (stencil_ctor zeroed host_8GiB [gpu_device; cpu_device] [1; -2; 1] 1
          = Built second_difference) as H3 by (vm_compute; reflexivity).
  assert (length squares = length [gpu_device; cpu_device]) as H4
    by reflexivity.
  assert (Z.of_nat (length [gpu_device; cpu_device]) < 2 ^ 31) as H5
    by (cbn; lia).
  assert ((Z.of_nat (length [gpu_device; cpu_device]) + 1)
            * (Z.of_nat (length [1; -2; 1]) - 1) < 2 ^ 31) as H6 by (cbn; lia).
  assert (vec_size squares + Z.of_nat (length [1; -2; 1]) < 2 ^ 63) as H7
    by (vm_compute; reflexivity).
  exact (conj H1 (conj H2 (conj H3 (conj H4 (conj H5 (conj H6 (conj H7
    (constructor_establishes_invariants zeroed host_8GiB
       [gpu_device; cpu_device]
       [1; -2; 1] 1 second_difference squares H1 H2 H3 H4 H5 H6 H7)))))))).
Defined.

Lemma constructed_stencil_convolves_witness :
  Z.of_nat (length [1; -2; 1]) < 2 ^ 32 ∧ 0 ≤ 1 < 2 ^ 32 ∧
  stencil_ctor zeroed host_8GiB [gpu_device; cpu_device] [1; -2; 1] 1
    = Built second_difference ∧
  vectors_ok second_difference squares stale ∧
  ∃ st' y' log,
    convolve zeroed second_difference squares stale 2 1
      = Some (st', y', log) ∧
    length (concat y') = length (concat stale) ∧
    ∀ i y_old, load (concat stale) i = Some y_old →
      ∃ sum,
        clamped_conv [1; -2; 1] 1 (Z.of_nat (length [1; -2; 1]) - 1 - 1)
          squares i = Some sum ∧
        load (concat y') i = Some (accumulate 2 1 y_old sum).
Proof.
  assert (Z.of_nat (length [1; -2; 1]) < 2 ^ 32) as H1 by (cbn; lia).
  assert (0 ≤ 1 < 2 ^ 32) as H2 by lia.
  assert (stencil_ctor zeroed host_8GiB [gpu_device; cpu_device] [1; -2; 1] 1
          = Built second_difference) as H3 by (vm_compute; reflexivity).
  assert (vectors_ok second_difference squares stale) as H4
    by check_vectors_ok.
  exact (conj H1 (conj H2 (conj H3 (conj H4
    (constructed_stencil_convolves zeroed host_8GiB
       [gpu_device; cpu_device]
       [1; -2; 1] 1 second_difference squares stale 2 1 H1 H2 H3 H4))))).
Defined.

Lemma exchange_halos_frame_witness :
  halos_ok wide_base short_parts ∧ 1 < nqueue wide_base ∧
  0 < lhalo wide_base + rhalo wide_base ∧
  ∃ hs, exchange_halos wide_base short_parts = Some hs ∧
    length (hs_hbuf hs) = length (hbuf wide_base) ∧
    length (hs_dbuf hs) = length (dbuf wide_base) ∧
    (∀ d k, 0 ≤ d < nqueue wide_base →
       0 ≤ k < lhalo wide_base + rhalo wide_base →
       part_size short_parts d = 0 ∨ (d = 0 ∧ k < lhalo wide_base)
         ∨ (d = nqueue wide_base - 1 ∧ lhalo wide_base ≤ k) →
       load (hs_hbuf hs) (d * (lhalo wide_base + rhalo wide_base) + k)
         = load (hbuf wide_base)
             (d * (lhalo wide_base + rhalo wide_base) + k)) ∧
    (∀ d, 0 ≤ d < nqueue wide_base → part_size short_parts d = 0 →
       hs_dbuf hs !! Z.to_nat d = dbuf wide_base !! Z.to_nat d) ∧
    (∀ d old new, 0 ≤ d < nqueue wide_base →
       dbuf wide_base !! Z.to_nat d = Some old →
       hs_dbuf hs !! Z.to_nat d = Some new →
       length new = length old ∧
       ∀ k, lhalo wide_base + rhalo wide_base ≤ k →
            load new k = load old k).
Proof.
  assert (halos_ok wide_base short_parts) as Hok by check_halos_ok.
  assert (1 < nqueue wide_base) as Hnq by (unfold nqueue; cbn; lia).
  assert (0 < lhalo wide_base + rhalo wide_base) as Hw by (cbn; lia).
  exact (conj Hok (conj Hnq (conj Hw
    (exchange_halos_frame wide_base short_parts Hok Hnq Hw)))).
Defined.

Lemma exchange_halos_twice_witness :
  halos_ok wide_base short_parts ∧
  exchange_halos wide_base short_parts = Some wide_halos ∧
  ∃ hs', exchange_halos (with_halos wide_base wide_halos) short_parts
           = Some hs' ∧
         hs_hbuf hs' = hs_hbuf wide_halos ∧
         hs_dbuf hs' = hs_dbuf wide_halos ∧
         with_halos (with_halos wide_base wide_halos) hs'
           = with_halos wide_base wide_halos.
Proof.
  assert (halos_ok wide_base short_parts) as Hok by check_halos_ok.
  assert (exchange_halos wide_base short_parts = Some wide_halos) as Hex
    by (vm_compute; reflexivity).
  exact (conj Hok (conj Hex
    (exchange_halos_twice wide_base short_parts wide_halos Hok Hex))).
Defined.

(** An index a hundred elements left of a partition of three. *)
Lemma read_x_in_bounds_witness :
  - 2 ^ 63 ≤ -100 < 2 ^ 63 ∧ 0 < 3 ∧ 0 ≤ 1 ∧ 0 ≤ 1 ∧ 1 + 1 < INT_MAX ∧
  3 + 1 < 2 ^ 63 ∧ Z.of_nat (length [10; 20; 30]) = 3 ∧
  1 + 1 ≤ Z.of_nat (length [7; 8]) ∧
  is_Some (read_x (-100) 3 true true 1 1 [10; 20; 30] [7; 8]).
Proof.
  assert (- 2 ^ 63 ≤ -100 < 2 ^ 63) as H1 by lia.
  assert (0 < 3) as H2 by lia.
  assert (0 ≤ 1) as H3 by lia.
  assert (1 + 1 < INT_MAX) as H4 by (unfold INT_MAX; lia).
  assert (3 + 1 < 2 ^ 63) as H5 by lia.
  assert (Z.of_nat (length [10; 20; 30]) = 3) as H6 by reflexivity.
  assert (1 + 1 ≤ Z.of_nat (length [7; 8])) as H7 by (cbn; lia).
  exact (conj H1 (conj H2 (conj H3 (conj H3 (conj H4 (conj H5 (conj H6
    (conj H7 (read_x_in_bounds (-100) 3 1 1 true true [10; 20; 30] [7; 8]
                H1 H2 H3 H3 H4 H5 H6 H7))))))))).
Defined.

Lemma pointwise_stencil_witness :
  stencil_ok scaling ∧ vectors_ok scaling squares stale ∧
  lhalo (base scaling) = 0 ∧ rhalo (base scaling) = 0 ∧
  ∃ st' y',
    convolve zeroed scaling squares stale 2 1 = Some (st', y', []) ∧
    hbuf (base st') = hbuf (base scaling) ∧
    dbuf (base st') = dbuf (base scaling) ∧
    ∀ d sd xd yd k c v y_old,
      s (base scaling) !! d = Some sd → squares !! d = Some xd →
      stale !! d = Some yd →
      load sd 0 = Some c → load xd k = Some v → load yd k = Some y_old →
      ∃ yd', y' !! d = Some yd' ∧
             load yd' k =
               Some (accumulate 2 1 y_old (sc_add sc_zero (sc_mul c v))).
Proof.
  assert (stencil_ok scaling) as Hst by check_stencil_ok.
  assert (vectors_ok scaling squares stale) as Hv by check_vectors_ok.
  assert (lhalo (base scaling) = 0) as Hl by reflexivity.
  assert (rhalo (base scaling) = 0) as Hr by reflexivity.
  exact (conj Hst (conj Hv (conj Hl (conj Hr
    (pointwise_stencil zeroed scaling squares stale 2 1 Hst Hv Hl Hr))))).
Defined.

(** Two work-groups of four work-items against one of eight. *)
Lemma fast_conv_any_launch_witness :
  args_ok edge_args ∧
  launch_ok small_launch edge_args [0; 0; 0] [0; 0; 0; 0; 0; 0] ∧
  launch_ok wide_launch edge_args [9; 9; 9; 9] (replicate 12 9) ∧
  ka_n edge_args ≤ Z.of_nat (length [5; 5; 5; 5; 5]) ∧
  ∃ out,
    fast_conv small_launch edge_args [0; 0; 0] [0; 0; 0; 0; 0; 0]
      [5; 5; 5; 5; 5] = Some out ∧
    fast_conv wide_launch edge_args [9; 9; 9; 9] (replicate 12 9)
      [5; 5; 5; 5; 5] = Some out ∧
    length out = length [5; 5; 5; 5; 5] ∧
    ∀ k, ¬ 0 ≤ k < ka_n edge_args → load out k = load [5; 5; 5; 5; 5] k.
Proof.
  assert (args_ok edge_args) as Ha by (unfold args_ok, INT_MAX; cbn; lia).
  assert (launch_ok small_launch edge_args [0; 0; 0] [0; 0; 0; 0; 0; 0])
    as Hg1 by (unfold launch_ok, INT_MAX; cbn; lia).
  assert (launch_ok wide_launch edge_args [9; 9; 9; 9] (replicate 12 9))
    as Hg2 by (unfold launch_ok, INT_MAX; cbn; lia).
  assert (ka_n edge_args ≤ Z.of_nat (length [5; 5; 5; 5; 5])) as Hy
    by (cbn; lia).
  exact (conj Ha (conj Hg1 (conj Hg2 (conj Hy
    (fast_conv_any_launch small_launch wide_launch edge_args
       [0; 0; 0] [0; 0; 0; 0; 0; 0] [9; 9; 9; 9] (replicate 12 9)
       [5; 5; 5; 5; 5] Ha Hg1 Hg2 Hy))))).
Defined.

(** The squares first, then another vector through the same stencil. *)
Lemma convolve_no_residue_witness :
  stencil_ok second_difference ∧
  vectors_ok second_difference squares stale ∧
  vectors_ok second_difference ramp stale ∧
  convolve zeroed second_difference squares stale 0 1
    = Some (second_difference_after, [[1; 2; 2]; [2; -7]],
            second_difference_log) ∧
  ∃ st2 st2' y2' log2 log2',
    convolve zeroed second_difference ramp stale 2 1
      = Some (st2, y2', log2) ∧
    convolve zeroed second_difference_after ramp stale 2 1
      = Some (st2', y2', log2').
Proof.
  assert (stencil_ok second_difference) as Hst by check_stencil_ok.
  assert (vectors_ok second_difference squares stale) as Hv1
    by check_vectors_ok.
  assert (vectors_ok second_difference ramp stale) as Hv2
    by check_vectors_ok.
  assert (convolve zeroed second_difference squares stale 0 1
          = Some (second_difference_after, [[1; 2; 2]; [2; -7]],
                  second_difference_log)) as Hrun by (vm_compute; reflexivity).
  exact (conj Hst (conj Hv1 (conj Hv2 (conj Hrun
    (convolve_no_residue zeroed second_difference squares stale ramp stale
       0 1 2 1 second_difference_after [[1; 2; 2]; [2; -7]]
       second_difference_log Hst Hv1 Hv2 Hrun))))).
Defined.

Ltac check_neighbours :=
  unfold oper_reads, oper_returns; cbn;
  first
    [ let E := fresh "E" in
      intros win win' E; unfold neighbours; rewrite !E by lia; reflexivity
    | let win := fresh "win" in
      let Hw := fresh "Hw" in
      intros win Hw; unfold neighbours;
      destruct (Hw (-1)) as [? ->]; [lia|];
      destruct (Hw 0) as [? ->]; [lia|];
      destruct (Hw 1) as [? ->]; [lia|]; by eexists ].

Lemma exchange_halos_barriers_witness :
  halos_ok wide_base short_parts ∧ 1 < nqueue wide_base ∧
  0 < lhalo wide_base + rhalo wide_base ∧
  ∃ hs reads writes,
    exchange_halos wide_base short_parts = Some hs ∧
    hs_log hs = reads ++ barrier wide_base ++ writes ++ barrier wide_base ∧
    Forall (read_request wide_base short_parts) reads ∧
    Forall (write_request wide_base short_parts) writes.
Proof.
  assert (halos_ok wide_base short_parts) as Hok by check_halos_ok.
  assert (1 < nqueue wide_base) as Hnq by (unfold nqueue; cbn; lia).
  assert (0 < lhalo wide_base + rhalo wide_base) as Hw by (cbn; lia).
  exact (conj Hok (conj Hnq (conj Hw
    (exchange_halos_barriers wide_base short_parts Hok Hnq Hw)))).
Defined.

(** Two vectors through the second difference, in one call. *)
Lemma multiconv_componentwise_witness :
  stencil_ok second_difference ∧
  length [stale; stale] = length [squares; ramp] ∧
  (∀ i xi yi, [squares; ramp] !! i = Some xi → [stale; stale] !! i = Some yi →
              vectors_ok second_difference xi yi) ∧
  (mul_stencil_multivector second_difference [squares; ramp]
     = mul_multivector_stencil [squares; ramp] second_difference ∧
   ∃ st' ys' log,
     multi_apply zeroed false true
       (mul_stencil_multivector second_difference [squares; ramp])
       [stale; stale] = Some (st', ys', log) ∧
     length ys' = length [stale; stale] ∧
     queue (base st') = queue (base second_difference) ∧
     s (base st') = s (base second_difference) ∧
     lhalo (base st') = lhalo (base second_difference) ∧
     rhalo (base st') = rhalo (base second_difference) ∧
     ∀ i xi yi, [squares; ramp] !! i = Some xi →
       [stale; stale] !! i = Some yi →
       ∃ sti yi' logi,
         apply zeroed false true (mul_stencil_vector second_difference xi) yi
           = Some (sti, yi', logi) ∧
         ys' !! i = Some yi').
Proof.
  assert (stencil_ok second_difference) as Hst by check_stencil_ok.
  assert (length [stale; stale] = length [squares; ramp]) as Hl
    by reflexivity.
  assert (∀ i xi yi, [squares; ramp] !! i = Some xi →
            [stale; stale] !! i = Some yi →
            vectors_ok second_difference xi yi) as Hfit.
  { intros [|[|i]] xi yi Hx Hy; cbn in Hx, Hy; simplify_eq;
      check_vectors_ok. }
  exact (conj Hst (conj Hl (conj Hfit
    (multiconv_componentwise zeroed second_difference [squares; ramp]
       [stale; stale] false true Hst Hl Hfit)))).
Defined.

(** The sum of an element and its two neighbours, on two work-groups of
    four work-items. *)
Lemma operator_kernel_contract_witness :
  window_ok window_args ∧
  tile_ok small_launch window_args [0; 0; 0; 0; 0; 0] ∧
  ka_n window_args ≤ Z.of_nat (length [5; 5; 5; 5; 5]) ∧
  oper_reads neighbours (ka_lhalo window_args) (ka_rhalo window_args) ∧
  oper_returns neighbours (ka_lhalo window_args) (ka_rhalo window_args) ∧
  ∃ out,
    oper_conv neighbours small_launch window_args [0; 0; 0; 0; 0; 0]
      [5; 5; 5; 5; 5] = Some out ∧
    length out = length [5; 5; 5; 5; 5] ∧
    (∀ k y_old, 0 ≤ k < ka_n window_args →
       load [5; 5; 5; 5; 5] k = Some y_old →
       ∃ sum, neighbours (λ j, kread window_args (k + j)) = Some sum ∧
              load out k =
                Some (accumulate (ka_alpha window_args) (ka_beta window_args)
                        y_old sum)) ∧
    (∀ k, ¬ 0 ≤ k < ka_n window_args →
          load out k = load [5; 5; 5; 5; 5] k).
Proof.
  assert (window_ok window_args) as Ha
    by (unfold window_ok, INT_MAX; cbn; lia).
  assert (tile_ok small_launch window_args [0; 0; 0; 0; 0; 0]) as Hg
    by (unfold tile_ok, INT_MAX; cbn; lia).
  assert (ka_n window_args ≤ Z.of_nat (length [5; 5; 5; 5; 5])) as Hy
    by (cbn; lia).
  assert (oper_reads neighbours (ka_lhalo window_args) (ka_rhalo window_args))
    as Hr by check_neighbours.
  assert (oper_returns neighbours (ka_lhalo window_args)
            (ka_rhalo window_args)) as Ht by check_neighbours.
  exact (conj Ha (conj Hg (conj Hy (conj Hr (conj Ht
    (operator_kernel_contract neighbours small_launch window_args
       [0; 0; 0; 0; 0; 0] [5; 5; 5; 5; 5] Ha Hg Hy Hr Ht)))))).
Defined.

Lemma stencil_operator_convolves_witness :
  0 ≤ 3 < 2 ^ 32 ∧ 0 ≤ 1 < 2 ^ 32 ∧
  stencil_operator_ctor zeroed host_8GiB [gpu_device; cpu_device] 3 1
    = Built operator_base ∧
  operator_fits 3 operator_base squares stale ∧
  oper_reads neighbours 1 (3 - 1 - 1) ∧
  oper_returns neighbours 1 (3 - 1 - 1) ∧
  ∃ b' y' log,
    operator_convolve zeroed neighbours 3 operator_base squares stale 2 1
      = Some (b', y', log) ∧
    length (concat y') = length (concat stale) ∧
    ∀ i y_old, load (concat stale) i = Some y_old →
      ∃ sum, neighbours (λ j, clamp_read squares (i + j)) = Some sum ∧
             load (concat y') i = Some (accumulate 2 1 y_old sum).
Proof.
  assert (0 ≤ 3 < 2 ^ 32) as Hw by lia.
  assert (0 ≤ 1 < 2 ^ 32) as Hc by lia.
  assert (stencil_operator_ctor zeroed host_8GiB [gpu_device; cpu_device] 3 1
          = Built operator_base) as Hb by (vm_compute; reflexivity).
  assert (operator_fits 3 operator_base squares stale) as Hfit
    by check_operator_fits.
  assert (oper_reads neighbours 1 (3 - 1 - 1)) as Hr by check_neighbours.
  assert (oper_returns neighbours 1 (3 - 1 - 1)) as Ht by check_neighbours.
  exact (conj Hw (conj Hc (conj Hb (conj Hfit (conj Hr (conj Ht
    (stencil_operator_convolves zeroed host_8GiB neighbours
       [gpu_device; cpu_device]
       3 1 operator_base squares stale 2 1 Hw Hc Hb Hfit Hr Ht))))))).
Defined.

(** The second difference as a stencil and as an operator. *)
Lemma linear_operator_is_stencil_witness :
  Z.of_nat (length [1; -2; 1]) < 2 ^ 32 ∧ 0 ≤ 1 < 2 ^ 32 ∧
  stencil_ctor zeroed host_8GiB [gpu_device; cpu_device] [1; -2; 1] 1
    = Built second_difference ∧
  stencil_operator_ctor zeroed host_8GiB [gpu_device; cpu_device]
    (Z.of_nat (length [1; -2; 1])) 1 = Built operator_base ∧
  vectors_ok second_difference squares stale ∧
  operator_fits (Z.of_nat (length [1; -2; 1])) operator_base squares stale ∧
  ∃ st' b' y' log log',
    convolve zeroed second_difference squares stale 2 1
      = Some (st', y', log) ∧
    operator_convolve zeroed
      (linear_oper [1; -2; 1] 1 (Z.of_nat (length [1; -2; 1]) - 1 - 1))
      (Z.of_nat (length [1; -2; 1])) operator_base squares stale 2 1
      = Some (b', y', log').
Proof.
  assert (Z.of_nat (length [1; -2; 1]) < 2 ^ 32) as H1 by (cbn; lia).
  assert (0 ≤ 1 < 2 ^ 32) as H2 by lia.
  assert (stencil_ctor zeroed host_8GiB [gpu_device; cpu_device] [1; -2; 1] 1
          = Built second_difference) as H3 by (vm_compute; reflexivity).
  assert (stencil_operator_ctor zeroed host_8GiB [gpu_device; cpu_device]
            (Z.of_nat (length [1; -2; 1])) 1 = Built operator_base) as H4
    by (vm_compute; reflexivity).
  assert (vectors_ok second_difference squares stale) as H5
    by check_vectors_ok.
  assert (operator_fits (Z.of_nat (length [1; -2; 1])) operator_base
            squares stale) as H6 by check_operator_fits.
  exact (conj H1 (conj H2 (conj H3 (conj H4 (conj H5 (conj H6
    (linear_operator_is_stencil zeroed host_8GiB [gpu_device; cpu_device]
       [1; -2; 1] 1
       second_difference operator_base squares stale 2 1
       H1 H2 H3 H4 H5 H6))))))).
Defined.

(** The second difference over a GPU and a CPU, overwriting [y]. *)
Lemma convolve_accumulation_contract_witness :
  stencil_ok second_difference ∧
  vectors_ok second_difference squares stale ∧
  ∃ st' y' log,
    convolve zeroed second_difference squares stale 0 1 = Some (st', y', log) ∧
    (∀ d xd yd sd k y_old,
       squares !! d = Some xd → stale !! d = Some yd →
       s (base second_difference) !! d = Some sd →
       0 ≤ k < Z.of_nat (length xd) → load yd k = Some y_old →
       ∃ yd' sum,
         y' !! d = Some yd' ∧
         clamped_conv sd (lhalo (base second_difference))
           (rhalo (base second_difference)) squares
           (part_start squares (Z.of_nat d) + k) = Some sum ∧
         load yd' k =
           Some (if sc_true 0
                 then sc_add (sc_mul 0 y_old) (sc_mul 1 sum)
                 else sc_mul 1 sum)) ∧
    (sc_true 0 = false →
     ∀ y2, vectors_ok second_difference squares y2 →
       convolve zeroed second_difference squares y2 0 1 = Some (st', y', log)).
Proof.
  assert (stencil_ok second_difference) as Hst by check_stencil_ok.
  assert (vectors_ok second_difference squares stale) as Hv by check_vectors_ok.
  exact (conj Hst (conj Hv
    (convolve_accumulation_contract zeroed second_difference squares stale 0 1
       Hst Hv))).
Defined.

(** Five elements on two work-groups of four work-items, accumulating. *)
Lemma slow_fast_equivalent_witness :
  args_ok edge_args ∧
  launch_ok small_launch edge_args [0; 0; 0] [0; 0; 0; 0; 0; 0] ∧
  ka_n edge_args ≤ Z.of_nat (length [5; 5; 5; 5; 5]) ∧
  ∃ out, slow_conv edge_args [5; 5; 5; 5; 5] = Some out ∧
    fast_conv small_launch edge_args [0; 0; 0] [0; 0; 0; 0; 0; 0]
      [5; 5; 5; 5; 5] = Some out ∧
    ∀ k y_old, 0 ≤ k < ka_n edge_args → load [5; 5; 5; 5; 5] k = Some y_old →
      ∃ sum, slow_sum edge_args k = Some sum ∧
             stencil_conv edge_args k = Some sum ∧
             load out k = Some (accumulate (ka_alpha edge_args)
                                  (ka_beta edge_args) y_old sum).
Proof.
  assert (args_ok edge_args) as Ha
    by (unfold args_ok, INT_MAX; cbn; lia).
  assert (launch_ok small_launch edge_args [0; 0; 0] [0; 0; 0; 0; 0; 0]) as Hg
    by (unfold launch_ok, INT_MAX; cbn; lia).
  assert (ka_n edge_args ≤ Z.of_nat (length [5; 5; 5; 5; 5])) as Hy
    by (cbn; lia).
  exact (conj Ha (conj Hg (conj Hy
    (slow_fast_equivalent small_launch edge_args [0; 0; 0] [0; 0; 0; 0; 0; 0]
       [5; 5; 5; 5; 5] Ha Hg Hy)))).
Defined.

(** Five elements on two work-groups of four work-items: no index
    wraps. *)
Lemma fast_conv_index_wraps_witness :
  args_ok edge_args ∧
  launch_fits small_launch edge_args [0; 0; 0] [0; 0; 0; 0; 0; 0] ∧
  ka_n edge_args ≤ Z.of_nat (length [5; 5; 5; 5; 5]) ∧
  ∃ out,
    fast_conv small_launch edge_args [0; 0; 0] [0; 0; 0; 0; 0; 0]
      [5; 5; 5; 5; 5] = Some out ∧
    length out = length [5; 5; 5; 5; 5] ∧
    (∀ k y_old, 0 ≤ k < ka_n edge_args →
       load [5; 5; 5; 5; 5] k = Some y_old →
       ∃ sum, tiled_conv edge_args k = Some sum ∧
              load out k =
                Some (accumulate (ka_alpha edge_args) (ka_beta edge_args)
                        y_old sum)) ∧
    (∀ k, ¬ 0 ≤ k < ka_n edge_args → load out k = load [5; 5; 5; 5; 5] k) ∧
    (ka_n edge_args + ka_rhalo edge_args ≤ 2 ^ 31 →
     slow_conv edge_args [5; 5; 5; 5; 5] = Some out).
Proof.
  assert (args_ok edge_args) as Ha
    by (unfold args_ok, INT_MAX; cbn; lia).
  assert (launch_fits small_launch edge_args [0; 0; 0] [0; 0; 0; 0; 0; 0])
    as Hg by (unfold launch_fits, INT_MAX; cbn; lia).
  assert (ka_n edge_args ≤ Z.of_nat (length [5; 5; 5; 5; 5])) as Hy
    by (cbn; lia).
  exact (conj Ha (conj Hg (conj Hy
    (fast_conv_index_wraps small_launch edge_args [0; 0; 0]
       [0; 0; 0; 0; 0; 0] [5; 5; 5; 5; 5] Ha Hg Hy)))).
Defined.
